(** * x-star-editor: [src/utils/markdown.ts]

    A shallow embedding of [editorRender] (the offset-synchronised mapping of a
    Markdown source and its Mdast tree to a DOM tree of blocks, lines and
    spans) and of the two functions of the viewer path that live in this
    file (the [math] handler and the [custom] component), with the
    properties the specification states about them.

    Conventions of the embedding.
    - A JavaScript string is the list of its UTF-16 code units ([jsstr]).
      Class names, tag names and attribute names are ASCII and are kept as
      [string].
    - A JavaScript number that holds an offset is a [Z]; [String.length] is
      [Z.of_nat (length _)].
    - DOM elements are values: an element is referenced from exactly one
      place at a time (a stack frame, [block], the root, or the child list
      of its parent), and it is never changed after it was appended.
    - A JavaScript exception (reading a property of [undefined]) is [None]. *)

From Stdlib Require Import ZArith Lia List Ascii String DecimalString Sorted.
From stdpp Require Import base option list strings gmap.

Open Scope Z_scope.

(** ** Strings *)

Definition codeUnit := N.
Definition jsstr := list codeUnit.

(** The line feed and the zero-width space U+200B. *)
Definition LF : codeUnit := 10%N.
Definition ZWSP : codeUnit := 8203%N.

(** An ASCII literal as a JavaScript string. *)
Definition js (s : string) : jsstr :=
  map (fun a => N_of_ascii a) (list_ascii_of_string s).

(** [s.length] *)
Definition jslength (s : jsstr) : Z := Z.of_nat (length s).

(** One index argument of [String.prototype.slice], made relative to the
    string: negative indices count from the end, everything is clamped to
    [0 .. len]. *)
Definition sliceIndex (len i : Z) : Z :=
  if i <? 0 then Z.max (len + i) 0 else Z.min i len.

(** [s.slice(from, to)] *)
Definition slice (s : jsstr) (from to : Z) : jsstr :=
  let len := jslength s in
  let k := sliceIndex len from in
  let final := sliceIndex len to in
  take (Z.to_nat (Z.max (final - k) 0)) (drop (Z.to_nat k) s).

(** [s.slice(from)] *)
Definition sliceFrom (s : jsstr) (from : Z) : jsstr :=
  slice s from (jslength s).

(** [s.split(sep)] for a one-character separator: never empty. *)
Fixpoint split (sep : codeUnit) (s : jsstr) : list jsstr :=
  match s with
  | [] => [[]]
  | c :: s' =>
      if N.eqb c sep then [] :: split sep s'
      else match split sep s' with
           | l :: ls => (c :: l) :: ls
           | [] => [[c]]
           end
  end.

(** The template literal [`${i}`] of a loop counter. *)
Definition numberToString (n : nat) : string :=
  NilZero.string_of_uint (Nat.to_uint n).

(** ** Mdast *)

(** [node.type]: the tags of the content nodes that [remark-parse] with
    [remark-gfm] and [remark-math] produces. *)
Inductive NodeType :=
| blockquote | break | code | definition | delete | emphasis
| footnoteDefinition | footnoteReference | heading | html | image
| imageReference | inlineCode | inlineMath | link | linkReference
| list' | listItem | math | paragraph | strong | table | tableCell
| tableRow | text | thematicBreak | yaml.

Definition typeName (t : NodeType) : string :=
  match t with
  | blockquote => "blockquote" | break => "break" | code => "code"
  | definition => "definition" | delete => "delete"
  | emphasis => "emphasis" | footnoteDefinition => "footnoteDefinition"
  | footnoteReference => "footnoteReference" | heading => "heading"
  | html => "html" | image => "image"
  | imageReference => "imageReference" | inlineCode => "inlineCode"
  | inlineMath => "inlineMath" | link => "link"
  | linkReference => "linkReference" | list' => "list"
  | listItem => "listItem" | math => "math" | paragraph => "paragraph"
  | strong => "strong" | table => "table" | tableCell => "tableCell"
  | tableRow => "tableRow" | text => "text"
  | thematicBreak => "thematicBreak" | yaml => "yaml"
  end.

(** [Point]: only [offset] is read. *)
Record Point := { offset : option Z }.

(** [Position] *)
Record Position := { start : Point; end_ : Point }.

#[local] Unset Elimination Schemes.

(** An Mdast node: [depth] is read for headings only, [children] is absent
    on literal nodes (['children' in node] is false). *)
Inductive MdastNode :=
  MkNode (type : NodeType) (depth : nat) (position : option Position)
         (children : option (list MdastNode)).

Definition type (n : MdastNode) : NodeType :=
  match n with MkNode t _ _ _ => t end.
Definition depth (n : MdastNode) : nat :=
  match n with MkNode _ d _ _ => d end.
Definition position (n : MdastNode) : option Position :=
  match n with MkNode _ _ p _ => p end.
Definition children (n : MdastNode) : option (list MdastNode) :=
  match n with MkNode _ _ _ c => c end.

(** [node.position?.start.offset] and [node.position?.end.offset] *)
Definition startOffsetOf (n : MdastNode) : option Z :=
  match position n with Some p => offset (start p) | None => None end.
Definition endOffsetOf (n : MdastNode) : option Z :=
  match position n with Some p => offset (end_ p) | None => None end.

(** ** DOM *)

Inductive Element :=
  MkElement (tagName : string) (classList : list string)
            (attributes : list (string * string)) (childNodes : list Node)
with Node :=
| TextNode (data : jsstr)
| ElementNode (e : Element).

#[local] Set Elimination Schemes.

Definition tagName (e : Element) : string :=
  match e with MkElement t _ _ _ => t end.
Definition classList (e : Element) : list string :=
  match e with MkElement _ c _ _ => c end.
Definition attributes (e : Element) : list (string * string) :=
  match e with MkElement _ _ a _ => a end.
Definition childNodes (e : Element) : list Node :=
  match e with MkElement _ _ _ c => c end.

(** [document.createElement(tag)] *)
Definition createElement (tag : string) : Element := MkElement tag [] [] [].

(** [e.append(n)] *)
Definition append (n : Node) (e : Element) : Element :=
  MkElement (tagName e) (classList e) (attributes e) (childNodes e ++ [n]).

(** [e.classList.add(c)]: a token list holds a class once. *)
Definition classList_add (c : string) (e : Element) : Element :=
  MkElement (tagName e)
            (if decide (c ∈ classList e) then classList e
             else classList e ++ [c])
            (attributes e) (childNodes e).

Fixpoint setAssoc (k v : string) (l : list (string * string))
  : list (string * string) :=
  match l with
  | [] => [(k, v)]
  | (k', v') :: l' =>
      if decide (k' = k) then (k, v) :: l' else (k', v') :: setAssoc k v l'
  end.

(** [e.setAttribute(name, value)] *)
Definition setAttribute (name value : string) (e : Element) : Element :=
  MkElement (tagName e) (classList e) (setAssoc name value (attributes e))
            (childNodes e).

(** ** The build state of one call of [editorRender] *)

(** A stack entry [{ node, el, first }]. *)
Record Frame := { node : MdastNode; frame_el : Element; first : bool }.

(** The variables that the closures of [editorRender] share. [el] is the
    root. [scanLog] is a ghost: every value assigned to [scanOffset], the
    latest first; no operation reads it. *)
Record State := {
  scanOffset : Z;
  stack : list Frame;
  block : Element;
  el : Element;
  scanLog : list Z
}.

Definition initialState : State :=
  {| scanOffset := 0; stack := []; block := createElement "div";
     el := createElement "div"; scanLog := [] |}.

Definition setStack (s : list Frame) (st : State) : State :=
  {| scanOffset := scanOffset st; stack := s; block := block st;
     el := el st; scanLog := scanLog st |}.

Definition setBlock (b : Element) (st : State) : State :=
  {| scanOffset := scanOffset st; stack := stack st; block := b;
     el := el st; scanLog := scanLog st |}.

Definition setEl (r : Element) (st : State) : State :=
  {| scanOffset := scanOffset st; stack := stack st; block := block st;
     el := r; scanLog := scanLog st |}.

(** [scanOffset = v] *)
Definition setScanOffset (v : Z) (st : State) : State :=
  {| scanOffset := v; stack := stack st; block := block st;
     el := el st; scanLog := v :: scanLog st |}.

Definition mapEl (f : Element -> Element) (fr : Frame) : Frame :=
  {| node := node fr; frame_el := f (frame_el fr); first := first fr |}.

(** An update in place of the entry [stack[i]]; reading a field of
    [stack[i]] out of range throws. *)
Definition updateFrame (i : nat) (g : Frame -> Frame) (st : State)
  : option State :=
  match stack st !! i with
  | Some _ => Some (setStack (alter g i (stack st)) st)
  | None => None
  end.

(** [stack[i].el = f(stack[i].el)] *)
Definition updateEl (i : nat) (f : Element -> Element) (st : State)
  : option State :=
  updateFrame i (mapEl f) st.

Definition classNamePrefix : string := "x-star-md-editor-".

Definition isFlowContent (n : MdastNode) : bool :=
  match type n with
  | blockquote | listItem | footnoteDefinition => true
  | _ => false
  end.

(** The class names that [pushElement] adds to [styleElement]. *)
Definition addStyle (n : MdastNode) (first last : bool) (e : Element)
  : Element :=
  let e := classList_add (classNamePrefix +:+ typeName (type n)) e in
  match type n with
  | heading =>
      classList_add
        (classNamePrefix +:+ "heading" +:+ numberToString (depth n)) e
  | html | code | math =>
      let e := if first then classList_add (classNamePrefix +:+ "first") e
               else e in
      if last then classList_add (classNamePrefix +:+ "last") e else e
  | _ => e
  end.

(** [index && !isFlowContent(stack[index - 1].node) ? index : 0] *)
Definition styleIndex (index : nat) (st : State) : option nat :=
  match index with
  | O => Some O
  | S p =>
      parent ← stack st !! p;
      Some (if isFlowContent (node parent) then O else index)
  end.

(** [stack[index].el = document.createElement(...); stack[index].first =
    false] *)
Definition renewed (index : nat) (fr : Frame) : Frame :=
  {| node := node fr;
     frame_el := createElement (match index with O => "div" | S _ => "span" end);
     first := false |}.

Definition pushElement (index : nat) (last : bool) (st : State)
  : option State :=
  fr ← stack st !! index;
  si ← styleIndex index st;
  st ← updateEl si (addStyle (node fr) (first fr) last) st;
  cur ← stack st !! index;
  st ← match index with
       | O => Some (setBlock (append (ElementNode (frame_el cur)) (block st))
                             st)
       | S p => updateEl p (append (ElementNode (frame_el cur))) st
       end;
  updateFrame index (renewed index) st.

Definition pushBlock (st : State) : State :=
  let b := classList_add (classNamePrefix +:+ "block") (block st) in
  setBlock (createElement "div") (setEl (append (ElementNode b) (el st)) st).

Definition createDelimiter (t : jsstr) : Element :=
  classList_add (classNamePrefix +:+ "delimiter")
                (append (TextNode t) (createElement "span")).

Definition createLine (t : jsstr) : Element :=
  append (TextNode (t ++ [ZWSP])) (createElement "div").

(** [if (line) stack[stack.length - 1].el.append(delimiter ?
    createDelimiter(line) : line)] *)
Definition appendLine (line : jsstr) (delimiter : bool) (st : State)
  : option State :=
  match line with
  | [] => Some st
  | _ =>
      updateEl (length (stack st) - 1)%nat
               (append (if delimiter then ElementNode (createDelimiter line)
                        else TextNode line)) st
  end.

(** [for (; j; j--) pushElement(j)] *)
Fixpoint pushElements (j : nat) (st : State) : option State :=
  match j with
  | O => Some st
  | S j' => st ← pushElement j false st; pushElements j' st
  end.

(** The body of the loop over [lines[1..]] when the stack is not empty. *)
Definition breakLine (line : jsstr) (delimiter : bool) (st : State)
  : option State :=
  st ← pushElements (length (stack st) - 1)%nat st;
  st ← updateEl 0 (append (TextNode [ZWSP])) st;
  st ← pushElement 0 false st;
  appendLine line delimiter st.

Fixpoint breakLines (lines : list jsstr) (delimiter : bool) (st : State)
  : option State :=
  match lines with
  | [] => Some st
  | line :: rest => st ← breakLine line delimiter st;
                    breakLines rest delimiter st
  end.

(** The loop over all lines but the last when the stack is empty. *)
Fixpoint blockLines (lines : list jsstr) (st : State) : State :=
  match lines with
  | [] => st
  | line :: rest =>
      match rest with
      | [] => st
      | _ =>
          let st := setBlock (append (ElementNode (createLine line))
                                     (block st)) st in
          let st := pushBlock st in
          blockLines rest (setScanOffset (scanOffset st + (jslength line + 1))
                                         st)
      end
  end.

Definition addText (t : jsstr) (delimiter : bool) (st : State)
  : option State :=
  let lines := split LF t in
  match stack st with
  | _ :: _ =>
      st ← match lines with
           | line :: _ => appendLine line delimiter st
           | [] => Some st
           end;
      st ← breakLines (tail lines) delimiter st;
      Some (setScanOffset (scanOffset st + jslength t) st)
  | [] => Some (blockLines lines st)
  end.

(** ** The walk over the Mdast tree *)

Section Walk.

(** [sourceCode], which the closures of [editorRender] capture. *)
Variable sourceCode : jsstr.

Section Loop.
(** The body of [for (let i = 0; i < nodes.length; i++)]. *)
Variable body : MdastNode -> nat -> State -> option State.

Fixpoint forNodes (nodes : list MdastNode) (i : nat) (st : State)
  : option State :=
  match nodes with
  | [] => Some st
  | n :: rest => st ← body n i st; forNodes rest (S i) st
  end.
End Loop.

(** The end of the loop body: the element of the node is closed. *)
Definition closeNode (i : nat) (st : State) : option State :=
  st ← (if decide (1 < length (stack st))%nat then
          pushElement (length (stack st) - 1)%nat true st
        else
          st ← updateEl 0 (append (TextNode [ZWSP])) st;
          st ← pushElement 0 true st;
          let st := setBlock (setAttribute "index" (numberToString i)
                                           (block st)) st in
          let st := pushBlock st in
          Some (setScanOffset (scanOffset st + 1) st));
  Some (setStack (removelast (stack st)) st).

(** [stack.push({ node, el: document.createElement(...), first: true })] *)
Definition openNode (n : MdastNode) (st : State) : State :=
  setStack
    (stack st ++
     [{| node := n;
         frame_el := createElement
                       (match stack st with [] => "div" | _ => "span" end);
         first := true |}]) st.

(** One iteration of the loop of [getChildren], for [nodes[i] = n]. *)
Fixpoint visit (n : MdastNode) (i : nat) (st : State) {struct n}
  : option State :=
  match n with
  | MkNode _ _ _ kids =>
      match startOffsetOf n, endOffsetOf n with
      | Some startOffset, Some endOffset =>
          let startOffset :=
            if startOffset <? scanOffset st then scanOffset st
            else startOffset in
          if startOffset >=? endOffset then Some st
          else
            st ← addText (slice sourceCode (scanOffset st) startOffset)
                         true st;
            let st := openNode n st in
            st ← match kids with
                 | Some nodes =>
                     st ← forNodes visit nodes O st;
                     addText (slice sourceCode (scanOffset st) endOffset)
                             true st
                 | None =>
                     addText (slice sourceCode (scanOffset st) endOffset)
                             false st
                 end;
            closeNode i st
      | _, _ => Some st
      end
  end.

Definition getChildren (nodes : list MdastNode) (parentEndOffset : Z)
           (st : State) : option State :=
  st ← forNodes visit nodes O st;
  addText (slice sourceCode (scanOffset st) parentEndOffset) true st.

(** The part of the loop body after the two [continue]s, with the
    clamped [startOffset]. *)
Definition process (n : MdastNode) (i : nat) (startOffset endOffset : Z)
           (st : State) : option State :=
  st ← addText (slice sourceCode (scanOffset st) startOffset) true st;
  let st := openNode n st in
  st ← match children n with
       | Some nodes => getChildren nodes endOffset st
       | None =>
           addText (slice sourceCode (scanOffset st) endOffset) false st
       end;
  closeNode i st.

(** The body of [editorRender] up to [return el], with
    [processor.parse(sourceCode).children] as [nodes]. *)
Definition editorRenderState (nodes : list MdastNode) : option State :=
  st ← getChildren nodes (jslength sourceCode) initialState;
  Some (if scanOffset st <=? jslength sourceCode then
          pushBlock
            (setBlock (append (ElementNode
                                 (createLine
                                    (sliceFrom sourceCode (scanOffset st))))
                              (block st)) st)
        else st).

Definition editorRender (nodes : list MdastNode) : option Element :=
  st ← editorRenderState nodes; Some (el st).

End Walk.

(** ** Predicates on trees *)

(** [p] holds of [n] and of all its descendants. *)
Fixpoint allNodes (p : MdastNode -> bool) (n : MdastNode) : bool :=
  p n &&
  match n with
  | MkNode _ _ _ (Some nodes) => forallb (allNodes p) nodes
  | MkNode _ _ _ None => true
  end.

(** The frame that receives the class names of [stack[p + 1]], whose parent
    frame is [pf]. *)
Definition targetOf (p : nat) (pf : Frame) : nat :=
  if isFlowContent (node pf) then O else S p.

(** The text of a top-level node and of its children, emitted into the
    frame that [openNode] pushed. *)
Definition blockContent (sourceCode : jsstr) (n : MdastNode) (endOffset : Z)
           (st : State) : option State :=
  match children n with
  | Some nodes => getChildren sourceCode nodes endOffset st
  | None =>
      addText (slice sourceCode (scanOffset st) endOffset) false st
  end.

(** The state after the end of a top-level node whose frame is [fr]. *)
Definition closedBlock (i : nat) (fr : Frame) (st : State) : State :=
  {| scanOffset := scanOffset st + 1;
     stack := [];
     block := createElement "div";
     el := append
             (ElementNode
                (classList_add (classNamePrefix +:+ "block")
                   (setAttribute "index" (numberToString i)
                      (append
                         (ElementNode
                            (addStyle (node fr) (first fr) true
                               (append (TextNode [ZWSP]) (frame_el fr))))
                         (block st)))))
             (el st);
     scanLog := (scanOffset st + 1) :: scanLog st |}.

(** One line between blocks: a block of its own, and the line break after
    it is consumed. *)
Definition lineBlock (line : jsstr) (st : State) : State :=
  let st := pushBlock (setBlock (append (ElementNode (createLine line))
                                        (block st)) st) in
  setScanOffset (scanOffset st + (jslength line + 1)) st.

(** ** Relations between states of the walk *)

(** [steady st st']: the stack has the same nodes, the root, the scan
    offset and its log are the same, and [block] is the same element up to
    its children. *)
Record steady (st st' : State) : Prop := {
  steady_nodes : map node (stack st') = map node (stack st);
  steady_el : el st' = el st;
  steady_tag : tagName (block st') = tagName (block st);
  steady_classes : classList (block st') = classList (block st);
  steady_attrs : attributes (block st') = attributes (block st);
  steady_offset : scanOffset st' = scanOffset st;
  steady_log : scanLog st' = scanLog st
}.

(** The command [c] of the walk inside a block returns from every state
    with a non-empty stack that satisfies [I], in a state with the same
    nodes on the stack that satisfies [I] and is related by [R]. *)
Definition walks (I : State → Prop) (R : State → State → Prop)
           (c : State → option State) : Prop :=
  ∀ st, stack st ≠ [] → I st →
        ∃ st', c st = Some st'
               ∧ map node (stack st') = map node (stack st)
               ∧ I st' ∧ R st st'.

(** ** The log of [scanOffset]

    [history st] lists the values that [scanOffset] had up to [st], the
    latest first and the initial [0] last. *)
Definition history (st : State) : list Z := scanLog st ++ [0].

(** The end offset of [n], if it has one, is at most [sourceCode.length]. *)
Definition endsWithin (sourceCode : jsstr) (n : MdastNode) : bool :=
  match endOffsetOf n with
  | Some e => e <=? jslength sourceCode
  | None => true
  end.

(** Every value of [scanOffset] is at least the values before it, and the
    log ends with the current value. *)
Definition mono (st : State) : Prop :=
  StronglySorted Z.ge (history st) ∧ head (history st) = Some (scanOffset st).

(** Every value of [scanOffset] is at most [len + 1]. *)
Definition within (len : Z) (st : State) : Prop :=
  Forall (λ v, v ≤ len + 1) (history st).

(** The relation between two states of the walk inside a block, for the
    scan offset. *)
Definition advances (len : Z) (st st' : State) : Prop :=
  mono st →
  mono st' ∧ scanOffset st ≤ scanOffset st'
  ∧ (scanOffset st ≤ len → within len st →
     scanOffset st' ≤ len ∧ within len st').

(** ** Lines *)

(** Every line followed by its line break. *)
Definition flatLines (ls : list jsstr) : jsstr :=
  concat (map (λ l, l ++ [LF]) ls).

(** [ls.join('\n')] *)
Fixpoint joinLF (ls : list jsstr) : jsstr :=
  match ls with
  | [] => []
  | l :: rest =>
      match rest with
      | [] => l
      | _ => l ++ LF :: joinLF rest
      end
  end.

(** ** Trees for the scenarios *)

Definition mkPosition (s e : Z) : option Position :=
  Some {| start := {| offset := Some s |}; end_ := {| offset := Some e |} |}.

(** A literal node and a parent node of type [t] at [[s, e)]. *)
Definition literal (t : NodeType) (s e : Z) : MdastNode :=
  MkNode t 0 (mkPosition s e) None.
Definition parent (t : NodeType) (s e : Z) (c : list MdastNode) : MdastNode :=
  MkNode t 0 (mkPosition s e) (Some c).

(** ** Blocks *)

(** The walk inside a block leaves the root alone, and [block] up to its
    children. *)
Definition enduring (st st' : State) : Prop :=
  el st' = el st
  ∧ tagName (block st') = tagName (block st)
  ∧ classList (block st') = classList (block st)
  ∧ attributes (block st') = attributes (block st).

(** [b] is a block of the output for the top-level nodes [nodes]: a [div]
    of class ["x-star-md-editor-block"], either without attributes, or with
    the position [i] of a top-level node as its [index] and with a last line
    that carries the class of the type of that node. *)
Definition isBlock (nodes : list MdastNode) (b : Node) : Prop :=
  ∃ e, b = ElementNode e
       ∧ tagName e = "div"
       ∧ classList e = [classNamePrefix +:+ "block"]
       ∧ (attributes e = []
          ∨ ∃ i n line,
              nodes !! i = Some n
              ∧ attributes e = [("index", numberToString i)]
              ∧ last (childNodes e) = Some (ElementNode line)
              ∧ classNamePrefix +:+ typeName (type n) ∈ classList line).

(** The state between two blocks: [block] is a new [div], the root is a
    [div] of blocks, and either a block was made or some of the source is
    left. *)
Definition betweenBlocks (sourceCode : jsstr) (nodes : list MdastNode)
           (st : State) : Prop :=
  block st = createElement "div"
  ∧ tagName (el st) = "div"
  ∧ Forall (isBlock nodes) (childNodes (el st))
  ∧ (childNodes (el st) ≠ [] ∨ scanOffset st ≤ jslength sourceCode).

(** The output for the empty source. *)
Definition emptyDocument : Element :=
  MkElement "div" [] []
    [ElementNode
       (MkElement "div" [classNamePrefix +:+ "block"] []
          [ElementNode (MkElement "div" [] [] [TextNode [ZWSP]])])].

(** ** Scenario B: two paragraphs and a blank line between them *)

Definition sourceB : jsstr := js "para1" ++ [LF; LF] ++ js "para2".

(** The children of the root that [remark-parse] returns for [sourceB]. *)
Definition treeB : list MdastNode :=
  [parent paragraph 0 5 [literal text 0 5];
   parent paragraph 7 12 [literal text 7 12]].

(** A block of one line that holds one [text] span and the marker. *)
Definition paragraphBlock (index : string) (t : jsstr) : Node :=
  ElementNode
    (MkElement "div" [classNamePrefix +:+ "block"] [("index", index)]
       [ElementNode
          (MkElement "div" [classNamePrefix +:+ "paragraph"] []
             [ElementNode
                (MkElement "span" [classNamePrefix +:+ "text"] []
                   [TextNode t]);
              TextNode [ZWSP]])]).

(** The block of an empty line between two blocks. *)
Definition emptyLineBlock : Node :=
  ElementNode
    (MkElement "div" [classNamePrefix +:+ "block"] []
       [ElementNode (MkElement "div" [] [] [TextNode [ZWSP]])]).

(** ** Two paragraphs with CRLF line ends *)

(** The carriage return. *)
Definition CR : codeUnit := 13%N.

Definition sourceCRLF : jsstr := js "a" ++ [CR; LF; CR; LF] ++ js "b".

(** The children of the root that [remark-parse] returns for
    [sourceCRLF]: a line end is not part of a paragraph. *)
Definition treeCRLF : list MdastNode :=
  [parent paragraph 0 1 [literal text 0 1];
   parent paragraph 5 6 [literal text 5 6]].

(** ** Scenario D: a paragraph on one line inside a flow-content node *)

Definition sourceD : jsstr := js "> hi".

Definition treeD (t : NodeType) : list MdastNode :=
  [parent t 0 4 [parent paragraph 2 4 [literal text 2 4]]].

(** One block of one line; the line carries the class of the paragraph and
    the class of its parent, the span of the paragraph carries none. *)
Definition outputD (t : NodeType) : Element :=
  MkElement "div" [] []
    [ElementNode
       (MkElement "div" [classNamePrefix +:+ "block"] [("index", "0")]
          [ElementNode
             (MkElement "div"
                [classNamePrefix +:+ "paragraph";
                 classNamePrefix +:+ typeName t] []
                [ElementNode
                   (MkElement "span" [classNamePrefix +:+ "delimiter"] []
                      [TextNode (js "> ")]);
                 ElementNode
                   (MkElement "span" [] []
                      [ElementNode
                         (MkElement "span" [classNamePrefix +:+ "text"] []
                            [TextNode (js "hi")])]);
                 TextNode [ZWSP]])])].

(** ** The markers of opaque nodes *)

Definition firstClass : string := classNamePrefix +:+ "first".
Definition lastClass : string := classNamePrefix +:+ "last".

(** Raw HTML, code and math. *)
Definition isOpaque (n : MdastNode) : bool :=
  match type n with
  | html | code | math => true
  | _ => false
  end.

(** [e] or one of its descendants carries ["first"] or ["last"]. *)
Fixpoint marked (e : Element) : bool :=
  match e with
  | MkElement _ classes _ kids =>
      bool_decide (firstClass ∈ classes)
      || bool_decide (lastClass ∈ classes)
      || existsb (λ k, match k with
                       | TextNode _ => false
                       | ElementNode e' => marked e'
                       end) kids
  end.

Definition markedNode (k : Node) : bool :=
  match k with
  | TextNode _ => false
  | ElementNode e => marked e
  end.

(** No element of the state carries a marker, and no node on the stack is
    opaque. *)
Definition clean (st : State) : Prop :=
  marked (el st) = false
  ∧ marked (block st) = false
  ∧ Forall (λ fr, marked (frame_el fr) = false ∧ isOpaque (node fr) = false)
           (stack st).

(** ** Reading the source back from the output *)

(** [e.textContent] *)
Fixpoint textContent (e : Element) : jsstr :=
  match e with
  | MkElement _ _ _ kids =>
      flat_map (λ k, match k with
                     | TextNode d => d
                     | ElementNode e' => textContent e'
                     end) kids
  end.

Definition nodeText (k : Node) : jsstr :=
  match k with
  | TextNode d => d
  | ElementNode e => textContent e
  end.

(** The text of a line element without the marker at its end; none if [k]
    is not an element or does not end with the marker. *)
Definition lineText (k : Node) : option jsstr :=
  match k with
  | ElementNode e =>
      match last (textContent e) with
      | Some c => if N.eqb c ZWSP then Some (removelast (textContent e))
                  else None
      | None => None
      end
  | TextNode _ => None
  end.

(** The lines of a block element. *)
Definition linesOfBlock (b : Element) : option (list jsstr) :=
  mapM lineText (childNodes b).

Definition blockText (k : Node) : option (list jsstr) :=
  match k with
  | ElementNode b => linesOfBlock b
  | TextNode _ => None
  end.

(** The lines of all blocks of the root, in document order. *)
Definition rootLines (root : Element) : option (list jsstr) :=
  bs ← mapM blockText (childNodes root); Some (concat bs).

(** The text that the output stands for: the lines without their markers,
    with a line break between two lines. *)
Definition readBack (root : Element) : option jsstr :=
  ls ← rootLines root; Some (joinLF ls).

(** The texts of the open elements, from the outermost to the innermost. *)
Definition frameTexts (s : list Frame) : list jsstr :=
  map (λ fr, textContent (frame_el fr)) s.

Definition pending (st : State) : jsstr := concat (frameTexts (stack st)).

(** The open elements above frame [j] are empty. *)
Definition quiet (j : nat) (s : list Frame) : Prop :=
  ∀ k t, (j < k)%nat → frameTexts s !! k = Some t → t = [].

(** The text that a state of the walk stands for: the finished lines, each
    with its line break, and the text of the open line. *)
Definition written (st : State) : option jsstr :=
  ls1 ← rootLines (el st);
  ls2 ← linesOfBlock (block st);
  Some (flatLines (ls1 ++ ls2) ++ pending st).

(** The first [k] characters of the source; the source is followed by the
    line break that the end of the last block consumes. *)
Definition scanned (sourceCode : jsstr) (k : Z) : jsstr :=
  take (Z.to_nat k) (sourceCode ++ [LF]).

(** The end offset of [n], if it has one, is at most [e]. *)
Definition endsBy (e : Z) (n : MdastNode) : bool :=
  match endOffsetOf n with
  | Some e' => e' <=? e
  | None => true
  end.

(** A top-level node with a range ends inside the source, at a line break
    or at the end of the source, and none of its descendants ends after
    it. *)
Definition endsAtBreak (sourceCode : jsstr) (n : MdastNode) : bool :=
  match startOffsetOf n, endOffsetOf n with
  | Some _, Some e =>
      (e <=? jslength sourceCode)
      && (bool_decide (e = jslength sourceCode)
          || bool_decide (sourceCode !! Z.to_nat e = Some LF))
      && allNodes (endsBy e) n
  | _, _ => true
  end.

(** The states of the walk inside the block of a node that ends at [e]:
    what is written is the source up to [scanOffset]. *)
Definition inSync (sourceCode : jsstr) (e : Z) (st : State) : Prop :=
  written st = Some (scanned sourceCode (scanOffset st))
  ∧ 0 ≤ scanOffset st ≤ e.

(** The states between two blocks. *)
Definition inSyncTop (sourceCode : jsstr) (st : State) : Prop :=
  block st = createElement "div"
  ∧ written st = Some (scanned sourceCode (scanOffset st))
  ∧ 0 ≤ scanOffset st ≤ jslength sourceCode + 1.

(** The text [u] is the part of the source that follows offset [a]. *)
Definition continues (sourceCode : jsstr) (a : Z) (u : jsstr) : Prop :=
  scanned sourceCode a ++ u = scanned sourceCode (a + jslength u)
  ∧ a + jslength u ≤ jslength sourceCode.

(** ** An opaque node over two lines *)

(** The text nodes that [appendLine] makes of a line. *)
Definition textNodes (t : jsstr) : list Node :=
  match t with
  | [] => []
  | _ => [TextNode t]
  end.

(** A line of plain text with the class names [classes]. *)
Definition plainLine (classes : list string) (t : jsstr) : Node :=
  ElementNode (MkElement "div" classes [] (textNodes t ++ [TextNode [ZWSP]])).

(** The block of the top-level opaque node [n] at position [i], with the
    texts of its two lines. *)
Definition twoLineBlock (i : nat) (n : MdastNode) (t0 t1 : jsstr) : Node :=
  ElementNode
    (MkElement "div" [classNamePrefix +:+ "block"]
       [("index", numberToString i)]
       [plainLine [classNamePrefix +:+ typeName (type n); firstClass] t0;
        plainLine [classNamePrefix +:+ typeName (type n); lastClass] t1]).

(** The pairs [(x, y)] of elements of [l] with [x] before [y]. *)
Fixpoint pairsOf {A} (l : list A) : list (A * A) :=
  match l with
  | [] => []
  | x :: l' => map (λ y, (x, y)) l' ++ pairsOf l'
  end.

Definition hasClasses (cs : list string) (k : Node) : bool :=
  match k with
  | ElementNode e => forallb (λ c, bool_decide (c ∈ classList e)) cs
  | TextNode _ => false
  end.

(** Somewhere in [e], two children of one element carry the class [c], the
    earlier one with ["first"] and the later one with ["last"]. *)
Fixpoint markedSiblings (c : string) (e : Element) : bool :=
  match e with
  | MkElement _ _ _ kids =>
      existsb (λ p, hasClasses [c; firstClass] (fst p)
                    && hasClasses [c; lastClass] (snd p)) (pairsOf kids)
      || existsb (λ k, match k with
                       | TextNode _ => false
                       | ElementNode e' => markedSiblings c e'
                       end) kids
  end.

(** Two consecutive nodes of [kids], the first with the classes [c] and
    ["first"], the second with [c] and ["last"]. *)
Fixpoint adjacentLines (c : string) (kids : list Node) : bool :=
  match kids with
  | [] => false
  | a :: rest =>
      match rest with
      | b :: _ => hasClasses [c; firstClass] a && hasClasses [c; lastClass] b
      | [] => false
      end
      || adjacentLines c rest
  end.

Definition blockWithLines (c : string) (k : Node) : bool :=
  match k with
  | ElementNode b => adjacentLines c (childNodes b)
  | TextNode _ => false
  end.

(** A block of [root] has two such lines. *)
Definition markedLines (c : string) (root : Element) : bool :=
  existsb (blockWithLines c) (childNodes root).

(** The place of a node below the top level: its parent, with the siblings
    before and after the node. *)
Record Around := {
  parentType : NodeType;
  parentDepth : nat;
  parentStart : Z;
  parentEnd : Z;
  before : list MdastNode;
  after : list MdastNode
}.

(** The top-level node that holds [n] below the parents [layers], the
    outermost first. *)
Fixpoint plug (layers : list Around) (n : MdastNode) : MdastNode :=
  match layers with
  | [] => n
  | a :: inner =>
      MkNode (parentType a) (parentDepth a)
             (mkPosition (parentStart a) (parentEnd a))
             (Some (before a ++ plug inner n :: after a))
  end.

Definition flowType (t : NodeType) : bool :=
  isFlowContent (MkNode t 0 None None).

(** The parent of the node is flow content; [outer] stands for what is
    above [layers]. *)
Definition underFlow (layers : list Around) (outer : bool) : bool :=
  match last layers with
  | Some a => flowType (parentType a)
  | None => outer
  end.

(** A node at [[s, e)] is inside its parents, and the siblings before it
    and before its parents end, with their descendants, by [s]. *)
Fixpoint inOrder (s e : Z) (layers : list Around) : bool :=
  match layers with
  | [] => true
  | a :: inner =>
      (parentStart a <=? s) && (e <=? parentEnd a)
      && forallb (allNodes (endsBy s)) (before a)
      && inOrder s e inner
  end.

(** The open line carries the classes [c] and [m]. *)
Definition lineOpen (c m : string) (st : State) : Prop :=
  ∃ f0, stack st !! 0%nat = Some f0
        ∧ c ∈ classList (frame_el f0) ∧ m ∈ classList (frame_el f0).

(** The last line of [block] carries the classes [c] and [m]. *)
Definition lineDone (c m : string) (st : State) : Prop :=
  ∃ line, last (childNodes (block st)) = Some line
          ∧ hasClasses [c; m] line = true.

(** [block] has the two lines, or it has the first as its last line and
    the open line is the second. *)
Definition paired (c : string) (st : State) : Prop :=
  adjacentLines c (childNodes (block st)) = true
  ∨ (lineDone c firstClass st ∧ lineOpen c lastClass st).

(** The class list of the open line, if there is one, only grows. *)
Definition lineGrows (s s' : list Frame) : Prop :=
  ∀ f0, s !! 0%nat = Some f0 →
        ∃ f0', s' !! 0%nat = Some f0'
               ∧ classList (frame_el f0) ⊆ classList (frame_el f0').

(** A step inside a block that appends no line to it. *)
Definition grows (st st' : State) : Prop :=
  block st' = block st ∧ lineGrows (stack st) (stack st').

(** A blockquote with raw HTML over two lines. *)
Definition sourceQuote : jsstr := js "> <div>" ++ [LF] ++ js "> </div>".

Definition treeQuote : list MdastNode :=
  [parent blockquote 0 16 [literal html 2 16]].

(** Inline HTML over two lines inside a paragraph. *)
Definition sourceInline : jsstr := js "a <b" ++ [LF] ++ js "c> d".

Definition treeInline : list MdastNode :=
  [parent paragraph 0 9
     [literal text 0 2; literal html 2 7; literal text 7 9]].

(** The frame that [openNode] pushes. *)
Definition newFrame (n : MdastNode) (tag : string) : Frame :=
  {| node := n; frame_el := createElement tag; first := true |}.

(** [appendLine] on an element. *)
Definition withLine (line : jsstr) (d : bool) (e : Element) : Element :=
  match line with
  | [] => e
  | _ => append (if d then ElementNode (createDelimiter line)
                 else TextNode line) e
  end.

(** ** Structural identity of two outputs *)

(** The same class names, in whatever order. *)
Definition sameClasses (a b : list string) : bool :=
  forallb (λ c, bool_decide (c ∈ b)) a && forallb (λ c, bool_decide (c ∈ a)) b.

(** The same shape, tags, class sets, attributes and text children. *)
Fixpoint sameStructure (a b : Element) : bool :=
  match a, b with
  | MkElement ta ca aa ka, MkElement tb cb ab kb =>
      bool_decide (ta = tb) && sameClasses ca cb && bool_decide (aa = ab)
      && (fix sameNodes (l : list Node) (m : list Node) : bool :=
            match l, m with
            | [], [] => true
            | TextNode x :: l', TextNode y :: m' =>
                bool_decide (x = y) && sameNodes l' m'
            | ElementNode x :: l', ElementNode y :: m' =>
                sameStructure x y && sameNodes l' m'
            | _, _ => false
            end) ka kb
  end.

(** ** The viewer: custom blocks *)

(** A [math] node of Mdast: [meta] is [null] or the text after the opening
    fence. *)
Record MathNode := { meta : option string; value : jsstr }.

(** What the [math] handler of [remark-rehype] returns: the element
    ['custom'] with the properties [meta] and [value], or the ['div'] that
    the default handling of math fills. *)
Inductive HastMath :=
| hastCustom (customMeta : string) (customValue : jsstr)
| hastDiv (n : MathNode).

(** [node.meta ? h(node.position, 'custom', { meta: node.meta, value:
    node.value }) : h(node, 'div')]: the empty string and [null] are
    falsy. *)
Definition mathHandler (n : MathNode) : HastMath :=
  match meta n with
  | Some m => if decide (m = "") then hastDiv n else hastCustom m (value n)
  | None => hastDiv n
  end.

(** The names of the properties that an object inherits from
    [Object.prototype]. *)
Definition objectPrototype : list string :=
  ["constructor"; "__defineGetter__"; "__defineSetter__"; "hasOwnProperty";
   "__lookupGetter__"; "__lookupSetter__"; "isPrototypeOf";
   "propertyIsEnumerable"; "toString"; "valueOf"; "__proto__";
   "toLocaleString"].

Section Viewer.

(** [React.ComponentType<{ children: string }>] *)
Context {Component : Type}.

(** The type of a React element: a tag, a component of the caller, or
    what [Object.prototype] holds under a name. *)
Inductive ElementType :=
| Tag (name : string)
| Custom (c : Component)
| Builtin (name : string).

(** [jsx(type, { children })] *)
Record ReactElement := jsx { elementType : ElementType; childrenProp : jsstr }.

(** [options.customBlocks] is the map of the own properties of the object;
    a property may hold [undefined], which is [None]. The object inherits
    from [Object.prototype].

    [customBlocks[key]]: an own property, or else an inherited one. *)
Definition getProperty (customBlocks : gmap string (option Component))
           (key : string) : option ElementType :=
  match customBlocks !! key with
  | Some (Some c) => Some (Custom c)
  | Some None => None
  | None =>
      if decide (key ∈ objectPrototype) then Some (Builtin key) else None
  end.

(** The component [custom] that [viewerRender] passes to
    [toJsxRuntime]: [jsx(options.customBlocks[meta] ?? 'div', { children:
    value })]. *)
Definition customComponent (customBlocks : gmap string (option Component))
           (m : string) (v : jsstr) : ReactElement :=
  jsx (match getProperty customBlocks m with
       | Some t => t
       | None => Tag "div"
       end) v.

(** A [math] node with a [meta] through the handler and the component;
    [None] when the handler gives the default ['div']. *)
Definition renderCustomBlock (customBlocks : gmap string (option Component))
           (n : MathNode) : option ReactElement :=
  match mathHandler n with
  | hastCustom m v => Some (customComponent customBlocks m v)
  | hastDiv _ => None
  end.

End Viewer.

(** ** A source without rendered nodes *)

(** The block of a line of text that no node covers. *)
Definition textBlock (line : jsstr) : Node :=
  ElementNode
    (MkElement "div" [classNamePrefix +:+ "block"] []
       [ElementNode (createLine line)]).

(** The loop of [getChildren] skips [n] when it starts at offset 0: [n]
    has no start or no end offset, or its end is not after its start. *)
Definition skippedAtStart (n : MdastNode) : bool :=
  match startOffsetOf n, endOffsetOf n with
  | Some s, Some e => e <=? Z.max s 0
  | _, _ => true
  end.

(** ** The layers of the output

    [editorRender] is documented to give block [div]s at the first level,
    line [div]s at the second and [span]s below. *)

(** A text node of the output is not empty and holds no line break. *)
Definition goodText (d : jsstr) : bool :=
  negb (bool_decide (d = [])) && bool_decide (LF ∉ d).

(** A [span] without attributes that holds text and such [span]s. *)
Fixpoint isSpan (e : Element) : bool :=
  match e with
  | MkElement t _ a kids =>
      bool_decide (t = "span") && bool_decide (a = [])
      && forallb (λ k, match k with
                       | TextNode d => goodText d
                       | ElementNode e' => isSpan e'
                       end) kids
  end.

Definition isInline (k : Node) : bool :=
  match k with
  | TextNode d => goodText d
  | ElementNode e => isSpan e
  end.

(** An element [tag] without attributes that holds text and [span]s. *)
Definition inlineFrame (tag : string) (e : Element) : bool :=
  bool_decide (tagName e = tag) && bool_decide (attributes e = [])
  && forallb isInline (childNodes e).

(** The last of [kids] is a text node that ends with the marker. *)
Definition endsWithMarker (kids : list Node) : bool :=
  match last kids with
  | Some (TextNode d) => bool_decide (last d = Some ZWSP)
  | _ => false
  end.

(** A line: a [div] of text and [span]s that ends with the marker. *)
Definition isLineElement (k : Node) : bool :=
  match k with
  | ElementNode e => inlineFrame "div" e && endsWithMarker (childNodes e)
  | TextNode _ => false
  end.

(** A block: a [div] of at least one line, and of lines only. *)
Definition isBlockElement (k : Node) : bool :=
  match k with
  | ElementNode b =>
      bool_decide (tagName b = "div")
      && negb (bool_decide (childNodes b = []))
      && forallb isLineElement (childNodes b)
  | TextNode _ => false
  end.

(** The root: a [div] of blocks only. *)
Definition layered (root : Element) : bool :=
  bool_decide (tagName root = "div")
  && forallb isBlockElement (childNodes root).

(** The tag of the element of the frame at [index]. *)
Definition frameTag (index : nat) : string :=
  match index with O => "div" | S _ => "span" end.

Definition framesOk (s : list Frame) : Prop :=
  ∀ i f, s !! i = Some f → inlineFrame (frameTag i) (frame_el f) = true.

(** The states of the walk, for the layers. *)
Definition shaped (st : State) : Prop :=
  layered (el st) = true
  ∧ tagName (block st) = "div"
  ∧ forallb isLineElement (childNodes (block st)) = true
  ∧ framesOk (stack st).

(** ** An opaque node over any number of lines *)

(** The line that [pushElement(0)] appends for the top-level node [n]
    without children, with the text [t]. *)
Definition closedLine (n : MdastNode) (isFirst isLast : bool) (t : jsstr)
  : Node :=
  ElementNode
    (addStyle n isFirst isLast
       (append (TextNode [ZWSP]) (withLine t false (createElement "div")))).

(** The lines that the breaks after [t] and in [ts] append, and the frame
    of the node after them. *)
Fixpoint pushedLines (n : MdastNode) (isFirst : bool) (t : jsstr)
         (ts : list jsstr) : list Node :=
  match ts with
  | [] => []
  | t1 :: ts' => closedLine n isFirst false t :: pushedLines n false t1 ts'
  end.

Fixpoint frameAfter (n : MdastNode) (isFirst : bool) (t : jsstr)
         (ts : list jsstr) : Frame :=
  match ts with
  | [] => {| node := n;
             frame_el := withLine t false (createElement "div");
             first := isFirst |}
  | t1 :: ts' => frameAfter n false t1 ts'
  end.

(** [b.append(...ks)] *)
Definition appendAll (ks : list Node) (b : Element) : Element :=
  foldl (λ b k, append k b) b ks.

(** The lines of an opaque node of class [c] after its first line. *)
Fixpoint laterLines (c : string) (ts : list jsstr) : list Node :=
  match ts with
  | [] => []
  | t :: rest =>
      match rest with
      | [] => [plainLine [c; lastClass] t]
      | _ => plainLine [c] t :: laterLines c rest
      end
  end.

(** The lines of an opaque node of class [c] with the texts [ts]. *)
Definition opaqueLines (c : string) (ts : list jsstr) : list Node :=
  match ts with
  | [] => []
  | t :: rest =>
      match rest with
      | [] => [plainLine [c; firstClass; lastClass] t]
      | _ => plainLine [c; firstClass] t :: laterLines c rest
      end
  end.

(** The block of the top-level opaque node [n] at position [i]. *)
Definition opaqueBlock (i : nat) (n : MdastNode) (ts : list jsstr) : Node :=
  ElementNode
    (MkElement "div" [classNamePrefix +:+ "block"]
       [("index", numberToString i)]
       (opaqueLines (classNamePrefix +:+ typeName (type n)) ts)).

(** ** The blocks of the top-level nodes *)

(** The classes that every element styled for [n] gets: the class of its
    type, and for a heading the class of its depth. *)
Definition nodeClasses (n : MdastNode) : list string :=
  (classNamePrefix +:+ typeName (type n))
  :: match type n with
     | heading =>
         [classNamePrefix +:+ "heading" +:+ numberToString (depth n)]
     | _ => []
     end.

(** The line [k] carries the classes of [n]. *)
Definition lineOf (n : MdastNode) (k : Node) : bool :=
  hasClasses (nodeClasses n) k.

(** The block [k] with its label: a block without label has no attribute;
    a block with the label [i] has [index = i] as its only attribute, [i]
    is the position of a top-level node, and every line of the block
    carries the class of the type of that node (and, for a heading, the
    class of its depth). *)
Definition labelled (nodes : list MdastNode) (label : option nat) (k : Node)
  : Prop :=
  ∃ b, k = ElementNode b
       ∧ match label with
         | None => attributes b = []
         | Some i =>
             ∃ n, nodes !! i = Some n
                  ∧ attributes b = [("index", numberToString i)]
                  ∧ forallb (lineOf n) (childNodes b) = true
         end.

(** The lines of [block] are lines of the open top-level node [n]. *)
Definition linesOf (n : MdastNode) (st : State) : Prop :=
  (∃ f0, stack st !! 0%nat = Some f0 ∧ node f0 = n)
  ∧ forallb (lineOf n) (childNodes (block st)) = true.

(** The state before the top-level node at position [i]: the blocks of
    the root have labels below [i], in increasing order. *)
Definition labelledUpTo (nodes : list MdastNode) (i : nat) (st : State)
  : Prop :=
  block st = createElement "div"
  ∧ ∃ labels,
      Forall2 (labelled nodes) labels (childNodes (el st))
      ∧ StronglySorted lt (omap id labels)
      ∧ Forall (λ j, (j < i)%nat) (omap id labels).

(** ** The schema of the sanitizer

    [schema] extends [defaultSchema] of [hast-util-sanitize], which is
    taken as it comes: its [tagNames] and [attributes] may be absent, and
    its other fields ([rest]) are copied by the spread. A property
    definition is a name or a name with values; only names are added. *)
Module Sanitize.
Section Schema.
Context {PropertyDefinition Rest : Type}.
Variable name : string → PropertyDefinition.

Record Schema := {
  tagNames : option (list string);
  attributes : option (gmap string (list PropertyDefinition));
  rest : Rest
}.

(** [s.attributes?.[tag] ?? []] *)
Definition attributesOf (s : Schema) (tag : string)
  : list PropertyDefinition :=
  default [] (attributes s ≫= λ m, m !! tag).

(** [s.tagNames ?? []] *)
Definition tagsOf (s : Schema) : list string := default [] (tagNames s).

Definition schema (defaultSchema : Schema) : Schema :=
  {| tagNames := Some (tagsOf defaultSchema ++ ["video"; "custom"]);
     attributes :=
       Some
         (<["custom" := [name "meta"; name "value"]]>
            (<["video" := [name "src"]]>
               (<["span" := attributesOf defaultSchema "span"
                            ++ [name "className"; name "style"; name "line"]]>
                  (<["div" := attributesOf defaultSchema "div"
                              ++ [name "className"; name "style"]]>
                     (<["code" := attributesOf defaultSchema "code"
                                  ++ [name "className"; name "style"]]>
                        (<["pre" := attributesOf defaultSchema "pre"
                                    ++ [name "className"; name "style"]]>
                           (default ∅ (attributes defaultSchema))))))));
     rest := rest defaultSchema |}.

End Schema.
End Sanitize.

(** ** The call stack

    [getChildren] calls itself once for every level of the tree
    ([getChildren(node.children, endOffset)]) and has no guard on the depth.
    A JavaScript engine holds a bounded number of nested calls and throws a
    [RangeError] at the call that no longer fits.  [visitWithin fuel] is
    the loop body of a call of [getChildren] under which [fuel] more nested
    calls of [getChildren] fit (the calls of [addText] and [pushElement]
    nest two levels at most and are taken to fit); [None] is then also the
    [RangeError]. *)
Section WalkWithin.
Variable sourceCode : jsstr.

Fixpoint visitWithin (fuel : nat) (n : MdastNode) (i : nat) (st : State)
         {struct n} : option State :=
  match n with
  | MkNode _ _ _ kids =>
      match startOffsetOf n, endOffsetOf n with
      | Some startOffset, Some endOffset =>
          let startOffset :=
            if startOffset <? scanOffset st then scanOffset st
            else startOffset in
          if startOffset >=? endOffset then Some st
          else
            st ← addText (slice sourceCode (scanOffset st) startOffset)
                         true st;
            let st := openNode n st in
            st ← match kids with
                 | Some nodes =>
                     match fuel with
                     | O => None
                     | S fuel =>
                         st ← forNodes (visitWithin fuel) nodes O st;
                         addText (slice sourceCode (scanOffset st) endOffset)
                                 true st
                     end
                 | None =>
                     addText (slice sourceCode (scanOffset st) endOffset)
                             false st
                 end;
            closeNode i st
      | _, _ => Some st
      end
  end.

(** A call of [getChildren] under which [fuel] calls fit, itself
    included. *)
Definition getChildrenWithin (fuel : nat) (nodes : list MdastNode)
           (parentEndOffset : Z) (st : State) : option State :=
  match fuel with
  | O => None
  | S fuel =>
      st ← forNodes (visitWithin fuel) nodes O st;
      addText (slice sourceCode (scanOffset st) parentEndOffset) true st
  end.

Definition processWithin (fuel : nat) (n : MdastNode) (i : nat)
           (startOffset endOffset : Z) (st : State) : option State :=
  st ← addText (slice sourceCode (scanOffset st) startOffset) true st;
  let st := openNode n st in
  st ← match children n with
       | Some nodes => getChildrenWithin fuel nodes endOffset st
       | None =>
           addText (slice sourceCode (scanOffset st) endOffset) false st
       end;
  closeNode i st.

(** [editorRender] on a call stack that holds [limit] nested calls of
    [getChildren]. *)
Definition editorRenderStateWithin (limit : nat) (nodes : list MdastNode)
  : option State :=
  st ← getChildrenWithin limit nodes (jslength sourceCode) initialState;
  Some (if scanOffset st <=? jslength sourceCode then
          pushBlock
            (setBlock (append (ElementNode
                                 (createLine
                                    (sliceFrom sourceCode (scanOffset st))))
                              (block st)) st)
        else st).

Definition editorRenderWithin (limit : nat) (nodes : list MdastNode)
  : option Element :=
  st ← editorRenderStateWithin limit nodes; Some (el st).

End WalkWithin.

(** The subtree of [n] is no deeper than [fuel] levels of children. *)
Fixpoint fits (fuel : nat) (n : MdastNode) {struct n} : bool :=
  match n with
  | MkNode _ _ _ (Some nodes) =>
      match fuel with
      | O => false
      | S fuel => forallb (fits fuel) nodes
      end
  | MkNode _ _ _ None => true
  end.

(** The tree with the top-level nodes [nodes] is no deeper than [limit]
    levels. *)
Definition fitsAll (limit : nat) (nodes : list MdastNode) : bool :=
  match limit with
  | O => false
  | S fuel => forallb (fits fuel) nodes
  end.

(** A text below [k] block quotes, all over the one character of
    [js "a"]. *)
Fixpoint nest (k : nat) : MdastNode :=
  match k with
  | O => literal text 0 1
  | S k => parent blockquote 0 1 [nest k]
  end.

(** ** The blocks and the top-level nodes *)

(** The loop of [getChildren] does not skip [n] in the state [st]: [n] has
    a start and an end offset, and its start, clamped to [scanOffset], is
    below its end. *)
Definition rendered (n : MdastNode) (st : State) : bool :=
  match startOffsetOf n, endOffsetOf n with
  | Some startOffset, Some endOffset =>
      negb ((if startOffset <? scanOffset st then scanOffset st
             else startOffset) >=? endOffset)
  | _, _ => false
  end.

(** The positions of the nodes of [nodes] that the loop does not skip, when
    it reaches the first of them, at position [i], in the state [st]. *)
Fixpoint renderedFrom (sourceCode : jsstr) (nodes : list MdastNode) (i : nat)
         (st : State) : list nat :=
  match nodes with
  | [] => []
  | n :: rest =>
      (if rendered n st then [i] else [])
      ++ match visit sourceCode n i st with
         | Some st' => renderedFrom sourceCode rest (S i) st'
         | None => []
         end
  end.

(** The positions of the top-level nodes that [editorRender] does not
    skip, in order. *)
Definition renderedNodes (sourceCode : jsstr) (nodes : list MdastNode)
  : list nat :=
  renderedFrom sourceCode nodes O initialState.

(** The block [k] of the output with its label. A block without label is
    the block of one line of text between top-level nodes, or of the rest
    of the source: a [div] of class ["x-star-md-editor-block"] without
    attributes, with one line element. A block with the label [i] closes
    the top-level node at position [i]: a [div] of that class with
    [index = i] as its only attribute, whose last line carries the class of
    the type of that node. *)
Definition blockOf (nodes : list MdastNode) (label : option nat) (k : Node)
  : Prop :=
  match label with
  | None => ∃ line, k = textBlock line
  | Some i =>
      ∃ n b line,
        k = ElementNode b
        ∧ nodes !! i = Some n
        ∧ tagName b = "div"
        ∧ classList b = [classNamePrefix +:+ "block"]
        ∧ attributes b = [("index", numberToString i)]
        ∧ last (childNodes b) = Some (ElementNode line)
        ∧ classNamePrefix +:+ typeName (type n) ∈ classList line
  end.

(** The top-level nodes [nodes] come in document order from the offset
    [lo] on: each has a range that is not empty, starts after the end of
    the one before it, and none of its descendants ends after it. *)
Fixpoint topInOrder (lo : Z) (nodes : list MdastNode) : bool :=
  match nodes with
  | [] => true
  | n :: rest =>
      match startOffsetOf n, endOffsetOf n with
      | Some s, Some e =>
          (lo <=? s) && (s <? e) && allNodes (endsBy e) n
          && topInOrder (e + 1) rest
      | _, _ => false
      end
  end.

(** ** The elements of a node inside the lines *)

(** [x] is a descendant of [e]. *)
Inductive inside (x : Element) : Element -> Prop :=
| inside_child e : ElementNode x ∈ childNodes e -> inside x e
| inside_below e e' :
    ElementNode e' ∈ childNodes e -> inside x e' -> inside x e.

(** [e] carries the classes [cls] and has a descendant of which [PX]
    holds. *)
Definition holds (PX : Element -> Prop) (cls : list string) (e : Element)
  : Prop :=
  (∃ x, PX x ∧ inside x e) ∧ cls ⊆ classList e.

(** The element of the frame at [j] has a descendant of which [PX]
    holds. *)
Definition located (PX : Element -> Prop) (j : nat) (st : State) : Prop :=
  ∃ f x, stack st !! j = Some f ∧ PX x ∧ inside x (frame_el f).

(** The open line carries the classes [cls]. *)
Definition lineCarries (cls : list string) (st : State) : Prop :=
  ∃ f0, stack st !! 0%nat = Some f0 ∧ cls ⊆ classList (frame_el f0).

(** The open line carries [cls], and an open element has a descendant of
    which [PX] holds: it will be inside the open line when the line is
    appended to [block]. *)
Definition openWith (PX : Element -> Prop) (cls : list string) (st : State)
  : Prop :=
  (∃ j, located PX j st) ∧ lineCarries cls st.

(** [kids] has a line that carries [cls] and holds an element of which
    [PX] holds, and [Prev] holds of the lines before it. *)
Definition lineAfter (Prev : list Node -> Prop) (PX : Element -> Prop)
           (cls : list string) (kids : list Node) : Prop :=
  ∃ k0 line k1,
    kids = k0 ++ ElementNode line :: k1 ∧ Prev k0 ∧ holds PX cls line.

(** [block] has such a line, or the open line is going to be it. *)
Definition settled (Prev : list Node -> Prop) (PX : Element -> Prop)
           (cls : list string) (st : State) : Prop :=
  lineAfter Prev PX cls (childNodes (block st))
  ∨ (Prev (childNodes (block st)) ∧ openWith PX cls st).

(** The last of the lines [kids] carries [cls] and holds an element of
    which [PX] holds. *)
Definition endsWithLine (PX : Element -> Prop) (cls : list string)
           (kids : list Node) : Prop :=
  ∃ k line, kids = k ++ [ElementNode line] ∧ holds PX cls line.

(** An element function that keeps the children and the classes of its
    argument. *)
Definition extending (g : Element -> Element) : Prop :=
  ∀ e, (∀ k, k ∈ childNodes e -> k ∈ childNodes (g e))
       ∧ classList e ⊆ classList (g e).

(** The [span] of a node without children for one line of its text. *)
Definition nodeSpan (cls : list string) (t : jsstr) : Element :=
  MkElement "span" cls [] (textNodes t).

(** The classes of a node below the top level go to the open line when its
    parent is flow content ([flow]), and to the span of the node
    otherwise: the classes of the span and of the line, for the class [c]
    of the type and the marker [m]. *)
Definition spanClasses (flow : bool) (c m : string) : list string :=
  if flow then [] else [c; m].

Definition lineClasses (flow : bool) (c m : string) : list string :=
  if flow then [c; m] else [].

(** ** A paragraph in a flow-content node *)

(** A [span] without class. *)
Definition plainSpan (e : Element) : Prop :=
  tagName e = "span" ∧ classList e = [].

(** [e] has a [span] without class as a child. *)
Definition hasPlainSpan (e : Element) : Prop :=
  ∃ sp, ElementNode sp ∈ childNodes e ∧ plainSpan sp.

(** The element of a flow-content node below the top level that holds the
    element of its child: two [span]s without class. *)
Definition flowSpan (x : Element) : Prop := plainSpan x ∧ hasPlainSpan x.

(** The elements of the frames from [k] on are [span]s without class. *)
Definition spansFrom (k : nat) (st : State) : Prop :=
  ∀ j f, (k ≤ j)%nat → stack st !! j = Some f → plainSpan (frame_el f).

(** A list item with one paragraph, as the parser gives it. *)
Definition sourceList : jsstr := js "- hi".

Definition treeList : list MdastNode :=
  [parent list' 0 4
     [parent listItem 0 4 [parent paragraph 2 4 [literal text 2 4]]]].

(** A block quote in a block quote, with one paragraph on one line. *)
Definition sourceQuotes : jsstr := js "> > hi".

Definition innerQuote : MdastNode :=
  parent blockquote 2 6 [parent paragraph 4 6 [literal text 4 6]].

(** ** The document

    [document.createElement] makes an object; [append], [classList.add]
    and [setAttribute] change the object they are called on, and an element
    that is appended to another one is held there by reference.  Two calls
    of [editorRender] share the document.  The elements are here cells of
    a store, each with the references of its child elements; [nextRef] is
    the reference of the next element that the document creates. *)

Definition Ref := nat.

Inductive Child :=
| TextChild (data : jsstr)
| ElementChild (r : Ref).

Record Cell := {
  cellTag : string;
  cellClasses : list string;
  cellAttributes : list (string * string);
  cellChildren : list Child
}.

Record Document := { nextRef : Ref; cells : gmap Ref Cell }.

(** The tag, the classes and the attributes of a cell, as an element
    without children. *)
Definition shell (c : Cell) : Element :=
  MkElement (cellTag c) (cellClasses c) (cellAttributes c) [].

(** A method that changes the classes or the attributes of an element,
    called on a cell. *)
Definition onShell (f : Element -> Element) (c : Cell) : Cell :=
  {| cellTag := tagName (f (shell c));
     cellClasses := classList (f (shell c));
     cellAttributes := attributes (f (shell c));
     cellChildren := cellChildren c |}.

(** [e.append(k)] on a cell. *)
Definition appendChild (k : Child) (c : Cell) : Cell :=
  {| cellTag := cellTag c; cellClasses := cellClasses c;
     cellAttributes := cellAttributes c;
     cellChildren := cellChildren c ++ [k] |}.

#[global] Instance Child_eq_dec : EqDecision Child.
Proof. solve_decision. Defined.

(** An element has one parent: [e.append(k)] for an element [k] takes [k]
    from the element that has it. *)
Definition withoutChild (r : Ref) (c : Cell) : Cell :=
  {| cellTag := cellTag c; cellClasses := cellClasses c;
     cellAttributes := cellAttributes c;
     cellChildren := filter (λ k, k ≠ ElementChild r) (cellChildren c) |}.

Definition detach (r : Ref) (doc : Document) : Document :=
  {| nextRef := nextRef doc; cells := withoutChild r <$> cells doc |}.

(** [target] is the element [r] or an element below it, at a depth of
    [fuel] at most. *)
Fixpoint contains (fuel : nat) (m : gmap Ref Cell) (r target : Ref) : bool :=
  bool_decide (r = target)
  || match fuel with
     | O => false
     | S fuel' =>
         match m !! r with
         | Some c =>
             existsb (λ k, match k with
                           | ElementChild r' => contains fuel' m r' target
                           | TextChild _ => false
                           end) (cellChildren c)
         | None => false
         end
     end.

(** The tree that the document holds below the reference [r] is [e]. *)
Fixpoint reads (m : gmap Ref Cell) (r : Ref) (e : Element) {struct e}
  : Prop :=
  match e with
  | MkElement t cl a kids =>
      ∃ c, m !! r = Some c
           ∧ cellTag c = t ∧ cellClasses c = cl ∧ cellAttributes c = a
           ∧ (fix readsAll (cs : list Child) (ks : list Node) {struct ks}
                : Prop :=
                match cs, ks with
                | [], [] => True
                | TextChild d :: cs', TextNode d' :: ks' =>
                    d = d' ∧ readsAll cs' ks'
                | ElementChild r' :: cs', ElementNode e' :: ks' =>
                    reads m r' e' ∧ readsAll cs' ks'
                | _, _ => False
                end) (cellChildren c) kids
  end.

Definition readsChild (m : gmap Ref Cell) (c : Child) (k : Node) : Prop :=
  match c, k with
  | TextChild d, TextNode d' => d = d'
  | ElementChild r, ElementNode e => reads m r e
  | _, _ => False
  end.

(** No element of the document has [r] as a child. *)
Definition unreferenced (doc : Document) (r : Ref) : Prop :=
  ∀ r' c, cells doc !! r' = Some c → ElementChild r ∉ cellChildren c.

(** Every element of the document, and every child of one, was created
    by the document. *)
Definition wellFormed (doc : Document) : Prop :=
  ∀ r c, cells doc !! r = Some c →
         (r < nextRef doc)%nat
         ∧ ∀ r', ElementChild r' ∈ cellChildren c → (r' < nextRef doc)%nat.

(** The elements of [doc0] are in [doc] as they were. *)
Definition keeps (doc0 doc : Document) : Prop :=
  (nextRef doc0 ≤ nextRef doc)%nat
  ∧ ∀ r, (r < nextRef doc0)%nat → cells doc !! r = cells doc0 !! r.

(** [editorRender] on the document. *)
Module Dom.

(** A stack entry [{ node, el, first }]: [el] is a reference. *)
Record Frame := { node : MdastNode; ref : Ref; first : bool }.

(** The variables that the closures of [editorRender] share, with the
    document. [scanLog] is the ghost of [State]. *)
Record State := {
  scanOffset : Z;
  stack : list Frame;
  block : Ref;
  el : Ref;
  scanLog : list Z;
  document : Document
}.

Definition setStack (s : list Frame) (st : State) : State :=
  {| scanOffset := scanOffset st; stack := s; block := block st;
     el := el st; scanLog := scanLog st; document := document st |}.

Definition setBlock (b : Ref) (st : State) : State :=
  {| scanOffset := scanOffset st; stack := stack st; block := b;
     el := el st; scanLog := scanLog st; document := document st |}.

Definition setScanOffset (v : Z) (st : State) : State :=
  {| scanOffset := v; stack := stack st; block := block st;
     el := el st; scanLog := v :: scanLog st; document := document st |}.

Definition setDocument (d : Document) (st : State) : State :=
  {| scanOffset := scanOffset st; stack := stack st; block := block st;
     el := el st; scanLog := scanLog st; document := d |}.

(** [document.createElement(tag)] *)
Definition createElement (tag : string) (doc : Document) : Ref * Document :=
  (nextRef doc,
   {| nextRef := S (nextRef doc);
      cells := <[nextRef doc :=
                   {| cellTag := tag; cellClasses := [];
                      cellAttributes := []; cellChildren := [] |}]>
                 (cells doc) |}).

(** A method [g] called on the element [r]. *)
Definition update (r : Ref) (g : Cell -> Cell) (doc : Document)
  : option Document :=
  c ← cells doc !! r;
  Some {| nextRef := nextRef doc; cells := <[r := g c]> (cells doc) |}.

(** [parent.append(child)] for an element [child]: it throws when [child]
    is [parent] or holds it; else [child] leaves the element that has it
    and becomes the last child of [parent]. *)
Definition appendElement (parent child : Ref) (doc : Document)
  : option Document :=
  if contains (nextRef doc) (cells doc) child parent then None
  else update parent (appendChild (ElementChild child)) (detach child doc).

(** A method called on [block], and on [stack[i].el]. *)
Definition updateBlock (g : Cell -> Cell) (st : State) : option State :=
  d ← update (block st) g (document st); Some (setDocument d st).

Definition updateEl (i : nat) (g : Cell -> Cell) (st : State)
  : option State :=
  fr ← stack st !! i;
  d ← update (ref fr) g (document st);
  Some (setDocument d st).

Definition styleIndex (index : nat) (st : State) : option nat :=
  match index with
  | O => Some O
  | S p =>
      parent ← stack st !! p;
      Some (if isFlowContent (node parent) then O else index)
  end.

Definition pushElement (index : nat) (last : bool) (st : State)
  : option State :=
  fr ← stack st !! index;
  si ← styleIndex index st;
  st ← updateEl si (onShell (addStyle (node fr) (first fr) last)) st;
  parentElement ← match index with
                  | O => Some (block st)
                  | S p => ref <$> stack st !! p
                  end;
  cur ← stack st !! index;
  d ← appendElement parentElement (ref cur) (document st);
  let (r, d) := createElement (match index with O => "div" | S _ => "span" end)
                              d in
  Some (setStack
          (alter (λ fr, {| node := node fr; ref := r; first := false |})
                 index (stack st))
          (setDocument d st)).

Definition pushBlock (st : State) : option State :=
  st ← updateBlock (onShell (classList_add (classNamePrefix +:+ "block"))) st;
  d ← appendElement (el st) (block st) (document st);
  let (r, d) := createElement "div" d in
  Some (setBlock r (setDocument d st)).

Definition createDelimiter (t : jsstr) (doc : Document)
  : option (Ref * Document) :=
  let (temp, d) := createElement "span" doc in
  d ← update temp (appendChild (TextChild t)) d;
  d ← update temp (onShell (classList_add (classNamePrefix +:+ "delimiter")))
             d;
  Some (temp, d).

Definition createLine (t : jsstr) (doc : Document)
  : option (Ref * Document) :=
  let (temp, d) := createElement "div" doc in
  d ← update temp (appendChild (TextChild (t ++ [ZWSP]))) d;
  Some (temp, d).

Definition appendLine (line : jsstr) (delimiter : bool) (st : State)
  : option State :=
  match line with
  | [] => Some st
  | _ =>
      if delimiter then
        fr ← stack st !! (length (stack st) - 1)%nat;
        match createDelimiter line (document st) with
        | Some (temp, d) =>
            d ← appendElement (ref fr) temp d; Some (setDocument d st)
        | None => None
        end
      else
        updateEl (length (stack st) - 1)%nat
                 (appendChild (TextChild line)) st
  end.

Fixpoint pushElements (j : nat) (st : State) : option State :=
  match j with
  | O => Some st
  | S j' => st ← pushElement j false st; pushElements j' st
  end.

Definition breakLine (line : jsstr) (delimiter : bool) (st : State)
  : option State :=
  st ← pushElements (length (stack st) - 1)%nat st;
  st ← updateEl 0 (appendChild (TextChild [ZWSP])) st;
  st ← pushElement 0 false st;
  appendLine line delimiter st.

Fixpoint breakLines (lines : list jsstr) (delimiter : bool) (st : State)
  : option State :=
  match lines with
  | [] => Some st
  | line :: rest => st ← breakLine line delimiter st;
                    breakLines rest delimiter st
  end.

(** [block.append(createLine(line)); pushBlock()] *)
Definition lineBlock (line : jsstr) (st : State) : option State :=
  match createLine line (document st) with
  | Some (temp, d) =>
      d ← appendElement (block st) temp d;
      pushBlock (setDocument d st)
  | None => None
  end.

Fixpoint blockLines (lines : list jsstr) (st : State) : option State :=
  match lines with
  | [] => Some st
  | line :: rest =>
      match rest with
      | [] => Some st
      | _ =>
          st ← lineBlock line st;
          blockLines rest (setScanOffset (scanOffset st + (jslength line + 1))
                                         st)
      end
  end.

Definition addText (t : jsstr) (delimiter : bool) (st : State)
  : option State :=
  let lines := split LF t in
  match stack st with
  | _ :: _ =>
      st ← match lines with
           | line :: _ => appendLine line delimiter st
           | [] => Some st
           end;
      st ← breakLines (tail lines) delimiter st;
      Some (setScanOffset (scanOffset st + jslength t) st)
  | [] => blockLines lines st
  end.

Section Walk.
Variable sourceCode : jsstr.

Section Loop.
Variable body : MdastNode -> nat -> State -> option State.

Fixpoint forNodes (nodes : list MdastNode) (i : nat) (st : State)
  : option State :=
  match nodes with
  | [] => Some st
  | n :: rest => st ← body n i st; forNodes rest (S i) st
  end.
End Loop.

Definition closeNode (i : nat) (st : State) : option State :=
  st ← (if decide (1 < length (stack st))%nat then
          pushElement (length (stack st) - 1)%nat true st
        else
          st ← updateEl 0 (appendChild (TextChild [ZWSP])) st;
          st ← pushElement 0 true st;
          st ← updateBlock (onShell (setAttribute "index" (numberToString i)))
                           st;
          st ← pushBlock st;
          Some (setScanOffset (scanOffset st + 1) st));
  Some (setStack (removelast (stack st)) st).

Definition openNode (n : MdastNode) (st : State) : State :=
  let (r, d) := createElement (match stack st with [] => "div" | _ => "span" end)
                              (document st) in
  setStack (stack st ++ [{| node := n; ref := r; first := true |}])
           (setDocument d st).

Fixpoint visit (n : MdastNode) (i : nat) (st : State) {struct n}
  : option State :=
  match n with
  | MkNode _ _ _ kids =>
      match startOffsetOf n, endOffsetOf n with
      | Some startOffset, Some endOffset =>
          let startOffset :=
            if startOffset <? scanOffset st then scanOffset st
            else startOffset in
          if startOffset >=? endOffset then Some st
          else
            st ← addText (slice sourceCode (scanOffset st) startOffset)
                         true st;
            let st := openNode n st in
            st ← match kids with
                 | Some nodes =>
                     st ← forNodes visit nodes O st;
                     addText (slice sourceCode (scanOffset st) endOffset)
                             true st
                 | None =>
                     addText (slice sourceCode (scanOffset st) endOffset)
                             false st
                 end;
            closeNode i st
      | _, _ => Some st
      end
  end.

Definition getChildren (nodes : list MdastNode) (parentEndOffset : Z)
           (st : State) : option State :=
  st ← forNodes visit nodes O st;
  addText (slice sourceCode (scanOffset st) parentEndOffset) true st.

(** The variables of a call, in the document [doc]: [block] and [el] are
    new elements. *)
Definition initialState (doc : Document) : State :=
  let (b, d) := createElement "div" doc in
  let (e, d) := createElement "div" d in
  {| scanOffset := 0; stack := []; block := b; el := e; scanLog := [];
     document := d |}.

Definition editorRenderState (nodes : list MdastNode) (doc : Document)
  : option State :=
  st ← getChildren nodes (jslength sourceCode) (initialState doc);
  if scanOffset st <=? jslength sourceCode then
    lineBlock (sliceFrom sourceCode (scanOffset st)) st
  else Some st.

(** One call: the reference of the root that the call returns, and the
    document after the call. *)
Definition editorRender (nodes : list MdastNode) (doc : Document)
  : option (Ref * Document) :=
  st ← editorRenderState nodes doc; Some (el st, document st).

End Walk.

(** The walk on a call stack under which [fuel] more nested calls of
    [getChildren] fit, as [visitWithin]. *)
Section WalkWithin.
Variable sourceCode : jsstr.

Fixpoint visitWithin (fuel : nat) (n : MdastNode) (i : nat) (st : State)
         {struct n} : option State :=
  match n with
  | MkNode _ _ _ kids =>
      match startOffsetOf n, endOffsetOf n with
      | Some startOffset, Some endOffset =>
          let startOffset :=
            if startOffset <? scanOffset st then scanOffset st
            else startOffset in
          if startOffset >=? endOffset then Some st
          else
            st ← addText (slice sourceCode (scanOffset st) startOffset)
                         true st;
            let st := openNode n st in
            st ← match kids with
                 | Some nodes =>
                     match fuel with
                     | O => None
                     | S fuel =>
                         st ← forNodes (visitWithin fuel) nodes O st;
                         addText (slice sourceCode (scanOffset st) endOffset)
                                 true st
                     end
                 | None =>
                     addText (slice sourceCode (scanOffset st) endOffset)
                             false st
                 end;
            closeNode i st
      | _, _ => Some st
      end
  end.

Definition getChildrenWithin (fuel : nat) (nodes : list MdastNode)
           (parentEndOffset : Z) (st : State) : option State :=
  match fuel with
  | O => None
  | S fuel =>
      st ← forNodes (visitWithin fuel) nodes O st;
      addText (slice sourceCode (scanOffset st) parentEndOffset) true st
  end.

Definition editorRenderStateWithin (limit : nat) (nodes : list MdastNode)
           (doc : Document) : option State :=
  st ← getChildrenWithin limit nodes (jslength sourceCode) (initialState doc);
  if scanOffset st <=? jslength sourceCode then
    lineBlock (sliceFrom sourceCode (scanOffset st)) st
  else Some st.

(** One call in the document [doc], on a call stack that holds [limit]
    nested calls of [getChildren]. *)
Definition editorRenderWithin (limit : nat) (nodes : list MdastNode)
           (doc : Document) : option (Ref * Document) :=
  st ← editorRenderStateWithin limit nodes doc; Some (el st, document st).

End WalkWithin.

End Dom.

(** *** The elements that a call holds *)

(** The places of the state that hold an element. *)
Inductive Slot := SEl | SBlock | SFrame (i : nat).

Definition refAt (hs : Dom.State) (s : Slot) : option Ref :=
  match s with
  | SEl => Some (Dom.el hs)
  | SBlock => Some (Dom.block hs)
  | SFrame i => Dom.ref <$> Dom.stack hs !! i
  end.

Definition elementAt (st : State) (s : Slot) : option Element :=
  match s with
  | SEl => Some (el st)
  | SBlock => Some (block st)
  | SFrame i => frame_el <$> stack st !! i
  end.

Definition withEl (v : Element) (fr : Frame) : Frame :=
  {| node := node fr; frame_el := v; first := first fr |}.

(** The element at [s] becomes [v]. *)
Definition assign (s : Slot) (v : Element) (st : State) : State :=
  match s with
  | SEl => setEl v st
  | SBlock => setBlock v st
  | SFrame i => setStack (alter (withEl v) i (stack st)) st
  end.

Definition withRef (r : Ref) (fr : Dom.Frame) : Dom.Frame :=
  {| Dom.node := Dom.node fr; Dom.ref := r; Dom.first := Dom.first fr |}.

(** The place [s] holds the reference [r]. *)
Definition rebind (s : Slot) (r : Ref) (hs : Dom.State) : Dom.State :=
  match s with
  | SEl => {| Dom.scanOffset := Dom.scanOffset hs; Dom.stack := Dom.stack hs;
              Dom.block := Dom.block hs; Dom.el := r;
              Dom.scanLog := Dom.scanLog hs;
              Dom.document := Dom.document hs |}
  | SBlock => Dom.setBlock r hs
  | SFrame i => Dom.setStack (alter (withRef r) i (Dom.stack hs)) hs
  end.

(** The references that the state holds. *)
Definition roots (hs : Dom.State) : list Ref :=
  Dom.el hs :: Dom.block hs :: (Dom.ref <$> Dom.stack hs).

#[global] Instance Element_inhabited : Inhabited Element :=
  populate (createElement "").

(** The state of the walk that a state on the document stands for, when
    [F] gives the trees below its references. *)
Definition absFrame (F : gmap Ref Element) (fr : Dom.Frame) : Frame :=
  {| node := Dom.node fr; frame_el := F !!! Dom.ref fr;
     first := Dom.first fr |}.

Definition absState (hs : Dom.State) (F : gmap Ref Element) : State :=
  {| scanOffset := Dom.scanOffset hs;
     stack := absFrame F <$> Dom.stack hs;
     block := F !!! Dom.block hs;
     el := F !!! Dom.el hs;
     scanLog := Dom.scanLog hs |}.

(** [F] gives the trees of elements of the document that are not a child
    of any element, all made after [doc0], and [doc] keeps the elements of
    [doc0]. *)
Definition forest (doc0 doc : Document) (F : gmap Ref Element) : Prop :=
  wellFormed doc ∧ keeps doc0 doc
  ∧ ∀ r e, F !! r = Some e →
           (nextRef doc0 ≤ r)%nat ∧ reads (cells doc) r e
           ∧ unreferenced doc r.

(** The references of the state are different elements with a tree in
    [F]. *)
Definition good (doc0 : Document) (hs : Dom.State) (F : gmap Ref Element)
  : Prop :=
  forest doc0 (Dom.document hs) F
  ∧ NoDup (roots hs)
  ∧ ∀ r, r ∈ roots hs → is_Some (F !! r).

(** The cell method [g] does what [f] does to an element: it changes the
    tag, the classes and the attributes alike, and appends the same
    texts. *)
Definition mirrors (g : Cell -> Cell) (f : Element -> Element) : Prop :=
  ∀ c kids,
    ∃ texts,
      cellChildren (g c) = cellChildren c ++ (TextChild <$> texts)
      ∧ f (MkElement (cellTag c) (cellClasses c) (cellAttributes c) kids)
        = MkElement (cellTag (g c)) (cellClasses (g c))
                    (cellAttributes (g c)) (kids ++ (TextNode <$> texts)).

(** The state on the document stands for the state [st] of the walk. *)
Definition stands (doc0 : Document) (hs : Dom.State) (st : State) : Prop :=
  ∃ F, good doc0 hs F ∧ absState hs F = st.

(** A document without elements, and a document with one element. *)
Definition newDocument : Document := {| nextRef := 0%nat; cells := ∅ |}.

Definition documentBody : Document :=
  (Dom.createElement "body" newDocument).2.
(** Reduce the fields of an updated state, and nothing else. *)
Ltac fields :=
  unfold lineBlock, closedBlock, openNode, pushBlock, setStack, setBlock,
    setEl, setScanOffset, mapEl, renewed in *;
  cbn [block stack el scanOffset scanLog node frame_el first] in *.


(** ** Unfolding the walk *)

Lemma visit_unfold sourceCode n i st :
  visit sourceCode n i st =
  match startOffsetOf n, endOffsetOf n with
  | Some s, Some e =>
      let s' := if s <? scanOffset st then scanOffset st else s in
      if s' >=? e then Some st else process sourceCode n i s' e st
  | _, _ => Some st
  end.
Proof. destruct n; reflexivity. Qed.

Lemma forNodes_app body l1 l2 i st :
  forNodes body (l1 ++ l2) i st =
  forNodes body l1 i st ≫= forNodes body l2 (length l1 + i)%nat.
Proof.
  revert i st. induction l1 as [|n l1 IH]; intros i st; simpl; [done|].
  destruct (body n i st) as [st1|]; simpl; [|done].
  rewrite IH. by replace (length l1 + S i)%nat with (S (length l1 + i))%nat by lia.
Qed.

(** ** The stack operations *)

Lemma updateFrame_Some i g st :
  (i < length (stack st))%nat →
  updateFrame i g st = Some (setStack (alter g i (stack st)) st).
Proof.
  intros Hi. unfold updateFrame.
  destruct (lookup_lt_is_Some_2 _ _ Hi) as [fr ->]. done.
Qed.

Lemma updateFrame_inv i g st st' :
  updateFrame i g st = Some st' →
  (i < length (stack st))%nat ∧ st' = setStack (alter g i (stack st)) st.
Proof.
  unfold updateFrame. destruct (stack st !! i) eqn:E; [|done].
  intros [= <-]. split; [|done]. by eapply lookup_lt_Some.
Qed.

Lemma pushElement_O last st fr rest :
  stack st = fr :: rest →
  pushElement 0 last st =
  Some (setStack (renewed 0 fr :: rest)
          (setBlock
             (append (ElementNode
                        (addStyle (node fr) (first fr) last (frame_el fr)))
                     (block st)) st)).
Proof.
  intros Hs. unfold pushElement, updateEl, updateFrame. rewrite Hs. simpl.
  reflexivity.
Qed.

Lemma pushElement_S p last st fr pf :
  stack st !! S p = Some fr →
  stack st !! p = Some pf →
  let style := mapEl (addStyle (node fr) (first fr) last) in
  let s1 := alter style (targetOf p pf) (stack st) in
  let cur := if isFlowContent (node pf) then fr else style fr in
  pushElement (S p) last st =
  Some (setStack
          (alter (renewed (S p)) (S p)
             (alter (mapEl (append (ElementNode (frame_el cur)))) p s1)) st).
Proof.
  intros Hfr Hpf style s1 cur.
  assert (Hlen : (S p < length (stack st))%nat) by by eapply lookup_lt_Some.
  unfold pushElement. rewrite Hfr. simpl. rewrite Hpf. simpl.
  fold (targetOf p pf).
  assert (Hsi : (targetOf p pf < length (stack st))%nat).
  { unfold targetOf. destruct (isFlowContent _); lia. }
  unfold updateEl. rewrite (updateFrame_Some _ _ _ Hsi). simpl.
  fold style. fold s1.
  assert (Hcur : s1 !! S p = Some cur).
  { subst s1 cur. unfold targetOf. destruct (isFlowContent (node pf)).
    - by rewrite list_lookup_alter_ne.
    - by rewrite list_lookup_alter_eq, Hfr. }
  rewrite Hcur. simpl.
  rewrite updateFrame_Some by (simpl; subst s1; rewrite length_alter; lia).
  simpl. rewrite updateFrame_Some; [done|].
  simpl. subst s1. rewrite !length_alter. lia.
Qed.

Lemma pushElement_Some index last st :
  (index < length (stack st))%nat →
  ∃ st', pushElement index last st = Some st'.
Proof.
  intros Hi. destruct index as [|p].
  - destruct (stack st) as [|fr rest] eqn:Hs; [simpl in Hi; lia|].
    rewrite (pushElement_O _ _ _ _ Hs). eauto.
  - destruct (lookup_lt_is_Some_2 (stack st) (S p) Hi) as [fr Hfr].
    destruct (lookup_lt_is_Some_2 (stack st) p ltac:(lia)) as [pf Hpf].
    rewrite (pushElement_S _ _ _ _ _ Hfr Hpf). eauto.
Qed.

(** ** What the operations inside a block leave alone *)

Lemma steady_refl st : steady st st.
Proof. by split. Qed.

Lemma steady_trans a b c : steady a b → steady b c → steady a c.
Proof. intros [] []. split; congruence. Qed.

Lemma steady_length st st' :
  steady st st' → length (stack st') = length (stack st).
Proof.
  intros H. rewrite <- (length_map node (stack st')), (steady_nodes _ _ H).
  apply length_map.
Qed.

Lemma map_node_alter g i (s : list Frame) :
  (∀ fr, node (g fr) = node fr) → map node (alter g i s) = map node s.
Proof.
  intros Hg. change (node <$> alter g i s = node <$> s).
  rewrite (list_fmap_alter node g id) by (apply Forall_true; intros; apply Hg).
  by rewrite list_alter_id.
Qed.

Lemma updateFrame_steady i g st st' :
  (∀ fr, node (g fr) = node fr) →
  updateFrame i g st = Some st' → steady st st'.
Proof.
  intros Hg [_ ->]%updateFrame_inv. split; simpl; try done.
  by apply map_node_alter.
Qed.

Lemma updateEl_steady i f st st' : updateEl i f st = Some st' → steady st st'.
Proof. apply updateFrame_steady. done. Qed.

Lemma updateEl_Some i f st :
  (i < length (stack st))%nat → ∃ st', updateEl i f st = Some st'.
Proof. intros Hi. unfold updateEl. rewrite updateFrame_Some; eauto. Qed.

Lemma pushElement_steady index last st st' :
  pushElement index last st = Some st' → steady st st'.
Proof.
  intros H. destruct index as [|p].
  - destruct (stack st) as [|fr rest] eqn:Hs.
    { unfold pushElement in H. by rewrite Hs in H. }
    rewrite (pushElement_O _ _ _ _ Hs) in H. injection H as <-.
    split; simpl; try done. by rewrite Hs.
  - destruct (stack st !! S p) as [fr|] eqn:Hfr;
      [|unfold pushElement in H; by rewrite Hfr in H].
    destruct (stack st !! p) as [pf|] eqn:Hpf;
      [|unfold pushElement in H; rewrite Hfr in H; simpl in H;
        by rewrite Hpf in H].
    rewrite (pushElement_S _ _ _ _ _ Hfr Hpf) in H. injection H as <-.
    split; simpl; try done.
    rewrite !map_node_alter; done.
Qed.

Lemma pushElements_steady j st :
  (j < length (stack st))%nat →
  ∃ st', pushElements j st = Some st' ∧ steady st st'.
Proof.
  revert st. induction j as [|j IH]; intros st Hj; simpl.
  - eauto using steady_refl.
  - destruct (pushElement_Some (S j) false st Hj) as [st1 H1]. rewrite H1.
    simpl. pose proof (pushElement_steady _ _ _ _ H1) as Hs1.
    destruct (IH st1) as (st2 & H2 & Hs2).
    { rewrite (steady_length _ _ Hs1). lia. }
    eauto using steady_trans.
Qed.

Lemma appendLine_steady line d st :
  stack st ≠ [] → ∃ st', appendLine line d st = Some st' ∧ steady st st'.
Proof.
  intros Hne. destruct line as [|c line]; simpl.
  { eauto using steady_refl. }
  destruct (updateEl_Some (length (stack st) - 1)
              (append (if d then ElementNode (createDelimiter (c :: line))
                       else TextNode (c :: line))) st) as [st' H].
  { destruct (stack st); [done|simpl; lia]. }
  eauto using updateEl_steady.
Qed.

Lemma steady_nonempty st st' : steady st st' → stack st ≠ [] → stack st' ≠ [].
Proof.
  intros H Hne Hs. apply steady_length in H. rewrite Hs in H.
  destruct (stack st); [done|simpl in H; lia].
Qed.

Lemma breakLine_steady line d st :
  stack st ≠ [] → ∃ st', breakLine line d st = Some st' ∧ steady st st'.
Proof.
  intros Hne. unfold breakLine.
  assert (Hlen : (0 < length (stack st))%nat).
  { destruct (stack st); [done|simpl; lia]. }
  destruct (pushElements_steady (length (stack st) - 1) st) as (s1 & -> & H1);
    [lia|]. simpl.
  destruct (updateEl_Some 0 (append (TextNode [ZWSP])) s1) as [s2 E2].
  { rewrite (steady_length _ _ H1). lia. }
  rewrite E2. simpl. pose proof (updateEl_steady _ _ _ _ E2) as H2.
  destruct (pushElement_Some 0 false s2) as [s3 E3].
  { rewrite (steady_length _ _ H2), (steady_length _ _ H1). lia. }
  rewrite E3. simpl. pose proof (pushElement_steady _ _ _ _ E3) as H3.
  destruct (appendLine_steady line d s3) as (s4 & E4 & H4).
  { eauto using steady_nonempty. }
  eauto 6 using steady_trans.
Qed.

Lemma breakLines_steady lines d st :
  stack st ≠ [] → ∃ st', breakLines lines d st = Some st' ∧ steady st st'.
Proof.
  revert st. induction lines as [|line rest IH]; intros st Hne; simpl.
  { eauto using steady_refl. }
  destruct (breakLine_steady line d st Hne) as (s1 & -> & H1). simpl.
  destruct (IH s1) as (s2 & E2 & H2); [eauto using steady_nonempty|].
  eauto using steady_trans.
Qed.

(** [addText] inside a block: the state moves steadily, then [scanOffset]
    advances by the length of the text. *)
Lemma addText_inner t d st :
  stack st ≠ [] →
  ∃ st1, addText t d st
         = Some (setScanOffset (scanOffset st1 + jslength t) st1)
         ∧ steady st st1.
Proof.
  intros Hne. unfold addText.
  destruct (stack st) as [|fr rest] eqn:Hs; [done|].
  assert (Hne' : stack st ≠ []) by by rewrite Hs.
  assert (∃ s1, match split LF t with
                | [] => Some st
                | line :: _ => appendLine line d st
                end = Some s1 ∧ steady st s1) as (s1 & -> & H1).
  { destruct (split LF t); [eauto using steady_refl|].
    by apply appendLine_steady. }
  simpl.
  destruct (breakLines_steady (tail (split LF t)) d s1) as (s2 & -> & H2).
  { eauto using steady_nonempty. }
  simpl. eauto using steady_trans.
Qed.

(** [addText] between blocks never throws. *)
Lemma addText_outer t d st :
  stack st = [] → addText t d st = Some (blockLines (split LF t) st).
Proof. intros Hs. unfold addText. by rewrite Hs. Qed.

(** ** Induction over Mdast trees *)

Lemma MdastNode_nested_ind (P : MdastNode → Prop) :
  (∀ t d p, P (MkNode t d p None)) →
  (∀ t d p nodes, Forall P nodes → P (MkNode t d p (Some nodes))) →
  ∀ n, P n.
Proof.
  intros Hleaf Hnode. fix IH 1. intros [t d p [nodes|]]; [|apply Hleaf].
  apply Hnode.
  exact ((fix all (l : list MdastNode) : Forall P l :=
            match l with
            | [] => @List.Forall_nil _ P
            | n :: l' => @List.Forall_cons _ P n l' (IH n) (all l')
            end) nodes).
Qed.

Lemma allNodes_leaf p t d pos :
  allNodes p (MkNode t d pos None) = true → p (MkNode t d pos None) = true.
Proof. simpl. by intros [? _]%andb_prop. Qed.

Lemma allNodes_node p t d pos nodes :
  allNodes p (MkNode t d pos (Some nodes)) = true →
  p (MkNode t d pos (Some nodes)) = true
  ∧ Forall (λ n, allNodes p n = true) nodes.
Proof.
  simpl. intros [? H]%andb_prop. split; [done|].
  apply Forall_forall. intros n Hn. rewrite forallb_forall in H.
  apply H. by apply list_elem_of_In.
Qed.

Lemma allNodes_here p n : allNodes p n = true → p n = true.
Proof. destruct n as [t d pos [nodes|]]; simpl; by intros [? _]%andb_prop. Qed.

(** The end of a nested node: its element goes to the parent's element and
    its frame is popped. *)
Lemma closeNode_nested i st :
  (1 < length (stack st))%nat →
  closeNode i st =
  pushElement (length (stack st) - 1) true st
  ≫= λ st', Some (setStack (removelast (stack st')) st').
Proof. intros H. unfold closeNode. by rewrite decide_True. Qed.

Lemma map_removelast {A B} (f : A → B) (l : list A) :
  map f (removelast l) = removelast (map f l).
Proof.
  induction l as [|x [|y l] IH]; [done..|].
  change (f x :: map f (removelast (y :: l))
          = f x :: removelast (map f (y :: l))). by rewrite IH.
Qed.

(** ** A proof rule for the walk inside a block

    [I] holds of the states of the walk and [R] relates the state before
    and after a step at the same depth of the stack; [good] holds of every
    node that is walked, and [lim] of every offset up to which text is
    emitted. *)
Section NestedWalk.
Context (sourceCode : jsstr) (good : MdastNode → bool) (lim : Z → Prop)
        (I : State → Prop) (R : State → State → Prop).

Hypothesis R_refl : ∀ st, R st st.
Hypothesis R_trans : ∀ a b c, R a b → R b c → R a c.
Hypothesis lim_end :
  ∀ n e st,
    good n = true → endOffsetOf n = Some e → I st → scanOffset st < e →
    lim e.
Hypothesis step_gap :
  ∀ st to e d st',
    stack st ≠ [] → I st → scanOffset st ≤ to → to < e → lim e →
    addText (slice sourceCode (scanOffset st) to) d st = Some st' →
    I st' ∧ R st st'.
Hypothesis step_addText :
  ∀ st to d st',
    stack st ≠ [] → I st → lim to →
    addText (slice sourceCode (scanOffset st) to) d st = Some st' →
    I st' ∧ R st st'.
Hypothesis step_open :
  ∀ n st, good n = true → I st → I (openNode n st).
Hypothesis step_close :
  ∀ n i st st1 st2,
    good n = true → stack st ≠ [] → I st → I st1 →
    R (openNode n st) st1 →
    map node (stack st1) = map node (stack st) ++ [n] →
    closeNode i st1 = Some st2 →
    I st2 ∧ R st st2.

Local Abbreviation walks := (walks I R).

Lemma walks_addText to d :
  lim to →
  walks (λ st, addText (slice sourceCode (scanOffset st) to) d st).
Proof.
  intros Hlim st Hne HI.
  destruct (addText_inner (slice sourceCode (scanOffset st) to) d st Hne)
    as (st1 & E & H1).
  eexists. split; [exact E|]. split; [apply H1|].
  eapply step_addText; eauto.
Qed.

Lemma walks_gap to e d :
  to < e → lim e →
  ∀ st, stack st ≠ [] → I st → scanOffset st ≤ to →
        ∃ st', addText (slice sourceCode (scanOffset st) to) d st = Some st'
               ∧ map node (stack st') = map node (stack st)
               ∧ I st' ∧ R st st'.
Proof.
  intros Hlt Hlim st Hne HI Hle.
  destruct (addText_inner (slice sourceCode (scanOffset st) to) d st Hne)
    as (st1 & E & H1).
  eexists. split; [exact E|]. split; [apply H1|].
  eapply step_gap; eauto.
Qed.

Lemma nodes_nonempty st st' :
  map node (stack st') = map node (stack st) → stack st ≠ [] →
  stack st' ≠ [].
Proof. intros H Hne Hs. rewrite Hs in H. by destruct (stack st). Qed.

Lemma walks_forNodes nodes :
  Forall (λ n, ∀ i, walks (visit sourceCode n i)) nodes →
  ∀ i, walks (forNodes (visit sourceCode) nodes i).
Proof.
  induction 1 as [|n nodes Hn _ IH]; intros i st Hne HI; simpl.
  { eauto. }
  destruct (Hn i st Hne HI) as (st1 & -> & Hnodes1 & HI1 & HR1). simpl.
  destruct (IH (S i) st1) as (st2 & E2 & Hnodes2 & HI2 & HR2);
    [eauto using nodes_nonempty|done|].
  exists st2. split; [done|]. split; [congruence|eauto].
Qed.

Lemma walks_close n i st st1 :
  good n = true → stack st ≠ [] → I st → I st1 →
  R (openNode n st) st1 →
  map node (stack st1) = map node (stack st) ++ [n] →
  ∃ st2, closeNode i st1 = Some st2
         ∧ map node (stack st2) = map node (stack st)
         ∧ I st2 ∧ R st st2.
Proof.
  intros Hgood Hne HI HI1 HR Hnodes.
  assert (Hlen : length (stack st1) = S (length (stack st))).
  { rewrite <- (length_map node (stack st1)), Hnodes, length_app,
      length_map. simpl. lia. }
  assert (Hdeep : (1 < length (stack st1))%nat).
  { rewrite Hlen. destruct (stack st); [done|simpl; lia]. }
  pose proof (closeNode_nested i st1 Hdeep) as Hclose.
  destruct (pushElement_Some (length (stack st1) - 1) true st1)
    as [st2 E2]; [lia|].
  rewrite E2 in Hclose. simpl in Hclose.
  eexists. split; [exact Hclose|]. split.
  - simpl. rewrite map_removelast.
    rewrite (steady_nodes _ _ (pushElement_steady _ _ _ _ E2)), Hnodes.
    apply removelast_last.
  - eapply step_close; eauto.
Qed.

(** The part of [process] after the gap, for the content [c] of the
    node. *)
Lemma walks_node n i (c : State → option State) st :
  good n = true → stack st ≠ [] → I st →
  walks c →
  ∃ st', (c (openNode n st) ≫= closeNode i) = Some st'
         ∧ map node (stack st') = map node (stack st)
         ∧ I st' ∧ R st st'.
Proof.
  intros Hgood Hne HI Hc.
  destruct (Hc (openNode n st)) as (st1 & -> & Hn1 & HI1 & HR1).
  { simpl. by destruct (stack st). }
  { by apply step_open. }
  simpl. apply (walks_close n); try done.
  rewrite Hn1. simpl. by rewrite map_app.
Qed.

Theorem walks_visit n :
  allNodes good n = true → ∀ i, walks (visit sourceCode n i).
Proof.
  induction n as [t d pos|t d pos nodes IH] using MdastNode_nested_ind;
    intros Hall i st Hne HI; rewrite visit_unfold.
  - apply allNodes_leaf in Hall.
    destruct (startOffsetOf _) as [s|] eqn:Es; [|eauto 6].
    destruct (endOffsetOf _) as [e|] eqn:Ee; [|eauto 6].
    cbv zeta. set (s' := if s <? scanOffset st then _ else _).
    assert (Hs' : scanOffset st ≤ s').
    { subst s'. destruct (Z.ltb_spec s (scanOffset st)); lia. }
    destruct (Z.geb_spec s' e) as [Hse|Hse]; [eauto 6|].
    assert (Hlim : lim e) by (eapply lim_end; eauto; lia).
    unfold process.
    destruct (walks_gap s' e true Hse Hlim st Hne HI Hs')
      as (st1 & -> & Hn1 & HI1 & HR1). simpl.
    assert (Hne1 : stack st1 ≠ []) by eauto using nodes_nonempty.
    destruct (walks_node (MkNode t d pos None) i
                (λ st, addText (slice sourceCode (scanOffset st) e) false st)
                st1 Hall Hne1 HI1)
      as (st2 & E2 & Hn2 & HI2 & HR2).
    { by apply walks_addText. }
    exists st2. split; [exact E2|]. split; [congruence|eauto].
  - apply allNodes_node in Hall as [Hgood Hall].
    destruct (startOffsetOf _) as [s|] eqn:Es; [|eauto 6].
    destruct (endOffsetOf _) as [e|] eqn:Ee; [|eauto 6].
    cbv zeta. set (s' := if s <? scanOffset st then _ else _).
    assert (Hs' : scanOffset st ≤ s').
    { subst s'. destruct (Z.ltb_spec s (scanOffset st)); lia. }
    destruct (Z.geb_spec s' e) as [Hse|Hse]; [eauto 6|].
    assert (Hlim : lim e) by (eapply lim_end; eauto; lia).
    unfold process.
    destruct (walks_gap s' e true Hse Hlim st Hne HI Hs')
      as (st1 & -> & Hn1 & HI1 & HR1). simpl.
    assert (Hne1 : stack st1 ≠ []) by eauto using nodes_nonempty.
    assert (Hkids : Forall (λ n, ∀ i, walks (visit sourceCode n i)) nodes).
    { rewrite Forall_forall in IH, Hall |- *. intros n Hn. eauto. }
    destruct (walks_node (MkNode t d pos (Some nodes)) i
                (getChildren sourceCode nodes e) st1 Hgood Hne1 HI1)
      as (st2 & E2 & Hn2 & HI2 & HR2).
    { intros a Ha HIa. unfold getChildren.
      destruct (walks_forNodes nodes Hkids O a Ha HIa)
        as (b & -> & Hnb & HIb & HRb). simpl.
      destruct (walks_addText e true Hlim b) as (c & -> & Hnc & HIc & HRc);
        [eauto using nodes_nonempty|done|].
      exists c. split; [done|]. split; [congruence|eauto]. }
    exists st2. split; [exact E2|]. split; [congruence|eauto].
Qed.

Corollary walks_forNodes_all nodes i :
  forallb (allNodes good) nodes = true →
  walks (forNodes (visit sourceCode) nodes i).
Proof.
  intros Hall. apply walks_forNodes. apply Forall_forall. intros n Hn.
  apply walks_visit. rewrite forallb_forall in Hall. apply Hall.
  by apply list_elem_of_In.
Qed.

Corollary walks_getChildren nodes to :
  forallb (allNodes good) nodes = true → lim to →
  walks (getChildren sourceCode nodes to).
Proof.
  intros Hall Hlim st Hne HI. unfold getChildren.
  destruct (walks_forNodes nodes) with (i := O) (st := st)
    as (st1 & -> & Hn1 & HI1 & HR1); [|done..|].
  { apply Forall_forall. intros n Hn. apply walks_visit.
    rewrite forallb_forall in Hall. apply Hall. by apply list_elem_of_In. }
  simpl.
  destruct (walks_addText to true Hlim st1) as (st2 & -> & Hn2 & HI2 & HR2);
    [eauto using nodes_nonempty|done|].
  exists st2. split; [done|]. split; [congruence|eauto].
Qed.

Corollary walks_blockContent n e :
  allNodes good n = true → lim e → walks (blockContent sourceCode n e).
Proof.
  intros Hall Hlim. unfold blockContent.
  destruct n as [t d pos [nodes|]]; simpl.
  - apply walks_getChildren; [|done]. simpl in Hall.
    by apply andb_prop in Hall as [_ ?].
  - by apply walks_addText.
Qed.

End NestedWalk.

(** ** The walk never throws *)

Lemma allNodes_true n : allNodes (λ _, true) n = true.
Proof.
  induction n as [t d pos|t d pos nodes IH] using MdastNode_nested_ind;
    simpl; [done|].
  apply forallb_forall. intros n Hn. rewrite Forall_forall in IH.
  apply IH. by apply list_elem_of_In.
Qed.

Lemma forallb_allNodes_true nodes :
  forallb (allNodes (λ _, true)) nodes = true.
Proof. apply forallb_forall. intros. apply allNodes_true. Qed.

Lemma getChildren_nested_total sourceCode nodes to st :
  stack st ≠ [] →
  ∃ st', getChildren sourceCode nodes to st = Some st'
         ∧ map node (stack st') = map node (stack st).
Proof.
  intros Hne.
  destruct (walks_getChildren sourceCode (λ _, true) (λ _, True) (λ _, True)
              (λ _ _, True))
    with (nodes := nodes) (to := to) (st := st) as (st' & E & Hn & _);
    eauto using forallb_allNodes_true.
Qed.

Lemma closeNode_top i st fr :
  stack st = [fr] → closeNode i st = Some (closedBlock i fr st).
Proof.
  destruct st as [off stk blk root log]. simpl. intros ->. reflexivity.
Qed.

Lemma process_top sourceCode n i s e st :
  stack st = [] →
  process sourceCode n i s e st =
  blockContent sourceCode n e
    (openNode n
       (blockLines (split LF (slice sourceCode (scanOffset st) s)) st))
  ≫= closeNode i.
Proof. intros Hs. unfold process. by rewrite (addText_outer _ _ _ Hs). Qed.

Lemma blockLines_cons line l2 rest st :
  blockLines (line :: l2 :: rest) st
  = blockLines (l2 :: rest) (lineBlock line st).
Proof. reflexivity. Qed.

Lemma blockLines_stack lines st : stack (blockLines lines st) = stack st.
Proof.
  revert st. induction lines as [|line [|l2 rest] IH]; intros st; [done..|].
  by rewrite blockLines_cons, IH.
Qed.

Lemma blockContent_total sourceCode n e st :
  stack st ≠ [] →
  ∃ st', blockContent sourceCode n e st = Some st'
         ∧ map node (stack st') = map node (stack st).
Proof.
  intros Hne. unfold blockContent. destruct (children n) as [nodes|].
  - by apply getChildren_nested_total.
  - destruct (addText_inner (slice sourceCode (scanOffset st) e) false st Hne)
      as (st1 & E & H1).
    eexists. split; [exact E|]. apply H1.
Qed.

Lemma singleton_map_node (s : list Frame) n :
  map node s = [n] → ∃ fr, s = [fr] ∧ node fr = n.
Proof. destruct s as [|fr [|]]; [done| |done]. intros [= <-]. eauto. Qed.

(** A top-level node that is not skipped becomes one block. *)
Lemma process_top_inv sourceCode n i s e st :
  stack st = [] →
  let st1 := openNode n
               (blockLines (split LF (slice sourceCode (scanOffset st) s))
                           st) in
  ∃ st2 fr,
    blockContent sourceCode n e st1 = Some st2
    ∧ stack st2 = [fr] ∧ node fr = n
    ∧ process sourceCode n i s e st = Some (closedBlock i fr st2).
Proof.
  intros Hs st1.
  assert (Hs1 : stack st1 = [ {| node := n; frame_el := createElement "div";
                                first := true |} ]).
  { subst st1. unfold openNode. simpl. by rewrite blockLines_stack, Hs. }
  destruct (blockContent_total sourceCode n e st1) as (st2 & E2 & Hn2).
  { by rewrite Hs1. }
  rewrite Hs1 in Hn2. simpl in Hn2.
  destruct (singleton_map_node _ _ Hn2) as (fr & Hfr & Hnode).
  exists st2, fr. split; [done|]. split; [done|]. split; [done|].
  rewrite (process_top _ _ _ _ _ _ Hs). fold st1. rewrite E2. simpl.
  by apply closeNode_top.
Qed.

(** ** A proof rule for the walk over the top-level nodes

    [Inv] holds of the states between the blocks of the top-level nodes
    [nodes]. *)
Section TopWalk.
Context (sourceCode : jsstr) (nodes : list MdastNode) (Inv : State → Prop).

Hypothesis Inv_skip :
  ∀ st to,
    stack st = [] → Inv st →
    Inv (blockLines (split LF (slice sourceCode (scanOffset st) to)) st).
Hypothesis Inv_process :
  ∀ n i s e st st',
    nodes !! i = Some n → stack st = [] → Inv st →
    startOffsetOf n = Some s → endOffsetOf n = Some e →
    Z.max s (scanOffset st) < e →
    process sourceCode n i (Z.max s (scanOffset st)) e st = Some st' →
    Inv st'.

Lemma top_visit n i st :
  nodes !! i = Some n → stack st = [] → Inv st →
  ∃ st', visit sourceCode n i st = Some st' ∧ stack st' = [] ∧ Inv st'.
Proof.
  intros Hn Hs HI. rewrite visit_unfold.
  destruct (startOffsetOf n) as [s|] eqn:Es; [|eauto].
  destruct (endOffsetOf n) as [e|] eqn:Ee; [|eauto].
  cbv zeta.
  replace (if s <? scanOffset st then scanOffset st else s)
    with (Z.max s (scanOffset st))
    by (destruct (Z.ltb_spec s (scanOffset st)); lia).
  destruct (Z.geb_spec (Z.max s (scanOffset st)) e) as [Hse|Hse]; [eauto|].
  destruct (process_top_inv sourceCode n i (Z.max s (scanOffset st)) e st Hs)
    as (st2 & fr & _ & _ & _ & E).
  eexists. split; [exact E|]. split; [done|]. eapply Inv_process; eauto.
Qed.

Lemma top_forNodes rest :
  ∀ i st,
    drop i nodes = rest → stack st = [] → Inv st →
    ∃ st', forNodes (visit sourceCode) rest i st = Some st'
           ∧ stack st' = [] ∧ Inv st'.
Proof.
  induction rest as [|n rest IH]; intros i st Hdrop Hs HI; simpl.
  { eauto. }
  assert (Hn : nodes !! i = Some n).
  { rewrite <- (Nat.add_0_r i), <- lookup_drop, Hdrop. done. }
  destruct (top_visit n i st Hn Hs HI) as (st1 & -> & Hs1 & HI1). simpl.
  apply IH; [|done..].
  replace (S i) with (i + 1)%nat by lia. by rewrite <- drop_drop, Hdrop.
Qed.

Theorem top_getChildren to st :
  stack st = [] → Inv st →
  ∃ st', getChildren sourceCode nodes to st = Some st'
         ∧ stack st' = [] ∧ Inv st'.
Proof.
  intros Hs HI. unfold getChildren.
  destruct (top_forNodes nodes O st) as (st1 & -> & Hs1 & HI1); [done..|].
  simpl. rewrite (addText_outer _ _ _ Hs1). eexists. split; [done|].
  split; [by rewrite blockLines_stack|by apply Inv_skip].
Qed.

End TopWalk.

(** ** Every call returns *)

Lemma editorRenderState_total sourceCode nodes :
  ∃ st, editorRenderState sourceCode nodes = Some st ∧ stack st = [].
Proof.
  destruct (top_getChildren sourceCode nodes (λ _, True))
    with (to := jslength sourceCode) (st := initialState)
    as (st & E & Hs & _); try done.
  unfold editorRenderState. rewrite E. simpl. eexists. split; [done|].
  destruct (_ <=? _); [|done]. done.
Qed.

Lemma visit_no_range sourceCode n i st :
  startOffsetOf n = None ∨ endOffsetOf n = None →
  visit sourceCode n i st = Some st.
Proof.
  rewrite visit_unfold. intros [-> | ->]; [done|].
  by destruct (startOffsetOf n).
Qed.

Lemma visit_empty_range sourceCode n i st s e :
  startOffsetOf n = Some s → endOffsetOf n = Some e →
  e ≤ Z.max s (scanOffset st) →
  visit sourceCode n i st = Some st.
Proof.
  rewrite visit_unfold. intros -> -> Hle. cbv zeta.
  destruct (Z.ltb_spec s (scanOffset st)).
  - destruct (Z.geb_spec (scanOffset st) e); [done|lia].
  - destruct (Z.geb_spec s e); [done|lia].
Qed.

Lemma visit_clamped sourceCode n i st s e :
  startOffsetOf n = Some s → endOffsetOf n = Some e →
  Z.max s (scanOffset st) < e →
  visit sourceCode n i st
  = process sourceCode n i (Z.max s (scanOffset st)) e st.
Proof.
  rewrite visit_unfold. intros -> -> Hlt. cbv zeta.
  destruct (Z.ltb_spec s (scanOffset st)).
  - destruct (Z.geb_spec (scanOffset st) e); [lia|]. f_equal. lia.
  - destruct (Z.geb_spec s e); [lia|]. f_equal. lia.
Qed.

Lemma slice_empty s from to : 0 ≤ to → to ≤ from → slice s from to = [].
Proof.
  intros Hto Hle. unfold slice, sliceIndex, jslength.
  destruct (Z.ltb_spec from 0); [lia|]. destruct (Z.ltb_spec to 0); [lia|].
  replace (Z.to_nat _) with O by lia. done.
Qed.

(** ** The depth of the call stack *)

Lemma visitWithin_unfold sourceCode fuel n i st :
  visitWithin sourceCode fuel n i st =
  match startOffsetOf n, endOffsetOf n with
  | Some s, Some e =>
      let s' := if s <? scanOffset st then scanOffset st else s in
      if s' >=? e then Some st else processWithin sourceCode fuel n i s' e st
  | _, _ => Some st
  end.
Proof. destruct n as [t d p [nodes|]]; destruct fuel; reflexivity. Qed.

Lemma forNodes_ext body1 body2 nodes :
  Forall (λ n, ∀ i st, body1 n i st = body2 n i st) nodes →
  ∀ i st, forNodes body1 nodes i st = forNodes body2 nodes i st.
Proof.
  induction 1 as [|n rest Hn _ IH]; intros i st; simpl; [done|].
  rewrite Hn. destruct (body2 n i st) as [st1|]; simpl; [apply IH|done].
Qed.

(** On a stack that holds the depth of the tree, the calls nest as in
    [visit]. *)
Lemma visitWithin_visit sourceCode n :
  ∀ fuel, fits fuel n = true →
  ∀ i st, visitWithin sourceCode fuel n i st = visit sourceCode n i st.
Proof.
  induction n as [t d p|t d p nodes IH] using MdastNode_nested_ind;
    intros fuel Hfit i st.
  - by destruct fuel.
  - destruct fuel as [|fuel]; [done|].
    rewrite visitWithin_unfold, visit_unfold.
    unfold processWithin, process, getChildrenWithin, getChildren.
    cbn [children].
    assert (E : ∀ j s, forNodes (visitWithin sourceCode fuel) nodes j s
                       = forNodes (visit sourceCode) nodes j s).
    { apply forNodes_ext. rewrite Forall_forall in IH.
      apply Forall_forall. intros m Hm. apply IH; [done|].
      cbn [fits] in Hfit. rewrite forallb_forall in Hfit. apply Hfit.
      by apply list_elem_of_In. }
    destruct (startOffsetOf _); [|done]. destruct (endOffsetOf _); [|done].
    cbv zeta. destruct (_ >=? _); [done|].
    destruct (addText _ true st) as [st1|]; [|done]. simpl.
    by rewrite E.
Qed.

Lemma getChildrenWithin_getChildren sourceCode limit nodes to st :
  fitsAll limit nodes = true →
  getChildrenWithin sourceCode limit nodes to st
  = getChildren sourceCode nodes to st.
Proof.
  destruct limit as [|fuel]; [done|]. intros Hfit.
  unfold getChildrenWithin, getChildren. f_equal.
  apply forNodes_ext, Forall_forall. intros m Hm i s.
  apply visitWithin_visit. cbn [fitsAll] in Hfit.
  rewrite forallb_forall in Hfit. apply Hfit. by apply list_elem_of_In.
Qed.

Lemma editorRenderWithin_editorRender sourceCode limit nodes :
  fitsAll limit nodes = true →
  editorRenderWithin sourceCode limit nodes = editorRender sourceCode nodes.
Proof.
  intros Hfit. unfold editorRenderWithin, editorRenderStateWithin,
    editorRender, editorRenderState.
  by rewrite getChildrenWithin_getChildren.
Qed.

Lemma addText_nothing d st :
  ∃ st', addText [] d st = Some st' ∧ scanOffset st' = scanOffset st
         ∧ (stack st ≠ [] → stack st' ≠ []).
Proof.
  unfold addText. destruct (stack st) as [|fr rest] eqn:Hs.
  - exists st. split; [done|]. by rewrite Hs.
  - eexists. split; [reflexivity|]. fields. rewrite Hs.
    split; [unfold jslength; simpl; lia|done].
Qed.

(** A tree nested deeper than the stack holds: the call that does not fit
    throws. *)
Lemma nest_overflows k :
  ∀ fuel i st, (fuel < k)%nat → scanOffset st = 0 →
  visitWithin (js "a") fuel (nest k) i st = None.
Proof.
  induction k as [|k IH]; intros fuel i st Hlt Hsc; [lia|].
  rewrite visitWithin_unfold.
  change (startOffsetOf (nest (S k))) with (Some 0).
  change (endOffsetOf (nest (S k))) with (Some 1).
  cbv zeta. rewrite Hsc. change (0 <? 0) with false. cbv iota.
  change (0 >=? 1) with false. cbv iota.
  unfold processWithin. rewrite Hsc.
  change (slice (js "a") 0 0) with (@nil codeUnit).
  destruct (addText_nothing true st) as (st1 & -> & Hsc1 & _).
  cbn [mbind option_bind]. change (children (nest (S k))) with (Some [nest k]).
  cbv iota beta. destruct fuel as [|fuel]; [done|].
  unfold getChildrenWithin. cbn [forNodes].
  rewrite IH; [done|lia|]. fields. lia.
Qed.

(** C3. On a call stack that holds the depth of the tree, [editorRender]
    returns an element, for every source text: the calls of [getChildren]
    nest once for every level of the tree, and with [limit] of them fitting
    the call returns the element that the walk without a bound gives. A
    node without a start or an end offset leaves the state as it is, and
    the loop goes on with the next sibling. A node whose start offset is
    below [scanOffset] is processed as if it started at [scanOffset], so the
    gap emitted before it is empty. A node whose clamped start is not below
    its end leaves the state as it is. *)
Theorem editorRender_never_throws :
  ∀ (sourceCode : jsstr) (nodes : list MdastNode) (limit : nat),
    fitsAll limit nodes = true →
    (∃ root, editorRenderWithin sourceCode limit nodes = Some root
             ∧ editorRender sourceCode nodes = Some root)
    ∧ (∀ fuel n rest i st,
          startOffsetOf n = None ∨ endOffsetOf n = None →
          visitWithin sourceCode fuel n i st = Some st
          ∧ forNodes (visitWithin sourceCode fuel) (n :: rest) i st
            = forNodes (visitWithin sourceCode fuel) rest (S i) st)
    ∧ (∀ fuel n i st s e,
          startOffsetOf n = Some s → endOffsetOf n = Some e →
          s < scanOffset st → scanOffset st < e → 0 ≤ scanOffset st →
          visitWithin sourceCode fuel n i st
          = processWithin sourceCode fuel n i (scanOffset st) e st
          ∧ slice sourceCode (scanOffset st) (Z.max s (scanOffset st)) = [])
    ∧ (∀ fuel n rest i st s e,
          startOffsetOf n = Some s → endOffsetOf n = Some e →
          e ≤ Z.max s (scanOffset st) →
          visitWithin sourceCode fuel n i st = Some st
          ∧ forNodes (visitWithin sourceCode fuel) (n :: rest) i st
            = forNodes (visitWithin sourceCode fuel) rest (S i) st).
Proof.
  intros sourceCode nodes limit Hfit. split; [|split; [|split]].
  - destruct (editorRenderState_total sourceCode nodes) as (st & E & _).
    exists (el st). rewrite editorRenderWithin_editorRender by done.
    unfold editorRender. by rewrite E.
  - intros fuel n rest i st H.
    assert (E : visitWithin sourceCode fuel n i st = Some st).
    { rewrite visitWithin_unfold. destruct H as [-> | ->]; [done|].
      by destruct (startOffsetOf n). }
    split; [done|]. simpl. by rewrite E.
  - intros fuel n i st s e Hs He Hlt Hlt' Hpos. split.
    + rewrite visitWithin_unfold, Hs, He. cbv zeta.
      destruct (Z.ltb_spec s (scanOffset st)); [|lia].
      destruct (Z.geb_spec (scanOffset st) e); [lia|done].
    + apply slice_empty; lia.
  - intros fuel n rest i st s e Hs He Hle.
    assert (E : visitWithin sourceCode fuel n i st = Some st).
    { rewrite visitWithin_unfold, Hs, He. cbv zeta.
      destruct (Z.ltb_spec s (scanOffset st)).
      - destruct (Z.geb_spec (scanOffset st) e); [done|lia].
      - destruct (Z.geb_spec s e); [done|lia]. }
    split; [done|]. simpl. by rewrite E.
Qed.

Lemma editorRender_never_throws_witness :
  fitsAll 2 treeB = true
  ∧ (∃ root, editorRenderWithin sourceB 2 treeB = Some root
             ∧ editorRender sourceB treeB = Some root)
  ∧ visitWithin sourceB 0 (MkNode text 0 None None) 0 initialState
    = Some initialState
  ∧ visitWithin sourceB 0 (literal text 0 5) 0 (setScanOffset 2 initialState)
    = processWithin sourceB 0 (literal text 0 5) 0 2 5
                    (setScanOffset 2 initialState)
  ∧ visitWithin sourceB 0 (literal text 3 3) 0 initialState
    = Some initialState.
Proof.
  split; [reflexivity|].
  destruct (editorRender_never_throws sourceB treeB 2 eq_refl)
    as (H1 & H2 & H3 & H4).
  split; [exact H1|]. split; [|split].
  - apply (H2 O (MkNode text 0 None None) [] O initialState). by left.
  - apply (H3 O (literal text 0 5) O (setScanOffset 2 initialState) 0 5);
      try reflexivity; simpl; lia.
  - apply (H4 O (literal text 3 3) [] O initialState 3 3);
      reflexivity || (simpl; lia).
Defined.

(** No call stack holds every tree: under each bound on the nested calls
    of [getChildren] there is a tree on which [editorRender] throws. *)
Lemma deep_tree_overflows :
  ¬ ∃ limit : nat, ∀ (sourceCode : jsstr) (nodes : list MdastNode),
      ∃ root, editorRenderWithin sourceCode limit nodes = Some root.
Proof.
  intros (limit & H). destruct (H (js "a") [nest limit]) as (root & E).
  unfold editorRenderWithin, editorRenderStateWithin, getChildrenWithin in E.
  destruct limit as [|fuel]; [done|]. cbn [forNodes] in E.
  rewrite nest_overflows in E; [done|lia|done].
Qed.

(** ** The scan offset *)

Lemma jslength_nonneg s : 0 ≤ jslength s.
Proof. unfold jslength. lia. Qed.

Lemma jslength_app s t : jslength (s ++ t) = jslength s + jslength t.
Proof. unfold jslength. rewrite length_app. lia. Qed.

(** A slice from [from] ends inside the string. *)
Lemma slice_length s from to :
  0 ≤ from → from + jslength (slice s from to) ≤ Z.max from (jslength s).
Proof.
  intros Hfrom. unfold slice, sliceIndex, jslength.
  destruct (Z.ltb_spec from 0); [lia|].
  rewrite length_take, length_drop. lia.
Qed.

Lemma mono_initial : mono initialState.
Proof. split; [|done]. repeat constructor. Qed.

Lemma mono_nonneg st : mono st → 0 ≤ scanOffset st.
Proof.
  intros [Hs Hh]. unfold history in *.
  destruct (scanLog st) as [|v l]; simpl in *; [by injection Hh as <-|].
  injection Hh as <-. apply StronglySorted_inv in Hs as [_ Hall].
  rewrite Forall_forall in Hall. apply Z.ge_le, Hall, elem_of_app.
  right. by apply list_elem_of_singleton.
Qed.

Lemma mono_set v st :
  mono st → scanOffset st ≤ v → mono (setScanOffset v st).
Proof.
  intros [Hs Hh] Hle. split; [|done].
  change (StronglySorted Z.ge (v :: history st)). constructor; [done|].
  destruct (history st) as [|w l]; [done|]. injection Hh as ->.
  apply StronglySorted_inv in Hs as [_ Hall]. constructor; [lia|].
  eapply Forall_impl; [exact Hall|]. simpl. lia.
Qed.

Lemma within_set len v st :
  within len st → v ≤ len + 1 → within len (setScanOffset v st).
Proof. intros H Hv. by constructor. Qed.

Lemma mono_same st st' :
  scanOffset st' = scanOffset st → scanLog st' = scanLog st →
  mono st → mono st'.
Proof. unfold mono, history. by intros -> ->. Qed.

Lemma within_same len st st' :
  scanLog st' = scanLog st → within len st → within len st'.
Proof. unfold within, history. by intros ->. Qed.

Lemma advances_refl len st : advances len st st.
Proof. intros H. split; [done|]. split; [lia|done]. Qed.

Lemma advances_trans len a b c :
  advances len a b → advances len b c → advances len a c.
Proof.
  intros Hab Hbc Ha. destruct (Hab Ha) as (Hb & Hle1 & Hw1).
  destruct (Hbc Hb) as (Hc & Hle2 & Hw2). split; [done|]. split; [lia|].
  intros Hlen Hw. destruct (Hw1 Hlen Hw) as [Hlenb Hwb]. by apply Hw2.
Qed.

Lemma advances_addText sourceCode st to d st' :
  stack st ≠ [] →
  addText (slice sourceCode (scanOffset st) to) d st = Some st' →
  advances (jslength sourceCode) st st'.
Proof.
  intros Hne E Hm.
  destruct (addText_inner (slice sourceCode (scanOffset st) to) d st Hne)
    as (st1 & E1 & H1).
  rewrite E1 in E. injection E as <-.
  pose proof (mono_nonneg _ Hm) as Hpos.
  pose proof (slice_length sourceCode (scanOffset st) to Hpos) as Hlen.
  pose proof (jslength_nonneg (slice sourceCode (scanOffset st) to)) as Hnn.
  assert (Hm1 : mono st1).
  { eapply mono_same; [apply H1..|done]. }
  rewrite (steady_offset _ _ H1). split; [|split].
  - apply mono_set; [done|]. rewrite (steady_offset _ _ H1). lia.
  - simpl. lia.
  - intros Hle Hw. simpl. split; [lia|].
    apply within_set; [|lia]. eapply within_same; [apply H1|done].
Qed.

Lemma closeNode_nested_inv i n st st1 st2 :
  stack st ≠ [] →
  map node (stack st1) = map node (stack st) ++ [n] →
  closeNode i st1 = Some st2 →
  ∃ st', pushElement (length (stack st1) - 1) true st1 = Some st'
         ∧ st2 = setStack (removelast (stack st')) st'.
Proof.
  intros Hne Hnodes E.
  assert (Hlen : length (stack st1) = S (length (stack st))).
  { rewrite <- (length_map node (stack st1)), Hnodes, length_app,
      length_map. simpl. lia. }
  rewrite closeNode_nested in E.
  2:{ rewrite Hlen. destruct (stack st); [done|simpl; lia]. }
  destruct (pushElement _ _ _) as [st'|]; [|done].
  injection E as <-. eauto.
Qed.

Lemma advances_bracket len n i st st1 st2 :
  stack st ≠ [] →
  advances len (openNode n st) st1 →
  map node (stack st1) = map node (stack st) ++ [n] →
  closeNode i st1 = Some st2 →
  advances len st st2.
Proof.
  intros Hne HR Hnodes E Hm.
  destruct (closeNode_nested_inv _ _ _ _ _ Hne Hnodes E) as (st' & E' & ->).
  pose proof (pushElement_steady _ _ _ _ E') as Hst.
  destruct HR as (Hm1 & Hle & Hw); [done|]. simpl in *.
  rewrite (steady_offset _ _ Hst). split; [|split; [done|]].
  - eapply mono_same; [| |exact Hm1]; [apply Hst|apply Hst].
  - intros Hlen Hwi. destruct (Hw Hlen Hwi) as [? Hw1]. split; [done|].
    eapply within_same; [|exact Hw1]. apply Hst.
Qed.

(** Inside a block [scanOffset] only grows, and stays within the source. *)
Lemma blockContent_advances sourceCode n e st :
  stack st ≠ [] →
  ∃ st', blockContent sourceCode n e st = Some st'
         ∧ map node (stack st') = map node (stack st)
         ∧ advances (jslength sourceCode) st st'.
Proof.
  intros Hne.
  destruct (walks_blockContent sourceCode (λ _, true) (λ _, True) (λ _, True)
              (advances (jslength sourceCode)))
    with (n := n) (e := e) (st := st) as (st' & E & Hn & _ & HR);
    eauto using advances_refl, advances_trans, advances_addText,
      advances_bracket, allNodes_true.
Qed.

(** ** [split] and [join] *)

Lemma split_nonempty sep t : split sep t ≠ [].
Proof. destruct t as [|c t]; simpl; [done|]. destruct (N.eqb c sep); [done|].
       by destruct (split sep t). Qed.

Lemma joinLF_cons l l2 rest :
  joinLF (l :: l2 :: rest) = l ++ LF :: joinLF (l2 :: rest).
Proof. reflexivity. Qed.

Lemma join_split t : joinLF (split LF t) = t.
Proof.
  induction t as [|c t IH]; [done|]. simpl.
  destruct (N.eqb_spec c LF) as [->|Hc].
  - pose proof (split_nonempty LF t) as Hne.
    destruct (split LF t) as [|l rest]; [done|].
    by rewrite joinLF_cons, IH.
  - destruct (split LF t) as [|l [|l2 rest]] eqn:E.
    + by destruct (split_nonempty LF t).
    + simpl in *. by rewrite IH.
    + change (joinLF ((c :: l) :: l2 :: rest))
        with (c :: l ++ LF :: joinLF (l2 :: rest)).
      rewrite joinLF_cons in IH. by rewrite IH.
Qed.

(** No line of [split LF t] holds a line break. *)
Lemma split_no_LF t : Forall (λ l, LF ∉ l) (split LF t).
Proof.
  induction t as [|c t IH]; simpl.
  { constructor; [|done]. by intros ?%elem_of_nil. }
  destruct (N.eqb_spec c LF) as [->|Hc].
  - constructor; [|done]. by intros ?%elem_of_nil.
  - destruct (split LF t) as [|l rest]; [repeat constructor|].
    + intros [Heq|?%elem_of_nil]%elem_of_cons; [congruence|done].
    + apply Forall_cons in IH as [Hl Hrest]. constructor; [|done].
      intros [Heq|?]%elem_of_cons; [congruence|done].
Qed.

(** A joined list of lines is the lines before the last, each with its line
    break, and then the last line. *)
Lemma joinLF_flat ls l : joinLF (ls ++ [l]) = flatLines ls ++ l.
Proof.
  induction ls as [|l1 ls IH]; [done|].
  change ((l1 :: ls) ++ [l]) with (l1 :: (ls ++ [l])).
  destruct (ls ++ [l]) as [|l2 rest] eqn:E.
  { by destruct ls. }
  rewrite joinLF_cons, IH. unfold flatLines. simpl.
  by rewrite <- !app_assoc.
Qed.

Lemma flatLines_app ls1 ls2 :
  flatLines (ls1 ++ ls2) = flatLines ls1 ++ flatLines ls2.
Proof. unfold flatLines. by rewrite map_app, concat_app. Qed.

Lemma flatLines_snoc ls l : flatLines (ls ++ [l]) = flatLines ls ++ l ++ [LF].
Proof.
  rewrite flatLines_app. unfold flatLines at 2. simpl. by rewrite app_nil_r.
Qed.

Lemma flatLines_cons l ls : flatLines (l :: ls) = l ++ LF :: flatLines ls.
Proof. unfold flatLines. simpl. by rewrite <- app_assoc. Qed.

(** The lines of a text: all but the last, and the last. *)
Lemma split_snoc t :
  ∃ ls l, split LF t = ls ++ [l] ∧ t = flatLines ls ++ l.
Proof.
  destruct (split LF t) as [|l0 rest] eqn:E using rev_ind.
  { by destruct (split_nonempty LF t). }
  exists rest, l0. split; [done|]. rewrite <- joinLF_flat, <- E.
  symmetry. apply join_split.
Qed.

(** ** The text between blocks *)

Lemma blockLines_snoc ls l st :
  blockLines (ls ++ [l]) st = foldl (λ st line, lineBlock line st) st ls.
Proof.
  revert st. induction ls as [|l1 ls IH]; intros st; [done|].
  change ((l1 :: ls) ++ [l]) with (l1 :: (ls ++ [l])).
  destruct (ls ++ [l]) as [|l2 rest] eqn:E; [by destruct ls|].
  by rewrite blockLines_cons, IH.
Qed.

Lemma blockLines_stack_foldl ls st :
  stack (foldl (λ st line, lineBlock line st) st ls) = stack st.
Proof. revert st. induction ls as [|l ls IH]; intros st; [done|].
       simpl. by rewrite IH. Qed.

Lemma lineBlocks_scan len ls st :
  mono st →
  let st' := foldl (λ st line, lineBlock line st) st ls in
  mono st'
  ∧ scanOffset st' = scanOffset st + jslength (flatLines ls)
  ∧ (scanOffset st' ≤ len + 1 → within len st → within len st').
Proof.
  revert st. induction ls as [|l ls IH]; intros st Hm; simpl.
  { split; [done|]. unfold flatLines, jslength. simpl. split; [lia|done]. }
  pose proof (jslength_nonneg l) as Hl.
  destruct (IH (lineBlock l st)) as (Hm' & Hoff & Hw).
  { apply mono_set; [done|]. simpl. lia. }
  split; [done|]. rewrite flatLines_cons.
  change (l ++ LF :: flatLines ls) with (l ++ [LF] ++ flatLines ls).
  rewrite !jslength_app. change (jslength [LF]) with 1.
  pose proof (jslength_nonneg (flatLines ls)).
  split; [rewrite Hoff; simpl; lia|].
  intros Hle Hwi. apply Hw; [done|]. apply within_set; [done|].
  rewrite Hoff in Hle. simpl in Hle. simpl. lia.
Qed.

Lemma blockLines_scan sourceCode to st :
  mono st →
  let st' := blockLines (split LF (slice sourceCode (scanOffset st) to)) st in
  mono st' ∧ scanOffset st ≤ scanOffset st'
  ∧ scanOffset st' ≤ Z.max (scanOffset st) (jslength sourceCode)
  ∧ (scanOffset st ≤ jslength sourceCode →
     within (jslength sourceCode) st → within (jslength sourceCode) st').
Proof.
  intros Hm.
  destruct (split_snoc (slice sourceCode (scanOffset st) to))
    as (ls & l & -> & Ht).
  pose proof (slice_length sourceCode (scanOffset st) to (mono_nonneg _ Hm))
    as Hlen.
  rewrite Ht, jslength_app in Hlen.
  pose proof (jslength_nonneg l). pose proof (jslength_nonneg (flatLines ls)).
  cbv zeta. rewrite blockLines_snoc.
  destruct (lineBlocks_scan (jslength sourceCode) ls st Hm)
    as (Hm' & Hoff & Hw).
  split; [done|]. split; [lia|]. split; [lia|].
  intros Hle. apply Hw. lia.
Qed.

(** ** The scan offset over the top-level nodes *)

Lemma process_top_scan sourceCode n i s e st st' :
  stack st = [] → mono st → scanOffset st ≤ s → s < e →
  process sourceCode n i s e st = Some st' →
  mono st' ∧ scanOffset st ≤ scanOffset st'
  ∧ (e ≤ jslength sourceCode →
     within (jslength sourceCode) st → within (jslength sourceCode) st').
Proof.
  intros Hs Hm Hle Hlt E.
  destruct (process_top_inv sourceCode n i s e st Hs)
    as (st2 & fr & E2 & Hs2 & Hfr & E').
  rewrite E' in E. injection E as <-.
  destruct (blockLines_scan sourceCode s st Hm) as (Hm1 & Hle1 & Hmax & Hw1).
  set (st1 := blockLines _ st) in *.
  destruct (blockContent_advances sourceCode n e (openNode n st1))
    as (st2' & E2' & _ & Hadv).
  { simpl. by destruct (stack st1). }
  rewrite E2 in E2'. injection E2' as <-.
  destruct Hadv as (Hm2 & Hle2 & Hw2); [done|]. simpl in *.
  split; [|split; [lia|]].
  - apply (mono_set (scanOffset st2 + 1) st2) in Hm2; [|lia].
    destruct Hm2 as [H1 H2]. by split.
  - intros He Hwi. destruct Hw2 as [Hlen2 Hwi2]; [lia|auto with lia|].
    change (Forall (λ v, v ≤ jslength sourceCode + 1)
              ((scanOffset st2 + 1) :: history st2)).
    constructor; [lia|done].
Qed.

Lemma within_head len st : mono st → within len st → scanOffset st ≤ len + 1.
Proof.
  intros [_ Hh] Hw. unfold within in Hw.
  destruct (history st) as [|v l]; [done|]. injection Hh as <-.
  by apply Forall_cons in Hw as [? _].
Qed.

Lemma getChildren_top_scan sourceCode nodes :
  ∃ st, getChildren sourceCode nodes (jslength sourceCode) initialState
        = Some st
        ∧ stack st = [] ∧ mono st
        ∧ (forallb (endsWithin sourceCode) nodes = true →
           within (jslength sourceCode) st).
Proof.
  destruct (top_getChildren sourceCode nodes
              (λ st, mono st
                     ∧ (forallb (endsWithin sourceCode) nodes = true →
                        within (jslength sourceCode) st)))
    with (to := jslength sourceCode) (st := initialState)
    as (st & E & Hs & Hm & Hw); try done.
  - intros st to Hs [Hm Hw].
    destruct (blockLines_scan sourceCode to st Hm) as (Hm' & Hle & Hmax & Hw').
    split; [done|]. intros Hok. specialize (Hw Hok).
    pose proof (within_head _ _ Hm Hw) as Hh.
    destruct (Z.le_gt_cases (scanOffset st) (jslength sourceCode)); [auto|].
    pose proof (slice_length sourceCode (scanOffset st) to (mono_nonneg _ Hm))
      as Hlen.
    pose proof (jslength_nonneg (slice sourceCode (scanOffset st) to)) as Hnn.
    assert (Hnil : slice sourceCode (scanOffset st) to = []).
    { unfold jslength in *.
      destruct (slice sourceCode (scanOffset st) to); [done|simpl in *; lia]. }
    by rewrite Hnil.
  - intros n i s e st st' Hn Hs [Hm Hw] Es Ee Hlt E.
    destruct (process_top_scan sourceCode n i (Z.max s (scanOffset st)) e
                st st' Hs Hm) as (Hm' & _ & Hw'); [lia|lia|done|].
    split; [done|]. intros Hok. apply Hw'; [|auto].
    rewrite forallb_forall in Hok.
    assert (Hin : In n nodes).
    { apply list_elem_of_In, list_elem_of_lookup. eauto. }
    specialize (Hok n Hin). unfold endsWithin in Hok. rewrite Ee in Hok. lia.
  - split; [apply mono_initial|]. intros _. repeat constructor.
    pose proof (jslength_nonneg sourceCode). lia.
  - eauto.
Qed.

(** C2, as amended. [history st] lists the values of [scanOffset] of a
    whole call, the latest first: every update is at least the value before
    it. When the end offset of every top-level node is at most
    [sourceCode.length], no value exceeds [sourceCode.length + 1]; the one
    more is the line break that the end of a top-level node consumes, also
    after the last line of the source. *)
Theorem scanOffset_monotone :
  ∀ (sourceCode : jsstr) (nodes : list MdastNode),
  ∃ st, editorRenderState sourceCode nodes = Some st
        ∧ StronglySorted Z.ge (history st)
        ∧ head (history st) = Some (scanOffset st)
        ∧ (forallb (endsWithin sourceCode) nodes = true →
           Forall (λ v, v ≤ jslength sourceCode + 1) (history st)).
Proof.
  intros sourceCode nodes.
  destruct (getChildren_top_scan sourceCode nodes)
    as (st & E & _ & [Hs Hh] & Hw).
  unfold editorRenderState. rewrite E. simpl. eexists. split; [done|].
  destruct (_ <=? _); done.
Qed.

Lemma scanOffset_monotone_witness :
  ∃ st, editorRenderState (js "a" ++ [LF] ++ js "b")
          [parent paragraph 0 3 [literal text 0 3]] = Some st
        ∧ Forall (λ v, v ≤ 3 + 1) (history st).
Proof.
  destruct (scanOffset_monotone (js "a" ++ [LF] ++ js "b")
              [parent paragraph 0 3 [literal text 0 3]])
    as (st & E & _ & _ & H).
  exists st. split; [exact E|]. apply H. reflexivity.
Defined.

(** C2 as stated fails: after the only block of ["a"], [scanOffset] is 2. *)
Lemma scanOffset_exceeds_length :
  ∃ st, editorRenderState (js "a") [parent paragraph 0 1 [literal text 0 1]]
        = Some st
        ∧ ¬ scanOffset st ≤ jslength (js "a").
Proof. eexists. split; [vm_compute; reflexivity|]. vm_compute. by intros H. Qed.

(** ** Blocks *)

Lemma enduring_refl st : enduring st st.
Proof. by repeat split. Qed.

Lemma enduring_trans a b c : enduring a b → enduring b c → enduring a c.
Proof. intros (?&?&?&?) (?&?&?&?). repeat split; congruence. Qed.

Lemma steady_enduring st st' : steady st st' → enduring st st'.
Proof. intros []. by repeat split. Qed.

Lemma enduring_addText t d st st' :
  stack st ≠ [] → addText t d st = Some st' → enduring st st'.
Proof.
  intros Hne E. destruct (addText_inner t d st Hne) as (st1 & E1 & H1).
  rewrite E1 in E. injection E as <-. by apply steady_enduring in H1.
Qed.

Lemma enduring_bracket n i st st1 st2 :
  stack st ≠ [] →
  enduring (openNode n st) st1 →
  map node (stack st1) = map node (stack st) ++ [n] →
  closeNode i st1 = Some st2 →
  enduring st st2.
Proof.
  intros Hne HR Hnodes E.
  destruct (closeNode_nested_inv _ _ _ _ _ Hne Hnodes E) as (st' & E' & ->).
  apply pushElement_steady, steady_enduring in E'.
  eapply enduring_trans; [exact HR|]. exact E'.
Qed.

Lemma blockContent_enduring sourceCode n e st :
  stack st ≠ [] →
  ∃ st', blockContent sourceCode n e st = Some st'
         ∧ map node (stack st') = map node (stack st)
         ∧ enduring st st'.
Proof.
  intros Hne.
  destruct (walks_blockContent sourceCode (λ _, true) (λ _, True) (λ _, True)
              enduring)
    with (n := n) (e := e) (st := st) as (st' & E & Hn & _ & HR);
    eauto using enduring_refl, enduring_trans, enduring_addText,
      enduring_bracket, allNodes_true.
Qed.

Lemma classList_add_here c e : c ∈ classList (classList_add c e).
Proof.
  destruct e as [t cs a k]. simpl. case_decide; [done|].
  apply elem_of_app. right. by apply list_elem_of_singleton.
Qed.

Lemma classList_add_keeps c c' e :
  c ∈ classList e → c ∈ classList (classList_add c' e).
Proof.
  destruct e as [t cs a k]. simpl. intros H. case_decide; [done|].
  apply elem_of_app. by left.
Qed.

Lemma addStyle_type n f l e :
  classNamePrefix +:+ typeName (type n) ∈ classList (addStyle n f l e).
Proof.
  unfold addStyle.
  pose proof (classList_add_here (classNamePrefix +:+ typeName (type n)) e).
  destruct (type n), f, l; auto using classList_add_keeps.
Qed.

Lemma isBlock_lineBlock nodes line b :
  b = createElement "div" →
  isBlock nodes
    (ElementNode (classList_add (classNamePrefix +:+ "block")
                    (append (ElementNode (createLine line)) b))).
Proof. intros ->. eexists. split; [done|]. repeat split. by left. Qed.

Lemma betweenBlocks_lines sourceCode nodes ls st :
  betweenBlocks sourceCode nodes st →
  betweenBlocks sourceCode nodes (foldl (λ st line, lineBlock line st) st ls)
  ∧ (ls = [] ∨ childNodes (el (foldl (λ st line, lineBlock line st) st ls))
               ≠ []).
Proof.
  revert st. induction ls as [|l ls IH]; intros st HI; simpl; [by auto|].
  destruct HI as (Hb & Ht & Hall & Hne).
  destruct (IH (lineBlock l st)) as [HI' Hne'].
  - split; [done|]. split; [exact Ht|]. split.
    + simpl. apply Forall_app. split; [done|]. constructor; [|done].
      by apply isBlock_lineBlock.
    + left. simpl. by destruct (childNodes (el st)).
  - split; [done|]. right. destruct Hne' as [->|?]; [|done].
    simpl. by destruct (childNodes (el st)).
Qed.

Lemma betweenBlocks_skip sourceCode nodes st to :
  0 ≤ scanOffset st →
  betweenBlocks sourceCode nodes st →
  betweenBlocks sourceCode nodes
    (blockLines (split LF (slice sourceCode (scanOffset st) to)) st).
Proof.
  intros Hpos HI.
  destruct (split_snoc (slice sourceCode (scanOffset st) to))
    as (ls & l & -> & Ht).
  rewrite blockLines_snoc. by apply betweenBlocks_lines.
Qed.

Lemma betweenBlocks_process sourceCode nodes n i s e st st' :
  nodes !! i = Some n → stack st = [] →
  betweenBlocks sourceCode nodes st →
  process sourceCode n i s e st = Some st' →
  betweenBlocks sourceCode nodes st'.
Proof.
  intros Hn Hs HI E.
  destruct (process_top_inv sourceCode n i s e st Hs)
    as (st2 & fr & E2 & Hs2 & Hfr & E').
  rewrite E' in E. injection E as <-.
  destruct (split_snoc (slice sourceCode (scanOffset st) s))
    as (ls & l & Hsplit & Ht).
  rewrite Hsplit, blockLines_snoc in E2.
  destruct (betweenBlocks_lines sourceCode nodes ls st HI)
    as [(Hb & Htag & Hall & _) _].
  set (st1 := foldl _ st ls) in *.
  destruct (blockContent_enduring sourceCode n e (openNode n st1))
    as (st2' & E2' & _ & (Hel & Hbt & Hbc & Hba)).
  { simpl. by destruct (stack st1). }
  rewrite E2 in E2'. injection E2' as <-. simpl in *.
  rewrite Hb in Hbt, Hbc, Hba. simpl in *.
  split; [done|]. split; [simpl; by rewrite Hel|]. split.
  - simpl. rewrite Hel. apply Forall_app. split; [done|].
    constructor; [|done]. eexists. split; [done|].
    destruct (block st2) as [bt bc ba bk]. simpl in *. subst bt bc ba.
    split; [done|]. split; [done|]. right.
    eexists i, n, _. split; [done|]. split; [done|].
    split; [simpl; by rewrite last_snoc|]. rewrite <- Hfr. apply addStyle_type.
  - left. simpl. by destruct (childNodes (el st2)).
Qed.

(** The root that [editorRender] returns. *)
Lemma editorRender_blocks sourceCode nodes :
  ∃ root, editorRender sourceCode nodes = Some root
          ∧ tagName root = "div"
          ∧ Forall (isBlock nodes) (childNodes root)
          ∧ childNodes root ≠ [].
Proof.
  destruct (top_getChildren sourceCode nodes
              (λ st, mono st ∧ betweenBlocks sourceCode nodes st))
    with (to := jslength sourceCode) (st := initialState)
    as (st & E & Hs & Hm & (Hb & Htag & Hall & Hne)); try done.
  - intros st to Hs [Hm HI]. split.
    + by apply blockLines_scan.
    + apply betweenBlocks_skip; [by apply mono_nonneg|done].
  - intros n i s e st st' Hn Hs [Hm HI] Es Ee Hlt E. split.
    + eapply process_top_scan; [done|done| | |exact E]; lia.
    + eapply betweenBlocks_process; eauto.
  - split; [apply mono_initial|]. repeat split; [done|].
    right. apply jslength_nonneg.
  - unfold editorRender, editorRenderState. rewrite E. simpl.
    eexists. split; [done|].
    destruct (Z.leb_spec (scanOffset st) (jslength sourceCode)) as [Hle|Hgt].
    + simpl. split; [exact Htag|]. split.
      * apply Forall_app. split; [done|]. constructor; [|done].
        by apply isBlock_lineBlock.
      * by destruct (childNodes (el st)).
    + split; [done|]. split; [done|]. destruct Hne as [?|?]; [done|lia].
Qed.

Lemma forNodes_all_skipped sourceCode nodes i st :
  0 ≤ scanOffset st → jslength sourceCode ≤ scanOffset st →
  forallb (endsWithin sourceCode) nodes = true →
  forNodes (visit sourceCode) nodes i st = Some st.
Proof.
  intros Hpos Hlen. revert i.
  induction nodes as [|n nodes IH]; intros i Hok; simpl; [done|].
  simpl in Hok. apply andb_prop in Hok as [Hn Hok].
  assert (E : visit sourceCode n i st = Some st).
  { destruct (startOffsetOf n) as [s|] eqn:Es;
      [|apply visit_no_range; by left].
    destruct (endOffsetOf n) as [e|] eqn:Ee;
      [|apply visit_no_range; by right].
    apply (visit_empty_range _ _ _ _ s e); [done..|].
    unfold endsWithin in Hn. rewrite Ee in Hn. lia. }
  rewrite E. simpl. by apply IH.
Qed.

(** C4. The root that [editorRender] returns has a first child, and it is a
    block: a [div] of class ["x-star-md-editor-block"]. For the empty source,
    whose tree has no node that ends after offset 0, the root has one block
    of one line that holds the marker only. *)
Theorem output_has_a_block :
  ∀ (sourceCode : jsstr) (nodes : list MdastNode),
    (∃ root b rest,
        editorRender sourceCode nodes = Some root
        ∧ childNodes root = ElementNode b :: rest
        ∧ tagName b = "div"
        ∧ classList b = [classNamePrefix +:+ "block"])
    ∧ (sourceCode = [] →
       forallb (endsWithin sourceCode) nodes = true →
       editorRender sourceCode nodes = Some emptyDocument).
Proof.
  intros sourceCode nodes. split.
  - destruct (editorRender_blocks sourceCode nodes)
      as (root & E & _ & Hall & Hne).
    destruct (childNodes root) as [|b rest] eqn:Hk; [done|].
    apply Forall_cons in Hall as [(e & -> & Htag & Hcls & _) _].
    by exists root, e, rest.
  - intros -> Hok. unfold editorRender, editorRenderState, getChildren.
    rewrite forNodes_all_skipped; done.
Qed.

Lemma output_has_a_block_witness :
  editorRender [] [literal thematicBreak 0 0] = Some emptyDocument.
Proof.
  apply (output_has_a_block [] [literal thematicBreak 0 0]); reflexivity.
Defined.

Lemma scenario_two_paragraphs_eq :
  editorRender sourceB treeB
  = Some (MkElement "div" [] []
            [paragraphBlock "0" (js "para1");
             emptyLineBlock;
             paragraphBlock "1" (js "para2")]).
Proof. vm_compute. reflexivity. Qed.

(** C5, as amended. The output for scenario B has three blocks: the block
    of index 0 with the line of ["para1"] and the marker, a block without
    index for the blank line, with a line that holds the marker only, and
    the block of index 1 with the line of ["para2"] and the marker. *)
Theorem scenario_two_paragraphs :
  editorRender sourceB treeB
  = Some (MkElement "div" [] []
            [paragraphBlock "0" (js "para1");
             emptyLineBlock;
             paragraphBlock "1" (js "para2")]).
Proof. vm_compute. reflexivity. Qed.

(** C5 as stated fails: the root does not have exactly two blocks. *)
Lemma scenario_two_paragraphs_not_two_blocks :
  ¬ ∃ root b0 b1,
      editorRender sourceB treeB = Some root ∧ childNodes root = [b0; b1].
Proof.
  intros (root & b0 & b1 & E & Hk).
  rewrite scenario_two_paragraphs_eq in E.
  injection E as <-. discriminate Hk.
Qed.


(** ** The element that receives the class names *)

Lemma classList_append n e : classList (append n e) = classList e.
Proof. by destruct e. Qed.

Lemma childNodes_append n e : childNodes (append n e) = childNodes e ++ [n].
Proof. by destruct e. Qed.

Local Ltac finish_target :=
  repeat split; simpl;
  rewrite ?childNodes_append, ?classList_append, ?last_snoc; done.


(** ** Markers *)

Lemma marked_unfold e :
  marked e
  = bool_decide (firstClass ∈ classList e)
    || bool_decide (lastClass ∈ classList e)
    || existsb markedNode (childNodes e).
Proof. by destruct e. Qed.

Lemma marked_append k e : marked (append k e) = marked e || markedNode k.
Proof.
  rewrite !marked_unfold, classList_append, childNodes_append, existsb_app.
  simpl. by rewrite orb_false_r, orb_assoc.
Qed.

Lemma elem_of_classList_add c c' e :
  c ∈ classList (classList_add c' e) ↔ c ∈ classList e ∨ c = c'.
Proof.
  destruct e as [t cs a k]. simpl. case_decide.
  - split; [by left|]. by intros [?| ->].
  - rewrite elem_of_app, list_elem_of_singleton. done.
Qed.

Lemma marked_classList_add c e :
  c ≠ firstClass → c ≠ lastClass → marked (classList_add c e) = marked e.
Proof.
  intros H1 H2. rewrite !marked_unfold.
  rewrite (bool_decide_ext (firstClass ∈ classList (classList_add c e))
             (firstClass ∈ classList e))
    by (rewrite elem_of_classList_add; intuition congruence).
  rewrite (bool_decide_ext (lastClass ∈ classList (classList_add c e))
             (lastClass ∈ classList e))
    by (rewrite elem_of_classList_add; intuition congruence).
  by destruct e.
Qed.

Lemma marked_setAttribute a v e : marked (setAttribute a v e) = marked e.
Proof. by destruct e. Qed.

Lemma marked_addStyle n f l e :
  isOpaque n = false → marked (addStyle n f l e) = marked e.
Proof.
  unfold isOpaque, addStyle. intros Hn.
  destruct (type n); try discriminate Hn;
    rewrite ?marked_classList_add; try done; by intros [=].
Qed.

Lemma clean_updateEl i f st st' :
  (∀ fr, stack st !! i = Some fr →
         marked (frame_el fr) = false → marked (f (frame_el fr)) = false) →
  updateEl i f st = Some st' → clean st → clean st'.
Proof.
  intros Hf [_ ->]%updateFrame_inv (He & Hb & Hs).
  split; [done|]. split; [done|]. simpl.
  apply Forall_alter; [done|]. intros fr Hfr [Hm Ho]. split; [|done].
  by apply Hf.
Qed.

Lemma clean_lookup st i fr :
  clean st → stack st !! i = Some fr →
  marked (frame_el fr) = false ∧ isOpaque (node fr) = false.
Proof.
  intros (_ & _ & Hs) Hfr. rewrite Forall_forall in Hs. apply Hs.
  apply list_elem_of_lookup. eauto.
Qed.

Lemma clean_pushElement index l st st' :
  pushElement index l st = Some st' → clean st → clean st'.
Proof.
  intros E Hc. destruct index as [|p].
  - destruct (stack st) as [|fr rest] eqn:Hs.
    { unfold pushElement in E. by rewrite Hs in E. }
    rewrite (pushElement_O _ _ _ _ Hs) in E. injection E as <-.
    destruct Hc as (He & Hb & Hst). rewrite Hs in Hst.
    apply Forall_cons in Hst as [[Hm Ho] Hrest].
    split; [done|]. split; fields.
    + rewrite marked_append, Hb. cbn [markedNode orb].
      by rewrite marked_addStyle.
    + by constructor.
  - destruct (stack st !! S p) as [fr|] eqn:Hfr;
      [|unfold pushElement in E; by rewrite Hfr in E].
    destruct (stack st !! p) as [pf|] eqn:Hpf;
      [|unfold pushElement in E; rewrite Hfr in E; simpl in E;
        by rewrite Hpf in E].
    rewrite (pushElement_S _ _ _ _ _ Hfr Hpf) in E. injection E as <-.
    destruct (clean_lookup _ _ _ Hc Hfr) as [Hm Ho].
    destruct Hc as (He & Hb & Hst).
    split; [done|]. split; [done|]. simpl.
    apply Forall_alter.
    2:{ intros x _ [_ Hx]. by split. }
    apply Forall_alter.
    2:{ intros x _ [Hx ?]. split; [|done]. fields.
        rewrite marked_append, Hx. cbn [markedNode orb].
        destruct (isFlowContent (node pf)); cbn [frame_el];
          [done|by rewrite marked_addStyle]. }
    apply Forall_alter; [done|].
    intros x _ [Hx ?]. split; [|done]. fields. by rewrite marked_addStyle.
Qed.

Lemma clean_pushElements j st st' :
  pushElements j st = Some st' → clean st → clean st'.
Proof.
  revert st. induction j as [|j IH]; intros st E Hc; simpl in E.
  { by injection E as <-. }
  destruct (pushElement (S j) false st) as [st1|] eqn:E1; [|done].
  eauto using clean_pushElement.
Qed.

Lemma clean_appendLine line d st st' :
  appendLine line d st = Some st' → clean st → clean st'.
Proof.
  destruct line as [|c line]; simpl; [by intros [= <-]|].
  apply clean_updateEl. intros fr _ Hm. rewrite marked_append, Hm.
  by destruct d.
Qed.

Lemma clean_breakLine line d st st' :
  breakLine line d st = Some st' → clean st → clean st'.
Proof.
  unfold breakLine. intros E Hc.
  destruct (pushElements _ st) as [s1|] eqn:E1; [|done]. simpl in E.
  destruct (updateEl 0 _ s1) as [s2|] eqn:E2; [|done]. simpl in E.
  destruct (pushElement 0 false s2) as [s3|] eqn:E3; [|done]. simpl in E.
  eapply clean_appendLine; [exact E|].
  eapply clean_pushElement; [exact E3|].
  eapply clean_updateEl; [|exact E2|by eapply clean_pushElements].
  intros fr _ Hm. by rewrite marked_append, Hm.
Qed.

Lemma clean_breakLines lines d st st' :
  breakLines lines d st = Some st' → clean st → clean st'.
Proof.
  revert st. induction lines as [|line rest IH]; intros st E Hc; simpl in E.
  { by injection E as <-. }
  destruct (breakLine line d st) as [s1|] eqn:E1; [|done].
  eauto using clean_breakLine.
Qed.

Lemma clean_addText t d st st' :
  stack st ≠ [] → addText t d st = Some st' → clean st → clean st'.
Proof.
  intros Hne E Hc. unfold addText in E.
  destruct (stack st) as [|fr rest] eqn:Hs; [done|].
  destruct (match split LF t with
            | [] => Some st
            | line :: _ => appendLine line d st
            end) as [s1|] eqn:E1; [|done].
  simpl in E.
  destruct (breakLines _ d s1) as [s2|] eqn:E2; [|done].
  injection E as <-.
  assert (clean s1) as Hc1.
  { destruct (split LF t); [by injection E1 as <-|].
    eauto using clean_appendLine. }
  apply (clean_breakLines _ _ _ _ E2) in Hc1. exact Hc1.
Qed.

Lemma clean_openNode n st :
  isOpaque n = false → clean st → clean (openNode n st).
Proof.
  intros Hn (He & Hb & Hs). split; [done|]. split; [done|].
  simpl. apply Forall_app. split; [done|]. apply Forall_singleton.
  split; [|done]. by destruct (stack st).
Qed.

Lemma clean_closeNode n i st st1 st2 :
  stack st ≠ [] → clean st1 →
  map node (stack st1) = map node (stack st) ++ [n] →
  closeNode i st1 = Some st2 →
  clean st2.
Proof.
  intros Hne Hc1 Hnodes E.
  destruct (closeNode_nested_inv _ _ _ _ _ Hne Hnodes E) as (st' & E' & ->).
  apply (clean_pushElement _ _ _ _ E') in Hc1.
  destruct Hc1 as (He & Hb & Hs). split; [done|]. split; [done|]. simpl.
  rewrite Forall_forall in Hs |- *. intros fr Hfr. apply Hs.
  destruct (stack st') as [|f0 s0] using rev_ind; [done|].
  rewrite removelast_last in Hfr. apply elem_of_app. by left.
Qed.

Lemma clean_lines ls st :
  clean st → clean (foldl (λ st line, lineBlock line st) st ls).
Proof.
  revert st. induction ls as [|l ls IH]; intros st Hc; [done|].
  simpl. apply IH. destruct Hc as (He & Hb & Hs).
  split; [|split; [done|done]]. fields.
  rewrite marked_append, He. cbn [markedNode orb].
  rewrite marked_classList_add by by intros [=].
  by rewrite marked_append, Hb.
Qed.

(** A tree without opaque nodes gives an output without markers. *)
Lemma editorRender_unmarked sourceCode nodes :
  forallb (allNodes (λ n, negb (isOpaque n))) nodes = true →
  ∃ root, editorRender sourceCode nodes = Some root ∧ marked root = false.
Proof.
  intros Hall.
  destruct (top_getChildren sourceCode nodes clean)
    with (to := jslength sourceCode) (st := initialState)
    as (st & E & Hs & (He & Hb & _)); try done.
  - intros st to Hs Hc.
    destruct (split_snoc (slice sourceCode (scanOffset st) to))
      as (ls & l & -> & _).
    rewrite blockLines_snoc. by apply clean_lines.
  - intros n i s e st st' Hn Hs Hc _ _ _ E.
    destruct (process_top_inv sourceCode n i (Z.max s (scanOffset st)) e st Hs)
      as (st2 & fr & E2 & Hs2 & Hfr & E').
    rewrite E' in E. injection E as <-.
    destruct (split_snoc
                (slice sourceCode (scanOffset st) (Z.max s (scanOffset st))))
      as (ls & l & Hsplit & _).
    rewrite Hsplit, blockLines_snoc in E2.
    pose proof (clean_lines ls st Hc) as Hc1.
    pose proof (blockLines_stack_foldl ls st) as Hs1. rewrite Hs in Hs1.
    set (st1 := foldl _ st ls) in *.
    assert (Hgood : allNodes (λ n, negb (isOpaque n)) n = true).
    { rewrite forallb_forall in Hall. apply Hall, list_elem_of_In,
        list_elem_of_lookup. eauto. }
    assert (Hn' : isOpaque n = false).
    { apply allNodes_here in Hgood. by destruct (isOpaque n). }
    destruct (walks_blockContent sourceCode (λ n, negb (isOpaque n))
                (λ _, True) clean (λ _ _, True))
      with (n := n) (e := e) (st := openNode n st1)
      as (st2' & E2' & _ & (He2 & Hb2 & Hst2) & _); try done.
    + intros a to e0 d b Hne Hca _ _ _ Ha. split; [|done].
      by eapply clean_addText.
    + intros a to d b Hne Hca _ Ha. split; [|done]. by eapply clean_addText.
    + intros m a Hm. apply clean_openNode. by destruct (isOpaque m).
    + intros m j a b c Hm Hne _ Hb _ Hnodes Hclose. split; [|done].
      by eapply clean_closeNode.
    + simpl. by destruct (stack st1).
    + apply clean_openNode; [done|]. exact Hc1.
    + rewrite E2 in E2'. injection E2' as <-.
      split; [|split; [done|done]]. fields.
      rewrite marked_append, He2. cbn [markedNode orb].
      rewrite marked_classList_add by by intros [=].
      rewrite marked_setAttribute, marked_append, Hb2. cbn [markedNode orb].
      rewrite marked_addStyle by by rewrite Hfr.
      rewrite marked_append. rewrite Hs2 in Hst2.
      apply Forall_cons in Hst2 as [[-> _] _]. done.
  - unfold editorRender, editorRenderState. rewrite E. simpl.
    eexists. split; [done|].
    destruct (_ <=? _); [|done]. fields.
    rewrite marked_append, He. cbn [markedNode orb].
    rewrite marked_classList_add by by intros [=].
    by rewrite marked_append, Hb.
Qed.

(** ** Slices of the source *)

Lemma slice_from s a to :
  0 ≤ a ≤ jslength s →
  ∃ n, slice s a to = take n (drop (Z.to_nat a) s)
       ∧ (Z.to_nat a + n ≤ length s)%nat
       ∧ (0 ≤ to → Z.of_nat n = Z.max (Z.min to (jslength s) - a) 0).
Proof.
  intros [Ha Hlen]. unfold slice, sliceIndex, jslength in *.
  destruct (Z.ltb_spec a 0); [lia|].
  replace (Z.min a (Z.of_nat (length s))) with a by lia.
  eexists. split; [done|]. split; [destruct (Z.ltb_spec to 0); lia|].
  intros Hto. destruct (Z.ltb_spec to 0); lia.
Qed.

Lemma scanned_length s k :
  0 ≤ k ≤ jslength s + 1 → jslength (scanned s k) = k.
Proof.
  intros H. unfold scanned, jslength in *.
  rewrite length_take, length_app. simpl. lia.
Qed.

Lemma scanned_inside s k :
  0 ≤ k ≤ jslength s → scanned s k = take (Z.to_nat k) s.
Proof.
  intros H. unfold scanned, jslength in *. apply take_app_le. lia.
Qed.

(** A slice from the scan offset continues what was scanned. *)
Lemma scanned_slice s a to :
  0 ≤ a ≤ jslength s →
  scanned s a ++ slice s a to = scanned s (a + jslength (slice s a to)).
Proof.
  intros Ha. destruct (slice_from s a to Ha) as (n & -> & Hn & _).
  assert (Hl : length (take n (drop (Z.to_nat a) s)) = n).
  { rewrite length_take, length_drop. lia. }
  rewrite scanned_inside by done.
  rewrite scanned_inside by (unfold jslength in *; lia).
  unfold jslength. rewrite Hl, take_take_drop. f_equal. lia.
Qed.

(** A slice up to an offset inside the source ends there. *)
Lemma slice_reaches s a to :
  0 ≤ a ≤ to → to ≤ jslength s → a + jslength (slice s a to) = to.
Proof.
  intros Ha Hto. destruct (slice_from s a to ltac:(lia)) as (n & -> & Hn & Hz).
  unfold jslength in *. rewrite length_take, length_drop. lia.
Qed.

Lemma slice_upper s a to :
  0 ≤ a → 0 ≤ to → a + jslength (slice s a to) ≤ Z.max a to.
Proof.
  intros Ha Hto. unfold slice, sliceIndex, jslength.
  destruct (Z.ltb_spec a 0); [lia|]. destruct (Z.ltb_spec to 0); [lia|].
  rewrite length_take, length_drop. lia.
Qed.

Lemma slice_beyond s a to : jslength s ≤ a → slice s a to = [].
Proof.
  intros Ha. unfold slice, sliceIndex, jslength in *.
  destruct (Z.ltb_spec a 0); [lia|].
  rewrite drop_ge by lia. by rewrite take_nil.
Qed.

(** The line break that ends a block. *)
Lemma scanned_break s e :
  0 ≤ e ≤ jslength s →
  e = jslength s ∨ s !! Z.to_nat e = Some LF →
  scanned s e ++ [LF] = scanned s (e + 1).
Proof.
  intros He Hbreak. unfold scanned.
  replace (Z.to_nat (e + 1)) with (S (Z.to_nat e)) by lia.
  symmetry. apply take_S_r.
  destruct Hbreak as [->|Hlf].
  - unfold jslength. rewrite Nat2Z.id. by rewrite list_lookup_middle.
  - by apply lookup_app_l_Some.
Qed.

Lemma scanned_rest s a :
  0 ≤ a ≤ jslength s → scanned s a ++ sliceFrom s a = s.
Proof.
  intros Ha. unfold sliceFrom.
  rewrite scanned_slice, slice_reaches, scanned_inside by lia.
  apply take_ge. unfold jslength. lia.
Qed.

Lemma scanned_all s : scanned s (jslength s + 1) = s ++ [LF].
Proof.
  unfold scanned, jslength. apply take_ge. rewrite length_app. simpl. lia.
Qed.

(** ** The text of elements *)

Lemma textContent_unfold e : textContent e = flat_map nodeText (childNodes e).
Proof. by destruct e. Qed.

Lemma textContent_append k e :
  textContent (append k e) = textContent e ++ nodeText k.
Proof.
  rewrite !textContent_unfold, childNodes_append, flat_map_app. simpl.
  by rewrite app_nil_r.
Qed.

Lemma textContent_classList_add c e :
  textContent (classList_add c e) = textContent e.
Proof. by destruct e. Qed.

Lemma textContent_addStyle n f l e : textContent (addStyle n f l e) = textContent e.
Proof.
  unfold addStyle. destruct (type n), f, l;
    by rewrite ?textContent_classList_add.
Qed.

Lemma textContent_createDelimiter t : textContent (createDelimiter t) = t.
Proof. simpl. apply app_nil_r. Qed.

Lemma textContent_createLine t : textContent (createLine t) = t ++ [ZWSP].
Proof. simpl. apply app_nil_r. Qed.

Lemma lineText_marker e t :
  textContent e = t ++ [ZWSP] → lineText (ElementNode e) = Some t.
Proof.
  intros H. unfold lineText. rewrite H, last_snoc. simpl.
  by rewrite removelast_last.
Qed.

Lemma mapM_snoc {A B} (f : A → option B) l x k y :
  mapM f l = Some k → f x = Some y → mapM f (l ++ [x]) = Some (k ++ [y]).
Proof.
  rewrite !mapM_Some. intros Hl Hx. apply Forall2_app; [done|].
  by repeat constructor.
Qed.

Lemma linesOfBlock_append k b ls t :
  linesOfBlock b = Some ls → lineText k = Some t →
  linesOfBlock (append k b) = Some (ls ++ [t]).
Proof.
  unfold linesOfBlock. rewrite childNodes_append. apply mapM_snoc.
Qed.

Lemma linesOfBlock_classList_add c b :
  linesOfBlock (classList_add c b) = linesOfBlock b.
Proof. by destruct b. Qed.

Lemma linesOfBlock_setAttribute a v b :
  linesOfBlock (setAttribute a v b) = linesOfBlock b.
Proof. by destruct b. Qed.

Lemma rootLines_append k r ls1 ls2 :
  rootLines r = Some ls1 → blockText k = Some ls2 →
  rootLines (append k r) = Some (ls1 ++ ls2).
Proof.
  unfold rootLines. rewrite childNodes_append. intros H1 H2.
  destruct (mapM blockText (childNodes r)) as [bs|] eqn:E; [|done].
  injection H1 as <-. rewrite (mapM_snoc _ _ _ _ _ E H2). simpl.
  rewrite concat_app. simpl. by rewrite app_nil_r.
Qed.

Lemma written_inv st w :
  written st = Some w ↔
  ∃ ls1 ls2, rootLines (el st) = Some ls1
             ∧ linesOfBlock (block st) = Some ls2
             ∧ w = flatLines (ls1 ++ ls2) ++ pending st.
Proof.
  unfold written. split.
  - destruct (rootLines (el st)) as [ls1|]; [|done]. simpl.
    destruct (linesOfBlock (block st)) as [ls2|]; [|done]. simpl.
    intros [= <-]. eauto.
  - intros (ls1 & ls2 & -> & -> & ->). done.
Qed.

(** ** What the stack operations write *)

Lemma frameTexts_alter f g i s :
  (∀ fr, textContent (frame_el (f fr)) = g (textContent (frame_el fr))) →
  frameTexts (alter f i s) = alter g i (frameTexts s).
Proof.
  intros H. unfold frameTexts.
  apply (list_fmap_alter (λ fr, textContent (frame_el fr))).
  apply Forall_true. intros fr. apply H.
Qed.

Lemma frameTexts_lookup s i fr :
  s !! i = Some fr → frameTexts s !! i = Some (textContent (frame_el fr)).
Proof. intros H. unfold frameTexts. by rewrite list_lookup_fmap, H. Qed.

Lemma concat_alter_last (l : list jsstr) (y : jsstr) :
  l ≠ [] → concat (alter (λ x, x ++ y) (length l - 1)%nat l) = concat l ++ y.
Proof.
  destruct l as [|x l] using rev_ind; [done|]. intros _.
  rewrite length_app. simpl.
  replace (length l + 1 - 1)%nat with (length l + 0)%nat by lia.
  rewrite alter_app_r. simpl. rewrite !concat_app. simpl.
  by rewrite !app_nil_r, app_assoc.
Qed.

Lemma concat_merge (l : list jsstr) p a b :
  l !! p = Some a → l !! S p = Some b →
  concat (alter (λ _, []) (S p) (alter (λ x, x ++ b) p l)) = concat l.
Proof.
  revert l. induction p as [|p IH]; intros [|x [|y l]] Ha Hb; try done.
  - simpl in *. injection Ha as ->. injection Hb as ->.
    by rewrite <- app_assoc.
  - simpl in *. f_equal. apply (IH (y :: l)); done.
Qed.

Lemma concat_quiet (l : list jsstr) x rest :
  l = x :: rest → (∀ k t, (0 < k)%nat → l !! k = Some t → t = []) →
  concat l = x.
Proof.
  intros -> H. simpl.
  assert (Hrest : concat rest = []).
  { assert (∀ k t, rest !! k = Some t → t = []) as H'.
    { intros k t Hk. apply (H (S k)); [lia|done]. }
    clear H. induction rest as [|y rest IH]; [done|]. simpl.
    rewrite (H' O y) by done. apply IH. intros k t. apply (H' (S k)). }
  by rewrite Hrest, app_nil_r.
Qed.

Lemma written_same_lines st st' :
  el st' = el st → block st' = block st → pending st' = pending st →
  written st' = written st.
Proof. unfold written. by intros -> -> ->. Qed.

(** Appending to the innermost element. *)
Lemma written_appendLine line d st st' w :
  stack st ≠ [] → appendLine line d st = Some st' →
  written st = Some w → written st' = Some (w ++ line).
Proof.
  intros Hne E Hw. destruct line as [|c line].
  { injection E as <-. by rewrite app_nil_r. }
  simpl in E. apply updateFrame_inv in E as [_ ->].
  apply written_inv in Hw as (ls1 & ls2 & H1 & H2 & ->).
  apply written_inv. exists ls1, ls2. split; [done|]. split; [done|].
  rewrite <- app_assoc. f_equal. unfold pending. cbn [stack setStack].
  rewrite (frameTexts_alter _ (λ x, x ++ (c :: line))).
  - rewrite <- (length_map (λ fr, textContent (frame_el fr)) (stack st)).
    symmetry. apply concat_alter_last. unfold frameTexts.
    by destruct (stack st).
  - intros fr. cbn [mapEl frame_el]. rewrite textContent_append.
    destruct d; [|done]. cbn [nodeText].
    by rewrite textContent_createDelimiter.
Qed.

(** [pushElement] above the line moves text from an element to the element
    below it. *)
Lemma written_pushElement_S p l st st' :
  pushElement (S p) l st = Some st' →
  written st' = written st
  ∧ ∀ j, quiet (S p) (stack st) → (j = p ∨ (p < j)%nat) → quiet j (stack st').
Proof.
  intros E.
  destruct (stack st !! S p) as [fr|] eqn:Hfr;
    [|unfold pushElement in E; by rewrite Hfr in E].
  destruct (stack st !! p) as [pf|] eqn:Hpf;
    [|unfold pushElement in E; rewrite Hfr in E; simpl in E;
      by rewrite Hpf in E].
  rewrite (pushElement_S _ _ _ _ _ Hfr Hpf) in E. injection E as <-.
  set (b := textContent (frame_el fr)).
  assert (Htexts :
    frameTexts
      (alter (renewed (S p)) (S p)
         (alter (mapEl (append (ElementNode
                   (frame_el (if isFlowContent (node pf) then fr
                              else mapEl (addStyle (node fr) (first fr) l)
                                         fr)))))
            p
            (alter (mapEl (addStyle (node fr) (first fr) l))
               (targetOf p pf) (stack st))))
    = alter (λ _, []) (S p) (alter (λ x, x ++ b) p (frameTexts (stack st)))).
  { rewrite (frameTexts_alter _ (λ _, [])) by done.
    rewrite (frameTexts_alter _ (λ x, x ++ b)).
    2:{ intros x. cbn [mapEl frame_el]. rewrite textContent_append. f_equal.
        destruct (isFlowContent (node pf)); [done|].
        cbn [nodeText mapEl frame_el]. apply textContent_addStyle. }
    rewrite (frameTexts_alter _ id).
    2:{ intros x. cbn [mapEl frame_el]. apply textContent_addStyle. }
    rewrite (list_alter_id id) by done. done. }
  split.
  - apply written_same_lines; [done..|]. unfold pending. cbn [stack setStack].
    rewrite Htexts. eapply concat_merge; by apply frameTexts_lookup.
  - intros j Hq Hj k t Hk Ht. cbn [stack setStack] in Ht.
    rewrite Htexts in Ht. destruct (decide (k = S p)) as [->|Hne].
    + rewrite list_lookup_alter_eq in Ht.
      by apply fmap_Some in Ht as (x & _ & ->).
    + rewrite !list_lookup_alter_ne in Ht by lia. eapply Hq; [|exact Ht].
      lia.
Qed.

Lemma written_pushElements j st st' :
  quiet j (stack st) → pushElements j st = Some st' →
  written st' = written st ∧ quiet 0 (stack st').
Proof.
  revert st. induction j as [|j IH]; intros st Hq E; simpl in E.
  { by injection E as <-. }
  destruct (pushElement (S j) false st) as [s1|] eqn:E1; [|done]. simpl in E.
  destruct (written_pushElement_S _ _ _ _ E1) as [Hw1 Hq1].
  destruct (IH s1) as [Hw2 Hq2]; [apply Hq1; auto|done|].
  split; [congruence|done].
Qed.

Lemma quiet_top s : quiet (length s - 1)%nat s.
Proof.
  intros k t Hk Ht. apply lookup_lt_Some in Ht. unfold frameTexts in Ht.
  rewrite length_map in Ht. lia.
Qed.

(** The end of a line: the marker goes to the line, the line goes to
    [block], and a line break is written. *)
Lemma written_closeLine l st s2 s3 w :
  quiet 0 (stack st) →
  updateEl 0 (append (TextNode [ZWSP])) st = Some s2 →
  pushElement 0 l s2 = Some s3 →
  written st = Some w →
  written s3 = Some (w ++ [LF]) ∧ pending s3 = [].
Proof.
  intros Hq E2 E3 Hw.
  apply updateFrame_inv in E2 as [Hlen ->].
  destruct (stack st) as [|f0 rest] eqn:Hs; [simpl in Hlen; lia|].
  rewrite (pushElement_O l _ (mapEl (append (TextNode [ZWSP])) f0) rest)
    in E3 by done.
  injection E3 as <-.
  apply written_inv in Hw as (ls1 & ls2 & H1 & H2 & ->).
  assert (Hp : pending st = textContent (frame_el f0)).
  { unfold pending. rewrite Hs. eapply concat_quiet; [done|].
    intros k t Hk Ht. eapply Hq; [exact Hk|exact Ht]. }
  assert (Hp3 : concat (frameTexts
                          (renewed 0 (mapEl (append (TextNode [ZWSP])) f0)
                           :: rest)) = []).
  { apply (concat_quiet _ [] (frameTexts rest)); [done|].
    intros [|k] t Hk Ht; [lia|]. apply (Hq (S k) t Hk). exact Ht. }
  split; [|exact Hp3].
  apply written_inv. exists ls1, (ls2 ++ [textContent (frame_el f0)]).
  split; [done|]. split.
  - cbn [block setStack setBlock]. apply linesOfBlock_append; [done|].
    apply lineText_marker. cbn [mapEl frame_el].
    by rewrite textContent_addStyle, textContent_append.
  - rewrite Hp. unfold pending. cbn [stack setStack setBlock]. rewrite Hp3.
    rewrite app_nil_r, (app_assoc ls1), (flatLines_app (ls1 ++ ls2)).
    unfold flatLines at 3. simpl. by rewrite app_nil_r, <- !app_assoc.
Qed.

Lemma written_breakLine line d st st' w :
  stack st ≠ [] → breakLine line d st = Some st' →
  written st = Some w → written st' = Some (w ++ LF :: line).
Proof.
  unfold breakLine. intros Hne E Hw.
  destruct (pushElements _ st) as [s1|] eqn:E1; [|done]. simpl in E.
  destruct (updateEl 0 _ s1) as [s2|] eqn:E2; [|done]. simpl in E.
  destruct (pushElement 0 false s2) as [s3|] eqn:E3; [|done]. simpl in E.
  destruct (written_pushElements _ _ _ (quiet_top _) E1) as [Hw1 Hq1].
  rewrite Hw in Hw1.
  destruct (written_closeLine _ _ _ _ _ Hq1 E2 E3 Hw1) as [Hw3 _].
  assert (Hne3 : stack s3 ≠ []).
  { destruct (pushElements_steady (length (stack st) - 1)%nat st)
      as (x & Ex & Hx).
    { destruct (stack st); [done|simpl; lia]. }
    rewrite E1 in Ex. injection Ex as <-.
    eapply steady_nonempty; [eapply pushElement_steady; exact E3|].
    eapply steady_nonempty; [eapply updateEl_steady; exact E2|].
    eapply steady_nonempty; [exact Hx|done]. }
  rewrite (written_appendLine _ _ _ _ _ Hne3 E Hw3).
  by rewrite <- app_assoc.
Qed.

Lemma written_breakLines lines d st st' w :
  stack st ≠ [] → breakLines lines d st = Some st' →
  written st = Some w →
  written st' = Some (w ++ flat_map (λ l, LF :: l) lines).
Proof.
  revert st w. induction lines as [|line rest IH]; intros st w Hne E Hw;
    simpl in E.
  { injection E as <-. by rewrite app_nil_r. }
  destruct (breakLine line d st) as [s1|] eqn:E1; [|done]. simpl in E.
  pose proof (written_breakLine _ _ _ _ _ Hne E1 Hw) as Hw1.
  assert (Hne1 : stack s1 ≠ []).
  { destruct (breakLine_steady line d st Hne) as (x & Ex & Hx).
    rewrite E1 in Ex. injection Ex as <-. by eapply steady_nonempty. }
  rewrite (IH _ _ Hne1 E Hw1). simpl. by rewrite <- !app_assoc.
Qed.

Lemma joinLF_head l rest :
  joinLF (l :: rest) = l ++ flat_map (λ l, LF :: l) rest.
Proof.
  revert l. induction rest as [|l2 rest IH]; intros l.
  { simpl. by rewrite app_nil_r. }
  rewrite joinLF_cons, IH. done.
Qed.

(** [addText] inside a block writes its text and advances [scanOffset] by
    its length. *)
Lemma written_addText t d st st' w :
  stack st ≠ [] → addText t d st = Some st' →
  written st = Some w →
  written st' = Some (w ++ t) ∧ scanOffset st' = scanOffset st + jslength t.
Proof.
  intros Hne E Hw.
  destruct (addText_inner t d st Hne) as (x & Ex & Hx).
  assert (Hoff : scanOffset st' = scanOffset st + jslength t).
  { rewrite Ex in E. injection E as <-. simpl.
    by rewrite (steady_offset _ _ Hx). }
  split; [|done]. clear x Ex Hx.
  unfold addText in E. destruct (stack st) as [|fr rest] eqn:Hs; [done|].
  pose proof (join_split t) as Ht.
  destruct (split LF t) as [|l0 lines] eqn:Hsplit.
  { by destruct (split_nonempty LF t). }
  destruct (appendLine l0 d st) as [s1|] eqn:E1; [|done]. simpl in E.
  destruct (breakLines lines d s1) as [s2|] eqn:E2; [|done].
  injection E as <-.
  assert (Hne' : stack st ≠ []) by by rewrite Hs.
  pose proof (written_appendLine _ _ _ _ _ Hne' E1 Hw) as Hw1.
  assert (Hne1 : stack s1 ≠ []).
  { destruct (appendLine_steady l0 d st Hne') as (x & Ex & Hx).
    rewrite E1 in Ex. injection Ex as <-. by eapply steady_nonempty. }
  pose proof (written_breakLines _ _ _ _ _ Hne1 E2 Hw1) as Hw2.
  rewrite <- Ht, joinLF_head, app_assoc. exact Hw2.
Qed.

(** ** The text inside a block *)

Lemma continues_slice s a to :
  0 ≤ a ≤ jslength s → continues s a (slice s a to).
Proof.
  intros Ha. split; [by apply scanned_slice|].
  pose proof (slice_length s a to (proj1 Ha)). lia.
Qed.

Lemma continues_app s a x y :
  0 ≤ a → continues s a (x ++ y) →
  continues s a x ∧ continues s (a + jslength x) y.
Proof.
  intros Ha [H Hlen]. rewrite jslength_app in H, Hlen.
  pose proof (jslength_nonneg x). pose proof (jslength_nonneg y).
  assert (Hx : scanned s a ++ x = scanned s (a + jslength x)).
  { assert (Hk : scanned s (a + jslength x)
                 = take (Z.to_nat (a + jslength x))
                        (scanned s (a + (jslength x + jslength y)))).
    { unfold scanned. rewrite take_take. f_equal. lia. }
    rewrite Hk, <- H, app_assoc, take_app_length'; [done|].
    rewrite length_app.
    pose proof (scanned_length s a ltac:(lia)) as Hla.
    unfold jslength in *. lia. }
  split; [split; [done|lia]|]. split; [|lia].
  by rewrite <- Hx, <- app_assoc, H, Z.add_assoc.
Qed.

Lemma inSync_addText s e st to d st' :
  e ≤ jslength s → stack st ≠ [] → inSync s e st → 0 ≤ to ≤ e →
  addText (slice s (scanOffset st) to) d st = Some st' →
  inSync s e st' ∧ (scanOffset st ≤ to → scanOffset st' = to).
Proof.
  intros He Hne [Hw Ha] Hto E.
  destruct (written_addText _ _ _ _ _ Hne E Hw) as [Hw' Hoff].
  pose proof (slice_upper s (scanOffset st) to ltac:(lia) ltac:(lia)).
  pose proof (jslength_nonneg (slice s (scanOffset st) to)).
  split; [split|].
  - rewrite Hw', Hoff. f_equal. apply scanned_slice. lia.
  - lia.
  - intros Hle. rewrite Hoff. apply slice_reaches; lia.
Qed.

Lemma written_openNode n st : written (openNode n st) = written st.
Proof.
  apply written_same_lines; [done..|]. unfold pending, frameTexts.
  cbn [stack openNode setStack]. rewrite map_app, concat_app. simpl.
  by rewrite app_nil_r.
Qed.

Lemma written_closeNode n i st st1 st2 :
  stack st ≠ [] →
  map node (stack st1) = map node (stack st) ++ [n] →
  closeNode i st1 = Some st2 →
  written st2 = written st1 ∧ scanOffset st2 = scanOffset st1.
Proof.
  intros Hne Hnodes E.
  destruct (closeNode_nested_inv _ _ _ _ _ Hne Hnodes E) as (st' & E' & ->).
  assert (Hlen : length (stack st1) = S (length (stack st))).
  { rewrite <- (length_map node (stack st1)), Hnodes, length_app,
      length_map. simpl. lia. }
  destruct (length (stack st)) as [|p] eqn:Hp.
  { by destruct (stack st). }
  rewrite Hlen in E'. replace (S (S p) - 1)%nat with (S p) in E' by lia.
  destruct (written_pushElement_S _ _ _ _ E') as [Hw Hq].
  pose proof (pushElement_steady _ _ _ _ E') as Hst.
  split; [|apply Hst]. rewrite <- Hw.
  apply written_same_lines; [done..|]. unfold pending. cbn [stack setStack].
  specialize (Hq p). 
  assert (Hquiet : quiet p (stack st')).
  { apply Hq; [|by left]. replace (S p) with (length (stack st1) - 1)%nat
      by lia. apply quiet_top. }
  assert (Hlen' : length (stack st') = S (S p)).
  { rewrite (steady_length _ _ Hst). lia. }
  destruct (stack st') as [|x s'] using rev_ind; [done|].
  rewrite removelast_last. unfold frameTexts. rewrite map_app, concat_app.
  simpl. rewrite app_nil_r.
  rewrite length_app in Hlen'. simpl in Hlen'.
  rewrite (Hquiet (S p) (textContent (frame_el x))); [by rewrite app_nil_r|lia|].
  unfold frameTexts. rewrite list_lookup_fmap.
  replace (S p) with (length s' + 0)%nat by lia.
  by rewrite lookup_app_r, Nat.add_0_r, Nat.sub_diag by lia.
Qed.

(** Inside the block of a top-level node that ends at [e], with no
    descendant that ends after [e]: what is written stays the source up to
    [scanOffset], which ends at [e]. *)
Lemma blockContent_inSync s n e st :
  e ≤ jslength s → allNodes (endsBy e) n = true →
  stack st ≠ [] → inSync s e st →
  ∃ st', blockContent s n e st = Some st'
         ∧ map node (stack st') = map node (stack st)
         ∧ inSync s e st' ∧ scanOffset st' = e.
Proof.
  intros He Hall Hne HI.
  assert (Hwalk : ∀ nodes i,
    forallb (allNodes (endsBy e)) nodes = true →
    ∀ a, stack a ≠ [] → inSync s e a →
         ∃ b, forNodes (visit s) nodes i a = Some b
              ∧ map node (stack b) = map node (stack a) ∧ inSync s e b).
  { intros nodes i Hnodes a Ha HIa.
    destruct (walks_forNodes_all s (endsBy e) (λ to, 0 ≤ to ≤ e) (inSync s e)
                (λ _ _, True))
      with (nodes := nodes) (i := i) (st := a)
      as (b & Eb & Hnb & HIb & _); try done; eauto.
    - intros m e' a' Hm Hend [_ Ha'] Hlt. unfold endsBy in Hm.
      rewrite Hend in Hm. lia.
    - intros a' to e' d b' Hne' HIa' Hle Hlt Hlim E. split; [|done].
      eapply inSync_addText; [done|done|done| |exact E].
      destruct HIa' as [_ ?]. lia.
    - intros a' to d b' Hne' HIa' Hlim E. split; [|done].
      by eapply inSync_addText.
    - intros m a' _ [Hw Hoff]. unfold inSync.
      by rewrite written_openNode.
    - intros m j a' b' c' _ Hne' _ [Hw Hoff] _ Hstack E. split; [|done].
      destruct (written_closeNode _ _ _ _ _ Hne' Hstack E) as [Hw2 Ho2].
      unfold inSync. by rewrite Hw2, Ho2. }
  destruct HI as [Hw Ha]. unfold blockContent.
  destruct n as [t d pos [nodes|]]; cbn [children].
  - unfold getChildren. simpl in Hall. apply andb_prop in Hall as [_ Hall].
    destruct (Hwalk nodes O Hall st Hne) as (b & -> & Hnb & HIb); [done|].
    simpl.
    assert (Hneb : stack b ≠ []).
    { intros Hb. rewrite Hb in Hnb. by destruct (stack st). }
    destruct (addText_inner (slice s (scanOffset b) e) true b Hneb)
      as (x & Ex & Hx).
    destruct (inSync_addText s e b e true _ He Hneb HIb ltac:(lia) Ex)
      as [HI' Hreach].
    eexists. split; [exact Ex|]. split.
    { simpl. rewrite (steady_nodes _ _ Hx). done. }
    split; [done|]. apply Hreach. apply HIb.
  - destruct (addText_inner (slice s (scanOffset st) e) false st Hne)
      as (x & Ex & Hx).
    destruct (inSync_addText s e st e false _ He Hne (conj Hw Ha)
                ltac:(lia) Ex) as [HI' Hreach].
    eexists. split; [exact Ex|]. split; [apply Hx|]. split; [done|].
    apply Hreach. lia.
Qed.

(** ** The text between and after the blocks *)

Lemma written_top st ls1 :
  stack st = [] → block st = createElement "div" →
  rootLines (el st) = Some ls1 → written st = Some (flatLines ls1).
Proof.
  intros Hs Hb H1. unfold written, pending. rewrite H1, Hb, Hs. simpl.
  by rewrite !app_nil_r.
Qed.

Lemma written_top_inv st w :
  stack st = [] → block st = createElement "div" → written st = Some w →
  ∃ ls1, rootLines (el st) = Some ls1 ∧ w = flatLines ls1.
Proof.
  intros Hs Hb Hw. apply written_inv in Hw as (ls1 & ls2 & H1 & H2 & ->).
  rewrite Hb in H2. injection H2 as <-. exists ls1. split; [done|].
  unfold pending. rewrite Hs. simpl. by rewrite !app_nil_r.
Qed.

(** A block of one line of text [t]. *)
Lemma rootLines_block root b line ls1 ls2 t :
  rootLines root = Some ls1 → linesOfBlock b = Some ls2 →
  textContent line = t ++ [ZWSP] →
  rootLines (append (ElementNode
                       (classList_add (classNamePrefix +:+ "block")
                          (append (ElementNode line) b))) root)
  = Some (ls1 ++ ls2 ++ [t]).
Proof.
  intros H1 H2 Ht. apply rootLines_append; [done|]. cbn [blockText].
  rewrite linesOfBlock_classList_add. apply linesOfBlock_append; [done|].
  by apply lineText_marker.
Qed.

Lemma inSyncTop_lines s ls v st :
  stack st = [] → inSyncTop s st →
  continues s (scanOffset st) (flatLines ls ++ v) →
  let st' := foldl (λ st line, lineBlock line st) st ls in
  inSyncTop s st'
  ∧ scanOffset st' = scanOffset st + jslength (flatLines ls).
Proof.
  revert st. induction ls as [|l ls IH]; intros st Hs HI Hc; simpl.
  { split; [done|]. unfold flatLines, jslength. simpl. lia. }
  destruct HI as (Hb & Hw & Ha).
  rewrite flatLines_cons in Hc.
  replace ((l ++ LF :: flatLines ls) ++ v)
    with ((l ++ [LF]) ++ flatLines ls ++ v) in Hc
    by (by rewrite <- !app_assoc).
  apply continues_app in Hc as [[Hc1 Hlen1] Hc2]; [|lia].
  rewrite jslength_app in Hc1, Hlen1, Hc2. change (jslength [LF]) with 1 in *.
  pose proof (jslength_nonneg l) as Hl.
  destruct (written_top_inv _ _ Hs Hb Hw) as (ls1 & H1 & Hflat).
  destruct (IH (lineBlock l st)) as [HI' Hoff'].
  - done.
  - split; [done|]. split; [|simpl; lia].
    cbn [scanOffset lineBlock pushBlock setBlock setEl setScanOffset].
    rewrite <- Hc1, Hflat.
    erewrite written_top; [|done|done|].
    2:{ cbn [el lineBlock pushBlock setBlock setEl setScanOffset block].
        rewrite Hb. apply (rootLines_block _ _ _ ls1 [] l); [done|done|].
        apply textContent_createLine. }
    simpl. rewrite flatLines_app. unfold flatLines at 2. simpl.
    by rewrite app_nil_r.
  - exact Hc2.
  - split; [done|]. rewrite Hoff'. rewrite flatLines_cons.
    change (l ++ LF :: flatLines ls) with (l ++ [LF] ++ flatLines ls).
    rewrite !jslength_app. change (jslength [LF]) with 1. simpl. lia.
Qed.

Lemma inSyncTop_skip s st to :
  stack st = [] → inSyncTop s st →
  let st' := blockLines (split LF (slice s (scanOffset st) to)) st in
  inSyncTop s st'
  ∧ scanOffset st ≤ scanOffset st'
  ∧ (0 ≤ to → scanOffset st' ≤ Z.max (scanOffset st) to).
Proof.
  intros Hs HI. pose proof HI as (Hb & Hw & Ha).
  destruct (split_snoc (slice s (scanOffset st) to)) as (ls & l & -> & Ht).
  cbv zeta. rewrite blockLines_snoc.
  destruct (Z.le_gt_cases (scanOffset st) (jslength s)) as [Hle|Hgt].
  - destruct (inSyncTop_lines s ls l st Hs HI) as [HI' Hoff].
    { rewrite <- Ht. apply continues_slice. lia. }
    pose proof (jslength_nonneg (flatLines ls)). pose proof (jslength_nonneg l).
    split; [done|]. split; [lia|]. intros Hto.
    pose proof (slice_upper s (scanOffset st) to ltac:(lia) Hto) as Hup.
    rewrite Ht, jslength_app in Hup. lia.
  - rewrite slice_beyond in Ht by lia.
    destruct ls as [|l1 ls]; [|by destruct l1].
    simpl. split; [done|]. lia.
Qed.

Lemma endsAtBreak_inv s n st e :
  endsAtBreak s n = true → startOffsetOf n = Some st → endOffsetOf n = Some e →
  e ≤ jslength s
  ∧ (e = jslength s ∨ s !! Z.to_nat e = Some LF)
  ∧ allNodes (endsBy e) n = true.
Proof.
  intros H Hs He. unfold endsAtBreak in H. rewrite Hs, He in H.
  apply andb_prop in H as [[H1 H2]%andb_prop H3].
  split; [lia|]. split; [|done].
  apply orb_prop in H2 as [H2|H2]; apply bool_decide_eq_true in H2; auto.
Qed.

(** The block of a top-level node that ends at a line break. *)
Lemma inSyncTop_process s n i s0 e st st' :
  endsAtBreak s n = true →
  startOffsetOf n = Some s0 → endOffsetOf n = Some e →
  stack st = [] → inSyncTop s st →
  Z.max s0 (scanOffset st) < e →
  process s n i (Z.max s0 (scanOffset st)) e st = Some st' →
  inSyncTop s st'.
Proof.
  intros Hok Hs0 He Hs HI Hlt E.
  destruct (endsAtBreak_inv _ _ _ _ Hok Hs0 He) as (Hlen & Hbreak & Hall).
  destruct (process_top_inv s n i (Z.max s0 (scanOffset st)) e st Hs)
    as (st2 & fr & E2 & Hs2 & Hfr & E').
  rewrite E' in E. injection E as <-.
  destruct (inSyncTop_skip s st (Z.max s0 (scanOffset st)) Hs HI)
    as ((Hb1 & Hw1 & Ha1) & Hle1 & Hup1).
  set (st1 := blockLines _ st) in *.
  assert (Hs1 : stack st1 = []) by (subst st1; by rewrite blockLines_stack).
  destruct HI as (_ & _ & Ha).
  specialize (Hup1 ltac:(lia)).
  destruct (blockContent_inSync s n e (openNode n st1) Hlen Hall)
    as (st2' & E2' & _ & [Hw2 Ha2] & Hreach).
  { simpl. by destruct (stack st1). }
  { split; [by rewrite written_openNode|]. simpl. lia. }
  rewrite E2 in E2'. injection E2' as <-.
  apply written_inv in Hw2 as (ls1 & ls2 & H1 & H2 & Hw2).
  assert (Hp : pending st2 = textContent (frame_el fr)).
  { unfold pending. rewrite Hs2. simpl. apply app_nil_r. }
  rewrite Hp in Hw2.
  split; [done|]. split; [|simpl; lia].
  cbn [scanOffset closedBlock]. rewrite Hreach, <- scanned_break by (done || lia).
  rewrite <- Hreach, Hw2.
  erewrite written_top; [|done|done|].
  2:{ cbn [el closedBlock]. apply rootLines_append; [done|]. cbn [blockText].
      rewrite linesOfBlock_classList_add, linesOfBlock_setAttribute.
      apply linesOfBlock_append; [done|]. apply lineText_marker.
      by rewrite textContent_addStyle, textContent_append. }
  by rewrite (app_assoc ls1), flatLines_snoc, app_assoc.
Qed.

Lemma getChildren_inSyncTop s nodes :
  forallb (endsAtBreak s) nodes = true →
  ∃ st, getChildren s nodes (jslength s) initialState = Some st
        ∧ stack st = [] ∧ inSyncTop s st.
Proof.
  intros Hok.
  destruct (top_getChildren s nodes (inSyncTop s))
    with (to := jslength s) (st := initialState) as (st & E & Hs & HI);
    try done.
  - intros st to Hs HI. by apply inSyncTop_skip.
  - intros n i s0 e st st' Hn Hs HI Hs0 He Hlt E.
    eapply inSyncTop_process; eauto.
    rewrite forallb_forall in Hok. apply Hok, list_elem_of_In,
      list_elem_of_lookup. eauto.
  - split; [done|]. split; [done|]. pose proof (jslength_nonneg s).
    simpl. lia.
  - eauto.
Qed.

Lemma flatLines_nonempty ls x : flatLines ls = x ++ [LF] →
  ∃ ls' l, ls = ls' ++ [l] ∧ flatLines ls' ++ l = x.
Proof.
  destruct ls as [|l ls'] using rev_ind.
  { intros H. by destruct x. }
  intros H. exists ls', l. split; [done|].
  rewrite flatLines_app in H. unfold flatLines at 2 in H. simpl in H.
  rewrite app_nil_r, app_assoc in H. by apply app_inj_tail in H as [? _].
Qed.

Lemma editorRender_final s nodes st :
  getChildren s nodes (jslength s) initialState = Some st →
  editorRender s nodes
  = Some (el (if scanOffset st <=? jslength s then
                pushBlock
                  (setBlock
                     (append (ElementNode
                                (createLine (sliceFrom s (scanOffset st))))
                             (block st)) st)
              else st)).
Proof. intros E. unfold editorRender, editorRenderState. by rewrite E. Qed.

(** C1, as amended. When every top-level node with a range ends inside the
    source at a line break or at the end of the source, and no descendant
    of it ends after it, reading the output back gives the source: every
    line of every block ends with the marker, and the texts of the lines
    without their markers, joined by line breaks, are the source. *)
Theorem text_fidelity :
  ∀ (sourceCode : jsstr) (nodes : list MdastNode),
    forallb (endsAtBreak sourceCode) nodes = true →
    ∃ root, editorRender sourceCode nodes = Some root
            ∧ readBack root = Some sourceCode.
Proof.
  intros s nodes Hok.
  destruct (getChildren_inSyncTop s nodes Hok) as (st & E & Hs & Hb & Hw & Ha).
  rewrite (editorRender_final _ _ _ E).
  eexists. split; [done|].
  destruct (written_top_inv _ _ Hs Hb Hw) as (ls1 & H1 & Hflat).
  unfold readBack.
  destruct (Z.leb_spec (scanOffset st) (jslength s)) as [Hle|Hgt].
  - unfold pushBlock, setBlock, setEl. cbn [el block]. rewrite Hb.
    rewrite (rootLines_block _ _ _ ls1 [] (sliceFrom s (scanOffset st)));
      [|done|done|apply textContent_createLine].
    simpl. rewrite joinLF_flat, <- Hflat. f_equal. apply scanned_rest. lia.
  - rewrite H1. simpl. f_equal.
    replace (scanOffset st) with (jslength s + 1) in Hflat by lia.
    rewrite scanned_all in Hflat. symmetry in Hflat.
    apply flatLines_nonempty in Hflat as (ls' & l & -> & <-).
    apply joinLF_flat.
Qed.

Lemma text_fidelity_witness :
  ∃ root, editorRender sourceB treeB = Some root
          ∧ readBack root = Some sourceB.
Proof. apply (text_fidelity sourceB treeB). vm_compute. reflexivity. Defined.

(** C1 as stated fails. The end of a top-level node takes the character
    after it for the line break: for ["a\r\n\r\nb"], that [remark-parse]
    reads as two paragraphs at [[0, 1)] and [[5, 6)], the first carriage
    return is dropped and the output reads back as ["a\n\n\r\nb"]; for
    ["ab"] with a paragraph that ends after ["a"], the ["b"] is dropped. *)
Lemma text_fidelity_needs_line_ends :
  (∃ root,
      editorRender sourceCRLF treeCRLF = Some root
      ∧ readBack root = Some (js "a" ++ [LF; LF; CR; LF] ++ js "b")
      ∧ readBack root ≠ Some sourceCRLF)
  ∧ (∃ root,
        editorRender (js "ab") [parent paragraph 0 1 [literal text 0 1]]
        = Some root
        ∧ readBack root = Some (js "a" ++ [LF])
        ∧ readBack root ≠ Some (js "ab")).
Proof.
  split; (eexists; split; [vm_compute; reflexivity|]; split;
          [vm_compute; reflexivity|]; vm_compute; discriminate).
Qed.

(** ** An opaque node over two lines *)

Lemma split_app_line lead u :
  LF ∉ lead →
  split LF (lead ++ u)
  = match split LF u with
    | h :: t => (lead ++ h) :: t
    | [] => [lead]
    end.
Proof.
  intros Hlead. induction lead as [|c lead IH]; simpl.
  { destruct (split LF u) eqn:E; [by destruct (split_nonempty LF u)|done]. }
  destruct (N.eqb_spec c LF) as [->|Hc].
  { exfalso. apply Hlead. by left. }
  rewrite IH by (intros ?; apply Hlead; by right).
  destruct (split LF u); reflexivity.
Qed.

Lemma slice_app s a b c :
  0 ≤ a ≤ b → b ≤ c → slice s a b ++ slice s b c = slice s a c.
Proof.
  intros Hab Hbc. unfold slice, sliceIndex, jslength.
  destruct (Z.ltb_spec a 0); [lia|]. destruct (Z.ltb_spec b 0); [lia|].
  destruct (Z.ltb_spec c 0); [lia|].
  set (len := Z.of_nat (length s)).
  replace (Z.to_nat (Z.min b len))
    with (Z.to_nat (Z.min a len)
          + Z.to_nat (Z.max (Z.min b len - Z.min a len) 0))%nat by lia.
  rewrite <- drop_drop.
  replace (Z.to_nat (Z.max (Z.min c len - Z.min a len) 0))
    with (Z.to_nat (Z.max (Z.min b len - Z.min a len) 0)
          + Z.to_nat (Z.max (Z.min c len - Z.min b len) 0))%nat by lia.
  by rewrite take_take_drop.
Qed.

Lemma slice_drop s a k c :
  0 ≤ a → 0 ≤ k → 0 ≤ c →
  slice s (a + k) c = drop (Z.to_nat k) (slice s a c).
Proof.
  intros Ha Hk Hc. unfold slice, sliceIndex, jslength.
  destruct (Z.ltb_spec a 0); [lia|]. destruct (Z.ltb_spec (a + k) 0); [lia|].
  destruct (Z.ltb_spec c 0); [lia|].
  set (len := Z.of_nat (length s)).
  rewrite skipn_firstn_comm, drop_drop.
  destruct (Z.le_gt_cases (a + k) len) as [Hle|Hgt].
  - f_equal; [lia|]. f_equal. lia.
  - rewrite !(drop_ge s) by (subst len; lia). by rewrite !take_nil.
Qed.

Lemma appendLine_last line d st s f :
  stack st = s ++ [f] →
  appendLine line d st = Some (setStack (s ++ [mapEl (withLine line d) f]) st).
Proof.
  intros Hs. destruct line as [|c line]; simpl.
  { destruct st, f. simpl in *. by subst. }
  unfold updateEl. rewrite updateFrame_Some
    by (rewrite Hs, length_app; simpl; lia).
  f_equal. f_equal. rewrite Hs, length_app. simpl.
  replace (length s + 1 - 1)%nat with (length s + 0)%nat by lia.
  by rewrite alter_app_r.
Qed.

(** [addText] of two lines into the element of a top-level node. *)
Lemma addText_two_lines t t0 t1 st f :
  stack st = [f] → split LF t = [t0; t1] →
  addText t false st
  = Some
      (setScanOffset (scanOffset st + jslength t)
         (setStack
            [mapEl (withLine t1 false) (renewed 0 f)]
            (setBlock
               (append
                  (ElementNode
                     (addStyle (node f) (first f) false
                        (append (TextNode [ZWSP])
                           (withLine t0 false (frame_el f)))))
                  (block st)) st))).
Proof.
  intros Hs Hsplit. unfold addText. rewrite Hs, Hsplit.
  rewrite (appendLine_last t0 false st [] f Hs). cbn [mbind option_bind].
  cbn [tail breakLines]. unfold breakLine. cbn [stack setStack app length].
  cbn [Nat.sub pushElements mbind option_bind].
  unfold updateEl. rewrite updateFrame_Some by (simpl; lia).
  cbn [mbind option_bind stack setStack alter list_alter].
  erewrite pushElement_O by reflexivity. cbn [mbind option_bind].
  erewrite (appendLine_last t1 false _ []) by reflexivity.
  cbn [mbind option_bind]. reflexivity.
Qed.

Lemma addStyle_first n e :
  isOpaque n = true → classList e = [] →
  addStyle n true false e
  = MkElement (tagName e)
      [classNamePrefix +:+ typeName (type n); firstClass]
      (attributes e) (childNodes e).
Proof.
  unfold isOpaque, addStyle. destruct e as [t cs a k]. simpl. intros Hn ->.
  destruct (type n); try discriminate Hn; reflexivity.
Qed.

Lemma addStyle_last n e :
  isOpaque n = true → classList e = [] →
  addStyle n false true e
  = MkElement (tagName e)
      [classNamePrefix +:+ typeName (type n); lastClass]
      (attributes e) (childNodes e).
Proof.
  unfold isOpaque, addStyle. destruct e as [t cs a k]. simpl. intros Hn ->.
  destruct (type n); try discriminate Hn; reflexivity.
Qed.

Lemma withLine_new t :
  withLine t false (createElement "div") = MkElement "div" [] [] (textNodes t).
Proof. by destruct t. Qed.

(** The block of a top-level opaque literal node. [lead] is the part of
    its first line that comes before it. *)
Lemma visit_opaque_two_lines sourceCode n i s e u0 u1 st :
  isOpaque n = true → children n = None →
  startOffsetOf n = Some s → endOffsetOf n = Some e →
  s < e → split LF (slice sourceCode s e) = [u0; u1] →
  stack st = [] → block st = createElement "div" →
  0 ≤ scanOffset st ≤ s →
  ∃ st' lead,
    visit sourceCode n i st = Some st'
    ∧ stack st' = []
    ∧ (LF ∉ lead)
    ∧ (lead `suffix_of` slice sourceCode (scanOffset st) s)
    ∧ last (childNodes (el st'))
      = Some (twoLineBlock i n (lead ++ u0) u1).
Proof.
  intros Hop Hkids Hs He Hse Hsplit Hst Hb Ha.
  rewrite (visit_clamped _ _ _ _ _ _ Hs He) by lia.
  replace (Z.max s (scanOffset st)) with s by lia.
  rewrite (process_top _ _ _ _ _ _ Hst).
  destruct (split_snoc (slice sourceCode (scanOffset st) s))
    as (ls & lead & Hgap & Ht).
  rewrite Hgap, blockLines_snoc.
  set (st1 := foldl _ st ls).
  assert (Hst1 : stack st1 = []).
  { subst st1. by rewrite blockLines_stack_foldl. }
  assert (Hb1 : block st1 = createElement "div").
  { subst st1. clear -Hb. revert st Hb.
    induction ls as [|l ls IH]; intros st Hb; [done|]. simpl. by apply IH. }
  assert (Hoff1 : scanOffset st1 = scanOffset st + jslength (flatLines ls)).
  { subst st1. clear. revert st.
    induction ls as [|l ls IH]; intros st.
    { unfold flatLines, jslength. simpl. lia. }
    simpl. rewrite IH, flatLines_cons.
    change (l ++ LF :: flatLines ls) with (l ++ [LF] ++ flatLines ls).
    rewrite !jslength_app. change (jslength [LF]) with 1. simpl. lia. }
  assert (Hlead : LF ∉ lead).
  { pose proof (split_no_LF (slice sourceCode (scanOffset st) s)) as H.
    rewrite Hgap, Forall_app, Forall_singleton in H. apply H. }
  assert (Htext : slice sourceCode (scanOffset st1) e
                  = lead ++ slice sourceCode s e).
  { rewrite Hoff1, slice_drop by (try lia; apply jslength_nonneg).
    rewrite <- (slice_app sourceCode (scanOffset st) s e) by lia.
    rewrite Ht, <- app_assoc. unfold jslength. rewrite Nat2Z.id.
    by rewrite drop_app_length. }
  assert (Hlines : split LF (slice sourceCode (scanOffset st1) e)
                   = [lead ++ u0; u1]).
  { by rewrite Htext, split_app_line, Hsplit. }
  unfold blockContent. rewrite Hkids.
  cbn [scanOffset openNode setStack].
  rewrite (addText_two_lines _ (lead ++ u0) u1 (openNode n st1)
             (newFrame n "div"));
    [|by (cbn [stack openNode setStack]; rewrite Hst1)|exact Hlines].
  cbn [mbind option_bind].
  erewrite closeNode_top by reflexivity.
  eexists _, lead. split; [reflexivity|]. split; [reflexivity|].
  split; [done|]. split; [rewrite Ht; by apply suffix_app_r|].
  cbn [el closedBlock setScanOffset setStack setBlock openNode block
       node first frame_el mapEl renewed newFrame].
  rewrite childNodes_append, last_snoc, Hb1. f_equal.
  rewrite !withLine_new.
  rewrite addStyle_first, addStyle_last by done.
  reflexivity.
Qed.

(** ** The walk before and after a top-level node *)

Lemma lineBlocks_block ls st :
  block st = createElement "div" →
  block (foldl (λ st line, lineBlock line st) st ls) = createElement "div".
Proof.
  revert st. induction ls as [|l ls IH]; intros st Hb; [done|].
  simpl. by apply IH.
Qed.

Lemma lineBlocks_offset ls st :
  scanOffset (foldl (λ st line, lineBlock line st) st ls)
  = scanOffset st + jslength (flatLines ls).
Proof.
  revert st. induction ls as [|l ls IH]; intros st.
  { unfold flatLines, jslength. simpl. lia. }
  simpl. rewrite IH, flatLines_cons.
  change (l ++ LF :: flatLines ls) with (l ++ [LF] ++ flatLines ls).
  rewrite !jslength_app. change (jslength [LF]) with 1. simpl. lia.
Qed.

Lemma lineBlocks_grows ls st b :
  b ∈ childNodes (el st) →
  b ∈ childNodes (el (foldl (λ st line, lineBlock line st) st ls)).
Proof.
  revert st. induction ls as [|l ls IH]; intros st Hb; [done|].
  simpl. apply IH. cbn [el lineBlock pushBlock setBlock setEl setScanOffset].
  rewrite childNodes_append. apply elem_of_app. by left.
Qed.

(** The gap before a top-level node: [scanOffset] stays at or before the
    start of the node. *)
Lemma blockLines_before s st to :
  0 ≤ scanOffset st ≤ to →
  let st' := blockLines (split LF (slice s (scanOffset st) to)) st in
  scanOffset st ≤ scanOffset st' ≤ to
  ∧ (block st = createElement "div" → block st' = createElement "div")
  ∧ ∀ b, b ∈ childNodes (el st) → b ∈ childNodes (el st').
Proof.
  intros Ha. destruct (split_snoc (slice s (scanOffset st) to))
    as (ls & l & -> & Ht).
  cbv zeta. rewrite blockLines_snoc, lineBlocks_offset.
  pose proof (slice_upper s (scanOffset st) to ltac:(lia) ltac:(lia)) as Hup.
  rewrite Ht, jslength_app in Hup.
  pose proof (jslength_nonneg (flatLines ls)). pose proof (jslength_nonneg l).
  split; [lia|]. split; [apply lineBlocks_block|]. intros b.
  apply lineBlocks_grows.
Qed.

(** Inside a block whose nodes all end by [bound], [scanOffset] stays
    within [0 .. bound]. *)
Lemma blockContent_bounded s bound n e st :
  allNodes (endsBy bound) n = true → 0 ≤ e ≤ bound →
  stack st ≠ [] → 0 ≤ scanOffset st ≤ bound →
  ∃ st', blockContent s n e st = Some st'
         ∧ map node (stack st') = map node (stack st)
         ∧ 0 ≤ scanOffset st' ≤ bound.
Proof.
  intros Hall He Hne Ha.
  assert (Hstep : ∀ a to d b,
             stack a ≠ [] → 0 ≤ scanOffset a ≤ bound → 0 ≤ to ≤ bound →
             addText (slice s (scanOffset a) to) d a = Some b →
             0 ≤ scanOffset b ≤ bound).
  { intros a to d b Hna Hoa Hto E.
    destruct (addText_inner (slice s (scanOffset a) to) d a Hna)
      as (x & Ex & Hx).
    rewrite Ex in E. injection E as <-. simpl.
    rewrite (steady_offset _ _ Hx).
    pose proof (slice_upper s (scanOffset a) to ltac:(lia) ltac:(lia)).
    pose proof (jslength_nonneg (slice s (scanOffset a) to)). lia. }
  destruct (walks_blockContent s (endsBy bound) (λ to, 0 ≤ to ≤ bound)
              (λ st, 0 ≤ scanOffset st ≤ bound) (λ _ _, True))
    with (n := n) (e := e) (st := st) as (st' & E & Hn & HI & _);
    try done.
  5:{ eauto. }
  - intros m e' a Hm Hend Hoa Hlt. unfold endsBy in Hm. rewrite Hend in Hm.
    lia.
  - intros a to e' d b Hna Hoa Hle Hlt Hlim E. split; [|done].
    apply (Hstep a to d b); [done|done|lia|done].
  - intros a to d b Hna Hoa Hlim E. split; [|done].
    by apply (Hstep a to d b).
  - intros m j a b c _ Hna _ Hob _ Hnodes E. split; [|done].
    destruct (closeNode_nested_inv _ _ _ _ _ Hna Hnodes E) as (x & Ex & ->).
    simpl. by rewrite (steady_offset _ _ (pushElement_steady _ _ _ _ Ex)).
Qed.

(** The top-level nodes before a node that starts at [s], when they and
    their descendants end before [s]. *)
Lemma forNodes_before s0 pre s :
  0 ≤ s → forallb (allNodes (endsBy (s - 1))) pre = true →
  ∃ st, forNodes (visit s0) pre O initialState = Some st
        ∧ stack st = [] ∧ block st = createElement "div"
        ∧ 0 ≤ scanOffset st ≤ s.
Proof.
  intros Hs Hall.
  destruct (top_forNodes s0 pre
              (λ st, block st = createElement "div" ∧ 0 ≤ scanOffset st ≤ s))
    with (rest := pre) (i := O) (st := initialState)
    as (st & E & Hst & Hb & Ha); try done.
  2:{ exists st. done. }
  intros n i sn e st st' Hn Hst [Hb Ha] Hsn He Hlt E.
  assert (Hgood : allNodes (endsBy (s - 1)) n = true).
  { rewrite forallb_forall in Hall. apply Hall, list_elem_of_In,
      list_elem_of_lookup. eauto. }
  assert (He' : e ≤ s - 1).
  { apply allNodes_here in Hgood. unfold endsBy in Hgood.
    rewrite He in Hgood. lia. }
  destruct (process_top_inv s0 n i (Z.max sn (scanOffset st)) e st Hst)
    as (st2 & fr & E2 & Hs2 & Hfr & E').
  rewrite E' in E. injection E as <-.
  destruct (blockLines_before s0 st (Z.max sn (scanOffset st)) ltac:(lia))
    as (Ha1 & Hb1 & _).
  set (st1 := blockLines _ st) in *.
  destruct (blockContent_bounded s0 (s - 1) n e (openNode n st1))
    as (st2' & E2' & _ & Ha2); try done.
  - lia.
  - simpl. by destruct (stack st1).
  - simpl. lia.
  - rewrite E2 in E2'. injection E2' as <-. simpl. split; [done|lia].
Qed.

(** The blocks of the root stay when the walk goes on. *)
Lemma forNodes_keeps s nodes rest i st b :
  drop i nodes = rest → stack st = [] → b ∈ childNodes (el st) →
  ∃ st', forNodes (visit s) rest i st = Some st'
         ∧ stack st' = [] ∧ b ∈ childNodes (el st').
Proof.
  intros Hdrop Hst Hb.
  apply (top_forNodes s nodes (λ st, b ∈ childNodes (el st))); try done.
  clear. intros n i sn e st st' _ Hst Hb _ _ _ E.
  destruct (process_top_inv s n i (Z.max sn (scanOffset st)) e st Hst)
    as (st2 & fr & E2 & Hs2 & Hfr & E').
  rewrite E' in E. injection E as <-.
  destruct (split_snoc (slice s (scanOffset st) (Z.max sn (scanOffset st))))
    as (ls & l & Hsplit & _).
  rewrite Hsplit, blockLines_snoc in E2.
  pose proof (lineBlocks_grows ls st b Hb) as Hb1.
  set (st1 := foldl _ st ls) in *.
  destruct (blockContent_enduring s n e (openNode n st1))
    as (st2' & E2' & _ & (Hel & _)).
  { simpl. by destruct (stack st1). }
  rewrite E2 in E2'. injection E2' as <-.
  cbn [el closedBlock]. rewrite childNodes_append, Hel.
  apply elem_of_app. by left.
Qed.

(** A block of the root after the loop over the top-level nodes is a block
    of the output. *)
Lemma editorRender_keeps s nodes st b :
  forNodes (visit s) nodes O initialState = Some st → stack st = [] →
  b ∈ childNodes (el st) →
  ∃ root, editorRender s nodes = Some root ∧ b ∈ childNodes root.
Proof.
  intros E Hst Hb.
  assert (Eg : getChildren s nodes (jslength s) initialState
               = Some (blockLines
                         (split LF (slice s (scanOffset st) (jslength s)))
                         st)).
  { unfold getChildren. rewrite E. simpl. by apply addText_outer. }
  rewrite (editorRender_final _ _ _ Eg). eexists. split; [done|].
  destruct (split_snoc (slice s (scanOffset st) (jslength s)))
    as (ls & l & -> & _).
  rewrite blockLines_snoc.
  pose proof (lineBlocks_grows ls st b Hb) as Hb1.
  set (st1 := foldl _ st ls) in *.
  destruct (_ <=? _); [|done].
  cbn [el pushBlock setBlock setEl]. rewrite childNodes_append.
  apply elem_of_app. by left.
Qed.

Lemma opaque_block_in_output s pre n post sn e u0 u1 :
  isOpaque n = true → children n = None →
  startOffsetOf n = Some sn → endOffsetOf n = Some e → 0 ≤ sn < e →
  split LF (slice s sn e) = [u0; u1] →
  forallb (allNodes (endsBy (sn - 1))) pre = true →
  ∃ root lead,
    editorRender s (pre ++ n :: post) = Some root
    ∧ (LF ∉ lead)
    ∧ twoLineBlock (length pre) n (lead ++ u0) u1 ∈ childNodes root.
Proof.
  intros Hop Hkids Hsn He Hrange Hsplit Hpre.
  destruct (forNodes_before s pre sn ltac:(lia) Hpre)
    as (st0 & E0 & Hst0 & Hb0 & Ha0).
  destruct (visit_opaque_two_lines s n (length pre) sn e u0 u1 st0)
    as (st1 & lead & E1 & Hst1 & Hlead & _ & Hlast); try done; try lia.
  assert (Hin : twoLineBlock (length pre) n (lead ++ u0) u1
                ∈ childNodes (el st1)).
  { apply last_Some in Hlast as (k & ->). apply elem_of_app. right.
    by apply list_elem_of_singleton. }
  assert (Hdrop : drop (S (length pre)) (pre ++ n :: post) = post).
  { rewrite (cons_middle n pre post), app_assoc. apply drop_app_length'.
    rewrite length_app. simpl. lia. }
  destruct (forNodes_keeps s (pre ++ n :: post) post (S (length pre)) st1 _
              Hdrop Hst1 Hin)
    as (st2 & E2 & Hst2 & Hin2).
  destruct (editorRender_keeps s (pre ++ n :: post) st2
              (twoLineBlock (length pre) n (lead ++ u0) u1))
    as (root & E & Hr); [|done|done|eauto].
  rewrite forNodes_app, E0. simpl. rewrite Nat.add_0_r, E1. simpl. exact E2.
Qed.

(** ** Two calls *)

Lemma sameClasses_refl l : sameClasses l l = true.
Proof.
  unfold sameClasses. apply andb_true_intro.
  split; apply forallb_forall; intros c Hc; apply bool_decide_eq_true;
    by apply list_elem_of_In.
Qed.

Lemma Element_nested_ind (P : Element → Prop) :
  (∀ t c a kids,
      Forall (λ k, match k with
                   | TextNode _ => True
                   | ElementNode e => P e
                   end) kids →
      P (MkElement t c a kids)) →
  ∀ e, P e.
Proof.
  intros H. fix IH 1. intros [t c a kids]. apply H.
  induction kids as [|k kids IHk]; [by constructor|].
  constructor; [|exact IHk]. destruct k as [d|e]; [exact I|apply IH].
Qed.

Lemma sameStructure_refl e : sameStructure e e = true.
Proof.
  induction e as [t c a kids IH] using Element_nested_ind. simpl.
  rewrite !bool_decide_eq_true_2 by done. rewrite sameClasses_refl. simpl.
  induction IH as [|k kids Hk _ IHk]; [done|].
  destruct k as [d|e].
  - rewrite bool_decide_eq_true_2 by done. exact IHk.
  - rewrite Hk. exact IHk.
Qed.
(** ** An opaque node below flow content *)

Lemma hasClasses_elem c m e :
  hasClasses [c; m] (ElementNode e) = true
  ↔ c ∈ classList e ∧ m ∈ classList e.
Proof.
  simpl. rewrite andb_true_r, andb_true_iff, !bool_decide_eq_true. done.
Qed.

Lemma adjacentLines_cons c a b l :
  adjacentLines c (a :: b :: l)
  = hasClasses [c; firstClass] a && hasClasses [c; lastClass] b
    || adjacentLines c (b :: l).
Proof. reflexivity. Qed.

Lemma adjacentLines_app c l x :
  adjacentLines c l = true → adjacentLines c (l ++ [x]) = true.
Proof.
  induction l as [|a l IH]; [done|]. destruct l as [|b l]; [done|].
  change ((a :: b :: l) ++ [x]) with (a :: b :: (l ++ [x])).
  rewrite !adjacentLines_cons, !orb_true_iff. intros [H|H]; [by left|].
  right. by apply IH.
Qed.

Lemma adjacentLines_snoc c l a b :
  last l = Some a →
  hasClasses [c; firstClass] a = true → hasClasses [c; lastClass] b = true →
  adjacentLines c (l ++ [b]) = true.
Proof.
  intros Hl Ha Hb. induction l as [|x l IH]; [done|].
  destruct l as [|y l].
  - injection Hl as ->. simpl. by rewrite Ha, Hb.
  - change ((x :: y :: l) ++ [b]) with (x :: y :: (l ++ [b])).
    rewrite adjacentLines_cons, orb_true_iff. right. by apply IH.
Qed.

Lemma addStyle_grows n f l e : classList e ⊆ classList (addStyle n f l e).
Proof.
  intros x Hx. unfold addStyle.
  destruct (type n), f, l; auto using classList_add_keeps.
Qed.

Lemma addStyle_marks n f l e :
  isOpaque n = true →
  (f = true → firstClass ∈ classList (addStyle n f l e))
  ∧ (l = true → lastClass ∈ classList (addStyle n f l e)).
Proof.
  unfold isOpaque, addStyle. intros Hn.
  destruct (type n); try discriminate Hn;
    (split; intros ->; [destruct l|destruct f]);
    auto using classList_add_keeps, classList_add_here.
Qed.

(** *** Steps that append no line *)

Lemma lineGrows_refl s : lineGrows s s.
Proof. intros f0 H. eauto. Qed.

Lemma lineGrows_trans a b c : lineGrows a b → lineGrows b c → lineGrows a c.
Proof.
  intros Hab Hbc f0 H0. destruct (Hab f0 H0) as (f1 & H1 & Hsub1).
  destruct (Hbc f1 H1) as (f2 & H2 & Hsub2). exists f2. split; [done|].
  by etrans.
Qed.

Lemma lineGrows_alter i g (s : list Frame) :
  (i = 0%nat →
   ∀ fr, classList (frame_el fr) ⊆ classList (frame_el (g fr))) →
  lineGrows s (alter g i s).
Proof.
  intros Hg f0 H0. destruct i as [|i].
  - exists (g f0). rewrite list_lookup_alter_eq, H0. split; [done|].
    by apply Hg.
  - exists f0. by rewrite list_lookup_alter_ne.
Qed.

Lemma grows_refl st : grows st st.
Proof. split; [done|apply lineGrows_refl]. Qed.

Lemma grows_trans a b c : grows a b → grows b c → grows a c.
Proof.
  intros [Hb1 Hs1] [Hb2 Hs2]. split; [congruence|].
  by eapply lineGrows_trans.
Qed.

Lemma grows_lineOpen c m st st' :
  grows st st' → lineOpen c m st → lineOpen c m st'.
Proof.
  intros [_ Hs] (f0 & H0 & Hc & Hm).
  destruct (Hs f0 H0) as (f0' & H0' & Hsub). exists f0'. auto.
Qed.

Lemma grows_lineDone c m st st' :
  grows st st' → lineDone c m st → lineDone c m st'.
Proof. intros [Hb _] (line & Hl & Hc). exists line. by rewrite Hb. Qed.

Lemma grows_paired c st st' : grows st st' → paired c st → paired c st'.
Proof.
  intros Hg [H|[Hd Ho]].
  - left. by rewrite (proj1 Hg).
  - right. eauto using grows_lineOpen, grows_lineDone.
Qed.

Lemma updateFrame_grows i g st st' :
  (i = 0%nat →
   ∀ fr, classList (frame_el fr) ⊆ classList (frame_el (g fr))) →
  updateFrame i g st = Some st' → grows st st'.
Proof.
  intros Hg [_ ->]%updateFrame_inv. split; [done|]. simpl.
  by apply lineGrows_alter.
Qed.

Lemma updateEl_grows i f st st' :
  (∀ e, classList e ⊆ classList (f e)) →
  updateEl i f st = Some st' → grows st st'.
Proof. intros Hf. apply updateFrame_grows. intros _ fr. apply Hf. Qed.

Lemma append_grows k e : classList e ⊆ classList (append k e).
Proof. by rewrite classList_append. Qed.

Lemma pushElement_inv_S p l st st' :
  pushElement (S p) l st = Some st' →
  ∃ fr pf, stack st !! S p = Some fr ∧ stack st !! p = Some pf.
Proof.
  intros E. destruct (stack st !! S p) as [fr|] eqn:Hfr;
    [|unfold pushElement in E; by rewrite Hfr in E].
  destruct (stack st !! p) as [pf|] eqn:Hpf;
    [|unfold pushElement in E; rewrite Hfr in E; simpl in E;
      by rewrite Hpf in E].
  eauto.
Qed.

Lemma pushElement_S_grows p l st st' :
  pushElement (S p) l st = Some st' → grows st st'.
Proof.
  intros E. destruct (pushElement_inv_S _ _ _ _ E) as (fr & pf & Hfr & Hpf).
  rewrite (pushElement_S _ _ _ _ _ Hfr Hpf) in E. injection E as <-.
  split; [done|]. simpl.
  eapply lineGrows_trans; [|apply lineGrows_alter; by intros [=]].
  eapply lineGrows_trans;
    [|apply lineGrows_alter; intros _ x; apply append_grows].
  apply lineGrows_alter. intros _ x. apply addStyle_grows.
Qed.

(** The classes of an opaque node below flow content go to the open
    line. *)
Lemma pushElement_S_flow p l st st' fr pf :
  stack st !! S p = Some fr → stack st !! p = Some pf →
  isFlowContent (node pf) = true → isOpaque (node fr) = true →
  pushElement (S p) l st = Some st' →
  (first fr = true →
   lineOpen (classNamePrefix +:+ typeName (type (node fr))) firstClass st')
  ∧ (l = true →
     lineOpen (classNamePrefix +:+ typeName (type (node fr))) lastClass st').
Proof.
  intros Hfr Hpf Hflow Hop E.
  rewrite (pushElement_S _ _ _ _ _ Hfr Hpf) in E. injection E as <-.
  unfold targetOf. rewrite Hflow.
  destruct (lookup_lt_is_Some_2 (stack st) 0) as [f0 H0].
  { apply lookup_lt_Some in Hfr. lia. }
  set (style := mapEl (addStyle (node fr) (first fr) l)).
  assert (Hg : lineGrows (alter style 0%nat (stack st))
                 (alter (renewed (S p)) (S p)
                    (alter (mapEl (append (ElementNode (frame_el fr)))) p
                       (alter style 0%nat (stack st))))).
  { eapply lineGrows_trans; [|apply lineGrows_alter; by intros [=]].
    apply lineGrows_alter. intros _ x. apply append_grows. }
  destruct (Hg (style f0)) as (f0' & H0' & Hsub).
  { by rewrite list_lookup_alter_eq, H0. }
  destruct (addStyle_marks (node fr) (first fr) l (frame_el f0) Hop)
    as [Hfirst Hlast].
  pose proof (addStyle_type (node fr) (first fr) l (frame_el f0)) as Htype.
  split; intros H; exists f0'; (split; [exact H0'|]); split; apply Hsub;
    auto.
Qed.

Lemma pushElement_O_inv l st st' :
  pushElement 0 l st = Some st' →
  ∃ fr rest,
    stack st = fr :: rest
    ∧ block st'
      = append (ElementNode
                  (addStyle (node fr) (first fr) l (frame_el fr)))
               (block st).
Proof.
  intros E. destruct (stack st) as [|fr rest] eqn:Hs.
  { unfold pushElement in E. by rewrite Hs in E. }
  rewrite (pushElement_O _ _ _ _ Hs) in E. injection E as <-. eauto.
Qed.

(** The open line becomes the last line of [block]. *)
Lemma pushElement_O_lineDone c m l st st' :
  pushElement 0 l st = Some st' → lineOpen c m st → lineDone c m st'.
Proof.
  intros E (f0 & H0 & Hc & Hm).
  destruct (pushElement_O_inv _ _ _ E) as (fr & rest & Hs & Hb).
  rewrite Hs in H0. injection H0 as ->. unfold lineDone. rewrite Hb.
  eexists. rewrite childNodes_append, last_snoc. split; [done|].
  apply hasClasses_elem. split; by apply addStyle_grows.
Qed.

Lemma pushElement_O_paired c l st st' :
  pushElement 0 l st = Some st' → paired c st →
  adjacentLines c (childNodes (block st')) = true.
Proof.
  intros E Hp.
  destruct (pushElement_O_inv _ _ _ E) as (fr & rest & Hs & ->).
  rewrite childNodes_append. destruct Hp as [H|[Hd Ho]].
  - by apply adjacentLines_app.
  - destruct Hd as (line & Hl & Hc). destruct Ho as (f0 & H0 & Hc0 & Hm0).
    rewrite Hs in H0. injection H0 as ->.
    eapply adjacentLines_snoc; [exact Hl|exact Hc|].
    apply hasClasses_elem. split; by apply addStyle_grows.
Qed.

Lemma pushElement_paired c index l st st' :
  pushElement index l st = Some st' → paired c st → paired c st'.
Proof.
  intros E Hp. destruct index as [|p].
  - left. by eapply pushElement_O_paired.
  - eapply grows_paired; [|exact Hp]. by eapply pushElement_S_grows.
Qed.

Lemma pushElements_grows j st st' :
  pushElements j st = Some st' → grows st st'.
Proof.
  revert st. induction j as [|j IH]; intros st E; simpl in E.
  { injection E as <-. apply grows_refl. }
  destruct (pushElement (S j) false st) as [st1|] eqn:E1; [|done].
  eapply grows_trans; [by eapply pushElement_S_grows|]. by apply IH.
Qed.

Lemma appendLine_grows line d st st' :
  appendLine line d st = Some st' → grows st st'.
Proof.
  destruct line as [|c line]; simpl.
  { intros [= <-]. apply grows_refl. }
  apply updateEl_grows. intros e. apply append_grows.
Qed.

Lemma breakLine_paired c line d st st' :
  breakLine line d st = Some st' → paired c st → paired c st'.
Proof.
  unfold breakLine. intros E Hp.
  destruct (pushElements _ st) as [s1|] eqn:E1; [|done]. simpl in E.
  destruct (updateEl 0 _ s1) as [s2|] eqn:E2; [|done]. simpl in E.
  destruct (pushElement 0 false s2) as [s3|] eqn:E3; [|done]. simpl in E.
  eapply grows_paired; [by eapply appendLine_grows|].
  eapply pushElement_paired; [exact E3|].
  eapply grows_paired;
    [eapply updateEl_grows; [|exact E2]; intros e; apply append_grows|].
  eapply grows_paired; [by eapply pushElements_grows|done].
Qed.

Lemma breakLines_paired c lines d st st' :
  breakLines lines d st = Some st' → paired c st → paired c st'.
Proof.
  revert st. induction lines as [|line rest IH]; intros st E Hp; simpl in E.
  { by injection E as <-. }
  destruct (breakLine line d st) as [s1|] eqn:E1; [|done].
  eauto using breakLine_paired.
Qed.

Lemma paired_setScanOffset c v st :
  paired c st → paired c (setScanOffset v st).
Proof. done. Qed.

Lemma addText_paired c t d st st' :
  stack st ≠ [] → addText t d st = Some st' → paired c st → paired c st'.
Proof.
  intros Hne E Hp. unfold addText in E.
  destruct (stack st) as [|fr rest] eqn:Hs; [done|].
  destruct (match split LF t with
            | [] => Some st
            | line :: _ => appendLine line d st
            end) as [s1|] eqn:E1; [|done].
  simpl in E.
  destruct (breakLines _ d s1) as [s2|] eqn:E2; [|done].
  injection E as <-. apply paired_setScanOffset.
  eapply breakLines_paired; [exact E2|].
  destruct (split LF t); [by injection E1 as <-|].
  eapply grows_paired; [by eapply appendLine_grows|done].
Qed.

Lemma openNode_grows n st : grows st (openNode n st).
Proof.
  split; [done|]. intros f0 H0. exists f0. split; [|done]. simpl.
  by apply lookup_app_l_Some.
Qed.

Lemma removelast_grows (s : list Frame) :
  (1 < length s)%nat → lineGrows s (removelast s).
Proof.
  intros Hlen f0 H0. exists f0. split; [|done].
  destruct s as [|a [|b s]]; simpl in *; [lia|lia|done].
Qed.

Lemma closeNode_paired c n i st st1 st2 :
  stack st ≠ [] → paired c st1 →
  map node (stack st1) = map node (stack st) ++ [n] →
  closeNode i st1 = Some st2 →
  paired c st2.
Proof.
  intros Hne Hp Hnodes E.
  destruct (closeNode_nested_inv _ _ _ _ _ Hne Hnodes E) as (st' & E' & ->).
  assert (Hlen : length (stack st1) = S (length (stack st))).
  { rewrite <- (length_map node (stack st1)), Hnodes, length_app,
      length_map. simpl. lia. }
  apply (pushElement_paired c _ _ _ _ E') in Hp.
  eapply grows_paired; [|exact Hp]. split; [done|]. simpl.
  apply removelast_grows.
  rewrite (steady_length _ _ (pushElement_steady _ _ _ _ E')), Hlen.
  destruct (stack st); [done|simpl; lia].
Qed.

(** Inside a block, the two lines stay. *)
Lemma paired_forNodes c s nodes i :
  walks (paired c) (λ _ _, True) (forNodes (visit s) nodes i).
Proof.
  apply (walks_forNodes_all s (λ _, true) (λ _, True) (paired c)
           (λ _ _, True)).
  - done.
  - done.
  - done.
  - intros st to e d st' Hne Hp _ _ _ E. split; [|done].
    by eapply addText_paired.
  - intros st to d st' Hne Hp _ E. split; [|done]. by eapply addText_paired.
  - intros n st _ Hp. eapply grows_paired; [apply openNode_grows|done].
  - intros n j st st1 st2 _ Hne _ Hp1 _ Hnodes E. split; [|done].
    by eapply closeNode_paired.
  - apply forallb_allNodes_true.
Qed.

(** *** The scan offset before the node *)

Lemma addText_bounded s bound a to d b :
  stack a ≠ [] → 0 ≤ scanOffset a ≤ bound → 0 ≤ to ≤ bound →
  addText (slice s (scanOffset a) to) d a = Some b →
  0 ≤ scanOffset b ≤ bound.
Proof.
  intros Hna Hoa Hto E.
  destruct (addText_inner (slice s (scanOffset a) to) d a Hna)
    as (x & Ex & Hx).
  rewrite Ex in E. injection E as <-. simpl.
  rewrite (steady_offset _ _ Hx).
  pose proof (slice_upper s (scanOffset a) to ltac:(lia) ltac:(lia)).
  pose proof (jslength_nonneg (slice s (scanOffset a) to)). lia.
Qed.

Lemma forNodes_bounded s bound nodes i st :
  forallb (allNodes (endsBy bound)) nodes = true →
  stack st ≠ [] → 0 ≤ scanOffset st ≤ bound →
  ∃ st', forNodes (visit s) nodes i st = Some st'
         ∧ map node (stack st') = map node (stack st)
         ∧ 0 ≤ scanOffset st' ≤ bound.
Proof.
  intros Hall Hne Ha.
  destruct (walks_forNodes_all s (endsBy bound) (λ to, 0 ≤ to ≤ bound)
              (λ st, 0 ≤ scanOffset st ≤ bound) (λ _ _, True))
    with (nodes := nodes) (i := i) (st := st) as (st' & E & Hn & HI & _);
    [done|done| | | | | |done|done|done|eauto].
  - intros m e' a Hm Hend Hoa Hlt. unfold endsBy in Hm. rewrite Hend in Hm.
    lia.
  - intros a to e' d b Hna Hoa Hle Hlt Hlim E. split; [|done].
    apply (addText_bounded s bound a to d b); [done|done|lia|done].
  - intros a to d b Hna Hoa Hlim E. split; [|done].
    by apply (addText_bounded s bound a to d b).
  - done.
  - intros m j a b c _ Hna _ Hob _ Hnodes E. split; [|done].
    destruct (closeNode_nested_inv _ _ _ _ _ Hna Hnodes E) as (x & Ex & ->).
    simpl. by rewrite (steady_offset _ _ (pushElement_steady _ _ _ _ Ex)).
Qed.

(** *** The two lines of the node *)

Lemma addText_two t t0 t1 d st :
  stack st ≠ [] → split LF t = [t0; t1] →
  addText t d st
  = appendLine t0 d st ≫= λ a,
    breakLine t1 d a ≫= λ b,
    Some (setScanOffset (scanOffset b + jslength t) b).
Proof.
  intros Hne Hsplit. unfold addText. rewrite Hsplit.
  destruct (stack st); [done|]. cbn [tail breakLines].
  destruct (appendLine t0 d st) as [a|]; [|done]. cbn [mbind option_bind].
  by destruct (breakLine t1 d a).
Qed.

Lemma last_map_node (s : list Frame) pn :
  last (map node s) = Some pn → ∃ s' pf, s = s' ++ [pf] ∧ node pf = pn.
Proof.
  change (map node s) with (node <$> s). rewrite fmap_last.
  destruct (last s) as [pf|] eqn:Hl; [|done]. intros [= <-].
  apply last_Some in Hl as [s' ->]. eauto.
Qed.

Lemma lookup_map_node (s s' : list Frame) i f :
  map node s' = map node s → s !! i = Some f →
  ∃ f', s' !! i = Some f' ∧ node f' = node f.
Proof.
  intros Hn Hf.
  assert (H : (node <$> s') !! i = Some (node f)).
  { change (node <$> s') with (map node s'). rewrite Hn.
    change (map node s) with (node <$> s).
    by rewrite list_lookup_fmap, Hf. }
  rewrite list_lookup_fmap in H. destruct (s' !! i) as [f'|]; [|done].
  injection H as H. eauto.
Qed.

(** The first line of an opaque node below flow content is appended with
    the classes of the node and ["first"]. *)
Lemma breakLine_first line d a b s pf fr :
  stack a = s ++ [pf; fr] →
  isFlowContent (node pf) = true → isOpaque (node fr) = true →
  first fr = true →
  breakLine line d a = Some b →
  lineDone (classNamePrefix +:+ typeName (type (node fr))) firstClass b.
Proof.
  intros Hs Hflow Hop Hfirst E. unfold breakLine in E.
  assert (Hlen : (length (stack a) - 1 = S (length s))%nat).
  { rewrite Hs, length_app. simpl. lia. }
  rewrite Hlen in E. cbn [pushElements] in E.
  destruct (pushElement (S (length s)) false a) as [s1|] eqn:E1; [|done].
  cbn [mbind option_bind] in E.
  destruct (pushElements (length s) s1) as [s2|] eqn:E2; [|done].
  cbn [mbind option_bind] in E.
  destruct (updateEl 0 _ s2) as [s3|] eqn:E3; [|done].
  cbn [mbind option_bind] in E.
  destruct (pushElement 0 false s3) as [s4|] eqn:E4; [|done].
  cbn [mbind option_bind] in E.
  assert (Hfr : stack a !! S (length s) = Some fr).
  { rewrite Hs. by rewrite lookup_app_r, Nat.sub_succ_l, Nat.sub_diag by lia. }
  assert (Hpf : stack a !! length s = Some pf).
  { rewrite Hs. by rewrite lookup_app_r, Nat.sub_diag by lia. }
  destruct (pushElement_S_flow _ _ _ _ _ _ Hfr Hpf Hflow Hop E1) as [H1 _].
  specialize (H1 Hfirst).
  eapply grows_lineDone; [by eapply appendLine_grows|].
  eapply pushElement_O_lineDone; [exact E4|].
  eapply grows_lineOpen;
    [eapply updateEl_grows; [|exact E3]; intros x; apply append_grows|].
  eapply grows_lineOpen; [by eapply pushElements_grows|done].
Qed.

Lemma closeNode_nested_total n i st st1 :
  stack st ≠ [] →
  map node (stack st1) = map node (stack st) ++ [n] →
  ∃ st2, closeNode i st1 = Some st2
         ∧ map node (stack st2) = map node (stack st).
Proof.
  intros Hne Hnodes.
  destruct (walks_close (λ _, true) (λ _, True) (λ _ _, True))
    with (n := n) (i := i) (st := st) (st1 := st1)
    as (st2 & E & Hn & _); [done..|eauto].
Qed.

(** An opaque node without children over two lines, below flow content:
    the line that is open when the node starts is appended with the class
    of the node and ["first"], and the line that is open when it ends has
    the class of the node and ["last"]. *)
Lemma visit_opaque_nested sourceCode n i s e u0 u1 st pn :
  isOpaque n = true → children n = None →
  startOffsetOf n = Some s → endOffsetOf n = Some e → s < e →
  split LF (slice sourceCode s e) = [u0; u1] →
  last (map node (stack st)) = Some pn → isFlowContent pn = true →
  0 ≤ scanOffset st ≤ s →
  ∃ st', visit sourceCode n i st = Some st'
         ∧ map node (stack st') = map node (stack st)
         ∧ paired (classNamePrefix +:+ typeName (type n)) st'.
Proof.
  intros Hop Hkids Hs He Hse Hsplit Hlast Hflow Ha.
  assert (Hne : stack st ≠ []).
  { intros H. by rewrite H in Hlast. }
  assert (Hin : s < jslength sourceCode).
  { destruct (Z.lt_ge_cases s (jslength sourceCode)) as [|Hge]; [done|].
    by rewrite (slice_beyond _ _ _ Hge) in Hsplit. }
  rewrite (visit_clamped _ _ _ _ _ _ Hs He) by lia.
  replace (Z.max s (scanOffset st)) with s by lia.
  unfold process. rewrite Hkids.
  destruct (addText_inner (slice sourceCode (scanOffset st) s) true st Hne)
    as (x & -> & Hx).
  cbn [mbind option_bind].
  set (st1 := setScanOffset _ x).
  assert (Hoff1 : scanOffset st1 = s).
  { subst st1. cbn [scanOffset setScanOffset].
    rewrite (steady_offset _ _ Hx). apply slice_reaches; lia. }
  assert (Hn1 : map node (stack st1) = map node (stack st)).
  { apply (steady_nodes _ _ Hx). }
  assert (Hne1 : stack st1 ≠ []) by (eapply nodes_nonempty; eauto).
  rewrite <- Hn1 in Hlast.
  destruct (last_map_node _ _ Hlast) as (sx & pf & Hsx & Hpf).
  set (st2 := openNode n st1).
  assert (Hs2 : stack st2 = sx ++ [pf; newFrame n "span"]).
  { subst st2. unfold openNode. cbn [stack setStack]. rewrite Hsx.
    rewrite <- app_assoc. destruct sx; reflexivity. }
  assert (Hn2 : map node (stack st2) = map node (stack st1) ++ [n]).
  { subst st2. unfold openNode. cbn [stack setStack].
    by rewrite map_app. }
  assert (Hne2 : stack st2 ≠ []).
  { rewrite Hs2. by destruct sx. }
  replace (scanOffset st2) with s by done.
  rewrite (addText_two _ u0 u1 false st2 Hne2 Hsplit).
  rewrite (appendLine_last u0 false st2 (sx ++ [pf]) (newFrame n "span"))
    by (by rewrite Hs2, <- app_assoc).
  cbn [mbind option_bind].
  set (a := setStack _ st2).
  assert (Hsa : stack a
                = sx ++ [pf; mapEl (withLine u0 false) (newFrame n "span")]).
  { subst a. cbn [stack setStack]. by rewrite <- app_assoc. }
  assert (Hna : map node (stack a) = map node (stack st2)).
  { rewrite Hsa, Hs2, !map_app. reflexivity. }
  assert (Hnea : stack a ≠ []) by (rewrite Hsa; by destruct sx).
  destruct (breakLine_steady u1 false a Hnea) as (b & Eb & Hb).
  rewrite Eb. cbn [mbind option_bind].
  pose proof (breakLine_first u1 false a b sx pf _ Hsa) as Hdone.
  cbn [node first mapEl newFrame] in Hdone.
  rewrite Hpf in Hdone. specialize (Hdone Hflow Hop eq_refl Eb).
  set (st3 := setScanOffset _ b).
  assert (Hn3 : map node (stack st3) = map node (stack st1) ++ [n]).
  { subst st3. cbn [stack setScanOffset].
    by rewrite (steady_nodes _ _ Hb), Hna. }
  destruct (closeNode_nested_total n i st1 st3 Hne1 Hn3) as (st4 & E4 & Hn4).
  rewrite E4. exists st4. split; [done|]. split; [congruence|].
  destruct (closeNode_nested_inv _ _ _ _ _ Hne1 Hn3 E4) as (y & Ey & ->).
  assert (Hlen3 : (length (stack st3) - 1 = S (length sx))%nat).
  { rewrite <- (length_map node (stack st3)), Hn3, length_app, length_map, Hsx,
      length_app. simpl. lia. }
  rewrite Hlen3 in Ey.
  assert (Hn3a : map node (stack st3) = map node (stack a)).
  { by rewrite Hn3, Hna, Hn2. }
  destruct (lookup_map_node (stack a) (stack st3) (S (length sx))
              (mapEl (withLine u0 false) (newFrame n "span")) Hn3a)
    as (fr3 & Hfr3 & Hnfr3).
  { rewrite Hsa. by rewrite lookup_app_r, Nat.sub_succ_l, Nat.sub_diag by lia. }
  destruct (lookup_map_node (stack a) (stack st3) (length sx) pf Hn3a)
    as (pf3 & Hpf3 & Hnpf3).
  { rewrite Hsa. by rewrite lookup_app_r, Nat.sub_diag by lia. }
  cbn [node mapEl newFrame] in Hnfr3.
  destruct (pushElement_S_flow (length sx) true st3 y fr3 pf3 Hfr3 Hpf3)
    as [_ Hopen]; [by rewrite Hnpf3, Hpf|by rewrite Hnfr3|done|].
  rewrite Hnfr3 in Hopen. specialize (Hopen eq_refl).
  pose proof (pushElement_S_grows _ _ _ _ Ey) as Hgy.
  assert (Hg : grows y (setStack (removelast (stack y)) y)).
  { split; [done|]. cbn [stack setStack]. apply removelast_grows.
    rewrite (steady_length _ _ (pushElement_steady _ _ _ _ Ey)). lia. }
  right. split.
  - eapply grows_lineDone; [exact Hg|].
    eapply grows_lineDone; [exact Hgy|]. exact Hdone.
  - eapply grows_lineOpen; [exact Hg|]. exact Hopen.
Qed.

(** *** The node below its parents *)

Lemma underFlow_cons a inner outer :
  underFlow (a :: inner) outer = underFlow inner (flowType (parentType a)).
Proof. unfold underFlow. rewrite last_cons. by destruct (last inner). Qed.

(** The children of a parent of the node: the siblings before it leave
    [scanOffset] at or before its start, and the siblings after it leave
    the two lines alone. *)
Lemma getChildren_around c sourceCode s pre child post to st :
  forallb (allNodes (endsBy s)) pre = true →
  stack st ≠ [] → 0 ≤ scanOffset st ≤ s →
  (∀ i st1,
      map node (stack st1) = map node (stack st) → 0 ≤ scanOffset st1 ≤ s →
      ∃ st2, visit sourceCode child i st1 = Some st2
             ∧ map node (stack st2) = map node (stack st1)
             ∧ paired c st2) →
  ∃ st', getChildren sourceCode (pre ++ child :: post) to st = Some st'
         ∧ map node (stack st') = map node (stack st)
         ∧ paired c st'.
Proof.
  intros Hpre Hne Ha Hchild. unfold getChildren. rewrite forNodes_app.
  destruct (forNodes_bounded sourceCode s pre O st Hpre Hne Ha)
    as (st1 & -> & Hn1 & Ha1).
  cbn [mbind option_bind forNodes].
  destruct (Hchild (length pre + 0)%nat st1 Hn1 Ha1)
    as (st2 & -> & Hn2 & Hp2).
  cbn [mbind option_bind].
  assert (Hne2 : stack st2 ≠ []).
  { eapply nodes_nonempty; [|exact Hne]. congruence. }
  destruct (paired_forNodes c sourceCode post (S (length pre + 0)) st2
              Hne2 Hp2) as (st3 & -> & Hn3 & Hp3 & _).
  cbn [mbind option_bind].
  assert (Hne3 : stack st3 ≠ []) by (eapply nodes_nonempty; eauto).
  destruct (addText_inner (slice sourceCode (scanOffset st3) to) true st3
              Hne3) as (x & E & Hx).
  eexists. split; [exact E|]. split.
  - cbn [stack setScanOffset]. rewrite (steady_nodes _ _ Hx). congruence.
  - by eapply addText_paired.
Qed.

(** An opaque node over two lines below flow content, at any depth of a
    block. *)
Lemma visit_plug sourceCode n s e u0 u1 :
  isOpaque n = true → children n = None →
  startOffsetOf n = Some s → endOffsetOf n = Some e → s < e →
  split LF (slice sourceCode s e) = [u0; u1] →
  ∀ layers i st pn,
    inOrder s e layers = true →
    last (map node (stack st)) = Some pn →
    underFlow layers (isFlowContent pn) = true →
    0 ≤ scanOffset st ≤ s →
    ∃ st', visit sourceCode (plug layers n) i st = Some st'
           ∧ map node (stack st') = map node (stack st)
           ∧ paired (classNamePrefix +:+ typeName (type n)) st'.
Proof.
  intros Hop Hkids Hs He Hse Hsplit.
  induction layers as [|a inner IH]; intros i st pn Hord Hlast Hflow Ha.
  { by eapply visit_opaque_nested. }
  cbn [inOrder] in Hord.
  apply andb_prop in Hord as [Hord Hinner].
  apply andb_prop in Hord as [Hord Hpre].
  apply andb_prop in Hord as [Hsa Hea].
  apply Z.leb_le in Hsa, Hea.
  rewrite underFlow_cons in Hflow.
  assert (Hne : stack st ≠ []).
  { intros H. by rewrite H in Hlast. }
  set (N := plug (a :: inner) n).
  rewrite (visit_clamped sourceCode N i st (parentStart a) (parentEnd a))
    by (reflexivity || lia).
  unfold process.
  destruct (addText_inner
              (slice sourceCode (scanOffset st)
                 (Z.max (parentStart a) (scanOffset st))) true st Hne)
    as (x & Eg & Hx).
  pose proof (addText_bounded sourceCode s st
                (Z.max (parentStart a) (scanOffset st)) true _ Hne Ha
                ltac:(lia) Eg) as Ha1.
  rewrite Eg. cbn [mbind option_bind].
  set (st1 := setScanOffset _ x) in *.
  assert (Hn1 : map node (stack st1) = map node (stack st)).
  { apply (steady_nodes _ _ Hx). }
  assert (Hne1 : stack st1 ≠ []) by (eapply nodes_nonempty; eauto).
  set (st2 := openNode N st1).
  assert (Hn2 : map node (stack st2) = map node (stack st1) ++ [N]).
  { subst st2. unfold openNode. cbn [stack setStack]. by rewrite map_app. }
  assert (Hne2 : stack st2 ≠ []).
  { intros H. rewrite H in Hn2. by destruct (map node (stack st1)). }
  change (children N)
    with (Some (before a ++ plug inner n :: after a)).
  destruct (getChildren_around (classNamePrefix +:+ typeName (type n))
              sourceCode s (before a) (plug inner n) (after a)
              (parentEnd a) st2 Hpre Hne2 Ha1)
    as (st3 & -> & Hn3 & Hp3).
  { intros j y Hny Hay. apply (IH j y N); [done| |done|done].
    change (map node (stack y)) with (node <$> stack y).
    change (map node (stack y)) with (node <$> stack y) in Hny.
    rewrite Hny. change (node <$> stack st2) with (map node (stack st2)).
    rewrite Hn2. apply last_snoc. }
  cbn [mbind option_bind].
  assert (Hn3' : map node (stack st3) = map node (stack st1) ++ [N])
    by congruence.
  destruct (closeNode_nested_total N i st1 st3 Hne1 Hn3') as (st4 & E4 & Hn4).
  exists st4. split; [done|]. split; [congruence|].
  exact (closeNode_paired _ N i st1 st3 st4 Hne1 Hp3 Hn3' E4).
Qed.

Lemma childNodes_classList_add c e :
  childNodes (classList_add c e) = childNodes e.
Proof. by destruct e. Qed.

Lemma childNodes_setAttribute a v e :
  childNodes (setAttribute a v e) = childNodes e.
Proof. by destruct e. Qed.

(** The end of the top-level node: the block has the two lines. *)
Lemma closedBlock_lines c i fr st :
  stack st = [fr] → paired c st →
  ∃ b, last (childNodes (el (closedBlock i fr st))) = Some b
       ∧ blockWithLines c b = true.
Proof.
  intros Hs Hp. unfold closedBlock. cbn [el].
  rewrite childNodes_append, last_snoc. eexists. split; [done|].
  cbn [blockWithLines].
  rewrite childNodes_classList_add, childNodes_setAttribute,
    childNodes_append.
  destruct Hp as [H|[Hd Ho]].
  - by apply adjacentLines_app.
  - destruct Hd as (line & Hl & Hc). destruct Ho as (f0 & H0 & Hc0 & Hm0).
    rewrite Hs in H0. injection H0 as ->.
    eapply adjacentLines_snoc; [exact Hl|exact Hc|].
    apply hasClasses_elem.
    split; apply addStyle_grows; by rewrite classList_append.
Qed.

Lemma twoLineBlock_lines i n t0 t1 :
  blockWithLines (classNamePrefix +:+ typeName (type n))
    (twoLineBlock i n t0 t1) = true.
Proof.
  unfold twoLineBlock, plainLine. cbn [blockWithLines childNodes].
  rewrite adjacentLines_cons. apply orb_true_iff. left.
  apply andb_true_iff. split; apply hasClasses_elem; cbn [classList];
    rewrite !elem_of_cons; auto.
Qed.

Lemma markedLines_elem c b root :
  b ∈ childNodes root → blockWithLines c b = true →
  markedLines c root = true.
Proof.
  intros Hin Hb. unfold markedLines. apply existsb_exists. exists b.
  split; [by apply list_elem_of_In|done].
Qed.

(** An opaque node over two lines that is a top-level node or a child of
    flow content: a block of the output has the two lines. *)
Lemma opaque_lines_in_output sourceCode pre post layers n s e u0 u1 :
  isOpaque n = true → children n = None →
  startOffsetOf n = Some s → endOffsetOf n = Some e → 0 ≤ s < e →
  split LF (slice sourceCode s e) = [u0; u1] →
  underFlow layers true = true → inOrder s e layers = true →
  forallb (allNodes (endsBy (s - 1))) pre = true →
  ∃ root,
    editorRender sourceCode (pre ++ plug layers n :: post) = Some root
    ∧ markedLines (classNamePrefix +:+ typeName (type n)) root = true.
Proof.
  intros Hop Hkids Hs He Hrange Hsplit Hflow Hord Hpre.
  destruct layers as [|a inner].
  { destruct (opaque_block_in_output sourceCode pre n post s e u0 u1)
      as (root & lead & E & _ & Hin); try done.
    exists root. split; [done|].
    eapply markedLines_elem; [exact Hin|apply twoLineBlock_lines]. }
  set (N := plug (a :: inner) n).
  set (c := classNamePrefix +:+ typeName (type n)).
  pose proof Hord as Hord'. cbn [inOrder] in Hord'.
  apply andb_prop in Hord' as [Hord' _].
  apply andb_prop in Hord' as [Hord' Hbefore].
  apply andb_prop in Hord' as [Hsa Hea].
  apply Z.leb_le in Hsa, Hea.
  destruct (forNodes_before sourceCode pre s ltac:(lia) Hpre)
    as (st0 & E0 & Hst0 & Hb0 & Ha0).
  assert (E1 : ∃ st1 b,
             visit sourceCode N (length pre) st0 = Some st1
             ∧ stack st1 = []
             ∧ b ∈ childNodes (el st1) ∧ blockWithLines c b = true).
  { rewrite (visit_clamped sourceCode N (length pre) st0 (parentStart a)
               (parentEnd a)) by (reflexivity || lia).
    set (s' := Z.max (parentStart a) (scanOffset st0)).
    destruct (process_top_inv sourceCode N (length pre) s' (parentEnd a)
                st0 Hst0) as (st2 & fr & E2 & Hs2 & Hfr & ->).
    destruct (blockLines_before sourceCode st0 s' ltac:(lia))
      as (Ha1 & _ & _).
    set (x := blockLines _ st0) in *.
    assert (Hsx : stack (openNode N x) = [newFrame N "div"]).
    { unfold openNode. cbn [stack setStack]. subst x.
      by rewrite blockLines_stack, Hst0. }
    destruct (getChildren_around c sourceCode s (before a) (plug inner n)
                (after a) (parentEnd a) (openNode N x))
      as (st2' & E2' & _ & Hp2); [done|by rewrite Hsx| | |].
    { cbn [scanOffset openNode setStack]. lia. }
    { intros j y Hny Hay.
      apply (visit_plug sourceCode n s e u0 u1 Hop Hkids Hs He
               ltac:(lia) Hsplit inner j y N); [|  | |done].
      - cbn [inOrder] in Hord. by apply andb_prop in Hord as [_ ?].
      - rewrite Hny, Hsx. reflexivity.
      - by rewrite underFlow_cons in Hflow. }
    unfold blockContent in E2.
    change (children N)
      with (Some (before a ++ plug inner n :: after a)) in E2.
    rewrite E2 in E2'. injection E2' as <-.
    destruct (closedBlock_lines c (length pre) fr st2 Hs2 Hp2)
      as (b & Hlast & Hb).
    eexists _, b. split; [done|]. split; [done|]. split; [|done].
    apply last_Some in Hlast as (k & ->). apply elem_of_app. right.
    by apply list_elem_of_singleton. }
  destruct E1 as (st1 & b & E1 & Hst1 & Hin & Hb).
  assert (Hdrop : drop (S (length pre)) (pre ++ N :: post) = post).
  { rewrite (cons_middle N pre post), app_assoc. apply drop_app_length'.
    rewrite length_app. simpl. lia. }
  destruct (forNodes_keeps sourceCode (pre ++ N :: post) post
              (S (length pre)) st1 _ Hdrop Hst1 Hin)
    as (st2 & E2 & Hst2 & Hin2).
  destruct (editorRender_keeps sourceCode (pre ++ N :: post) st2 b)
    as (root & E & Hr); [|done|done|].
  { rewrite forNodes_app, E0. cbn [mbind option_bind forNodes].
    rewrite Nat.add_0_r, E1. exact E2. }
  exists root. split; [done|]. by eapply markedLines_elem.
Qed.

(** Two lines of a block are two children of one element. *)
Lemma adjacentLines_pairs c l :
  adjacentLines c l = true →
  existsb (λ p, hasClasses [c; firstClass] (fst p)
                && hasClasses [c; lastClass] (snd p)) (pairsOf l) = true.
Proof.
  induction l as [|a l IH]; [done|]. destruct l as [|b l]; [done|].
  rewrite adjacentLines_cons, orb_true_iff.
  change (pairsOf (a :: b :: l))
    with (((a, b) :: map (λ y, (a, y)) l) ++ pairsOf (b :: l)).
  rewrite existsb_app, orb_true_iff. intros [H|H].
  - left. simpl. by rewrite H.
  - right. by apply IH.
Qed.

Lemma markedLines_siblings c root :
  markedLines c root = true → markedSiblings c root = true.
Proof.
  unfold markedLines. destruct root as [t cs a kids]. cbn [childNodes].
  intros (k & Hin & Hk)%existsb_exists.
  destruct k as [|[t' cs' a' kids']]; [done|].
  cbn [blockWithLines childNodes] in Hk.
  cbn [markedSiblings]. apply orb_true_iff. right.
  apply existsb_exists. exists (ElementNode (MkElement t' cs' a' kids')).
  split; [done|]. cbn [markedSiblings]. apply orb_true_iff. left.
  by apply adjacentLines_pairs.
Qed.


(** ** The viewer *)

Section ViewerFacts.
Context {Component : Type}.
Implicit Types (customBlocks : gmap string (option Component)).

Lemma mathHandler_meta m v :
  m ≠ "" → mathHandler {| meta := Some m; value := v |} = hastCustom m v.
Proof. intros Hm. unfold mathHandler. simpl. by rewrite decide_False. Qed.

Lemma renderCustomBlock_own customBlocks m v c :
  m ≠ "" → customBlocks !! m = Some (Some c) →
  renderCustomBlock customBlocks {| meta := Some m; value := v |}
  = Some (jsx (Custom c) v).
Proof.
  intros Hm Hc. unfold renderCustomBlock. rewrite mathHandler_meta by done.
  unfold customComponent, getProperty. by rewrite Hc.
Qed.

Lemma renderCustomBlock_missing customBlocks m v :
  m ≠ "" → customBlocks !! m = None → m ∉ objectPrototype →
  renderCustomBlock customBlocks {| meta := Some m; value := v |}
  = Some (jsx (Tag "div") v).
Proof.
  intros Hm Hc Hp. unfold renderCustomBlock.
  rewrite mathHandler_meta by done.
  unfold customComponent, getProperty. rewrite Hc. by rewrite decide_False.
Qed.
End ViewerFacts.

(** C10. A [math] node with a non-empty [meta] becomes the element
    ['custom'], and the component [custom] renders it with the component
    that [customBlocks] holds under [meta], with the value of the node as
    children. Without such a property the type is ['div'] only when
    [Object.prototype] has no property of that name: for the empty
    [customBlocks] and [meta = "toString"], the type of the element is the
    inherited function and not ['div']. *)
Theorem custom_block_lookup :
  ∀ (Component : Type) (customBlocks : gmap string (option Component)),
    (∀ m v c,
        m ≠ "" → customBlocks !! m = Some (Some c) →
        renderCustomBlock customBlocks {| meta := Some m; value := v |}
        = Some (jsx (Custom c) v))
    ∧ (∀ m v,
          m ≠ "" → customBlocks !! m = None → m ∉ objectPrototype →
          renderCustomBlock customBlocks {| meta := Some m; value := v |}
          = Some (jsx (Tag "div") v))
    ∧ renderCustomBlock (∅ : gmap string (option Component))
        {| meta := Some "toString"; value := js "x" |}
      = Some (jsx (Builtin "toString") (js "x")).
Proof.
  intros Component customBlocks. split; [|split].
  - intros. by apply renderCustomBlock_own.
  - intros. by apply renderCustomBlock_missing.
  - reflexivity.
Qed.

Lemma custom_block_lookup_witness :
  renderCustomBlock ({[ "chart" := Some 1%nat ]} : gmap string (option nat))
    {| meta := Some "chart"; value := js "x" |}
  = Some (jsx (Custom 1%nat) (js "x"))
  ∧ renderCustomBlock ({[ "chart" := Some 1%nat ]} : gmap string (option nat))
      {| meta := Some "plot"; value := js "x" |}
    = Some (jsx (Tag "div") (js "x")).
Proof.
  destruct (custom_block_lookup nat {[ "chart" := Some 1%nat ]})
    as (H1 & H2 & _).
  split.
  - apply H1; [done|]. reflexivity.
  - apply H2; [done|reflexivity|]. by apply (bool_decide_unpack _).
Defined.

(** ** A source without rendered nodes *)

Lemma slice_all s : slice s 0 (jslength s) = s.
Proof.
  unfold slice, sliceIndex, jslength. change (0 <? 0) with false.
  destruct (Z.ltb_spec (Z.of_nat (length s)) 0); [lia|].
  replace (Z.to_nat (Z.min 0 _)) with O by lia.
  replace (Z.to_nat (Z.max _ 0)) with (length s) by lia.
  rewrite drop_0. by apply take_ge.
Qed.

Lemma sliceFrom_drop s k :
  0 ≤ k → sliceFrom s k = drop (Z.to_nat k) s.
Proof.
  intros Hk. unfold sliceFrom.
  replace k with (0 + k) at 1 by lia.
  rewrite slice_drop by (try lia; apply jslength_nonneg).
  by rewrite slice_all.
Qed.

Lemma lineBlocks_el ls st :
  block st = createElement "div" →
  el (foldl (λ st line, lineBlock line st) st ls)
  = MkElement (tagName (el st)) (classList (el st)) (attributes (el st))
      (childNodes (el st) ++ map textBlock ls).
Proof.
  revert st. induction ls as [|l ls IH]; intros st Hb.
  { simpl. rewrite app_nil_r. by destruct (el st). }
  simpl. rewrite IH by done. cbn [el lineBlock pushBlock setBlock setEl
    setScanOffset block]. rewrite Hb. destruct (el st) as [t c a k].
  cbn [append tagName classList attributes childNodes].
  by rewrite <- app_assoc.
Qed.

Lemma forNodes_skippedAtStart sourceCode nodes i st :
  scanOffset st = 0 →
  forallb skippedAtStart nodes = true →
  forNodes (visit sourceCode) nodes i st = Some st.
Proof.
  intros Hoff. revert i.
  induction nodes as [|n nodes IH]; intros i Hok; simpl; [done|].
  simpl in Hok. apply andb_prop in Hok as [Hn Hok].
  assert (E : visit sourceCode n i st = Some st).
  { unfold skippedAtStart in Hn.
    destruct (startOffsetOf n) as [s|] eqn:Es;
      [|apply visit_no_range; by left].
    destruct (endOffsetOf n) as [e|] eqn:Ee;
      [|apply visit_no_range; by right].
    apply (visit_empty_range _ _ _ _ s e); [done..|]. rewrite Hoff. lia. }
  rewrite E. simpl. by apply IH.
Qed.



(** ** The layers of the output *)

Lemma isSpan_inlineFrame e : isSpan e = inlineFrame "span" e.
Proof. by destruct e. Qed.

Lemma inlineFrame_append tag k e :
  inlineFrame tag (append k e) = inlineFrame tag e && isInline k.
Proof.
  destruct e as [t c a kids]. unfold inlineFrame. cbn [append tagName
    attributes childNodes]. rewrite forallb_app. simpl.
  by rewrite andb_true_r, andb_assoc.
Qed.

Lemma inlineFrame_classList_add tag c e :
  inlineFrame tag (classList_add c e) = inlineFrame tag e.
Proof. by destruct e. Qed.

Lemma inlineFrame_addStyle tag n f l e :
  inlineFrame tag (addStyle n f l e) = inlineFrame tag e.
Proof.
  unfold addStyle. destruct (type n), f, l;
    by rewrite ?inlineFrame_classList_add.
Qed.

Lemma childNodes_addStyle n f l e :
  childNodes (addStyle n f l e) = childNodes e.
Proof.
  unfold addStyle. destruct (type n), f, l;
    by rewrite ?childNodes_classList_add.
Qed.

Lemma inlineFrame_new index :
  inlineFrame (frameTag index)
    (createElement (match index with O => "div" | S _ => "span" end)) = true.
Proof. by destruct index. Qed.

Lemma goodText_line line : line ≠ [] → LF ∉ line → goodText line = true.
Proof.
  intros Hne Hlf. unfold goodText.
  by rewrite bool_decide_eq_false_2, bool_decide_eq_true_2.
Qed.

Lemma goodText_marked line : LF ∉ line → goodText (line ++ [ZWSP]) = true.
Proof.
  intros Hlf. apply goodText_line; [by destruct line|].
  rewrite elem_of_app, list_elem_of_singleton. by intros [?|[=]].
Qed.

Lemma isSpan_createDelimiter line :
  line ≠ [] → LF ∉ line → isSpan (createDelimiter line) = true.
Proof.
  intros Hne Hlf. unfold createDelimiter.
  rewrite isSpan_inlineFrame, inlineFrame_classList_add, inlineFrame_append.
  cbn [isInline]. by rewrite goodText_line.
Qed.

Lemma endsWithMarker_snoc kids d :
  last d = Some ZWSP → endsWithMarker (kids ++ [TextNode d]) = true.
Proof.
  intros Hd. unfold endsWithMarker. rewrite last_snoc.
  by apply bool_decide_eq_true_2.
Qed.

Lemma isLineElement_createLine line :
  LF ∉ line → isLineElement (ElementNode (createLine line)) = true.
Proof.
  intros Hlf. unfold createLine. cbn [isLineElement].
  rewrite inlineFrame_append, childNodes_append. cbn [isInline].
  rewrite goodText_marked by done.
  rewrite endsWithMarker_snoc by apply last_snoc. done.
Qed.

(** The line that [pushElement(0)] appends after the marker. *)
Lemma isLineElement_closed n f l e :
  inlineFrame "div" e = true →
  isLineElement
    (ElementNode (addStyle n f l (append (TextNode [ZWSP]) e))) = true.
Proof.
  intros He. cbn [isLineElement].
  rewrite inlineFrame_addStyle, inlineFrame_append, He, childNodes_addStyle,
    childNodes_append.
  by rewrite endsWithMarker_snoc.
Qed.

Lemma isBlockElement_classList_add c b :
  isBlockElement (ElementNode (classList_add c b))
  = isBlockElement (ElementNode b).
Proof. by destruct b. Qed.

Lemma isBlockElement_setAttribute a v b :
  isBlockElement (ElementNode (setAttribute a v b))
  = isBlockElement (ElementNode b).
Proof. by destruct b. Qed.

Lemma isBlockElement_append line b :
  tagName b = "div" → forallb isLineElement (childNodes b) = true →
  isLineElement line = true →
  isBlockElement (ElementNode (append line b)) = true.
Proof.
  intros Ht Hk Hl. destruct b as [t c a kids]. simpl in *. subst t.
  rewrite forallb_app, Hk. simpl. rewrite Hl.
  rewrite bool_decide_eq_false_2 by by destruct kids. done.
Qed.

Lemma layered_append k root :
  layered (append k root) = layered root && isBlockElement k.
Proof.
  destruct root as [t c a kids]. unfold layered.
  cbn [append tagName childNodes]. rewrite forallb_app. simpl.
  by rewrite andb_true_r, andb_assoc.
Qed.

(** *** The frames *)

Lemma framesOk_alter i g (s : list Frame) :
  framesOk s →
  (∀ f, s !! i = Some f →
        inlineFrame (frameTag i) (frame_el f) = true →
        inlineFrame (frameTag i) (frame_el (g f)) = true) →
  framesOk (alter g i s).
Proof.
  intros Hs Hg j f Hf. destruct (decide (i = j)) as [->|Hne].
  - rewrite list_lookup_alter_eq in Hf.
    destruct (s !! j) as [f0|] eqn:E; [|done]. injection Hf as <-. eauto.
  - rewrite list_lookup_alter_ne in Hf by done. eauto.
Qed.

Lemma shaped_updateEl i g st st' :
  (∀ tag e, inlineFrame tag e = true → inlineFrame tag (g e) = true) →
  updateEl i g st = Some st' → shaped st → shaped st'.
Proof.
  intros Hg [_ ->]%updateFrame_inv (Hel & Hbt & Hbk & Hs).
  split; [done|]. split; [done|]. split; [done|]. cbn [stack setStack].
  apply framesOk_alter; [done|]. intros f _ Hf. by apply Hg.
Qed.

Lemma shaped_pushElement_S p l st st' :
  pushElement (S p) l st = Some st' → shaped st → shaped st'.
Proof.
  intros E (Hel & Hbt & Hbk & Hs).
  destruct (pushElement_inv_S _ _ _ _ E) as (fr & pf & Hfr & Hpf).
  rewrite (pushElement_S _ _ _ _ _ Hfr Hpf) in E. injection E as <-.
  split; [done|]. split; [done|]. split; [done|]. cbn [stack setStack].
  set (style := mapEl (addStyle (node fr) (first fr) l)).
  assert (H1 : framesOk (alter style (targetOf p pf) (stack st))).
  { apply framesOk_alter; [done|]. intros f _ Hf. cbn [style mapEl frame_el].
    by rewrite inlineFrame_addStyle. }
  assert (Hcur : isSpan (frame_el (if isFlowContent (node pf) then fr
                                   else style fr)) = true).
  { rewrite isSpan_inlineFrame. pose proof (Hs _ _ Hfr) as Hf.
    destruct (isFlowContent (node pf)); [done|].
    cbn [style mapEl frame_el]. by rewrite inlineFrame_addStyle. }
  apply framesOk_alter.
  2:{ intros f _ _. apply inlineFrame_new. }
  apply framesOk_alter; [done|]. intros f _ Hf. cbn [mapEl frame_el].
  rewrite inlineFrame_append, Hf. exact Hcur.
Qed.

(** The line is closed: the marker is appended and the line goes to
    [block]. *)
Lemma shaped_closeLine l st s2 s3 :
  updateEl 0 (append (TextNode [ZWSP])) st = Some s2 →
  pushElement 0 l s2 = Some s3 →
  shaped st → shaped s3.
Proof.
  intros [Hlen ->]%updateFrame_inv E3 (Hel & Hbt & Hbk & Hs).
  destruct (stack st) as [|f0 rest] eqn:Hst; [simpl in Hlen; lia|].
  erewrite pushElement_O in E3 by reflexivity.
  injection E3 as <-.
  pose proof (Hs O f0 eq_refl) as H0.
  split; [done|]. split; [by rewrite <- Hbt; destruct (block st)|].
  cbn [block stack setStack setBlock mapEl node first frame_el].
  split.
  - rewrite childNodes_append, forallb_app, Hbk. cbn [forallb].
    by rewrite isLineElement_closed.
  - intros i f Hf. destruct i as [|i].
    + injection Hf as <-. apply (inlineFrame_new O).
    + by apply (Hs (S i)).
Qed.

Lemma shaped_pushElements j st st' :
  pushElements j st = Some st' → shaped st → shaped st'.
Proof.
  revert st. induction j as [|j IH]; intros st E Hc; simpl in E.
  { by injection E as <-. }
  destruct (pushElement (S j) false st) as [st1|] eqn:E1; [|done].
  eauto using shaped_pushElement_S.
Qed.

Lemma shaped_appendLine line d st st' :
  LF ∉ line → appendLine line d st = Some st' → shaped st → shaped st'.
Proof.
  intros Hlf. destruct line as [|c line]; simpl; [by intros [= <-]|].
  apply shaped_updateEl. intros tag e He. rewrite inlineFrame_append, He.
  destruct d; cbn [isInline].
  - by apply isSpan_createDelimiter.
  - by apply goodText_line.
Qed.

Lemma shaped_breakLine line d st st' :
  LF ∉ line → breakLine line d st = Some st' → shaped st → shaped st'.
Proof.
  unfold breakLine. intros Hlf E Hc.
  destruct (pushElements _ st) as [s1|] eqn:E1; [|done]. simpl in E.
  destruct (updateEl 0 _ s1) as [s2|] eqn:E2; [|done]. simpl in E.
  destruct (pushElement 0 false s2) as [s3|] eqn:E3; [|done]. simpl in E.
  eapply shaped_appendLine; [exact Hlf|exact E|].
  eapply shaped_closeLine; [exact E2|exact E3|].
  by eapply shaped_pushElements.
Qed.

Lemma shaped_breakLines lines d st st' :
  Forall (λ l, LF ∉ l) lines →
  breakLines lines d st = Some st' → shaped st → shaped st'.
Proof.
  intros Hall. revert st.
  induction Hall as [|line rest Hl _ IH]; intros st E Hc; simpl in E.
  { by injection E as <-. }
  destruct (breakLine line d st) as [s1|] eqn:E1; [|done].
  eauto using shaped_breakLine.
Qed.

Lemma shaped_addText t d st st' :
  stack st ≠ [] → addText t d st = Some st' → shaped st → shaped st'.
Proof.
  intros Hne E Hc. unfold addText in E.
  pose proof (split_no_LF t) as Hall.
  destruct (stack st) as [|fr rest] eqn:Hs; [done|].
  destruct (match split LF t with
            | [] => Some st
            | line :: _ => appendLine line d st
            end) as [s1|] eqn:E1; [|done].
  simpl in E.
  destruct (breakLines _ d s1) as [s2|] eqn:E2; [|done].
  injection E as <-.
  change (shaped s2). destruct (split LF t) as [|line rest'].
  { injection E1 as <-. by eapply shaped_breakLines. }
  apply Forall_cons in Hall as [Hl Hrest].
  eapply shaped_breakLines; [exact Hrest|exact E2|].
  by eapply shaped_appendLine.
Qed.

Lemma shaped_openNode n st : shaped st → shaped (openNode n st).
Proof.
  intros (Hel & Hbt & Hbk & Hs). split; [done|]. split; [done|].
  split; [done|]. cbn [openNode stack setStack]. intros i f Hf.
  apply lookup_app_Some in Hf as [Hf|[Hlen Hf]]; [eauto|].
  apply list_lookup_singleton_Some in Hf as [Hi <-]. cbn [frame_el].
  replace i with (length (stack st)) by lia.
  destruct (stack st); reflexivity.
Qed.

Lemma shaped_closeNode n i st st1 st2 :
  stack st ≠ [] → shaped st1 →
  map node (stack st1) = map node (stack st) ++ [n] →
  closeNode i st1 = Some st2 →
  shaped st2.
Proof.
  intros Hne Hc1 Hnodes E.
  destruct (closeNode_nested_inv _ _ _ _ _ Hne Hnodes E) as (st' & E' & ->).
  assert (Hlen : length (stack st1) = S (length (stack st))).
  { rewrite <- (length_map node (stack st1)), Hnodes, length_app,
      length_map. simpl. lia. }
  replace (length (stack st1) - 1)%nat with (S (length (stack st) - 1)) in E'
    by (destruct (stack st); [done|simpl in *; lia]).
  apply (shaped_pushElement_S _ _ _ _ E') in Hc1.
  destruct Hc1 as (Hel & Hbt & Hbk & Hs). split; [done|]. split; [done|].
  split; [done|]. cbn [stack setStack]. intros j f Hf. apply (Hs j).
  destruct (stack st') as [|f0 s0] using rev_ind; [done|].
  rewrite removelast_last in Hf. by apply lookup_app_l_Some.
Qed.

Lemma shaped_blockContent sourceCode n e st :
  stack st ≠ [] → shaped st →
  ∃ st', blockContent sourceCode n e st = Some st'
         ∧ map node (stack st') = map node (stack st)
         ∧ shaped st'.
Proof.
  intros Hne Hc.
  destruct (walks_blockContent sourceCode (λ _, true) (λ _, True) shaped
              (λ _ _, True))
    with (n := n) (e := e) (st := st) as (st' & E & Hn & Hc' & _);
    [done|done|done| | | | |apply allNodes_true|done|done|done|eauto].
  - intros a to e' d b Hna Ha _ _ _ E. split; [|done].
    by eapply shaped_addText.
  - intros a to d b Hna Ha _ E. split; [|done]. by eapply shaped_addText.
  - intros m a _ Ha. by apply shaped_openNode.
  - intros m j a b c _ Hna _ Hb _ Hnodes E. split; [|done].
    by eapply shaped_closeNode.
Qed.

(** *** Between the blocks *)

Lemma shaped_lines ls st :
  Forall (λ l, LF ∉ l) ls → shaped st →
  shaped (foldl (λ st line, lineBlock line st) st ls).
Proof.
  intros Hall. revert st.
  induction Hall as [|l ls Hl _ IH]; intros st Hc; [done|].
  simpl. apply IH. destruct Hc as (Hel & Hbt & Hbk & Hs).
  split; [|by repeat split].
  cbn [el lineBlock pushBlock setBlock setEl setScanOffset block].
  rewrite layered_append, Hel, isBlockElement_classList_add.
  rewrite isBlockElement_append; [done..|].
  by apply isLineElement_createLine.
Qed.

Lemma shaped_gap sourceCode to st :
  shaped st →
  shaped (blockLines (split LF (slice sourceCode (scanOffset st) to)) st).
Proof.
  intros Hc. pose proof (split_no_LF (slice sourceCode (scanOffset st) to))
    as Hall.
  destruct (split_snoc (slice sourceCode (scanOffset st) to))
    as (ls & l & Hsplit & _).
  rewrite Hsplit in Hall |- *. rewrite blockLines_snoc.
  apply Forall_app in Hall as [Hall _]. by apply shaped_lines.
Qed.

Lemma shaped_process sourceCode n i s e st st' :
  stack st = [] → shaped st →
  process sourceCode n i s e st = Some st' → shaped st'.
Proof.
  intros Hs Hc E.
  destruct (process_top_inv sourceCode n i s e st Hs)
    as (st2 & fr & E2 & Hs2 & Hfr & E').
  rewrite E' in E. injection E as <-.
  pose proof (shaped_gap sourceCode s st Hc) as Hc1.
  set (st1 := blockLines _ st) in *.
  destruct (shaped_blockContent sourceCode n e (openNode n st1))
    as (st2' & E2' & _ & Hc2).
  { simpl. by destruct (stack st1). }
  { by apply shaped_openNode. }
  rewrite E2 in E2'. injection E2' as <-.
  destruct Hc2 as (Hel & Hbt & Hbk & Hfs).
  pose proof (Hfs O fr ltac:(by rewrite Hs2)) as H0.
  split; [|split; [done|split; [done|]]].
  - cbn [el closedBlock]. rewrite layered_append, Hel.
    rewrite isBlockElement_classList_add, isBlockElement_setAttribute.
    rewrite isBlockElement_append; [done..|].
    by apply isLineElement_closed.
  - intros j f Hf. done.
Qed.

(** What is left of the source after the last gap is one line. *)
Lemma last_line sourceCode st :
  0 ≤ scanOffset st →
  let st' := blockLines
               (split LF (slice sourceCode (scanOffset st)
                            (jslength sourceCode))) st in
  scanOffset st' ≤ jslength sourceCode →
  LF ∉ sliceFrom sourceCode (scanOffset st').
Proof.
  intros Ha. cbv zeta.
  pose proof (split_no_LF (slice sourceCode (scanOffset st)
                             (jslength sourceCode))) as Hall.
  destruct (split_snoc (slice sourceCode (scanOffset st)
                          (jslength sourceCode)))
    as (ls & l & Hsplit & Ht).
  rewrite Hsplit in Hall |- *. rewrite blockLines_snoc, lineBlocks_offset.
  apply Forall_app in Hall as [_ Hl]. rewrite Forall_singleton in Hl.
  intros Hle. pose proof (jslength_nonneg (flatLines ls)) as Hk.
  unfold sliceFrom.
  rewrite slice_drop by (try lia; apply jslength_nonneg).
  rewrite Ht. unfold jslength at 1. rewrite Nat2Z.id.
  by rewrite drop_app_length.
Qed.

(** The output is layered. *)
Lemma editorRender_layered :
  ∀ (sourceCode : jsstr) (nodes : list MdastNode),
  ∃ root, editorRender sourceCode nodes = Some root ∧ layered root = true.
Proof.
  intros s nodes.
  destruct (top_forNodes s nodes (λ st, mono st ∧ shaped st))
    with (rest := nodes) (i := O) (st := initialState)
    as (st1 & E1 & Hs1 & Hm1 & Hc1); try done.
  { intros n i s0 e st st' Hn Hs [Hm Hc] Es Ee Hlt E. split.
    - eapply process_top_scan; [done|done| | |exact E]; lia.
    - by eapply shaped_process. }
  { split; [apply mono_initial|]. by repeat split. }
  assert (Eg : getChildren s nodes (jslength s) initialState
               = Some (blockLines
                         (split LF (slice s (scanOffset st1) (jslength s)))
                         st1)).
  { unfold getChildren. rewrite E1. simpl. by apply addText_outer. }
  rewrite (editorRender_final _ _ _ Eg). eexists. split; [done|].
  pose proof (last_line s st1 (mono_nonneg _ Hm1)) as Hlast.
  pose proof (shaped_gap s (jslength s) st1 Hc1) as Hc.
  cbv zeta in Hlast. set (st := blockLines _ st1) in *.
  destruct Hc as (Hel & Hbt & Hbk & _).
  destruct (Z.leb_spec (scanOffset st) (jslength s)) as [Hle|Hgt]; [|done].
  cbn [el pushBlock setBlock setEl block].
  rewrite layered_append, Hel, isBlockElement_classList_add.
  rewrite isBlockElement_append; [done..|].
  apply isLineElement_createLine. by apply Hlast.
Qed.

(** X2. The output has the layers that the comment of [editorRender]
    states, for every source and every tree: the root is a [div] of blocks;
    a block is a [div] of at least one line, and of lines only; a line is a
    [div] without attributes that holds text and [span]s and ends with a
    text node that ends with the marker; below a line every element is a
    [span] without attributes. No text node is empty, and none holds a
    line break. *)
Theorem output_layers :
  ∀ (sourceCode : jsstr) (nodes : list MdastNode),
  ∃ root, editorRender sourceCode nodes = Some root ∧ layered root = true.
Proof. exact editorRender_layered. Qed.

(** ** The lines of the output and the lines of the source *)

Lemma split_one_line l : LF ∉ l → split LF l = [l].
Proof.
  intros Hl. rewrite <- (app_nil_r l) at 1.
  rewrite split_app_line by done. simpl. by rewrite app_nil_r.
Qed.

Lemma split_join ls :
  ls ≠ [] → Forall (λ l, LF ∉ l) ls → split LF (joinLF ls) = ls.
Proof.
  intros Hne Hall. induction Hall as [|l ls Hl Hall IH]; [done|].
  destruct ls as [|l2 rest].
  { by apply split_one_line. }
  rewrite joinLF_cons, split_app_line by done.
  change (split LF (LF :: joinLF (l2 :: rest)))
    with ([] :: split LF (joinLF (l2 :: rest))).
  rewrite IH by done. by rewrite app_nil_r.
Qed.

Lemma goodText_no_LF d : goodText d = true → LF ∉ d.
Proof.
  unfold goodText. intros [_ H]%andb_prop. by apply bool_decide_eq_true in H.
Qed.

(** The text of a line or of a [span] holds no line break. *)
Lemma inlineFrame_text e :
  ∀ tag, inlineFrame tag e = true → LF ∉ textContent e.
Proof.
  induction e as [t c a kids IH] using Element_nested_ind.
  intros tag H. unfold inlineFrame in H. cbn [childNodes] in H.
  apply andb_prop in H as [_ Hk]. rewrite textContent_unfold.
  cbn [childNodes].
  induction IH as [|k kids Hk0 _ IHk]; [by intros ?%elem_of_nil|].
  cbn [forallb] in Hk. apply andb_prop in Hk as [Hk1 Hk2].
  cbn [flat_map]. rewrite elem_of_app. intros [Hin|Hin].
  - destruct k as [d|e]; cbn [nodeText isInline] in *.
    + by apply goodText_no_LF in Hk1.
    + rewrite isSpan_inlineFrame in Hk1. by apply (Hk0 "span").
  - by apply IHk.
Qed.

Lemma lineText_no_LF k t :
  isLineElement k = true → lineText k = Some t → LF ∉ t.
Proof.
  destruct k as [d|e]; [done|]. cbn [isLineElement lineText].
  intros [He _]%andb_prop Ht. apply inlineFrame_text in He.
  destruct (textContent e) as [|c tc _] using rev_ind; [done|].
  rewrite last_snoc in Ht. destruct (N.eqb c ZWSP); [|done].
  injection Ht as <-. rewrite removelast_last.
  intros Hin. apply He, elem_of_app. by left.
Qed.

Lemma blockText_no_LF k ls :
  isBlockElement k = true → blockText k = Some ls →
  Forall (λ l, LF ∉ l) ls ∧ ls ≠ [].
Proof.
  destruct k as [d|b]; [done|]. cbn [isBlockElement blockText].
  unfold linesOfBlock. intros [[_ Hne]%andb_prop Hk]%andb_prop Hls.
  apply negb_true_iff, bool_decide_eq_false in Hne.
  apply mapM_Some in Hls. split.
  - clear Hne. induction Hls as [|k t kids ls Hk0 _ IH]; [done|].
    cbn [forallb] in Hk. apply andb_prop in Hk as [Hk1 Hk2].
    constructor; [by eapply lineText_no_LF|by apply IH].
  - destruct Hls; [done|done].
Qed.

Lemma rootLines_no_LF root ls :
  layered root = true → childNodes root ≠ [] → rootLines root = Some ls →
  Forall (λ l, LF ∉ l) ls ∧ ls ≠ [].
Proof.
  unfold layered, rootLines. intros [_ Hk]%andb_prop Hne Hls.
  destruct (mapM blockText (childNodes root)) as [bs|] eqn:E; [|done].
  injection Hls as <-. apply mapM_Some in E.
  assert (Hall : Forall (λ b, Forall (λ l, LF ∉ l) b ∧ b ≠ []) bs).
  { clear Hne. induction E as [|k b kids bs Hk0 _ IH]; [done|].
    cbn [forallb] in Hk. apply andb_prop in Hk as [Hk1 Hk2].
    constructor; [by eapply blockText_no_LF|by apply IH]. }
  split.
  - apply Forall_concat. eapply Forall_impl; [exact Hall|]. by intros b [? _].
  - destruct E as [|k b kids bs _ _]; [done|].
    apply Forall_cons in Hall as [[_ Hb] _]. simpl. by destruct b.
Qed.

(** Under the condition of text fidelity, the lines of the output are
    read, and joined they are the source. *)
Lemma rootLines_source s nodes :
  forallb (endsAtBreak s) nodes = true →
  ∃ root ls, editorRender s nodes = Some root
             ∧ rootLines root = Some ls ∧ joinLF ls = s.
Proof.
  intros Hok.
  destruct (getChildren_inSyncTop s nodes Hok) as (st & E & Hs & Hb & Hw & Ha).
  rewrite (editorRender_final _ _ _ E).
  destruct (written_top_inv _ _ Hs Hb Hw) as (ls1 & H1 & Hflat).
  destruct (Z.leb_spec (scanOffset st) (jslength s)) as [Hle|Hgt].
  - eexists _, _. split; [done|].
    unfold pushBlock, setBlock, setEl. cbn [el block]. rewrite Hb.
    rewrite (rootLines_block _ _ _ ls1 [] (sliceFrom s (scanOffset st)));
      [|done|done|apply textContent_createLine].
    split; [done|]. simpl. rewrite joinLF_flat, <- Hflat.
    apply scanned_rest. lia.
  - replace (scanOffset st) with (jslength s + 1) in Hflat by lia.
    rewrite scanned_all in Hflat. symmetry in Hflat.
    apply flatLines_nonempty in Hflat as (ls' & l & -> & <-).
    eexists _, _. split; [done|]. split; [exact H1|]. apply joinLF_flat.
Qed.

(** X3. When every top-level node with a range ends at a line break or at
    the end of the source (the condition of text fidelity), the line
    elements of the output, in document order, are the lines of the
    source: the line number [i] holds the text of the line number [i] of
    the source and then the marker, and there are as many line elements
    as the source has lines. *)
Theorem lines_are_source_lines :
  ∀ (sourceCode : jsstr) (nodes : list MdastNode),
    forallb (endsAtBreak sourceCode) nodes = true →
    ∃ root, editorRender sourceCode nodes = Some root
            ∧ rootLines root = Some (split LF sourceCode).
Proof.
  intros s nodes Hok.
  destruct (rootLines_source s nodes Hok) as (root & ls & E & Hls & Hjoin).
  destruct (editorRender_layered s nodes) as (root1 & E1 & Hlay).
  destruct (editorRender_blocks s nodes) as (root2 & E2 & _ & _ & Hne).
  assert (root1 = root) as -> by congruence.
  assert (root2 = root) as -> by congruence.
  destruct (rootLines_no_LF root ls Hlay Hne Hls) as [Hall Hnil].
  exists root. split; [done|]. by rewrite Hls, <- Hjoin, split_join.
Qed.

Lemma lines_are_source_lines_witness :
  ∃ root, editorRender sourceB treeB = Some root
          ∧ rootLines root = Some (split LF sourceB).
Proof.
  apply (lines_are_source_lines sourceB treeB). vm_compute. reflexivity.
Defined.

(** ** An opaque node over any number of lines *)

Lemma addText_lines t t0 ts d st :
  stack st ≠ [] → split LF t = t0 :: ts →
  addText t d st
  = appendLine t0 d st ≫= λ a,
    breakLines ts d a ≫= λ b,
    Some (setScanOffset (scanOffset b + jslength t) b).
Proof.
  intros Hne Hsplit. unfold addText. rewrite Hsplit.
  destruct (stack st); [done|]. cbn [tail].
  destruct (appendLine t0 d st) as [a|]; [|done]. cbn [mbind option_bind].
  by destruct (breakLines ts d a).
Qed.

Lemma breakLine_single line st f :
  stack st = [f] →
  breakLine line false st
  = Some
      (setStack [mapEl (withLine line false) (renewed 0 f)]
         (setBlock
            (append
               (ElementNode
                  (addStyle (node f) (first f) false
                     (append (TextNode [ZWSP]) (frame_el f))))
               (block st)) st)).
Proof.
  intros Hs. unfold breakLine. rewrite Hs.
  cbn [length Nat.sub pushElements mbind option_bind].
  unfold updateEl. rewrite updateFrame_Some by (rewrite Hs; simpl; lia).
  rewrite Hs. cbn [mbind option_bind alter list_alter].
  erewrite pushElement_O by reflexivity. cbn [mbind option_bind].
  erewrite (appendLine_last line false _ []) by reflexivity.
  reflexivity.
Qed.

Lemma breakLines_single n ts :
  ∀ isFirst t st,
    stack st = [frameAfter n isFirst t []] →
    breakLines ts false st
    = Some (setStack [frameAfter n isFirst t ts]
              (setBlock (appendAll (pushedLines n isFirst t ts) (block st))
                        st)).
Proof.
  induction ts as [|t1 ts IH]; intros isFirst t st Hs.
  { cbn [breakLines pushedLines appendAll foldl]. f_equal.
    destruct st. simpl in *. by subst. }
  cbn [breakLines]. rewrite (breakLine_single t1 st _ Hs).
  cbn [mbind option_bind]. rewrite (IH false t1) by reflexivity.
  reflexivity.
Qed.

Lemma appendAll_children ks t c a kids :
  appendAll ks (MkElement t c a kids) = MkElement t c a (kids ++ ks).
Proof.
  unfold appendAll. revert kids.
  induction ks as [|k ks IH]; intros kids; cbn [foldl].
  { by rewrite app_nil_r. }
  change (append k (MkElement t c a kids))
    with (MkElement t c a (kids ++ [k])).
  by rewrite IH, <- app_assoc.
Qed.

Lemma closedLine_opaque n isFirst isLast t :
  isOpaque n = true →
  closedLine n isFirst isLast t
  = plainLine
      ((classNamePrefix +:+ typeName (type n))
       :: (if isFirst then [firstClass] else [])
       ++ (if isLast then [lastClass] else [])) t.
Proof.
  unfold isOpaque, closedLine, plainLine, addStyle. rewrite withLine_new.
  intros Hn.
  destruct (type n); try discriminate Hn; destruct isFirst, isLast;
    reflexivity.
Qed.

Lemma laterLines_cons c t t2 rest :
  laterLines c (t :: t2 :: rest) = plainLine [c] t :: laterLines c (t2 :: rest).
Proof. reflexivity. Qed.

(** The lines of a top-level opaque node, the last one closed by the end
    of the node. *)
Lemma pushedLines_opaque n t ts :
  isOpaque n = true →
  (pushedLines n true t ts
   ++ [closedLine (node (frameAfter n true t ts))
         (first (frameAfter n true t ts)) true
         (match last ts with Some t' => t' | None => t end)]
   = opaqueLines (classNamePrefix +:+ typeName (type n)) (t :: ts))
  ∧ frame_el (frameAfter n true t ts)
    = withLine (match last ts with Some t' => t' | None => t end) false
        (createElement "div").
Proof.
  intros Hop. destruct ts as [|t1 ts].
  { split; [|done]. cbn [pushedLines frameAfter node first last app
      opaqueLines]. by rewrite closedLine_opaque. }
  cbn [pushedLines frameAfter opaqueLines].
  rewrite (closedLine_opaque n true false) by done.
  change (last (t1 :: ts)) with (last (t1 :: ts)).
  assert (H : ∀ t1 ts,
             (pushedLines n false t1 ts
              ++ [closedLine (node (frameAfter n false t1 ts))
                    (first (frameAfter n false t1 ts)) true
                    (match last ts with Some t' => t' | None => t1 end)]
              = laterLines (classNamePrefix +:+ typeName (type n)) (t1 :: ts))
             ∧ frame_el (frameAfter n false t1 ts)
               = withLine (match last ts with Some t' => t' | None => t1 end)
                   false (createElement "div")).
  { clear t t1 ts. intros t1 ts. revert t1.
    induction ts as [|t2 ts IH]; intros t1.
    { split; [|done]. cbn [pushedLines frameAfter node first last app
        laterLines]. by rewrite closedLine_opaque. }
    destruct (IH t2) as [IH1 IH2].
    cbn [pushedLines frameAfter]. rewrite last_cons.
    split.
    - rewrite laterLines_cons, <- IH1.
      rewrite (closedLine_opaque n false false) by done.
      destruct (last ts); reflexivity.
    - rewrite IH2. by destruct (last ts). }
  destruct (H t1 ts) as [H1 H2]. rewrite last_cons. split.
  - cbn [app]. f_equal. rewrite <- H1. by destruct (last ts).
  - rewrite H2. by destruct (last ts).
Qed.

(** The block of a top-level opaque node without children. [lead] is the
    part of its first line that comes before it. *)
Lemma visit_opaque_lines sourceCode n i s e u0 us st :
  isOpaque n = true → children n = None →
  startOffsetOf n = Some s → endOffsetOf n = Some e →
  s < e → split LF (slice sourceCode s e) = u0 :: us →
  stack st = [] → block st = createElement "div" →
  0 ≤ scanOffset st ≤ s →
  ∃ st' lead,
    visit sourceCode n i st = Some st'
    ∧ stack st' = []
    ∧ (LF ∉ lead)
    ∧ last (childNodes (el st'))
      = Some (opaqueBlock i n ((lead ++ u0) :: us)).
Proof.
  intros Hop Hkids Hs He Hse Hsplit Hst Hb Ha.
  rewrite (visit_clamped _ _ _ _ _ _ Hs He) by lia.
  replace (Z.max s (scanOffset st)) with s by lia.
  rewrite (process_top _ _ _ _ _ _ Hst).
  destruct (split_snoc (slice sourceCode (scanOffset st) s))
    as (ls & lead & Hgap & Ht).
  rewrite Hgap, blockLines_snoc.
  pose proof (lineBlocks_block ls st Hb) as Hb1.
  pose proof (lineBlocks_offset ls st) as Hoff1.
  set (st1 := foldl _ st ls) in *.
  assert (Hst1 : stack st1 = []).
  { subst st1. by rewrite blockLines_stack_foldl. }
  assert (Hlead : LF ∉ lead).
  { pose proof (split_no_LF (slice sourceCode (scanOffset st) s)) as H.
    rewrite Hgap, Forall_app, Forall_singleton in H. apply H. }
  assert (Htext : slice sourceCode (scanOffset st1) e
                  = lead ++ slice sourceCode s e).
  { rewrite Hoff1, slice_drop by (try lia; apply jslength_nonneg).
    rewrite <- (slice_app sourceCode (scanOffset st) s e) by lia.
    rewrite Ht, <- app_assoc. unfold jslength. rewrite Nat2Z.id.
    by rewrite drop_app_length. }
  assert (Hlines : split LF (slice sourceCode (scanOffset st1) e)
                   = (lead ++ u0) :: us).
  { by rewrite Htext, split_app_line, Hsplit. }
  unfold blockContent. rewrite Hkids.
  cbn [scanOffset openNode setStack].
  assert (Hso : stack (openNode n st1) = [newFrame n "div"]).
  { unfold openNode. cbn [stack setStack]. by rewrite Hst1. }
  rewrite (addText_lines _ (lead ++ u0) us false (openNode n st1))
    by (by rewrite ?Hso).
  rewrite (appendLine_last (lead ++ u0) false (openNode n st1) []
             (newFrame n "div")) by exact Hso.
  cbn [mbind option_bind].
  rewrite (breakLines_single n us true (lead ++ u0)) by reflexivity.
  cbn [mbind option_bind].
  erewrite closeNode_top by reflexivity.
  eexists _, lead. split; [reflexivity|]. split; [reflexivity|].
  split; [done|].
  destruct (pushedLines_opaque n (lead ++ u0) us Hop) as [Hall Hfr].
  cbn [el closedBlock setScanOffset setStack setBlock openNode block app].
  rewrite childNodes_append, last_snoc, Hb1. f_equal.
  unfold createElement. rewrite appendAll_children, Hfr.
  exact (f_equal
           (λ ks, ElementNode
                    (MkElement "div" [classNamePrefix +:+ "block"]
                       [("index", numberToString i)] ks)) Hall).
Qed.

Lemma opaque_lines_block sourceCode pre n post s e u0 us :
  isOpaque n = true → children n = None →
  startOffsetOf n = Some s → endOffsetOf n = Some e → 0 ≤ s < e →
  split LF (slice sourceCode s e) = u0 :: us →
  forallb (allNodes (endsBy (s - 1))) pre = true →
  ∃ root lead,
    editorRender sourceCode (pre ++ n :: post) = Some root
    ∧ (LF ∉ lead)
    ∧ opaqueBlock (length pre) n ((lead ++ u0) :: us) ∈ childNodes root.
Proof.
  intros Hop Hkids Hs He Hrange Hsplit Hpre.
  destruct (forNodes_before sourceCode pre s ltac:(lia) Hpre)
    as (st0 & E0 & Hst0 & Hb0 & Ha0).
  destruct (visit_opaque_lines sourceCode n (length pre) s e u0 us st0)
    as (st1 & lead & E1 & Hst1 & Hlead & Hlast); try done; try lia.
  assert (Hin : opaqueBlock (length pre) n ((lead ++ u0) :: us)
                ∈ childNodes (el st1)).
  { apply last_Some in Hlast as (k & ->). apply elem_of_app. right.
    by apply list_elem_of_singleton. }
  assert (Hdrop : drop (S (length pre)) (pre ++ n :: post) = post).
  { rewrite (cons_middle n pre post), app_assoc. apply drop_app_length'.
    rewrite length_app. simpl. lia. }
  destruct (forNodes_keeps sourceCode (pre ++ n :: post) post
              (S (length pre)) st1 _ Hdrop Hst1 Hin)
    as (st2 & E2 & Hst2 & Hin2).
  destruct (editorRender_keeps sourceCode (pre ++ n :: post) st2
              (opaqueBlock (length pre) n ((lead ++ u0) :: us)))
    as (root & E & Hr); [|done|done|eauto].
  rewrite forNodes_app, E0. simpl. rewrite Nat.add_0_r, E1. simpl. exact E2.
Qed.

(** X4. A top-level node of an opaque type (raw HTML, code, math) without
    children, whose text has any number of lines, when the top-level nodes
    before it end before it starts: its block has one line element for
    every line of its text. If the text is one line, that line carries the
    class of the type, ["first"] and ["last"]; otherwise the first line
    carries the class of the type and ["first"], the last line the class of
    the type and ["last"], and the lines between them the class of the
    type only. [lead] is the text of the first line before the node. *)
Theorem opaque_node_lines :
  ∀ (sourceCode : jsstr) (pre post : list MdastNode) (n : MdastNode)
    (s e : Z) (u0 : jsstr) (us : list jsstr),
    isOpaque n = true → children n = None →
    startOffsetOf n = Some s → endOffsetOf n = Some e → 0 ≤ s < e →
    split LF (slice sourceCode s e) = u0 :: us →
    forallb (allNodes (endsBy (s - 1))) pre = true →
    ∃ root lead,
      editorRender sourceCode (pre ++ n :: post) = Some root
      ∧ (LF ∉ lead)
      ∧ opaqueBlock (length pre) n ((lead ++ u0) :: us) ∈ childNodes root.
Proof. intros. by eapply opaque_lines_block. Qed.

Lemma opaque_node_lines_witness :
  ∃ root lead,
    editorRender (js "```" ++ [LF] ++ js "x" ++ [LF] ++ js "```")
      ([] ++ [literal code 0 9]) = Some root
    ∧ (LF ∉ lead)
    ∧ opaqueBlock 0 (literal code 0 9)
        [lead ++ js "```"; js "x"; js "```"] ∈ childNodes root.
Proof.
  apply (opaque_node_lines
           (js "```" ++ [LF] ++ js "x" ++ [LF] ++ js "```") [] []
           (literal code 0 9) 0 9 (js "```") [js "x"; js "```"]);
    try reflexivity. lia.
Defined.

(** ** The blocks of the top-level nodes *)

Lemma lineOf_addStyle n f l e :
  lineOf n (ElementNode (addStyle n f l e)) = true.
Proof.
  unfold lineOf, nodeClasses. cbn [hasClasses].
  apply forallb_forall. intros c Hc. apply bool_decide_eq_true.
  apply list_elem_of_In in Hc. apply elem_of_cons in Hc as [->|Hc].
  { apply addStyle_type. }
  unfold addStyle. destruct (type n); try by apply elem_of_nil in Hc.
  apply list_elem_of_singleton in Hc as ->. apply classList_add_here.
Qed.

Lemma linesOf_grows n st st' :
  grows st st' → map node (stack st') = map node (stack st) →
  linesOf n st → linesOf n st'.
Proof.
  intros [Hb _] Hn [(f0 & H0 & Hf0) Hk]. split; [|by rewrite Hb].
  destruct (lookup_map_node _ _ _ _ Hn H0) as (f0' & H0' & Hn').
  exists f0'. split; [done|congruence].
Qed.

Lemma linesOf_pushElement n index l st st' :
  pushElement index l st = Some st' → linesOf n st → linesOf n st'.
Proof.
  intros E Hl. pose proof (pushElement_steady _ _ _ _ E) as Hst.
  destruct index as [|p].
  - destruct Hl as [(f0 & H0 & Hf0) Hk].
    destruct (lookup_map_node _ _ _ _ (steady_nodes _ _ Hst) H0)
      as (f0' & H0' & Hn').
    split; [exists f0'; split; [done|congruence]|].
    destruct (pushElement_O_inv _ _ _ E) as (fr & rest & Hs & ->).
    rewrite Hs in H0. injection H0 as ->.
    rewrite childNodes_append, forallb_app, Hk. cbn [forallb].
    by rewrite Hf0, lineOf_addStyle.
  - eapply linesOf_grows; [by eapply pushElement_S_grows| |done].
    apply Hst.
Qed.

Lemma linesOf_updateEl n i g st st' :
  (∀ e, classList e ⊆ classList (g e)) →
  updateEl i g st = Some st' → linesOf n st → linesOf n st'.
Proof.
  intros Hg E. apply linesOf_grows; [by eapply updateEl_grows|].
  apply (updateEl_steady _ _ _ _ E).
Qed.

Lemma linesOf_pushElements n j st st' :
  pushElements j st = Some st' → linesOf n st → linesOf n st'.
Proof.
  revert st. induction j as [|j IH]; intros st E Hc; simpl in E.
  { by injection E as <-. }
  destruct (pushElement (S j) false st) as [st1|] eqn:E1; [|done].
  eauto using linesOf_pushElement.
Qed.

Lemma linesOf_appendLine n line d st st' :
  appendLine line d st = Some st' → linesOf n st → linesOf n st'.
Proof.
  destruct line as [|c line]; simpl; [by intros [= <-]|].
  apply linesOf_updateEl. intros e. apply append_grows.
Qed.

Lemma linesOf_breakLine n line d st st' :
  breakLine line d st = Some st' → linesOf n st → linesOf n st'.
Proof.
  unfold breakLine. intros E Hc.
  destruct (pushElements _ st) as [s1|] eqn:E1; [|done]. simpl in E.
  destruct (updateEl 0 _ s1) as [s2|] eqn:E2; [|done]. simpl in E.
  destruct (pushElement 0 false s2) as [s3|] eqn:E3; [|done]. simpl in E.
  eapply linesOf_appendLine; [exact E|].
  eapply linesOf_pushElement; [exact E3|].
  eapply linesOf_updateEl; [|exact E2|by eapply linesOf_pushElements].
  intros e. apply append_grows.
Qed.

Lemma linesOf_breakLines n lines d st st' :
  breakLines lines d st = Some st' → linesOf n st → linesOf n st'.
Proof.
  revert st. induction lines as [|line rest IH]; intros st E Hc; simpl in E.
  { by injection E as <-. }
  destruct (breakLine line d st) as [s1|] eqn:E1; [|done].
  eauto using linesOf_breakLine.
Qed.

Lemma linesOf_addText n t d st st' :
  stack st ≠ [] → addText t d st = Some st' → linesOf n st → linesOf n st'.
Proof.
  intros Hne E Hc. unfold addText in E.
  destruct (stack st) as [|fr rest] eqn:Hs; [done|].
  destruct (match split LF t with
            | [] => Some st
            | line :: _ => appendLine line d st
            end) as [s1|] eqn:E1; [|done].
  simpl in E.
  destruct (breakLines _ d s1) as [s2|] eqn:E2; [|done].
  injection E as <-. change (linesOf n s2).
  eapply linesOf_breakLines; [exact E2|].
  destruct (split LF t); [by injection E1 as <-|].
  by eapply linesOf_appendLine.
Qed.

Lemma linesOf_openNode n m st : linesOf n st → linesOf n (openNode m st).
Proof.
  intros [(f0 & H0 & Hf0) Hk]. split; [|done]. exists f0. split; [|done].
  cbn [openNode stack setStack]. by apply lookup_app_l_Some.
Qed.

Lemma linesOf_closeNode n m i st st1 st2 :
  stack st ≠ [] → linesOf n st1 →
  map node (stack st1) = map node (stack st) ++ [m] →
  closeNode i st1 = Some st2 →
  linesOf n st2.
Proof.
  intros Hne Hc1 Hnodes E.
  destruct (closeNode_nested_inv _ _ _ _ _ Hne Hnodes E) as (st' & E' & ->).
  assert (Hlen : length (stack st1) = S (length (stack st))).
  { rewrite <- (length_map node (stack st1)), Hnodes, length_app,
      length_map. simpl. lia. }
  apply (linesOf_pushElement n _ _ _ _ E') in Hc1.
  destruct Hc1 as [(f0 & H0 & Hf0) Hk]. split; [|done].
  exists f0. split; [|done]. cbn [stack setStack].
  assert (Hlen' : (1 < length (stack st'))%nat).
  { rewrite (steady_length _ _ (pushElement_steady _ _ _ _ E')), Hlen.
    destruct (stack st); [done|simpl; lia]. }
  destruct (stack st') as [|a [|b s]]; simpl in *; [lia|lia|done].
Qed.

Lemma linesOf_blockContent sourceCode n m e st :
  stack st ≠ [] → linesOf n st →
  ∃ st', blockContent sourceCode m e st = Some st'
         ∧ map node (stack st') = map node (stack st)
         ∧ linesOf n st'.
Proof.
  intros Hne Hc.
  destruct (walks_blockContent sourceCode (λ _, true) (λ _, True)
              (linesOf n) (λ _ _, True))
    with (n := m) (e := e) (st := st) as (st' & E & Hn & Hc' & _);
    [done|done|done| | | | |apply allNodes_true|done|done|done|eauto].
  - intros a to e' d b Hna Ha _ _ _ E. split; [|done].
    by eapply linesOf_addText.
  - intros a to d b Hna Ha _ E. split; [|done]. by eapply linesOf_addText.
  - intros k a _ Ha. by apply linesOf_openNode.
  - intros k j a b c _ Hna _ Hb _ Hnodes E. split; [|done].
    by eapply linesOf_closeNode.
Qed.

(** *** The labels *)

Lemma StronglySorted_snoc (l : list nat) i :
  StronglySorted lt l → Forall (λ j, (j < i)%nat) l →
  StronglySorted lt (l ++ [i]).
Proof.
  induction 1 as [|x l Hl IH Hx]; intros Hall.
  { repeat constructor. }
  apply Forall_cons in Hall as [Hxi Hall]. simpl. constructor; [auto|].
  apply Forall_app. split; [done|]. by apply Forall_singleton.
Qed.

Lemma labelledUpTo_next nodes i st :
  labelledUpTo nodes i st → labelledUpTo nodes (S i) st.
Proof.
  intros (Hb & labels & H2 & Hs & Hlt). split; [done|].
  exists labels. split; [done|]. split; [done|].
  eapply Forall_impl; [exact Hlt|]. simpl. lia.
Qed.

Lemma labelledUpTo_lines nodes i ls st :
  labelledUpTo nodes i st →
  labelledUpTo nodes i (foldl (λ st line, lineBlock line st) st ls).
Proof.
  revert st. induction ls as [|l ls IH]; intros st HI; [done|].
  simpl. apply IH. destruct HI as (Hb & labels & H2 & Hs & Hlt).
  split; [done|]. exists (labels ++ [None]).
  cbn [el lineBlock pushBlock setBlock setEl setScanOffset block].
  rewrite childNodes_append, omap_app. simpl. rewrite app_nil_r.
  split; [|done]. apply Forall2_app; [done|]. constructor; [|done].
  eexists. split; [done|]. by rewrite Hb.
Qed.

Lemma labelledUpTo_process sourceCode nodes n i s e st st' :
  nodes !! i = Some n → stack st = [] →
  labelledUpTo nodes i st →
  process sourceCode n i s e st = Some st' →
  labelledUpTo nodes (S i) st'.
Proof.
  intros Hn Hs HI E.
  destruct (process_top_inv sourceCode n i s e st Hs)
    as (st2 & fr & E2 & Hs2 & Hfr & E').
  rewrite E' in E. injection E as <-.
  destruct (split_snoc (slice sourceCode (scanOffset st) s))
    as (ls & l & Hsplit & Ht).
  rewrite Hsplit, blockLines_snoc in E2.
  destruct (labelledUpTo_lines nodes i ls st HI)
    as (Hb & labels & H2 & Hsort & Hlt).
  pose proof (blockLines_stack_foldl ls st) as Hst1.
  set (st1 := foldl _ st ls) in *.
  assert (Hso : stack (openNode n st1) = [newFrame n "div"]).
  { unfold openNode. cbn [stack setStack]. by rewrite Hst1, Hs. }
  destruct (linesOf_blockContent sourceCode n n e (openNode n st1))
    as (st2' & E2' & _ & Hl2).
  { by rewrite Hso. }
  { split; [|cbn [openNode block setStack]; by rewrite Hb].
    exists (newFrame n "div"). by rewrite Hso. }
  destruct (blockContent_enduring sourceCode n e (openNode n st1))
    as (st2'' & E2'' & _ & (Hel & Hbt & Hbc & Hba)).
  { by rewrite Hso. }
  rewrite E2 in E2', E2''. injection E2' as <-. injection E2'' as <-.
  destruct Hl2 as [_ Hk2].
  cbn [openNode block el setStack] in Hel, Hba. rewrite Hb in Hba.
  split; [done|]. exists (labels ++ [Some i]).
  cbn [el closedBlock]. rewrite childNodes_append, Hel, omap_app. simpl.
  split; [|split].
  - apply Forall2_app; [done|]. constructor; [|done].
    eexists. split; [done|]. exists n. split; [done|].
    destruct (block st2) as [bt bc ba bk]. simpl in *. subst ba.
    split; [done|]. rewrite forallb_app, Hk2. cbn [forallb].
    by rewrite <- Hfr, lineOf_addStyle.
  - by apply StronglySorted_snoc.
  - apply Forall_app. split; [|by apply Forall_singleton; lia].
    eapply Forall_impl; [exact Hlt|]. simpl. lia.
Qed.

Lemma labelledUpTo_forNodes sourceCode nodes rest :
  ∀ i st,
    drop i nodes = rest → stack st = [] → labelledUpTo nodes i st →
    ∃ st', forNodes (visit sourceCode) rest i st = Some st'
           ∧ stack st' = [] ∧ labelledUpTo nodes (i + length rest) st'.
Proof.
  induction rest as [|n rest IH]; intros i st Hdrop Hs HI; simpl.
  { rewrite Nat.add_0_r. eauto. }
  assert (Hn : nodes !! i = Some n).
  { rewrite <- (Nat.add_0_r i), <- lookup_drop, Hdrop. done. }
  assert (Hdrop' : drop (S i) nodes = rest).
  { replace (S i) with (i + 1)%nat by lia. by rewrite <- drop_drop, Hdrop. }
  replace (i + S (length rest))%nat with (S i + length rest)%nat by lia.
  rewrite visit_unfold.
  destruct (startOffsetOf n) as [s|] eqn:Es;
    [|simpl; apply IH; auto using labelledUpTo_next].
  destruct (endOffsetOf n) as [e|] eqn:Ee;
    [|simpl; apply IH; auto using labelledUpTo_next].
  cbv zeta. set (s' := if s <? scanOffset st then _ else _).
  destruct (Z.geb_spec s' e) as [Hse|Hse];
    [simpl; apply IH; auto using labelledUpTo_next|].
  destruct (process_top_inv sourceCode n i s' e st Hs)
    as (st2 & fr & _ & _ & _ & E).
  rewrite E. simpl. apply IH; [done|done|].
  by eapply labelledUpTo_process.
Qed.

(** X5. The blocks of the output carry the positions of the top-level
    nodes in increasing order: a block has either no attribute, or
    [index = i] as its only attribute for the position [i] of a top-level
    node, and then every line of the block carries the class of the type of
    that node (and the class of its depth, for a heading); the positions of
    the blocks with an index are strictly increasing in document order, so
    no two blocks have the same index. *)
Theorem block_indexes_increase :
  ∀ (sourceCode : jsstr) (nodes : list MdastNode),
  ∃ root labels,
    editorRender sourceCode nodes = Some root
    ∧ Forall2 (labelled nodes) labels (childNodes root)
    ∧ StronglySorted lt (omap id labels).
Proof.
  intros s nodes.
  destruct (labelledUpTo_forNodes s nodes nodes O initialState)
    as (st1 & E1 & Hs1 & HI1); [done|done| |].
  { split; [done|]. exists []. repeat split; constructor. }
  assert (Eg : getChildren s nodes (jslength s) initialState
               = Some (blockLines
                         (split LF (slice s (scanOffset st1) (jslength s)))
                         st1)).
  { unfold getChildren. rewrite E1. simpl. by apply addText_outer. }
  rewrite (editorRender_final _ _ _ Eg).
  destruct (split_snoc (slice s (scanOffset st1) (jslength s)))
    as (ls & l & Hsplit & _).
  rewrite Hsplit, blockLines_snoc.
  destruct (labelledUpTo_lines nodes _ ls st1 HI1)
    as (Hb & labels & H2 & Hsort & _).
  set (st := foldl _ st1 ls) in *.
  destruct (_ <=? _).
  - eexists _, (labels ++ [None]). split; [done|].
    cbn [el pushBlock setBlock setEl block].
    rewrite childNodes_append, omap_app. simpl. rewrite app_nil_r.
    split; [|done]. apply Forall2_app; [done|]. constructor; [|done].
    eexists. split; [done|]. by rewrite Hb.
  - eexists _, labels. done.
Qed.

(** ** The schema of the sanitizer *)

Section SchemaFacts.
Context {PropertyDefinition Rest : Type} (name : string → PropertyDefinition).
Implicit Types (d : @Sanitize.Schema PropertyDefinition Rest).

Lemma attributesOf_extended d tag :
  tag ∈ ["pre"; "code"; "div"] →
  Sanitize.attributesOf (Sanitize.schema name d) tag
  = Sanitize.attributesOf d tag ++ [name "className"; name "style"].
Proof.
  intros Htag. unfold Sanitize.attributesOf at 1.
  cbn [Sanitize.schema Sanitize.attributes mbind option_bind].
  rewrite !elem_of_cons, elem_of_nil in Htag.
  destruct Htag as [->|[->|[->|[]]]];
    repeat (rewrite lookup_insert_ne by done); by rewrite lookup_insert_eq.
Qed.

Lemma attributesOf_span d :
  Sanitize.attributesOf (Sanitize.schema name d) "span"
  = Sanitize.attributesOf d "span"
    ++ [name "className"; name "style"; name "line"].
Proof.
  unfold Sanitize.attributesOf at 1.
  cbn [Sanitize.schema Sanitize.attributes mbind option_bind].
  repeat (rewrite lookup_insert_ne by done). by rewrite lookup_insert_eq.
Qed.

Lemma attributesOf_custom d :
  Sanitize.attributesOf (Sanitize.schema name d) "custom"
  = [name "meta"; name "value"].
Proof.
  unfold Sanitize.attributesOf.
  cbn [Sanitize.schema Sanitize.attributes mbind option_bind].
  by rewrite lookup_insert_eq.
Qed.

Lemma attributesOf_video d :
  Sanitize.attributesOf (Sanitize.schema name d) "video" = [name "src"].
Proof.
  unfold Sanitize.attributesOf.
  cbn [Sanitize.schema Sanitize.attributes mbind option_bind].
  rewrite lookup_insert_ne by done. by rewrite lookup_insert_eq.
Qed.

Lemma attributesOf_other d tag :
  tag ∉ ["pre"; "code"; "div"; "span"; "video"; "custom"] →
  Sanitize.attributesOf (Sanitize.schema name d) tag
  = Sanitize.attributesOf d tag.
Proof.
  intros Htag. unfold Sanitize.attributesOf.
  cbn [Sanitize.schema Sanitize.attributes mbind option_bind].
  rewrite !not_elem_of_cons in Htag.
  destruct Htag as (? & ? & ? & ? & ? & ? & _).
  repeat (rewrite lookup_insert_ne by done).
  by destruct (Sanitize.attributes d).
Qed.

Lemma attributesOf_kept d tag a :
  tag ≠ "video" → tag ≠ "custom" →
  a ∈ Sanitize.attributesOf d tag →
  a ∈ Sanitize.attributesOf (Sanitize.schema name d) tag.
Proof.
  intros Hv Hc Ha.
  destruct (decide (tag ∈ ["pre"; "code"; "div"])) as [Hin|Hout].
  { rewrite attributesOf_extended by done. apply elem_of_app. by left. }
  destruct (decide (tag = "span")) as [->|Hs].
  { rewrite attributesOf_span. apply elem_of_app. by left. }
  rewrite attributesOf_other; [done|].
  rewrite !not_elem_of_cons in Hout. rewrite !not_elem_of_cons.
  destruct Hout as (? & ? & ? & _). repeat split; try done.
  apply not_elem_of_nil.
Qed.
End SchemaFacts.

(** X6. The schema that the sanitizer gets extends the default schema
    and loses nothing of it but the attributes of [video] and [custom]:
    it allows a tag exactly when the default allows it or it is [video]
    or [custom]; for every other tag, every attribute that the default
    allows stays allowed; [className] and [style] are allowed on [pre],
    [code], [div] and [span] also when the default has no entry for them
    or no attributes at all; the attributes of [custom] are [meta] and
    [value] and the attribute of [video] is [src], whatever the default
    has for them; tags that the schema does not name keep the attributes
    of the default, and the other fields of the default are kept. *)
Theorem schema_extends_default :
  ∀ (PropertyDefinition Rest : Type) (name : string → PropertyDefinition)
    (defaultSchema : @Sanitize.Schema PropertyDefinition Rest),
    let s := Sanitize.schema name defaultSchema in
    (∀ t, t ∈ Sanitize.tagsOf s
          ↔ t ∈ Sanitize.tagsOf defaultSchema ∨ t = "video" ∨ t = "custom")
    ∧ (∀ tag a,
          tag ≠ "video" → tag ≠ "custom" →
          a ∈ Sanitize.attributesOf defaultSchema tag →
          a ∈ Sanitize.attributesOf s tag)
    ∧ (∀ tag,
          tag ∈ ["pre"; "code"; "div"; "span"] →
          name "className" ∈ Sanitize.attributesOf s tag
          ∧ name "style" ∈ Sanitize.attributesOf s tag)
    ∧ Sanitize.attributesOf s "custom" = [name "meta"; name "value"]
    ∧ Sanitize.attributesOf s "video" = [name "src"]
    ∧ (∀ tag,
          tag ∉ ["pre"; "code"; "div"; "span"; "video"; "custom"] →
          Sanitize.attributesOf s tag
          = Sanitize.attributesOf defaultSchema tag)
    ∧ Sanitize.rest s = Sanitize.rest defaultSchema.
Proof.
  intros P R name d s. subst s. split; [|split; [|split; [|split; [|split;
    [|split]]]]].
  - intros t.
    change (Sanitize.tagsOf (Sanitize.schema name d))
      with (Sanitize.tagsOf d ++ ["video"; "custom"]).
    rewrite elem_of_app, !elem_of_cons, elem_of_nil. tauto.
  - intros tag a. apply attributesOf_kept.
  - intros tag Htag. rewrite !elem_of_cons, elem_of_nil in Htag.
    destruct (decide (tag = "span")) as [->|Hs].
    + rewrite attributesOf_span.
      split; apply elem_of_app; right; rewrite !elem_of_cons; auto.
    + rewrite attributesOf_extended
        by (rewrite !elem_of_cons; destruct Htag as [?|[?|[?|[?|[]]]]]; auto;
            done).
      split; apply elem_of_app; right; rewrite !elem_of_cons; auto.
  - apply attributesOf_custom.
  - apply attributesOf_video.
  - intros tag. apply attributesOf_other.
  - reflexivity.
Qed.

Lemma schema_extends_default_witness :
  let d : @Sanitize.Schema string unit :=
    {| Sanitize.tagNames := Some ["div"];
       Sanitize.attributes := Some {[ "div" := ["title"] ]};
       Sanitize.rest := () |} in
  "title" ∈ Sanitize.attributesOf (Sanitize.schema id d) "div"
  ∧ "style" ∈ Sanitize.attributesOf (Sanitize.schema id d) "pre"
  ∧ Sanitize.attributesOf (Sanitize.schema id d) "a"
    = Sanitize.attributesOf d "a".
Proof.
  intros d.
  destruct (schema_extends_default string unit id d)
    as (_ & H2 & H3 & _ & _ & H6 & _).
  split; [|split].
  - apply H2; [done|done|]. by apply (bool_decide_unpack _).
  - apply (H3 "pre"). by apply (bool_decide_unpack _).
  - apply H6. by apply (bool_decide_unpack _).
Defined.

(** ** The blocks of the root, one by one *)

Lemma blockOf_lines nodes labels ls st :
  block st = createElement "div" →
  Forall2 (blockOf nodes) labels (childNodes (el st)) →
  let st' := foldl (λ st line, lineBlock line st) st ls in
  block st' = createElement "div"
  ∧ tagName (el st') = tagName (el st)
  ∧ Forall2 (blockOf nodes) (labels ++ map (λ _, None) ls)
            (childNodes (el st'))
  ∧ omap id (labels ++ map (λ _, None) ls) = omap id labels.
Proof.
  intros Hb H2. cbv zeta. split; [by apply lineBlocks_block|].
  rewrite lineBlocks_el by done. cbn [tagName childNodes].
  split; [done|]. split.
  - apply Forall2_app; [done|]. clear. induction ls as [|l ls IH]; simpl.
    { constructor. }
    constructor; [by exists l|done].
  - rewrite omap_app. replace (omap id (map (λ _, None) ls)) with (@nil nat).
    { by rewrite app_nil_r. }
    clear. induction ls as [|l ls IH]; simpl; done.
Qed.

Lemma blockOf_process sourceCode nodes labels n i s e st st' :
  nodes !! i = Some n → stack st = [] →
  block st = createElement "div" →
  Forall2 (blockOf nodes) labels (childNodes (el st)) →
  process sourceCode n i s e st = Some st' →
  stack st' = [] ∧ block st' = createElement "div"
  ∧ tagName (el st') = tagName (el st)
  ∧ ∃ labels', Forall2 (blockOf nodes) labels' (childNodes (el st'))
               ∧ omap id labels' = omap id labels ++ [i].
Proof.
  intros Hn Hs Hb H2 E.
  destruct (process_top_inv sourceCode n i s e st Hs)
    as (st2 & fr & E2 & Hs2 & Hfr & E').
  rewrite E' in E. injection E as <-.
  destruct (split_snoc (slice sourceCode (scanOffset st) s))
    as (ls & l & Hsplit & Ht).
  rewrite Hsplit, blockLines_snoc in E2.
  destruct (blockOf_lines nodes labels ls st Hb H2)
    as (Hb1 & Htag1 & H21 & Ho1).
  set (st1 := foldl _ st ls) in *.
  destruct (blockContent_enduring sourceCode n e (openNode n st1))
    as (st2' & E2' & _ & (Hel & Hbt & Hbc & Hba)).
  { simpl. by destruct (stack st1). }
  rewrite E2 in E2'. injection E2' as <-.
  cbn [openNode block el setStack] in Hel, Hbt, Hbc, Hba.
  rewrite Hb1 in Hbt, Hbc, Hba.
  split; [done|]. split; [done|].
  cbn [el closedBlock]. rewrite childNodes_append, Hel.
  split. { rewrite <- Htag1. by destruct (el st1). }
  exists ((labels ++ map (λ _, None) ls) ++ [Some i]). split.
  - apply Forall2_app; [done|]. constructor; [|done].
    destruct (block st2) as [bt bc ba bk]. simpl in *. subst bt bc ba.
    eexists n, _, _. split; [done|]. split; [done|]. split; [done|].
    split; [done|]. split; [done|]. split; [simpl; by rewrite last_snoc|].
    rewrite <- Hfr. apply addStyle_type.
  - by rewrite omap_app, Ho1.
Qed.

(** The loop over the top-level nodes: every node that is not skipped
    gives one block with its position, after the blocks of the lines
    before it. *)
Lemma blockOf_forNodes sourceCode nodes rest :
  ∀ i st labels,
    drop i nodes = rest → stack st = [] → block st = createElement "div" →
    Forall2 (blockOf nodes) labels (childNodes (el st)) →
    ∃ st' labels',
      forNodes (visit sourceCode) rest i st = Some st'
      ∧ stack st' = [] ∧ block st' = createElement "div"
      ∧ tagName (el st') = tagName (el st)
      ∧ Forall2 (blockOf nodes) labels' (childNodes (el st'))
      ∧ omap id labels'
        = omap id labels ++ renderedFrom sourceCode rest i st.
Proof.
  induction rest as [|n rest IH]; intros i st labels Hdrop Hs Hb H2.
  { exists st, labels. simpl. by rewrite app_nil_r. }
  assert (Hn : nodes !! i = Some n).
  { rewrite <- (Nat.add_0_r i), <- lookup_drop, Hdrop. done. }
  assert (Hdrop' : drop (S i) nodes = rest).
  { replace (S i) with (i + 1)%nat by lia. by rewrite <- drop_drop, Hdrop. }
  cbn [forNodes renderedFrom]. unfold rendered. rewrite visit_unfold.
  destruct (startOffsetOf n) as [s|] eqn:Es; [|by apply IH].
  destruct (endOffsetOf n) as [e|] eqn:Ee; [|by apply IH].
  cbv zeta. set (s' := if s <? scanOffset st then _ else _).
  destruct (s' >=? e); [by apply IH|].
  destruct (process_top_inv sourceCode n i s' e st Hs)
    as (st2 & fr & _ & _ & _ & E).
  rewrite E. cbn [mbind option_bind negb].
  destruct (blockOf_process sourceCode nodes labels n i s' e st _ Hn Hs Hb H2 E)
    as (Hs' & Hb' & Htag' & labels' & H2' & Ho').
  destruct (IH (S i) _ labels' Hdrop' Hs' Hb' H2')
    as (st' & labels'' & E' & Hs'' & Hb'' & Htag'' & H2'' & Ho'').
  exists st', labels''. split; [done|]. split; [done|]. split; [done|].
  split; [congruence|]. split; [done|].
  rewrite Ho'', Ho', <- app_assoc. done.
Qed.

(** In a tree in document order no top-level node is skipped. *)
Lemma renderedFrom_inOrder sourceCode rest :
  ∀ i st lo,
    stack st = [] → 0 ≤ scanOffset st ≤ lo → topInOrder lo rest = true →
    renderedFrom sourceCode rest i st = seq i (length rest).
Proof.
  induction rest as [|n rest IH]; intros i st lo Hs Hsc Hord; [done|].
  cbn [renderedFrom topInOrder length seq] in *. unfold rendered.
  rewrite visit_unfold.
  destruct (startOffsetOf n) as [s|] eqn:Es; [|done].
  destruct (endOffsetOf n) as [e|] eqn:Ee; [|done].
  apply andb_prop in Hord as [Hord Hrest].
  apply andb_prop in Hord as [Hord Hall].
  apply andb_prop in Hord as [Hlo Hse].
  apply Z.leb_le in Hlo. apply Z.ltb_lt in Hse.
  cbv zeta. destruct (Z.ltb_spec s (scanOffset st)); [lia|].
  destruct (Z.geb_spec s e); [lia|]. cbn [negb app].
  destruct (process_top_inv sourceCode n i s e st Hs)
    as (st2 & fr & E2 & Hs2 & Hfr & E).
  rewrite E. f_equal.
  destruct (blockLines_before sourceCode st s ltac:(lia)) as (Hsc1 & _ & _).
  set (st1 := blockLines _ st) in *.
  destruct (blockContent_bounded sourceCode e n e (openNode n st1))
    as (st2' & E2' & _ & Hsc2); [done|lia| |simpl; lia|].
  { simpl. by destruct (stack st1). }
  rewrite E2 in E2'. injection E2' as <-.
  apply (IH _ _ (e + 1)); [done| |done]. simpl. lia.
Qed.


(** ** The elements of a node inside the lines *)

Lemma inside_sub x e e' :
  (∀ k, k ∈ childNodes e → k ∈ childNodes e') → inside x e → inside x e'.
Proof.
  intros Hsub H. revert e' Hsub.
  destruct H as [e H|e e1 H1 H2]; intros e' Hsub.
  - apply inside_child. auto.
  - eapply inside_below; [|exact H2]. auto.
Qed.

Lemma extending_append k : extending (append k).
Proof.
  intros e. rewrite childNodes_append, classList_append. split; [|done].
  intros k' Hk'. apply elem_of_app. by left.
Qed.

Lemma extending_addStyle n f l : extending (addStyle n f l).
Proof.
  intros e. rewrite childNodes_addStyle. split; [done|].
  apply addStyle_grows.
Qed.

Lemma inside_extending g x e : extending g → inside x e → inside x (g e).
Proof. intros Hg. apply inside_sub, Hg. Qed.

Lemma inside_appended x k e :
  (k = ElementNode x ∨ ∃ e', k = ElementNode e' ∧ inside x e') →
  inside x (append k e).
Proof.
  intros [->|(e' & -> & H)].
  - apply inside_child. rewrite childNodes_append. apply elem_of_app.
    right. by apply list_elem_of_singleton.
  - eapply inside_below; [|exact H]. rewrite childNodes_append.
    apply elem_of_app. right. by apply list_elem_of_singleton.
Qed.

Section Settled.
Context (PX : Element → Prop) (cls : list string).

Lemma holds_extending g e :
  extending g → holds PX cls e → holds PX cls (g e).
Proof.
  intros Hg [(x & HP & Hin) Hc]. split.
  - exists x. split; [done|]. by apply inside_extending.
  - etrans; [exact Hc|]. apply Hg.
Qed.

Lemma located_alter_ext j i g st st' :
  extending g → stack st' = alter (mapEl g) i (stack st) →
  located PX j st → located PX j st'.
Proof.
  intros Hg Hs (f & x & Hf & HP & Hin). unfold located. rewrite Hs.
  destruct (decide (i = j)) as [->|Hne].
  - exists (mapEl g f), x. rewrite list_lookup_alter_eq, Hf.
    split; [done|]. split; [done|]. by apply inside_extending.
  - exists f, x. by rewrite list_lookup_alter_ne.
Qed.

Lemma located_alter_ne j i g st st' :
  i ≠ j → stack st' = alter g i (stack st) →
  located PX j st → located PX j st'.
Proof.
  intros Hne Hs (f & x & Hf & HP & Hin). unfold located. rewrite Hs.
  exists f, x. by rewrite list_lookup_alter_ne.
Qed.

Lemma located_updateEl j i g st st' :
  extending g → updateEl i g st = Some st' →
  located PX j st → located PX j st'.
Proof.
  intros Hg [_ ->]%updateFrame_inv. by apply (located_alter_ext j i g).
Qed.

(** [pushElement] at [S p] moves what the element of the frame holds into
    the element of the frame below. *)
Lemma pushElement_S_located p l j st st' :
  pushElement (S p) l st = Some st' → located PX j st →
  located PX (if decide (j = S p) then p else j) st'.
Proof.
  intros E Hloc.
  destruct (pushElement_inv_S _ _ _ _ E) as (fr & pf & Hfr & Hpf).
  pose proof (pushElement_S p l st fr pf Hfr Hpf) as E'. cbv zeta in E'.
  rewrite E' in E. injection E as <-. clear E'.
  set (style := mapEl (addStyle (node fr) (first fr) l)).
  set (s1 := alter style (targetOf p pf) (stack st)).
  set (cur := if isFlowContent (node pf) then fr else style fr).
  assert (Hlen : (p < length s1)%nat).
  { subst s1. rewrite length_alter. by eapply lookup_lt_Some. }
  destruct (lookup_lt_is_Some_2 s1 p Hlen) as [pf' Hpf'].
  case_decide as Hj.
  - subst j. destruct Hloc as (f & x & Hf & HP & Hin).
    rewrite Hfr in Hf. injection Hf as <-.
    exists (mapEl (append (ElementNode (frame_el cur))) pf'), x.
    split; [|split; [done|]].
    + cbn [stack setStack]. rewrite list_lookup_alter_ne by lia.
      by rewrite list_lookup_alter_eq, Hpf'.
    + cbn [mapEl frame_el]. apply inside_appended. right.
      exists (frame_el cur). split; [done|]. subst cur.
      destruct (isFlowContent (node pf)); [done|].
      cbn [style mapEl frame_el].
      apply inside_extending; [apply extending_addStyle|done].
  - apply (located_alter_ne j (S p) (renewed (S p))
             (setStack (alter (mapEl (append (ElementNode (frame_el cur))))
                          p s1) st)); [done|done|].
    apply (located_alter_ext j p (append (ElementNode (frame_el cur)))
             (setStack s1 st)); [apply extending_append|done|].
    apply (located_alter_ext j (targetOf p pf)
             (addStyle (node fr) (first fr) l) st);
      [apply extending_addStyle|done|done].
Qed.

Lemma pushElements_located k :
  ∀ j st st',
    pushElements k st = Some st' → located PX j st → (j ≤ k)%nat →
    located PX 0 st'.
Proof.
  induction k as [|k IH]; intros j st st' E Hloc Hj; simpl in E.
  { injection E as <-. by replace j with O in Hloc by lia. }
  destruct (pushElement (S k) false st) as [st1|] eqn:E1; [|done].
  simpl in E.
  pose proof (pushElement_S_located _ _ _ _ _ E1 Hloc) as Hloc1.
  eapply IH; [exact E|exact Hloc1|]. case_decide; lia.
Qed.

Lemma lineCarries_grows st st' :
  grows st st' → lineCarries cls st → lineCarries cls st'.
Proof.
  intros [_ Hs] (f0 & H0 & Hc). destruct (Hs f0 H0) as (f0' & H0' & Hsub).
  exists f0'. split; [done|]. by etrans.
Qed.

(** The open line goes to [block]. *)
Lemma pushElement_O_line l st st' :
  pushElement 0 l st = Some st' →
  located PX 0 st → lineCarries cls st →
  ∃ line, childNodes (block st')
          = childNodes (block st) ++ [ElementNode line]
          ∧ holds PX cls line.
Proof.
  intros E (f & x & Hf & HP & Hin) (f0 & H0 & Hc).
  destruct (pushElement_O_inv _ _ _ E) as (fr & rest & Hs & Hb).
  rewrite Hs in Hf, H0. injection Hf as <-. injection H0 as <-.
  eexists. rewrite Hb, childNodes_append. split; [done|].
  apply holds_extending; [apply extending_addStyle|]. split; eauto.
Qed.

Lemma breakLine_line line d st st' :
  breakLine line d st = Some st' → openWith PX cls st →
  ∃ L, childNodes (block st') = childNodes (block st) ++ [ElementNode L]
       ∧ holds PX cls L.
Proof.
  unfold breakLine. intros E [[j Hloc] Hc].
  destruct (pushElements _ st) as [s1|] eqn:E1; [|done]. simpl in E.
  destruct (updateEl 0 _ s1) as [s2|] eqn:E2; [|done]. simpl in E.
  destruct (pushElement 0 false s2) as [s3|] eqn:E3; [|done]. simpl in E.
  assert (Hj : (j ≤ length (stack st) - 1)%nat).
  { destruct Hloc as (f & x & Hf & _). apply lookup_lt_Some in Hf. lia. }
  pose proof (pushElements_located _ _ _ _ E1 Hloc Hj) as Hloc1.
  pose proof (pushElements_grows _ _ _ E1) as Hg1.
  assert (Hg2 : grows s1 s2).
  { eapply updateEl_grows; [|exact E2]. intros e. apply append_grows. }
  destruct (pushElement_O_line false s2 s3 E3) as (L & Hb & HL).
  { eapply located_updateEl; [apply extending_append|exact E2|done]. }
  { eauto using lineCarries_grows. }
  exists L. split; [|done].
  rewrite (proj1 (appendLine_grows _ _ _ _ E)), Hb.
  by rewrite (proj1 Hg2), (proj1 Hg1).
Qed.

Lemma breakLine_block line d st st' :
  breakLine line d st = Some st' →
  ∃ k, childNodes (block st') = childNodes (block st) ++ [k].
Proof.
  unfold breakLine. intros E.
  destruct (pushElements _ st) as [s1|] eqn:E1; [|done]. simpl in E.
  destruct (updateEl 0 _ s1) as [s2|] eqn:E2; [|done]. simpl in E.
  destruct (pushElement 0 false s2) as [s3|] eqn:E3; [|done]. simpl in E.
  pose proof (pushElements_grows _ _ _ E1) as Hg1.
  assert (Hg2 : grows s1 s2).
  { eapply updateEl_grows; [|exact E2]. intros e. apply append_grows. }
  destruct (pushElement_O_inv _ _ _ E3) as (fr & rest & Hs & Hb).
  eexists. rewrite (proj1 (appendLine_grows _ _ _ _ E)), Hb,
    childNodes_append. by rewrite (proj1 Hg2), (proj1 Hg1).
Qed.

Context (Prev : list Node → Prop).

Lemma lineAfter_app kids more :
  lineAfter Prev PX cls kids → lineAfter Prev PX cls (kids ++ more).
Proof.
  intros (k0 & L & k1 & -> & Hp & HL). exists k0, L, (k1 ++ more).
  by rewrite <- app_assoc.
Qed.

Lemma settled_breakLine line d st st' :
  breakLine line d st = Some st' →
  settled Prev PX cls st → settled Prev PX cls st'.
Proof.
  intros E [H|[Hp Ho]]; left.
  - destruct (breakLine_block _ _ _ _ E) as (k & ->).
    by apply lineAfter_app.
  - destruct (breakLine_line _ _ _ _ E Ho) as (L & -> & HL).
    by exists (childNodes (block st)), L, [].
Qed.

Lemma settled_breakLines lines d st st' :
  breakLines lines d st = Some st' →
  settled Prev PX cls st → settled Prev PX cls st'.
Proof.
  revert st. induction lines as [|line rest IH]; intros st E Hp; simpl in E.
  { by injection E as <-. }
  destruct (breakLine line d st) as [s1|] eqn:E1; [|done].
  eauto using settled_breakLine.
Qed.

Lemma openWith_updateEl i g st st' :
  extending g → updateEl i g st = Some st' →
  openWith PX cls st → openWith PX cls st'.
Proof.
  intros Hg E [[j Hloc] Hc]. split.
  - exists j. by eapply located_updateEl.
  - eapply lineCarries_grows; [|exact Hc].
    eapply updateEl_grows; [|exact E]. intros e. apply Hg.
Qed.

Lemma settled_updateEl i g st st' :
  extending g → updateEl i g st = Some st' →
  settled Prev PX cls st → settled Prev PX cls st'.
Proof.
  intros Hg E Hs.
  assert (Hb : block st' = block st).
  { apply updateFrame_inv in E as [_ ->]. done. }
  destruct Hs as [H|[Hp Ho]]; [left|right]; rewrite Hb; [done|].
  split; [done|]. by eapply openWith_updateEl.
Qed.

Lemma settled_appendLine line d st st' :
  appendLine line d st = Some st' →
  settled Prev PX cls st → settled Prev PX cls st'.
Proof.
  destruct line as [|c line]; simpl; [by intros [= <-]|].
  apply settled_updateEl, extending_append.
Qed.

Lemma settled_addText t d st st' :
  stack st ≠ [] → addText t d st = Some st' →
  settled Prev PX cls st → settled Prev PX cls st'.
Proof.
  intros Hne E Hp. unfold addText in E.
  destruct (stack st) as [|fr rest] eqn:Hs; [done|].
  destruct (match split LF t with
            | [] => Some st
            | line :: _ => appendLine line d st
            end) as [s1|] eqn:E1; [|done].
  simpl in E.
  destruct (breakLines _ d s1) as [s2|] eqn:E2; [|done].
  injection E as <-. change (settled Prev PX cls s2).
  eapply settled_breakLines; [exact E2|].
  destruct (split LF t); [by injection E1 as <-|].
  by eapply settled_appendLine.
Qed.

Lemma settled_openNode n st :
  settled Prev PX cls st → settled Prev PX cls (openNode n st).
Proof.
  intros [H|[Hp [[j Hloc] Hc]]]; [by left|right]. split; [done|]. split.
  - exists j. destruct Hloc as (f & x & Hf & HP & Hin). exists f, x.
    split; [|done]. cbn [openNode stack setStack].
    by apply lookup_app_l_Some.
  - eapply lineCarries_grows; [apply openNode_grows|done].
Qed.

Lemma openWith_closeNode n i st st1 st2 :
  stack st ≠ [] →
  map node (stack st1) = map node (stack st) ++ [n] →
  closeNode i st1 = Some st2 →
  openWith PX cls st1 →
  block st2 = block st1 ∧ openWith PX cls st2.
Proof.
  intros Hne Hnodes E [[j Hloc] Hc].
  destruct (closeNode_nested_inv _ _ _ _ _ Hne Hnodes E) as (y & Ey & ->).
  assert (Hlen : length (stack st1) = S (length (stack st))).
  { rewrite <- (length_map node (stack st1)), Hnodes, length_app,
      length_map. simpl. lia. }
  assert (Hpos : (0 < length (stack st))%nat).
  { destruct (stack st); [done|simpl; lia]. }
  rewrite Hlen in Ey. cbn [Nat.sub] in Ey. rewrite Nat.sub_0_r in Ey.
  destruct (length (stack st)) as [|p] eqn:Hp; [lia|].
  pose proof (pushElement_S_grows _ _ _ _ Ey) as Hgy.
  pose proof (pushElement_S_located _ _ _ _ _ Ey Hloc) as Hloc'.
  assert (Hleny : length (stack y) = S (S p)).
  { by rewrite (steady_length _ _ (pushElement_steady _ _ _ _ Ey)). }
  split; [exact (proj1 Hgy)|]. split.
  - set (j' := if decide (j = S p) then p else j) in *.
    assert (Hj' : (j' < S p)%nat).
    { subst j'. destruct Hloc as (f & x & Hf & _).
      apply lookup_lt_Some in Hf. case_decide; lia. }
    exists j'. destruct Hloc' as (f & x & Hf & HP & Hin). exists f, x.
    split; [|done]. cbn [stack setStack].
    destruct (stack y) as [|a s] eqn:Hsy using rev_ind; [done|].
    rewrite removelast_last. rewrite length_app in Hleny. simpl in Hleny.
    rewrite lookup_app_l in Hf by lia. done.
  - eapply lineCarries_grows; [|eapply lineCarries_grows; [exact Hgy|done]].
    split; [done|]. cbn [stack setStack]. apply removelast_grows. lia.
Qed.

Lemma settled_closeNode n i st st1 st2 :
  stack st ≠ [] → settled Prev PX cls st1 →
  map node (stack st1) = map node (stack st) ++ [n] →
  closeNode i st1 = Some st2 →
  settled Prev PX cls st2.
Proof.
  intros Hne Hs Hnodes E. destruct Hs as [H|[Hp Ho]].
  - left. destruct (closeNode_nested_inv _ _ _ _ _ Hne Hnodes E)
      as (y & Ey & ->).
    assert (Hlen : length (stack st1) = S (length (stack st))).
    { rewrite <- (length_map node (stack st1)), Hnodes, length_app,
        length_map. simpl. lia. }
    rewrite Hlen in Ey. cbn [Nat.sub] in Ey. rewrite Nat.sub_0_r in Ey.
    destruct (length (stack st)) as [|p] eqn:Hp.
    { by destruct (stack st). }
    cbn [block setStack].
    by rewrite (proj1 (pushElement_S_grows _ _ _ _ Ey)).
  - right. destruct (openWith_closeNode n i st st1 st2 Hne Hnodes E Ho)
      as [-> Ho2]. done.
Qed.

(** Inside a block, the line stays. *)
Lemma settled_forNodes s nodes i :
  walks (settled Prev PX cls) (λ _ _, True) (forNodes (visit s) nodes i).
Proof.
  apply (walks_forNodes_all s (λ _, true) (λ _, True) (settled Prev PX cls)
           (λ _ _, True)).
  - done.
  - done.
  - done.
  - intros st to e d st' Hne Hp _ _ _ E. split; [|done].
    by eapply settled_addText.
  - intros st to d st' Hne Hp _ E. split; [|done]. by eapply settled_addText.
  - intros n st _ Hp. by apply settled_openNode.
  - intros n j st st1 st2 _ Hne _ Hp1 _ Hnodes E. split; [|done].
    by eapply settled_closeNode.
  - apply forallb_allNodes_true.
Qed.

End Settled.

(** *** From a node to the block of its top-level parent *)

Lemma closedBlock_settled Prev PX cls i fr st :
  stack st = [fr] → attributes (block st) = [] →
  settled Prev PX cls st →
  ∃ b, last (childNodes (el (closedBlock i fr st))) = Some (ElementNode b)
       ∧ attributes b = [("index", numberToString i)]
       ∧ lineAfter Prev PX cls (childNodes b).
Proof.
  intros Hs Ha Hp. unfold closedBlock. cbn [el].
  rewrite childNodes_append, last_snoc. eexists. split; [done|].
  rewrite childNodes_classList_add, childNodes_setAttribute,
    childNodes_append.
  split. { destruct (block st) as [t c a k]. simpl in *. by subst a. }
  destruct Hp as [H|[Hprev [[j Hloc] Hc]]].
  - by apply lineAfter_app.
  - eexists (childNodes (block st)), _, []. split; [done|]. split; [done|].
    destruct Hloc as (f & x & Hf & HP & Hin). destruct Hc as (f0 & H0 & Hc).
    rewrite Hs in Hf, H0. destruct j as [|j]; [|done].
    injection Hf as <-. injection H0 as <-.
    apply holds_extending; [apply extending_addStyle|].
    apply holds_extending; [apply extending_append|]. split; eauto.
Qed.

Section Lifting.
Context (sourceCode : jsstr) (Prev : list Node → Prop)
        (PX : Element → Prop) (cls : list string)
        (n : MdastNode) (s e : Z) (flag : bool).

(** The node [n], at [[s, e)], below a parent that is flow content or not,
    as [flag] says, leaves the line. *)
Hypothesis range : 0 ≤ s < e.
Hypothesis base :
  ∀ i st pn,
    last (map node (stack st)) = Some pn → isFlowContent pn = flag →
    0 ≤ scanOffset st ≤ s →
    ∃ st', visit sourceCode n i st = Some st'
           ∧ map node (stack st') = map node (stack st)
           ∧ settled Prev PX cls st'.

Lemma around_settled child pre post to st :
  forallb (allNodes (endsBy s)) pre = true →
  stack st ≠ [] → 0 ≤ scanOffset st ≤ s →
  (∀ i st1,
      map node (stack st1) = map node (stack st) → 0 ≤ scanOffset st1 ≤ s →
      ∃ st2, visit sourceCode child i st1 = Some st2
             ∧ map node (stack st2) = map node (stack st1)
             ∧ settled Prev PX cls st2) →
  ∃ st', getChildren sourceCode (pre ++ child :: post) to st = Some st'
         ∧ map node (stack st') = map node (stack st)
         ∧ settled Prev PX cls st'.
Proof.
  intros Hpre Hne Ha Hchild. unfold getChildren. rewrite forNodes_app.
  destruct (forNodes_bounded sourceCode s pre O st Hpre Hne Ha)
    as (st1 & -> & Hn1 & Ha1).
  cbn [mbind option_bind forNodes].
  destruct (Hchild (length pre + 0)%nat st1 Hn1 Ha1)
    as (st2 & -> & Hn2 & Hp2).
  cbn [mbind option_bind].
  assert (Hne2 : stack st2 ≠ []).
  { eapply nodes_nonempty; [|exact Hne]. congruence. }
  destruct (settled_forNodes PX cls Prev sourceCode post
              (S (length pre + 0)) st2 Hne2 Hp2)
    as (st3 & -> & Hn3 & Hp3 & _).
  cbn [mbind option_bind].
  assert (Hne3 : stack st3 ≠ []) by (eapply nodes_nonempty; eauto).
  destruct (addText_inner (slice sourceCode (scanOffset st3) to) true st3
              Hne3) as (x & E & Hx).
  eexists. split; [exact E|]. split.
  - cbn [stack setScanOffset]. rewrite (steady_nodes _ _ Hx). congruence.
  - by eapply settled_addText.
Qed.

Lemma plug_settled :
  ∀ layers i st pn,
    inOrder s e layers = true →
    last (map node (stack st)) = Some pn →
    underFlow layers (isFlowContent pn) = flag →
    0 ≤ scanOffset st ≤ s →
    ∃ st', visit sourceCode (plug layers n) i st = Some st'
           ∧ map node (stack st') = map node (stack st)
           ∧ settled Prev PX cls st'.
Proof.
  induction layers as [|a inner IH]; intros i st pn Hord Hlast Hflow Ha.
  { by eapply base. }
  cbn [inOrder] in Hord.
  apply andb_prop in Hord as [Hord Hinner].
  apply andb_prop in Hord as [Hord Hpre].
  apply andb_prop in Hord as [Hsa Hea].
  apply Z.leb_le in Hsa, Hea.
  rewrite underFlow_cons in Hflow.
  assert (Hne : stack st ≠ []).
  { intros H. by rewrite H in Hlast. }
  set (N := plug (a :: inner) n).
  rewrite (visit_clamped sourceCode N i st (parentStart a) (parentEnd a))
    by (reflexivity || lia).
  unfold process.
  destruct (addText_inner
              (slice sourceCode (scanOffset st)
                 (Z.max (parentStart a) (scanOffset st))) true st Hne)
    as (x & Eg & Hx).
  pose proof (addText_bounded sourceCode s st
                (Z.max (parentStart a) (scanOffset st)) true _ Hne Ha
                ltac:(lia) Eg) as Ha1.
  rewrite Eg. cbn [mbind option_bind].
  set (st1 := setScanOffset _ x) in *.
  assert (Hn1 : map node (stack st1) = map node (stack st)).
  { apply (steady_nodes _ _ Hx). }
  assert (Hne1 : stack st1 ≠ []) by (eapply nodes_nonempty; eauto).
  set (st2 := openNode N st1).
  assert (Hn2 : map node (stack st2) = map node (stack st1) ++ [N]).
  { subst st2. unfold openNode. cbn [stack setStack]. by rewrite map_app. }
  assert (Hne2 : stack st2 ≠ []).
  { intros H. rewrite H in Hn2. by destruct (map node (stack st1)). }
  change (children N)
    with (Some (before a ++ plug inner n :: after a)).
  destruct (around_settled (plug inner n) (before a) (after a)
              (parentEnd a) st2 Hpre Hne2 Ha1)
    as (st3 & -> & Hn3 & Hp3).
  { intros j y Hny Hay. apply (IH j y N); [done| |done|done].
    change (map node (stack y)) with (node <$> stack y).
    change (map node (stack y)) with (node <$> stack y) in Hny.
    rewrite Hny. change (node <$> stack st2) with (map node (stack st2)).
    rewrite Hn2. apply last_snoc. }
  cbn [mbind option_bind].
  assert (Hn3' : map node (stack st3) = map node (stack st1) ++ [N])
    by congruence.
  destruct (closeNode_nested_total N i st1 st3 Hne1 Hn3') as (st4 & E4 & Hn4).
  exists st4. split; [done|]. split; [congruence|].
  exact (settled_closeNode PX cls Prev N i st1 st3 st4 Hne1 Hp3 Hn3' E4).
Qed.

(** The block of the top-level parent of [n] has the line. *)
Lemma settled_in_output pre post a inner :
  underFlow (a :: inner) true = flag →
  inOrder s e (a :: inner) = true →
  forallb (allNodes (endsBy (s - 1))) pre = true →
  ∃ root b,
    editorRender sourceCode (pre ++ plug (a :: inner) n :: post) = Some root
    ∧ ElementNode b ∈ childNodes root
    ∧ attributes b = [("index", numberToString (length pre))]
    ∧ lineAfter Prev PX cls (childNodes b).
Proof.
  intros Hflow Hord Hpre.
  set (N := plug (a :: inner) n).
  pose proof Hord as Hord'. cbn [inOrder] in Hord'.
  apply andb_prop in Hord' as [Hord' Hinner].
  apply andb_prop in Hord' as [Hord' Hbefore].
  apply andb_prop in Hord' as [Hsa Hea].
  apply Z.leb_le in Hsa, Hea.
  destruct (forNodes_before sourceCode pre s ltac:(lia) Hpre)
    as (st0 & E0 & Hst0 & Hb0 & Ha0).
  assert (E1 : ∃ st1 b,
             visit sourceCode N (length pre) st0 = Some st1
             ∧ stack st1 = []
             ∧ ElementNode b ∈ childNodes (el st1)
             ∧ attributes b = [("index", numberToString (length pre))]
             ∧ lineAfter Prev PX cls (childNodes b)).
  { rewrite (visit_clamped sourceCode N (length pre) st0 (parentStart a)
               (parentEnd a)) by (reflexivity || lia).
    set (s' := Z.max (parentStart a) (scanOffset st0)).
    destruct (process_top_inv sourceCode N (length pre) s' (parentEnd a)
                st0 Hst0) as (st2 & fr & E2 & Hs2 & Hfr & ->).
    destruct (blockLines_before sourceCode st0 s' ltac:(lia))
      as (Ha1 & Hb1 & _).
    set (x := blockLines _ st0) in *.
    assert (Hsx : stack (openNode N x) = [newFrame N "div"]).
    { unfold openNode. cbn [stack setStack]. subst x.
      by rewrite blockLines_stack, Hst0. }
    destruct (around_settled (plug inner n) (before a) (after a)
                (parentEnd a) (openNode N x))
      as (st2' & E2' & _ & Hp2); [done|by rewrite Hsx| | |].
    { cbn [scanOffset openNode setStack]. lia. }
    { intros j y Hny Hay. apply (plug_settled inner j y N); [done| | |done].
      - rewrite Hny, Hsx. reflexivity.
      - by rewrite underFlow_cons in Hflow. }
    destruct (blockContent_enduring sourceCode N (parentEnd a) (openNode N x))
      as (st2'' & E2'' & _ & (_ & _ & _ & Hba)).
    { by rewrite Hsx. }
    rewrite E2 in E2''. injection E2'' as <-.
    cbn [openNode block setStack] in Hba. rewrite (Hb1 Hb0) in Hba.
    unfold blockContent in E2.
    change (children N)
      with (Some (before a ++ plug inner n :: after a)) in E2.
    rewrite E2 in E2'. injection E2' as <-.
    destruct (closedBlock_settled Prev PX cls (length pre) fr st2 Hs2 Hba Hp2)
      as (b & Hlast & Hattr & Hb).
    eexists _, b. split; [done|]. split; [done|]. split; [|done].
    apply last_Some in Hlast as (k & ->). apply elem_of_app. right.
    by apply list_elem_of_singleton. }
  destruct E1 as (st1 & b & E1 & Hst1 & Hin & Hattr & Hb).
  assert (Hdrop : drop (S (length pre)) (pre ++ N :: post) = post).
  { rewrite (cons_middle N pre post), app_assoc. apply drop_app_length'.
    rewrite length_app. simpl. lia. }
  destruct (forNodes_keeps sourceCode (pre ++ N :: post) post
              (S (length pre)) st1 _ Hdrop Hst1 Hin)
    as (st2 & E2 & Hst2 & Hin2).
  destruct (editorRender_keeps sourceCode (pre ++ N :: post) st2
              (ElementNode b))
    as (root & E & Hr); [|done|done|].
  { rewrite forNodes_app, E0. cbn [mbind option_bind forNodes].
    rewrite Nat.add_0_r, E1. exact E2. }
  exists root, b. done.
Qed.

End Lifting.

(** ** The two spans of an opaque node below the top level *)

(** [pushElement] at [S p]: the element of the frame, with the classes of
    its node unless they go to the line, is the last child of the element
    of the frame below, and the frame has a new element. *)
Lemma pushElement_S_child p l st st' fr pf :
  stack st !! S p = Some fr → stack st !! p = Some pf →
  pushElement (S p) l st = Some st' →
  located (eq (if isFlowContent (node pf) then frame_el fr
               else addStyle (node fr) (first fr) l (frame_el fr))) p st'
  ∧ stack st' !! S p = Some (renewed (S p) fr)
  ∧ block st' = block st.
Proof.
  intros Hfr Hpf E.
  pose proof (pushElement_S p l st fr pf Hfr Hpf) as E'. cbv zeta in E'.
  rewrite E' in E. injection E as <-. clear E'.
  set (style := mapEl (addStyle (node fr) (first fr) l)).
  set (s1 := alter style (targetOf p pf) (stack st)).
  assert (Hlen : (p < length s1)%nat).
  { subst s1. rewrite length_alter. by eapply lookup_lt_Some. }
  destruct (lookup_lt_is_Some_2 s1 p Hlen) as [pf' Hpf'].
  split; [|split; [|done]].
  - eexists _, _. split; [|split; [reflexivity|]].
    + cbn [stack setStack]. rewrite list_lookup_alter_ne by lia.
      by rewrite list_lookup_alter_eq, Hpf'.
    + cbn [mapEl frame_el]. apply inside_appended. left.
      by destruct (isFlowContent (node pf)).
  - cbn [stack setStack]. rewrite list_lookup_alter_eq.
    rewrite list_lookup_alter_ne by lia. subst s1. unfold targetOf.
    destruct (isFlowContent (node pf)).
    + by rewrite list_lookup_alter_ne, Hfr by lia.
    + by rewrite list_lookup_alter_eq, Hfr.
Qed.

Lemma pushElement_S_above p l j st st' :
  pushElement (S p) l st = Some st' → (S p < j)%nat →
  stack st' !! j = stack st !! j.
Proof.
  intros E Hj.
  destruct (pushElement_inv_S _ _ _ _ E) as (fr & pf & Hfr & Hpf).
  pose proof (pushElement_S p l st fr pf Hfr Hpf) as E'. cbv zeta in E'.
  rewrite E' in E. injection E as <-. cbn [stack setStack].
  rewrite !list_lookup_alter_ne; [done| | |lia].
  - unfold targetOf. destruct (isFlowContent _); lia.
  - lia.
Qed.

Lemma pushElements_above k :
  ∀ j st st',
    pushElements k st = Some st' → (k < j)%nat →
    stack st' !! j = stack st !! j.
Proof.
  induction k as [|k IH]; intros j st st' E Hj; simpl in E.
  { by injection E as <-. }
  destruct (pushElement (S k) false st) as [st1|] eqn:E1; [|done].
  simpl in E. rewrite (IH j st1 st' E) by lia.
  by eapply pushElement_S_above.
Qed.

(** The end of a line: the open elements are pushed down and the line goes
    to [block]. *)
Lemma closeLine_line PX cls k j l s1 s2 s3 s4 :
  pushElements k s1 = Some s2 →
  updateEl 0 (append (TextNode [ZWSP])) s2 = Some s3 →
  pushElement 0 l s3 = Some s4 →
  located PX j s1 → (j ≤ k)%nat → lineCarries cls s1 →
  (∃ line, childNodes (block s4)
           = childNodes (block s1) ++ [ElementNode line]
           ∧ holds PX cls line)
  ∧ ∀ i, (k < i)%nat → stack s4 !! i = stack s1 !! i.
Proof.
  intros E1 E2 E3 Hloc Hj Hc.
  pose proof (pushElements_located PX _ _ _ _ E1 Hloc Hj) as Hloc1.
  pose proof (pushElements_grows _ _ _ E1) as Hg1.
  assert (Hg2 : grows s2 s3).
  { eapply updateEl_grows; [|exact E2]. intros e. apply append_grows. }
  destruct (pushElement_O_line PX cls l s3 s4 E3) as (L & Hb & HL).
  { eapply located_updateEl; [apply extending_append|exact E2|done]. }
  { eauto using lineCarries_grows. }
  split.
  - exists L. split; [|done]. by rewrite Hb, (proj1 Hg2), (proj1 Hg1).
  - intros i Hi. rewrite <- (pushElements_above _ _ _ _ E1 Hi).
    apply updateFrame_inv in E2 as [_ ->].
    destruct (stack s2) as [|f0 rest] eqn:Hs2.
    { by destruct l. }
    erewrite pushElement_O in E3 by (cbn [stack setStack]; reflexivity).
    injection E3 as <-. cbn [stack setStack]. by destruct i; [lia|].
Qed.

Lemma withLine_span t :
  withLine t false (createElement "span") = nodeSpan [] t.
Proof. by destruct t. Qed.

Lemma lineCarries_nil st : stack st ≠ [] → lineCarries [] st.
Proof.
  destruct (stack st) as [|f0 rest] eqn:Hs; [done|]. intros _.
  exists f0. rewrite Hs. split; [done|]. intros c Hc.
  by apply elem_of_nil in Hc.
Qed.

Lemma lineOpen_carries c m st : lineOpen c m st → lineCarries [c; m] st.
Proof.
  intros (f0 & H0 & Hc & Hm). exists f0. split; [done|].
  intros c' [->|H]%elem_of_cons; [done|].
  by apply list_elem_of_singleton in H as ->.
Qed.

(** The classes of an opaque node below a frame go to the line or to the
    span, and the span goes into the element of that frame. *)
Lemma pushElement_S_opaque p l st st' fr pf m t :
  stack st !! S p = Some fr → stack st !! p = Some pf →
  isOpaque (node fr) = true → frame_el fr = nodeSpan [] t →
  (first fr = true ∧ l = false ∧ m = firstClass
   ∨ first fr = false ∧ l = true ∧ m = lastClass) →
  pushElement (S p) l st = Some st' →
  let flow := isFlowContent (node pf) in
  let c := classNamePrefix +:+ typeName (type (node fr)) in
  located (eq (nodeSpan (spanClasses flow c m) t)) p st'
  ∧ lineCarries (lineClasses flow c m) st'
  ∧ stack st' !! S p = Some (renewed (S p) fr)
  ∧ block st' = block st.
Proof.
  intros Hfr Hpf Hop Hel Hm E flow c.
  destruct (pushElement_S_child _ _ _ _ _ _ Hfr Hpf E) as (Hloc & Hnew & Hb).
  split; [|split; [|done]].
  - replace (nodeSpan (spanClasses flow c m) t)
      with (if isFlowContent (node pf) then frame_el fr
            else addStyle (node fr) (first fr) l (frame_el fr)); [done|].
    subst flow. unfold spanClasses. destruct (isFlowContent (node pf));
      [done|].
    destruct Hm as [(-> & -> & ->)|(-> & -> & ->)]; rewrite Hel.
    + by rewrite addStyle_first.
    + by rewrite addStyle_last.
  - subst flow. unfold lineClasses.
    destruct (isFlowContent (node pf)) eqn:Hflow.
    + destruct (pushElement_S_flow _ _ _ _ _ _ Hfr Hpf Hflow Hop E)
        as [H1 H2].
      destruct Hm as [(Hf & -> & ->)|(Hf & -> & ->)];
        apply lineOpen_carries; auto.
    + apply lineCarries_nil. intros Hs. by rewrite Hs in Hnew.
Qed.

Lemma pushElements_length j :
  ∀ st st', pushElements j st = Some st' →
            length (stack st') = length (stack st).
Proof.
  induction j as [|j IH]; intros st st' E; simpl in E.
  { by injection E as <-. }
  destruct (pushElement (S j) false st) as [st1|] eqn:E1; [|done].
  simpl in E. rewrite (IH _ _ E).
  apply (steady_length _ _ (pushElement_steady _ _ _ _ E1)).
Qed.

Lemma list_snoc_lookup {A} (l : list A) k x :
  l !! k = Some x → length l = S k → l = take k l ++ [x].
Proof.
  intros Hx Hlen. rewrite <- (take_S_r l k x Hx).
  symmetry. apply take_ge. lia.
Qed.

(** An opaque node without children over two lines, below any parent: the
    span of its first line is inside the line that is appended to [block]
    when the node breaks, the span of its second line is inside the element
    of its parent, and the classes are on the spans or on the lines. *)
Lemma visit_opaque_any sourceCode n i s e u0 u1 st pn :
  isOpaque n = true → children n = None →
  startOffsetOf n = Some s → endOffsetOf n = Some e → s < e →
  split LF (slice sourceCode s e) = [u0; u1] →
  last (map node (stack st)) = Some pn →
  0 ≤ scanOffset st ≤ s →
  let flow := isFlowContent pn in
  let c := classNamePrefix +:+ typeName (type n) in
  ∃ st', visit sourceCode n i st = Some st'
         ∧ map node (stack st') = map node (stack st)
         ∧ settled
             (endsWithLine (eq (nodeSpan (spanClasses flow c firstClass) u0))
                           (lineClasses flow c firstClass))
             (eq (nodeSpan (spanClasses flow c lastClass) u1))
             (lineClasses flow c lastClass) st'.
Proof.
  intros Hop Hkids Hs He Hse Hsplit Hlast Ha flow c.
  assert (Hne : stack st ≠ []).
  { intros H. by rewrite H in Hlast. }
  assert (Hin : s < jslength sourceCode).
  { destruct (Z.lt_ge_cases s (jslength sourceCode)) as [|Hge]; [done|].
    by rewrite (slice_beyond _ _ _ Hge) in Hsplit. }
  rewrite (visit_clamped _ _ _ _ _ _ Hs He) by lia.
  replace (Z.max s (scanOffset st)) with s by lia.
  unfold process. rewrite Hkids.
  destruct (addText_inner (slice sourceCode (scanOffset st) s) true st Hne)
    as (x & -> & Hx).
  cbn [mbind option_bind].
  set (st1 := setScanOffset _ x).
  assert (Hoff1 : scanOffset st1 = s).
  { subst st1. cbn [scanOffset setScanOffset].
    rewrite (steady_offset _ _ Hx). apply slice_reaches; lia. }
  assert (Hn1 : map node (stack st1) = map node (stack st)).
  { apply (steady_nodes _ _ Hx). }
  assert (Hne1 : stack st1 ≠ []) by (eapply nodes_nonempty; eauto).
  rewrite <- Hn1 in Hlast.
  destruct (last_map_node _ _ Hlast) as (sx & pf & Hsx & Hpf).
  set (st2 := openNode n st1).
  assert (Hs2 : stack st2 = sx ++ [pf; newFrame n "span"]).
  { subst st2. unfold openNode. cbn [stack setStack]. rewrite Hsx.
    rewrite <- app_assoc. destruct sx; reflexivity. }
  assert (Hn2 : map node (stack st2) = map node (stack st1) ++ [n]).
  { subst st2. unfold openNode. cbn [stack setStack].
    by rewrite map_app. }
  assert (Hne2 : stack st2 ≠ []).
  { rewrite Hs2. by destruct sx. }
  replace (scanOffset st2) with s by done.
  rewrite (addText_two _ u0 u1 false st2 Hne2 Hsplit).
  rewrite (appendLine_last u0 false st2 (sx ++ [pf]) (newFrame n "span"))
    by (by rewrite Hs2, <- app_assoc).
  cbn [mbind option_bind].
  set (fr := mapEl (withLine u0 false) (newFrame n "span")).
  set (a := setStack _ st2).
  assert (Hsa : stack a = sx ++ [pf; fr]).
  { subst a. cbn [stack setStack]. by rewrite <- app_assoc. }
  assert (Hna : map node (stack a) = map node (stack st2)).
  { rewrite Hsa, Hs2, !map_app. reflexivity. }
  assert (Hnea : stack a ≠ []) by (rewrite Hsa; by destruct sx).
  assert (Hlena : length (stack a) = S (S (length sx))).
  { rewrite Hsa, length_app. simpl. lia. }
  assert (Hfr : stack a !! S (length sx) = Some fr).
  { rewrite Hsa. by rewrite lookup_app_r, Nat.sub_succ_l, Nat.sub_diag by lia. }
  assert (Hpfa : stack a !! length sx = Some pf).
  { rewrite Hsa. by rewrite lookup_app_r, Nat.sub_diag by lia. }
  destruct (breakLine_steady u1 false a Hnea) as (b & Eb & Hb).
  rewrite Eb. cbn [mbind option_bind].
  (* the line break *)
  pose proof Eb as Eb'. unfold breakLine in Eb'.
  rewrite Hlena in Eb'. cbn [Nat.sub pushElements] in Eb'.
  destruct (pushElement (S (length sx)) false a) as [s1|] eqn:E1; [|done].
  cbn [mbind option_bind] in Eb'.
  destruct (pushElements (length sx) s1) as [s2|] eqn:E2; [|done].
  cbn [mbind option_bind] in Eb'.
  destruct (updateEl 0 _ s2) as [s3|] eqn:E3; [|done].
  cbn [mbind option_bind] in Eb'.
  destruct (pushElement 0 false s3) as [s4|] eqn:E4; [|done].
  cbn [mbind option_bind] in Eb'.
  destruct (pushElement_S_opaque (length sx) false a s1 fr pf firstClass u0
              Hfr Hpfa Hop (withLine_span u0) ltac:(by left) E1)
    as (Hloc1 & Hc1 & Hnew1 & Hb1).
  cbn [node fr mapEl newFrame] in Hloc1, Hc1. rewrite Hpf in Hloc1, Hc1.
  fold flow c in Hloc1, Hc1.
  destruct (closeLine_line _ _ (length sx) (length sx) false s1 s2 s3 s4
              E2 E3 E4 Hloc1 ltac:(lia) Hc1) as [(L1 & Hb4 & HL1) Habove].
  rewrite Hb1 in Hb4.
  assert (Hlen4 : length (stack s4) = S (S (length sx))).
  { rewrite (steady_length _ _ (pushElement_steady _ _ _ _ E4)).
    rewrite (steady_length _ _ (updateEl_steady _ _ _ _ E3)).
    rewrite (pushElements_length _ _ _ E2).
    by rewrite (steady_length _ _ (pushElement_steady _ _ _ _ E1)). }
  pose proof (Habove (S (length sx)) ltac:(lia)) as Htop4.
  rewrite Hnew1 in Htop4.
  pose proof (list_snoc_lookup _ _ _ Htop4 Hlen4) as Hs4.
  rewrite (appendLine_last u1 false s4 _ _ Hs4) in Eb'.
  injection Eb' as Hbdef.
  set (fr3 := mapEl (withLine u1 false) (renewed (S (length sx)) fr)) in *.
  set (st3 := setScanOffset _ b).
  assert (Hn3 : map node (stack st3) = map node (stack st1) ++ [n]).
  { subst st3. cbn [stack setScanOffset].
    by rewrite (steady_nodes _ _ Hb), Hna. }
  destruct (closeNode_nested_total n i st1 st3 Hne1 Hn3) as (st4 & E4' & Hn4).
  rewrite E4'. exists st4. split; [done|]. split; [congruence|].
  destruct (closeNode_nested_inv _ _ _ _ _ Hne1 Hn3 E4') as (y & Ey & ->).
  assert (Hlen3 : length (stack st3) = S (S (length sx))).
  { rewrite <- (length_map node (stack st3)), Hn3, length_app, length_map, Hsx,
      length_app. simpl. lia. }
  rewrite Hlen3 in Ey. cbn [Nat.sub] in Ey.
  assert (Hfr3 : stack st3 !! S (length sx) = Some fr3).
  { subst st3. cbn [stack setScanOffset]. rewrite <- Hbdef.
    cbn [stack setStack]. rewrite lookup_app_r; rewrite length_take; [|lia].
    by replace (S (length sx) - S (length sx) `min` length (stack s4))%nat
      with O by lia. }
  destruct (lookup_lt_is_Some_2 (stack st3) (length sx) ltac:(lia))
    as [pf3 Hpf3].
  assert (Hnpf3 : node pf3 = pn).
  { assert (H : map node (stack st3) !! length sx = Some pn).
    { rewrite Hn3, Hsx, map_app. cbn [map]. rewrite <- app_assoc.
      rewrite <- Hpf.
      change (map node sx) with (node <$> sx).
      rewrite lookup_app_r; rewrite length_fmap; [|lia].
      by rewrite Nat.sub_diag. }
    change (map node (stack st3)) with (node <$> stack st3) in H.
    rewrite list_lookup_fmap, Hpf3 in H. by injection H. }
  destruct (pushElement_S_opaque (length sx) true st3 y fr3 pf3 lastClass u1
              Hfr3 Hpf3 Hop (withLine_span u1) ltac:(by right) Ey)
    as (Hloc3 & Hc3 & Hnew3 & Hb3).
  cbn [node fr3 fr mapEl newFrame renewed] in Hloc3, Hc3.
  rewrite Hnpf3 in Hloc3, Hc3. fold flow c in Hloc3, Hc3.
  assert (Hleny : length (stack y) = S (S (length sx))).
  { by rewrite (steady_length _ _ (pushElement_steady _ _ _ _ Ey)). }
  right. split.
  - exists (childNodes (block a)), L1. split; [|done].
    cbn [block setStack]. rewrite Hb3. subst st3. cbn [block setScanOffset].
    rewrite <- Hbdef. cbn [block setStack]. exact Hb4.
  - split.
    + exists (length sx). destruct Hloc3 as (f & z & Hf & HP & Hinz).
      exists f, z. split; [|done]. cbn [stack setStack].
      destruct (stack y) as [|w sy] eqn:Hsy using rev_ind; [done|].
      rewrite removelast_last. rewrite length_app in Hleny. simpl in Hleny.
      by rewrite lookup_app_l in Hf by lia.
    + eapply lineCarries_grows; [|exact Hc3]. split; [done|].
      cbn [stack setStack]. apply removelast_grows. lia.
Qed.

(** The two lines of an opaque node below the top level, in the block of
    its top-level parent. *)
Lemma opaque_spans_in_output sourceCode pre post layers n s e u0 u1 :
  isOpaque n = true → children n = None →
  startOffsetOf n = Some s → endOffsetOf n = Some e → 0 ≤ s < e →
  split LF (slice sourceCode s e) = [u0; u1] →
  layers ≠ [] → inOrder s e layers = true →
  forallb (allNodes (endsBy (s - 1))) pre = true →
  let flow := underFlow layers true in
  let c := classNamePrefix +:+ typeName (type n) in
  ∃ root b k0 line0 line1 k1,
    editorRender sourceCode (pre ++ plug layers n :: post) = Some root
    ∧ ElementNode b ∈ childNodes root
    ∧ attributes b = [("index", numberToString (length pre))]
    ∧ childNodes b = k0 ++ ElementNode line0 :: ElementNode line1 :: k1
    ∧ inside (nodeSpan (spanClasses flow c firstClass) u0) line0
    ∧ lineClasses flow c firstClass ⊆ classList line0
    ∧ inside (nodeSpan (spanClasses flow c lastClass) u1) line1
    ∧ lineClasses flow c lastClass ⊆ classList line1.
Proof.
  intros Hop Hkids Hs He Hrange Hsplit Hne Hord Hpre flow c.
  destruct layers as [|a inner]; [done|].
  destruct (settled_in_output sourceCode
              (endsWithLine (eq (nodeSpan (spanClasses flow c firstClass) u0))
                            (lineClasses flow c firstClass))
              (eq (nodeSpan (spanClasses flow c lastClass) u1))
              (lineClasses flow c lastClass) n s e flow Hrange)
    with (pre := pre) (post := post) (a := a) (inner := inner)
    as (root & b & E & Hin & Hattr & k0' & L2 & k1 & Hk & Hprev & HL2);
    [|done|done|done|].
  { intros i st pn Hlast Hflow Ha.
    destruct (visit_opaque_any sourceCode n i s e u0 u1 st pn)
      as (st' & E & Hn & Hset); try done; [lia|].
    rewrite Hflow in Hset. eauto. }
  destruct Hprev as (k0 & L1 & -> & HL1).
  destruct HL1 as [(x1 & <- & Hin1) Hc1].
  destruct HL2 as [(x2 & <- & Hin2) Hc2].
  exists root, b, k0, L1, L2, k1. split; [done|]. split; [done|].
  split; [done|]. split; [by rewrite Hk, <- app_assoc|]. done.
Qed.



(** ** A paragraph in a flow-content node *)

Lemma plainSpan_append k e : plainSpan e → plainSpan (append k e).
Proof. destruct e. by intros []. Qed.

Lemma spansFrom_alter_keep k i g st st' :
  (∀ f, plainSpan (frame_el f) → plainSpan (frame_el (g f))) →
  stack st' = alter g i (stack st) →
  spansFrom k st → spansFrom k st'.
Proof.
  intros Hg Hs HI j f Hj Hf. rewrite Hs in Hf.
  destruct (decide (i = j)) as [->|Hne].
  - rewrite list_lookup_alter_eq in Hf.
    destruct (stack st !! j) as [f'|] eqn:Hf'; [|done].
    injection Hf as <-. apply Hg. by eapply HI.
  - rewrite list_lookup_alter_ne in Hf by done. by eapply HI.
Qed.

Lemma spansFrom_alter_below k i g st st' :
  (i < k)%nat → stack st' = alter g i (stack st) →
  spansFrom k st → spansFrom k st'.
Proof.
  intros Hi Hs HI j f Hj Hf. rewrite Hs in Hf.
  rewrite list_lookup_alter_ne in Hf by lia. by eapply HI.
Qed.

Lemma spansFrom_updateEl k i g st st' :
  (∀ e, plainSpan e → plainSpan (g e)) →
  updateEl i g st = Some st' → spansFrom k st → spansFrom k st'.
Proof.
  intros Hg [_ ->]%updateFrame_inv.
  apply (spansFrom_alter_keep k i (mapEl g)); [|done].
  intros f. apply Hg.
Qed.

(** [pushElement] leaves the open [span]s without class: the classes go
    to the line, or to a [span] that is appended at once. *)
Lemma spansFrom_pushElement k index l st st' :
  (1 ≤ k)%nat → pushElement index l st = Some st' →
  spansFrom k st → spansFrom k st'.
Proof.
  intros Hk E HI. destruct index as [|p].
  - destruct (stack st) as [|fr rest] eqn:Hs.
    { unfold pushElement in E. by rewrite Hs in E. }
    rewrite (pushElement_O _ _ _ _ Hs) in E. injection E as <-.
    intros j f Hj Hf. cbn [stack setStack] in Hf.
    destruct j as [|j]; [lia|]. apply (HI (S j)); [done|].
    by rewrite Hs.
  - destruct (pushElement_inv_S _ _ _ _ E) as (fr & pf & Hfr & Hpf).
    pose proof (pushElement_S p l st fr pf Hfr Hpf) as E'. cbv zeta in E'.
    rewrite E' in E. injection E as <-. clear E'.
    intros j f Hj Hf. cbn [stack setStack] in Hf.
    destruct (decide (j = S p)) as [->|Hne].
    + rewrite list_lookup_alter_eq in Hf.
      destruct (alter _ p _ !! S p) as [f'|]; [|done]. by injection Hf as <-.
    + rewrite list_lookup_alter_ne in Hf by done.
      assert (Hf' : ∃ f',
                 alter (mapEl (addStyle (node fr) (first fr) l))
                   (targetOf p pf) (stack st) !! j = Some f'
                 ∧ (plainSpan (frame_el f') → plainSpan (frame_el f))).
      { destruct (decide (p = j)) as [->|Hne'].
        - rewrite list_lookup_alter_eq in Hf.
          destruct (alter _ (targetOf j pf) _ !! j) as [f'|]; [|done].
          injection Hf as <-.
          exists f'. split; [done|]. apply plainSpan_append.
        - rewrite list_lookup_alter_ne in Hf by done. eauto. }
      destruct Hf' as (f' & Hf' & Himp). apply Himp.
      rewrite list_lookup_alter_ne in Hf'.
      { by eapply HI. }
      unfold targetOf. destruct (isFlowContent _); lia.
Qed.

Lemma spansFrom_pushElements k j st st' :
  (1 ≤ k)%nat → pushElements j st = Some st' →
  spansFrom k st → spansFrom k st'.
Proof.
  intros Hk. revert st. induction j as [|j IH]; intros st E HI; simpl in E.
  { by injection E as <-. }
  destruct (pushElement (S j) false st) as [st1|] eqn:E1; [|done].
  eauto using spansFrom_pushElement.
Qed.

Lemma spansFrom_appendLine k line d st st' :
  appendLine line d st = Some st' → spansFrom k st → spansFrom k st'.
Proof.
  destruct line as [|c line]; simpl; [by intros [= <-]|].
  apply spansFrom_updateEl. intros e. apply plainSpan_append.
Qed.

Lemma spansFrom_breakLine k line d st st' :
  (1 ≤ k)%nat → breakLine line d st = Some st' →
  spansFrom k st → spansFrom k st'.
Proof.
  unfold breakLine. intros Hk E HI.
  destruct (pushElements _ st) as [s1|] eqn:E1; [|done]. simpl in E.
  destruct (updateEl 0 _ s1) as [s2|] eqn:E2; [|done]. simpl in E.
  destruct (pushElement 0 false s2) as [s3|] eqn:E3; [|done]. simpl in E.
  eapply spansFrom_appendLine; [exact E|].
  eapply spansFrom_pushElement; [done|exact E3|].
  eapply spansFrom_updateEl; [|exact E2|by eapply spansFrom_pushElements].
  intros e. apply plainSpan_append.
Qed.

Lemma spansFrom_breakLines k lines d st st' :
  (1 ≤ k)%nat → breakLines lines d st = Some st' →
  spansFrom k st → spansFrom k st'.
Proof.
  intros Hk. revert st.
  induction lines as [|line rest IH]; intros st E HI; simpl in E.
  { by injection E as <-. }
  destruct (breakLine line d st) as [s1|] eqn:E1; [|done].
  eauto using spansFrom_breakLine.
Qed.

Lemma spansFrom_addText k t d st st' :
  (1 ≤ k)%nat → stack st ≠ [] → addText t d st = Some st' →
  spansFrom k st → spansFrom k st'.
Proof.
  intros Hk Hne E HI. unfold addText in E.
  destruct (stack st) as [|fr rest] eqn:Hs; [done|].
  destruct (match split LF t with
            | [] => Some st
            | line :: _ => appendLine line d st
            end) as [s1|] eqn:E1; [|done].
  simpl in E.
  destruct (breakLines _ d s1) as [s2|] eqn:E2; [|done].
  injection E as <-. change (spansFrom k s2).
  eapply spansFrom_breakLines; [done|exact E2|].
  destruct (split LF t); [by injection E1 as <-|].
  by eapply spansFrom_appendLine.
Qed.

Lemma spansFrom_openNode k n st :
  stack st ≠ [] → spansFrom k st → spansFrom k (openNode n st).
Proof.
  intros Hne HI j f Hj Hf. cbn [openNode stack setStack] in Hf.
  apply lookup_app_Some in Hf as [Hf|[_ Hf]]; [by eapply HI|].
  apply list_lookup_singleton_Some in Hf as [_ <-].
  by destruct (stack st).
Qed.

Lemma spansFrom_closeNode k n i st st1 st2 :
  (1 ≤ k)%nat → stack st ≠ [] → spansFrom k st1 →
  map node (stack st1) = map node (stack st) ++ [n] →
  closeNode i st1 = Some st2 →
  spansFrom k st2.
Proof.
  intros Hk Hne HI Hnodes E.
  destruct (closeNode_nested_inv _ _ _ _ _ Hne Hnodes E) as (y & Ey & ->).
  pose proof (spansFrom_pushElement k _ _ _ _ Hk Ey HI) as HIy.
  intros j f Hj Hf. cbn [stack setStack] in Hf.
  apply (HIy j f Hj).
  destruct (stack y) as [|w sy] using rev_ind; [done|].
  rewrite removelast_last in Hf. by apply lookup_app_l_Some.
Qed.

(** The walk inside a node keeps the open [span]s without class, and
    [scanOffset] does not go back. *)
Lemma spansFrom_blockContent sourceCode k n e st :
  (1 ≤ k)%nat → stack st ≠ [] → spansFrom k st →
  ∃ st', blockContent sourceCode n e st = Some st'
         ∧ map node (stack st') = map node (stack st)
         ∧ spansFrom k st'
         ∧ scanOffset st ≤ scanOffset st'.
Proof.
  intros Hk Hne HI.
  assert (Hstep : ∀ a to d b,
             stack a ≠ [] →
             addText (slice sourceCode (scanOffset a) to) d a = Some b →
             scanOffset a ≤ scanOffset b).
  { intros a to d b Hna E.
    destruct (addText_inner (slice sourceCode (scanOffset a) to) d a Hna)
      as (x & Ex & Hx).
    rewrite Ex in E. injection E as <-. simpl.
    rewrite (steady_offset _ _ Hx).
    pose proof (jslength_nonneg (slice sourceCode (scanOffset a) to)). lia. }
  destruct (walks_blockContent sourceCode (λ _, true) (λ _, True)
              (spansFrom k) (λ a b, scanOffset a ≤ scanOffset b))
    with (n := n) (e := e) (st := st) as (st' & E & Hn & HI' & HR);
    [intros; lia|intros; lia|done| | | | |apply allNodes_true|done|done|done
    |eauto].
  - intros a to e' d b Hna Ha _ _ _ E. split; [|by eapply Hstep].
    by eapply spansFrom_addText.
  - intros a to d b Hna Ha _ E. split; [|by eapply Hstep].
    by eapply spansFrom_addText.
  - intros m a _ Ha.
    destruct (decide (stack a = [])) as [Hs|Hs];
      [|by apply spansFrom_openNode].
    intros j f Hj Hf. cbn [openNode stack setStack] in Hf.
    rewrite Hs in Hf. destruct j; [lia|done].
  - intros m j a b c _ Hna _ Hb HR Hnodes E. split.
    + by eapply spansFrom_closeNode.
    + destruct (closeNode_nested_inv _ _ _ _ _ Hna Hnodes E)
        as (x & Ex & ->). simpl.
      rewrite (steady_offset _ _ (pushElement_steady _ _ _ _ Ex)).
      exact HR.
Qed.

(** [pushElement] at [S p] below flow content: the element of the frame is
    the last child of the element of the frame below, as it is, and the
    class of its node goes to the line. *)
Lemma pushElement_S_flow_child p l st st' fr pf :
  stack st !! S p = Some fr → stack st !! p = Some pf →
  isFlowContent (node pf) = true →
  pushElement (S p) l st = Some st' →
  (∃ pf', stack st' !! p = Some pf'
          ∧ last (childNodes (frame_el pf'))
            = Some (ElementNode (frame_el fr))
          ∧ tagName (frame_el pf') = tagName (frame_el pf)
          ∧ (p ≠ O → classList (frame_el pf') = classList (frame_el pf)))
  ∧ lineCarries [classNamePrefix +:+ typeName (type (node fr))] st'
  ∧ grows st st'.
Proof.
  intros Hfr Hpf Hflow E. pose proof (pushElement_S_grows _ _ _ _ E) as Hg.
  pose proof (pushElement_S p l st fr pf Hfr Hpf) as E'. cbv zeta in E'.
  rewrite E' in E. injection E as <-. clear E'.
  unfold targetOf in *. rewrite Hflow in *.
  destruct (lookup_lt_is_Some_2 (stack st) 0) as [f0 H0].
  { apply lookup_lt_Some in Hfr. lia. }
  set (style := mapEl (addStyle (node fr) (first fr) l)) in *.
  split; [|split; [|done]].
  - destruct p as [|p].
    + rewrite Hpf in H0. injection H0 as <-.
      exists (mapEl (append (ElementNode (frame_el fr))) (style pf)).
      cbn [stack setStack]. rewrite list_lookup_alter_ne by lia.
      rewrite !list_lookup_alter_eq, Hpf. split; [done|].
      cbn [mapEl frame_el style]. rewrite childNodes_append, last_snoc.
      split; [done|]. split; [|done].
      destruct (frame_el pf) as [t c a k]. unfold addStyle.
      cbn [classList_add tagName append].
      repeat (case_match; cbn [classList_add tagName append]; try done).
    + exists (mapEl (append (ElementNode (frame_el fr))) pf).
      cbn [stack setStack]. rewrite list_lookup_alter_ne by lia.
      rewrite list_lookup_alter_eq, list_lookup_alter_ne, Hpf by lia.
      split; [done|]. cbn [mapEl frame_el].
      rewrite childNodes_append, last_snoc, classList_append.
      split; [done|]. split; [|done]. by destruct (frame_el pf).
  - destruct Hg as [_ Hg].
    assert (Hs : lineGrows (alter style 0%nat (stack st))
                   (alter (renewed (S p)) (S p)
                      (alter (mapEl (append (ElementNode (frame_el fr)))) p
                         (alter style 0%nat (stack st))))).
    { eapply lineGrows_trans; [|apply lineGrows_alter; by intros [=]].
      apply lineGrows_alter. intros _ x. apply append_grows. }
    destruct (Hs (style f0)) as (f0' & H0' & Hsub).
    { by rewrite list_lookup_alter_eq, H0. }
    exists f0'. split; [exact H0'|]. intros c Hc.
    apply list_elem_of_singleton in Hc as ->. apply Hsub.
    apply addStyle_type.
Qed.

Lemma addText_one_line t d st :
  LF ∉ t → stack st ≠ [] →
  addText t d st
  = appendLine t d st ≫= λ a,
    Some (setScanOffset (scanOffset a + jslength t) a).
Proof.
  intros Ht Hne. unfold addText. rewrite (split_one_line t Ht).
  destruct (stack st); [done|]. cbn [tail breakLines].
  by destruct (appendLine t d st).
Qed.

Lemma slice_suffix_no_LF s a b e :
  0 ≤ a ≤ b → 0 ≤ e → LF ∉ slice s a e → LF ∉ slice s b e.
Proof.
  intros Hab He Hno Hin. apply Hno.
  replace b with (a + (b - a)) in Hin by lia.
  rewrite slice_drop in Hin by lia.
  by apply (subseteq_drop (Z.to_nat (b - a))).
Qed.

(** The last child of the element of the frame at [k] is a [span] without
    class, and such a child stays when the element is appended to. *)
Lemma hasPlainSpan_append k e : hasPlainSpan e → hasPlainSpan (append k e).
Proof.
  intros (sp & Hin & Hsp). exists sp. split; [|done].
  rewrite childNodes_append. apply elem_of_app. by left.
Qed.

Lemma appendLine_frame line d st st' k f :
  appendLine line d st = Some st' → stack st !! k = Some f →
  ∃ f', stack st' !! k = Some f'
        ∧ (hasPlainSpan (frame_el f) → hasPlainSpan (frame_el f'))
        ∧ (plainSpan (frame_el f) → plainSpan (frame_el f')).
Proof.
  destruct line as [|c line]; simpl.
  { intros [= <-] Hf. eauto. }
  intros [_ ->]%updateFrame_inv Hf. cbn [stack setStack].
  destruct (decide (length (stack st) - 1 = k)%nat) as [->|Hne].
  - eexists. rewrite list_lookup_alter_eq, Hf. split; [done|].
    cbn [mapEl frame_el]. split; [apply hasPlainSpan_append|].
    apply plainSpan_append.
  - exists f. by rewrite list_lookup_alter_ne.
Qed.

(** The child [P] of the flow-content node [F], whose frame is the last of
    the stack, and the text after it up to the end of [F], all on the open
    line: the class of [P] goes to the line, and the element of [P], a
    [span] without class, into the element of [F]. *)
Lemma flow_content sourceCode F P e sp ep st sF fF :
  isFlowContent F = true →
  startOffsetOf P = Some sp → endOffsetOf P = Some ep →
  stack st = sF ++ [fF] → node fF = F →
  (sF ≠ [] → plainSpan (frame_el fF)) →
  0 ≤ scanOffset st ≤ sp → sp < ep → 0 ≤ e →
  LF ∉ slice sourceCode (scanOffset st) e →
  ∃ st' fF',
    getChildren sourceCode [P] e st = Some st'
    ∧ map node (stack st') = map node (stack st)
    ∧ stack st' !! length sF = Some fF'
    ∧ hasPlainSpan (frame_el fF')
    ∧ (sF ≠ [] → plainSpan (frame_el fF'))
    ∧ lineCarries [classNamePrefix +:+ typeName (type P)] st'.
Proof.
  intros Hflow Hsp Hep Hs HF Hspan Ha Hlt He HLF.
  set (k := length sF).
  set (k' := Nat.max 1 k).
  assert (Hk' : (1 ≤ k')%nat) by lia.
  assert (Hne : stack st ≠ []) by (rewrite Hs; by destruct sF).
  assert (HI : spansFrom k' st).
  { intros j f Hj Hf. rewrite Hs in Hf.
    apply lookup_app_Some in Hf as [Hf|[Hge Hf]].
    { apply lookup_lt_Some in Hf. lia. }
    apply list_lookup_singleton_Some in Hf as [Hj0 <-].
    apply Hspan. intros ->. simpl in *. lia. }
  unfold getChildren. cbn [forNodes].
  rewrite (visit_clamped _ _ _ _ _ _ Hsp Hep) by lia.
  replace (Z.max sp (scanOffset st)) with sp by lia.
  unfold process.
  (* the text before [P] *)
  destruct (addText_inner (slice sourceCode (scanOffset st) sp) true st Hne)
    as (x1 & E1 & Hx1).
  rewrite E1. cbn [mbind option_bind].
  set (st1 := setScanOffset _ x1) in *.
  assert (Hn1 : map node (stack st1) = map node (stack st)).
  { apply (steady_nodes _ _ Hx1). }
  assert (Hne1 : stack st1 ≠ []) by (eapply nodes_nonempty; eauto).
  assert (HI1 : spansFrom k' st1)
    by exact (spansFrom_addText k' _ _ st st1 Hk' Hne E1 HI).
  assert (Hsc1 : scanOffset st ≤ scanOffset st1).
  { subst st1. cbn [scanOffset setScanOffset].
    rewrite (steady_offset _ _ Hx1).
    pose proof (jslength_nonneg (slice sourceCode (scanOffset st) sp)).
    lia. }
  (* [P] *)
  set (st2 := openNode P st1).
  assert (Hn2 : map node (stack st2) = map node (stack st1) ++ [P]).
  { subst st2. unfold openNode. cbn [stack setStack]. by rewrite map_app. }
  assert (Hne2 : stack st2 ≠ []).
  { intros H. rewrite H in Hn2. by destruct (map node (stack st1)). }
  assert (HI2 : spansFrom k' st2) by (by apply spansFrom_openNode).
  change (match children P with
          | Some nodes => getChildren sourceCode nodes ep st2
          | None => addText (slice sourceCode (scanOffset st2) ep) false st2
          end) with (blockContent sourceCode P ep st2).
  destruct (spansFrom_blockContent sourceCode k' P ep st2 Hk' Hne2 HI2)
    as (st3 & -> & Hn3 & HI3 & Hsc3).
  cbn [mbind option_bind].
  assert (Hn3' : map node (stack st3) = map node (stack st1) ++ [P])
    by congruence.
  destruct (closeNode_nested_total P O st1 st3 Hne1 Hn3') as (st4 & E4 & Hn4).
  rewrite E4. cbn [mbind option_bind].
  destruct (closeNode_nested_inv _ _ _ _ _ Hne1 Hn3' E4) as (y & Ey & Hst4).
  assert (Hnodes3 : map node (stack st3) = map node sF ++ [F; P]).
  { rewrite Hn3', Hn1, Hs, map_app, <- app_assoc. cbn [map app].
    by rewrite HF. }
  assert (Hlen3 : length (stack st3) = S (S k)).
  { rewrite <- (length_map node (stack st3)), Hnodes3, length_app,
      length_map. simpl. lia. }
  rewrite Hlen3 in Ey. cbn [Nat.sub] in Ey.
  destruct (lookup_lt_is_Some_2 (stack st3) (S k) ltac:(lia)) as [fr3 Hfr3].
  destruct (lookup_lt_is_Some_2 (stack st3) k ltac:(lia)) as [pf3 Hpf3].
  assert (Hnpf3 : node pf3 = F).
  { assert (H : map node (stack st3) !! k = Some F).
    { rewrite Hnodes3. change (map node sF) with (node <$> sF).
      rewrite lookup_app_r; rewrite length_fmap; [|lia].
      by rewrite Nat.sub_diag. }
    change (map node (stack st3)) with (node <$> stack st3) in H.
    rewrite list_lookup_fmap, Hpf3 in H. by injection H. }
  assert (Hnfr3 : node fr3 = P).
  { assert (H : map node (stack st3) !! S k = Some P).
    { rewrite Hnodes3. change (map node sF) with (node <$> sF).
      rewrite lookup_app_r; rewrite length_fmap; [|lia].
      by replace (S k - length sF)%nat with 1%nat by lia. }
    change (map node (stack st3)) with (node <$> stack st3) in H.
    rewrite list_lookup_fmap, Hfr3 in H. by injection H. }
  destruct (pushElement_S_flow_child k true st3 y fr3 pf3 Hfr3 Hpf3)
    as ((pf' & Hpf' & Hlast & Htag & Hcls) & Hc & Hgy);
    [by rewrite Hnpf3|done|].
  rewrite Hnfr3 in Hc.
  assert (HI4 : spansFrom k' st4)
    by exact (spansFrom_closeNode k' P O st1 st3 st4 Hk' Hne1 HI3 Hn3' E4).
  assert (Hleny : length (stack y) = S (S k)).
  { by rewrite (steady_length _ _ (pushElement_steady _ _ _ _ Ey)). }
  assert (Hpf4 : stack st4 !! k = Some pf').
  { rewrite Hst4. cbn [stack setStack].
    destruct (stack y) as [|w sy] eqn:Hsy using rev_ind; [done|].
    rewrite removelast_last. rewrite length_app in Hleny. simpl in Hleny.
    by rewrite lookup_app_l in Hpf' by lia. }
  assert (Hc4 : lineCarries [classNamePrefix +:+ typeName (type P)] st4).
  { eapply lineCarries_grows; [|exact Hc]. rewrite Hst4. split; [done|].
    cbn [stack setStack]. apply removelast_grows. lia. }
  assert (Hsc4 : scanOffset st ≤ scanOffset st4).
  { rewrite Hst4. cbn [scanOffset setStack].
    rewrite (steady_offset _ _ (pushElement_steady _ _ _ _ Ey)).
    change (scanOffset st2) with (scanOffset st1) in Hsc3. lia. }
  assert (Hne4 : stack st4 ≠ []) by (eapply nodes_nonempty; eauto).
  (* the text after [P] *)
  assert (HLF4 : LF ∉ slice sourceCode (scanOffset st4) e).
  { apply (slice_suffix_no_LF _ (scanOffset st)); [lia|done|done]. }
  rewrite (addText_one_line _ true st4 HLF4 Hne4).
  destruct (appendLine_steady (slice sourceCode (scanOffset st4) e) true st4
              Hne4) as (st5 & E5 & Hx5).
  rewrite E5. cbn [mbind option_bind].
  destruct (appendLine_frame _ _ _ _ k pf' E5 Hpf4)
    as (pf5 & Hpf5 & Hhas5 & Hplain5).
  eexists _, pf5. split; [done|]. cbn [stack setScanOffset].
  split; [rewrite (steady_nodes _ _ Hx5); congruence|].
  split; [done|]. split; [|split].
  - apply Hhas5. exists (frame_el fr3). split.
    + apply last_Some in Hlast as (l' & ->). apply elem_of_app. right.
      by apply list_elem_of_singleton.
    + apply (HI3 (S k) fr3); [lia|done].
  - intros HsF. apply Hplain5. split.
    + rewrite Htag. apply (HI3 k pf3); [|done].
      subst k'. destruct sF; [done|]. simpl in *. lia.
    + rewrite Hcls by (subst k; by destruct sF).
      apply (HI3 k pf3); [|done].
      subst k'. destruct sF; [done|]. simpl in *. lia.
  - eapply lineCarries_grows; [|exact Hc4].
    exact (appendLine_grows _ _ _ _ E5).
Qed.

Lemma one_line_no_LF t u : split LF t = [u] → LF ∉ t.
Proof.
  intros Hsplit. pose proof (split_no_LF t) as H. rewrite Hsplit in H.
  rewrite Forall_singleton in H. rewrite <- (join_split t), Hsplit. exact H.
Qed.

(** The rest of the line before a top-level node holds no line break. *)
Lemma gap_no_LF sourceCode st s e :
  0 ≤ scanOffset st ≤ s → s ≤ e → LF ∉ slice sourceCode s e →
  LF ∉ slice sourceCode
         (scanOffset
            (blockLines (split LF (slice sourceCode (scanOffset st) s)) st))
         e.
Proof.
  intros Ha Hse Hno.
  destruct (split_snoc (slice sourceCode (scanOffset st) s))
    as (ls & lead & Hgap & Ht).
  rewrite Hgap, blockLines_snoc, lineBlocks_offset.
  assert (Hlead : LF ∉ lead).
  { pose proof (split_no_LF (slice sourceCode (scanOffset st) s)) as H.
    rewrite Hgap, Forall_app, Forall_singleton in H. apply H. }
  rewrite slice_drop by (try lia; apply jslength_nonneg).
  rewrite <- (slice_app sourceCode (scanOffset st) s e) by lia.
  rewrite Ht, <- app_assoc. unfold jslength. rewrite Nat2Z.id.
  rewrite drop_app_length. rewrite not_elem_of_app. done.
Qed.

Lemma lineCarries_app a b st :
  lineCarries a st → lineCarries b st → lineCarries (a ++ b) st.
Proof.
  intros (f0 & H0 & Ha) (f0' & H0' & Hb). rewrite H0 in H0'.
  injection H0' as <-. exists f0. split; [done|].
  intros c [Hc|Hc]%elem_of_app; auto.
Qed.

(** A top-level flow-content node with one child, on one line: the last
    line of its block carries the class of the child and the class of the
    node, and the element of the child is a [span] without class. *)
Lemma flow_line_in_output sourceCode pre post F P s e sp ep u :
  isFlowContent F = true → children F = Some [P] →
  startOffsetOf F = Some s → endOffsetOf F = Some e →
  startOffsetOf P = Some sp → endOffsetOf P = Some ep →
  0 ≤ s ≤ sp → sp < ep → s < e →
  split LF (slice sourceCode s e) = [u] →
  forallb (allNodes (endsBy (s - 1))) pre = true →
  ∃ root b line spanP,
    editorRender sourceCode (pre ++ F :: post) = Some root
    ∧ ElementNode b ∈ childNodes root
    ∧ attributes b = [("index", numberToString (length pre))]
    ∧ last (childNodes b) = Some (ElementNode line)
    ∧ classNamePrefix +:+ typeName (type P) ∈ classList line
    ∧ classNamePrefix +:+ typeName (type F) ∈ classList line
    ∧ ElementNode spanP ∈ childNodes line
    ∧ plainSpan spanP.
Proof.
  intros Hflow Hkids Hs He Hsp Hep Hssp Hlt Hse Hsplit Hpre.
  pose proof (one_line_no_LF _ _ Hsplit) as HLF.
  destruct (forNodes_before sourceCode pre s ltac:(lia) Hpre)
    as (st0 & E0 & Hst0 & Hb0 & Ha0).
  assert (E1 : ∃ st1 b line spanP,
             visit sourceCode F (length pre) st0 = Some st1
             ∧ stack st1 = []
             ∧ ElementNode b ∈ childNodes (el st1)
             ∧ attributes b = [("index", numberToString (length pre))]
             ∧ last (childNodes b) = Some (ElementNode line)
             ∧ classNamePrefix +:+ typeName (type P) ∈ classList line
             ∧ classNamePrefix +:+ typeName (type F) ∈ classList line
             ∧ ElementNode spanP ∈ childNodes line
             ∧ plainSpan spanP).
  { rewrite (visit_clamped sourceCode F (length pre) st0 s e) by (done || lia).
    replace (Z.max s (scanOffset st0)) with s by lia.
    destruct (process_top_inv sourceCode F (length pre) s e st0 Hst0)
      as (st2 & fr & E2 & Hs2 & Hfr & ->).
    destruct (blockLines_before sourceCode st0 s ltac:(lia))
      as (Ha1 & Hb1 & _).
    pose proof (gap_no_LF sourceCode st0 s e ltac:(lia) ltac:(lia) HLF)
      as HLF1.
    set (x := blockLines _ st0) in *.
    assert (Hsx : stack (openNode F x) = [] ++ [newFrame F "div"]).
    { unfold openNode. cbn [stack setStack]. subst x.
      by rewrite blockLines_stack, Hst0. }
    destruct (flow_content sourceCode F P e sp ep (openNode F x) []
                (newFrame F "div") Hflow Hsp Hep Hsx eq_refl)
      as (st2' & fF' & E2' & Hn2 & Hf2 & Hhas & _ & Hc2);
      [done|cbn [scanOffset openNode setStack]; lia|done|lia|done|].
    destruct (blockContent_enduring sourceCode F e (openNode F x))
      as (st2'' & E2'' & _ & (_ & _ & _ & Hba)).
    { by rewrite Hsx. }
    rewrite E2 in E2''. injection E2'' as <-.
    cbn [openNode block setStack] in Hba. rewrite (Hb1 Hb0) in Hba.
    unfold blockContent in E2. rewrite Hkids, E2' in E2.
    injection E2 as ->. rewrite Hs2 in Hf2. injection Hf2 as <-.
    destruct Hc2 as (f0 & H0 & Hc2). rewrite Hs2 in H0. injection H0 as <-.
    destruct Hhas as (spanP & Hin & Hplain).
    eexists _, _, _, spanP. split; [done|]. split; [done|].
    cbn [el closedBlock]. rewrite childNodes_append.
    split. { apply elem_of_app. right. by apply list_elem_of_singleton. }
    rewrite childNodes_classList_add, childNodes_setAttribute,
      childNodes_append, last_snoc.
    split. { destruct (block st2) as [t c a k]. simpl in *. by subst a. }
    split; [done|]. split; [|split; [|split; [|done]]].
    - apply addStyle_grows. rewrite classList_append. apply Hc2.
      by apply list_elem_of_singleton.
    - rewrite Hfr. apply addStyle_type.
    - rewrite childNodes_addStyle, childNodes_append. apply elem_of_app.
      by left. }
  destruct E1 as (st1 & b & line & spanP & E1 & Hst1 & Hin & Hrest).
  assert (Hdrop : drop (S (length pre)) (pre ++ F :: post) = post).
  { rewrite (cons_middle F pre post), app_assoc. apply drop_app_length'.
    rewrite length_app. simpl. lia. }
  destruct (forNodes_keeps sourceCode (pre ++ F :: post) post
              (S (length pre)) st1 _ Hdrop Hst1 Hin)
    as (st2 & E2 & Hst2 & Hin2).
  destruct (editorRender_keeps sourceCode (pre ++ F :: post) st2
              (ElementNode b))
    as (root & E & Hr); [|done|done|].
  { rewrite forNodes_app, E0. cbn [mbind option_bind forNodes].
    rewrite Nat.add_0_r, E1. exact E2. }
  exists root, b, line, spanP. done.
Qed.

(** A flow-content node with one child, on one line, below flow content:
    the open line carries the class of the child and the class of the
    node, and the element of the node goes, without class, into the
    element of its parent. *)
Lemma visit_flow_nested sourceCode F P s e sp ep u i st pn :
  isFlowContent F = true → children F = Some [P] →
  startOffsetOf F = Some s → endOffsetOf F = Some e →
  startOffsetOf P = Some sp → endOffsetOf P = Some ep →
  s ≤ sp → sp < ep → s < e → e ≤ jslength sourceCode →
  split LF (slice sourceCode s e) = [u] →
  last (map node (stack st)) = Some pn → isFlowContent pn = true →
  0 ≤ scanOffset st ≤ s →
  ∃ st', visit sourceCode F i st = Some st'
         ∧ map node (stack st') = map node (stack st)
         ∧ settled (λ _, True) flowSpan
             [classNamePrefix +:+ typeName (type P);
              classNamePrefix +:+ typeName (type F)] st'.
Proof.
  intros Hflow Hkids Hs He Hsp Hep Hssp Hlt Hse Hlen Hsplit Hlast Hpn Ha.
  pose proof (one_line_no_LF _ _ Hsplit) as HLF.
  assert (Hne : stack st ≠ []).
  { intros H. by rewrite H in Hlast. }
  rewrite (visit_clamped _ _ _ _ _ _ Hs He) by lia.
  replace (Z.max s (scanOffset st)) with s by lia.
  unfold process. rewrite Hkids.
  destruct (addText_inner (slice sourceCode (scanOffset st) s) true st Hne)
    as (x & -> & Hx).
  cbn [mbind option_bind].
  set (st1 := setScanOffset _ x).
  assert (Hoff1 : scanOffset st1 = s).
  { subst st1. cbn [scanOffset setScanOffset].
    rewrite (steady_offset _ _ Hx). apply slice_reaches; lia. }
  assert (Hn1 : map node (stack st1) = map node (stack st)).
  { apply (steady_nodes _ _ Hx). }
  assert (Hne1 : stack st1 ≠ []) by (eapply nodes_nonempty; eauto).
  rewrite <- Hn1 in Hlast.
  destruct (last_map_node _ _ Hlast) as (sx & pf & Hsx & Hpf).
  set (st2 := openNode F st1).
  assert (Hs2 : stack st2 = (sx ++ [pf]) ++ [newFrame F "span"]).
  { subst st2. unfold openNode. cbn [stack setStack]. rewrite Hsx.
    destruct sx; reflexivity. }
  assert (Hn2 : map node (stack st2) = map node (stack st1) ++ [F]).
  { subst st2. unfold openNode. cbn [stack setStack]. by rewrite map_app. }
  destruct (flow_content sourceCode F P e sp ep st2 (sx ++ [pf])
              (newFrame F "span") Hflow Hsp Hep Hs2 eq_refl)
    as (st3 & fF3 & -> & Hn3 & Hf3 & Hhas3 & Hplain3 & Hc3);
    [done|change (scanOffset st2) with (scanOffset st1); lia|done|lia
    |change (scanOffset st2) with (scanOffset st1); by rewrite Hoff1|].
  cbn [mbind option_bind].
  rewrite length_app in Hf3. cbn [length] in Hf3.
  rewrite Nat.add_1_r in Hf3.
  assert (Hn3' : map node (stack st3) = map node (stack st1) ++ [F])
    by congruence.
  destruct (closeNode_nested_total F i st1 st3 Hne1 Hn3') as (st4 & E4 & Hn4).
  exists st4. split; [done|]. split; [congruence|].
  destruct (closeNode_nested_inv _ _ _ _ _ Hne1 Hn3' E4) as (y & Ey & ->).
  assert (Hlen3 : length (stack st3) = S (S (length sx))).
  { rewrite <- (length_map node (stack st3)), Hn3', length_app, length_map,
      Hsx, length_app. simpl. lia. }
  rewrite Hlen3 in Ey. cbn [Nat.sub] in Ey.
  destruct (lookup_lt_is_Some_2 (stack st3) (length sx) ltac:(lia))
    as [pf3 Hpf3].
  assert (Hnpf3 : node pf3 = pn).
  { assert (H : map node (stack st3) !! length sx = Some pn).
    { rewrite Hn3', Hsx, map_app. cbn [map]. rewrite <- app_assoc.
      rewrite <- Hpf. change (map node sx) with (node <$> sx).
      rewrite lookup_app_r; rewrite length_fmap; [|lia].
      by rewrite Nat.sub_diag. }
    change (map node (stack st3)) with (node <$> stack st3) in H.
    rewrite list_lookup_fmap, Hpf3 in H. by injection H. }
  assert (HnF3 : node fF3 = F).
  { assert (H : map node (stack st3) !! S (length sx) = Some F).
    { rewrite Hn3', Hsx. change (map node (sx ++ [pf]))
        with (node <$> (sx ++ [pf])).
      rewrite lookup_app_r; rewrite length_fmap, length_app; simpl; [|lia].
      by replace (S (length sx) - (length sx + 1))%nat with O by lia. }
    change (map node (stack st3)) with (node <$> stack st3) in H.
    rewrite list_lookup_fmap, Hf3 in H. by injection H. }
  destruct (pushElement_S_flow_child (length sx) true st3 y fF3 pf3 Hf3 Hpf3)
    as ((pf' & Hpf' & Hlast' & _) & Hc & Hgy);
    [by rewrite Hnpf3|done|].
  rewrite HnF3 in Hc.
  assert (Hleny : length (stack y) = S (S (length sx))).
  { by rewrite (steady_length _ _ (pushElement_steady _ _ _ _ Ey)). }
  right. split; [done|]. split.
  - exists (length sx), pf', (frame_el fF3). split; [|split].
    + cbn [stack setStack].
      destruct (stack y) as [|w sy] eqn:Hsy using rev_ind; [done|].
      rewrite removelast_last. rewrite length_app in Hleny. simpl in Hleny.
      by rewrite lookup_app_l in Hpf' by lia.
    + split; [apply Hplain3; by destruct sx|done].
    + apply inside_child. apply last_Some in Hlast' as (l' & ->).
      apply elem_of_app. right. by apply list_elem_of_singleton.
  - eapply (lineCarries_grows _ y).
    { split; [done|]. cbn [stack setStack]. apply removelast_grows. lia. }
    apply (lineCarries_app [_] [_]); [|done].
    eapply lineCarries_grows; [exact Hgy|done].
Qed.

Lemma flow_span_in_output sourceCode pre post layers F P s e sp ep u :
  isFlowContent F = true → children F = Some [P] →
  startOffsetOf F = Some s → endOffsetOf F = Some e →
  startOffsetOf P = Some sp → endOffsetOf P = Some ep →
  0 ≤ s ≤ sp → sp < ep → s < e → e ≤ jslength sourceCode →
  split LF (slice sourceCode s e) = [u] →
  layers ≠ [] → underFlow layers true = true →
  inOrder s e layers = true →
  forallb (allNodes (endsBy (s - 1))) pre = true →
  ∃ root b k0 line k1 x,
    editorRender sourceCode (pre ++ plug layers F :: post) = Some root
    ∧ ElementNode b ∈ childNodes root
    ∧ attributes b = [("index", numberToString (length pre))]
    ∧ childNodes b = k0 ++ ElementNode line :: k1
    ∧ classNamePrefix +:+ typeName (type P) ∈ classList line
    ∧ classNamePrefix +:+ typeName (type F) ∈ classList line
    ∧ inside x line
    ∧ flowSpan x.
Proof.
  intros Hflow Hkids Hs He Hsp Hep Hssp Hlt Hse Hlen Hsplit Hne Hunder Hord
    Hpre.
  destruct layers as [|a inner]; [done|].
  destruct (settled_in_output sourceCode (λ _, True) flowSpan
              [classNamePrefix +:+ typeName (type P);
               classNamePrefix +:+ typeName (type F)] F s e true
              ltac:(lia))
    with (pre := pre) (post := post) (a := a) (inner := inner)
    as (root & b & E & Hin & Hattr & k0 & line & k1 & Hk & _ & Hl);
    [|done|done|done|].
  { intros i st pn Hlast Hpn Ha.
    apply (visit_flow_nested sourceCode F P s e sp ep u i st pn);
      try done; lia. }
  destruct Hl as [(x & Hx & Hinx) Hc].
  exists root, b, k0, line, k1, x. split; [done|]. split; [done|].
  split; [done|]. split; [done|].
  split; [apply Hc; rewrite !elem_of_cons; auto|].
  split; [apply Hc; rewrite !elem_of_cons; auto|]. done.
Qed.




(** ** The document *)

Lemma reads_unfold m r t cl a kids :
  reads m r (MkElement t cl a kids)
  ↔ ∃ c, m !! r = Some c
         ∧ cellTag c = t ∧ cellClasses c = cl ∧ cellAttributes c = a
         ∧ Forall2 (readsChild m) (cellChildren c) kids.
Proof.
  cbn [reads].
  assert (H : ∀ ks cs,
             (fix readsAll (cs : list Child) (ks : list Node) {struct ks}
                : Prop :=
                match cs, ks with
                | [], [] => True
                | TextChild d :: cs', TextNode d' :: ks' =>
                    d = d' ∧ readsAll cs' ks'
                | ElementChild r' :: cs', ElementNode e' :: ks' =>
                    reads m r' e' ∧ readsAll cs' ks'
                | _, _ => False
                end) cs ks
             ↔ Forall2 (readsChild m) cs ks).
  { induction ks as [|k ks IH]; intros cs.
    - destruct cs as [|[d|r'] cs]; split; try done; try constructor;
        inversion 1.
    - destruct cs as [|[d|r'] cs]; [split; [done|inversion 1]|..];
        destruct k as [d'|e']; split; try done;
        try (inversion 1; subst; done).
      + intros [-> H]. constructor; [done|by apply IH].
      + inversion 1; subst. split; [done|by apply IH].
      + intros [Hr H]. constructor; [done|by apply IH].
      + inversion 1; subst. split; [done|by apply IH]. }
  split; intros (c & Hc & Ht & Hcl & Ha & Hk); exists c;
    (split; [done|]); (split; [done|]); (split; [done|]); (split; [done|]);
    by apply H.
Qed.

(** The tree below a reference is one tree. *)
Lemma reads_inj m e :
  ∀ r e', reads m r e → reads m r e' → e' = e.
Proof.
  induction e as [t cl a kids IH] using Element_nested_ind.
  intros r [t' cl' a' kids'] (c & Hc & <- & <- & <- & Hk)%reads_unfold
    (c' & Hc' & <- & <- & <- & Hk')%reads_unfold.
  rewrite Hc in Hc'. injection Hc' as <-. f_equal.
  revert kids' Hk'. induction Hk as [|ch k cs ks Hch Hk IHk];
    intros kids' Hk'; inversion Hk' as [|? k' ? ks' Hch' Hk'']; subst;
    [done|].
  apply Forall_cons in IH as [IHe IHks]. f_equal; [|by apply IHk].
  destruct ch as [d|r'], k as [d0|e0], k' as [d1|e1]; try done.
  - simpl in *. congruence.
  - f_equal. by eapply IHe.
Qed.

(** A change of the cell of an element that is not a child of any element
    leaves the other trees as they are. *)
Lemma reads_insert doc r0 c0 e :
  unreferenced doc r0 →
  ∀ r, r ≠ r0 → reads (cells doc) r e → reads (<[r0 := c0]> (cells doc)) r e.
Proof.
  intros Hun. induction e as [t cl a kids IH] using Element_nested_ind.
  intros r Hne (c & Hc & Ht & Hcl & Ha & Hk)%reads_unfold.
  apply reads_unfold. exists c. rewrite lookup_insert_ne by done.
  split; [done|]. split; [done|]. split; [done|]. split; [done|].
  pose proof (Hun r c Hc) as Hnot. clear Hc Ht Hcl Ha.
  induction Hk as [|ch k cs ks Hch Hk IHk]; [constructor|].
  apply Forall_cons in IH as [IHe IHks].
  constructor.
  - destruct ch as [d|r'], k as [d'|e']; try done. simpl in *.
    apply IHe; [|done]. intros ->. apply Hnot. by left.
  - apply IHk; [done|]. intros Hin. apply Hnot. by right.
Qed.

Lemma reads_in_document m r e : reads m r e → is_Some (m !! r).
Proof. destruct e. intros (c & Hc & _)%reads_unfold. eauto. Qed.

Lemma mirrors_onShell f :
  (∀ t cl a kids,
      f (MkElement t cl a kids)
      = MkElement (tagName (f (MkElement t cl a [])))
          (classList (f (MkElement t cl a [])))
          (attributes (f (MkElement t cl a []))) kids) →
  mirrors (onShell f) f.
Proof.
  intros Hf c kids. exists []. cbn [onShell cellChildren fmap list_fmap].
  rewrite !app_nil_r. split; [done|]. by rewrite Hf.
Qed.

Lemma mirrors_classList_add cl : mirrors (onShell (classList_add cl))
                                   (classList_add cl).
Proof. apply mirrors_onShell. by intros. Qed.

Lemma mirrors_setAttribute k v : mirrors (onShell (setAttribute k v))
                                   (setAttribute k v).
Proof. apply mirrors_onShell. by intros. Qed.

Lemma mirrors_addStyle n f l : mirrors (onShell (addStyle n f l))
                                 (addStyle n f l).
Proof.
  apply mirrors_onShell. intros t cl a kids. unfold addStyle.
  destruct (type n), f, l; reflexivity.
Qed.

Lemma mirrors_appendText d :
  mirrors (appendChild (TextChild d)) (append (TextNode d)).
Proof. intros c kids. by exists [d]. Qed.

Lemma readsChildren_insert doc r0 c0 cs ks :
  unreferenced doc r0 → ElementChild r0 ∉ cs →
  Forall2 (readsChild (cells doc)) cs ks →
  Forall2 (readsChild (<[r0 := c0]> (cells doc))) cs ks.
Proof.
  intros Hun Hnot Hk. induction Hk as [|ch k cs ks Hch Hk IHk]; [constructor|].
  constructor.
  - destruct ch as [d|r'], k as [d'|e']; try done. simpl in *.
    apply reads_insert; [done| |done]. intros ->. apply Hnot. by left.
  - apply IHk. intros Hin. apply Hnot. by right.
Qed.

Lemma unreferenced_next doc :
  wellFormed doc → unreferenced doc (nextRef doc).
Proof.
  intros Hwf r c Hc Hin. destruct (Hwf r c Hc) as [_ Hk].
  specialize (Hk _ Hin). lia.
Qed.

(** [document.createElement]: a new element, which is no child. *)
Lemma forest_createElement doc0 doc F tag :
  forest doc0 doc F →
  F !! nextRef doc = None
  ∧ forest doc0 (Dom.createElement tag doc).2
           (<[nextRef doc := createElement tag]> F).
Proof.
  intros (Hwf & [Hn0 Hold] & HF).
  assert (Hnone : F !! nextRef doc = None).
  { destruct (F !! nextRef doc) as [e|] eqn:He; [|done].
    destruct (HF _ _ He) as (_ & [c Hc]%reads_in_document & _).
    destruct (Hwf _ _ Hc). lia. }
  split; [done|]. cbn [Dom.createElement snd].
  pose proof (unreferenced_next doc Hwf) as Hun.
  split; [|split; [split|]]; cbn [nextRef cells].
  - intros r c Hc. cbn [nextRef cells] in *.
    destruct (decide (r = nextRef doc)) as [->|Hne].
    + rewrite lookup_insert_eq in Hc. injection Hc as <-. split; [lia|].
      intros r' Hin. by apply elem_of_nil in Hin.
    + rewrite lookup_insert_ne in Hc by done.
      destruct (Hwf r c Hc) as [Hr Hk]. split; [lia|].
      intros r' Hin. specialize (Hk r' Hin). lia.
  - lia.
  - intros r Hr. rewrite lookup_insert_ne by lia. by apply Hold.
  - intros r e He. destruct (decide (r = nextRef doc)) as [->|Hne].
    + rewrite lookup_insert_eq in He. injection He as <-.
      split; [done|]. split.
      * apply reads_unfold. eexists. rewrite lookup_insert_eq.
        split; [done|]. repeat split. constructor.
      * intros r' c Hc. cbn [nextRef cells] in *.
        destruct (decide (r' = nextRef doc)) as [->|Hne'].
        -- rewrite lookup_insert_eq in Hc. injection Hc as <-.
           by intros ?%elem_of_nil.
        -- rewrite lookup_insert_ne in Hc by done. by eapply Hun.
    + rewrite lookup_insert_ne in He by done.
      destruct (HF r e He) as (Hr & Hreads & Hunr). split; [done|]. split.
      * by apply reads_insert.
      * intros r' c Hc. cbn [nextRef cells] in *.
        destruct (decide (r' = nextRef doc)) as [->|Hne'].
        -- rewrite lookup_insert_eq in Hc. injection Hc as <-.
           by intros ?%elem_of_nil.
        -- rewrite lookup_insert_ne in Hc by done. by eapply Hunr.
Qed.

(** A method on an element that is no child. *)
Lemma forest_update doc0 doc F r e g f :
  forest doc0 doc F → F !! r = Some e → mirrors g f →
  ∃ doc', Dom.update r g doc = Some doc'
          ∧ forest doc0 doc' (<[r := f e]> F).
Proof.
  intros (Hwf & [Hn0 Hold] & HF) He Hm.
  destruct (HF r e He) as (Hr & Hreads & Hun).
  destruct e as [t cl a kids].
  apply reads_unfold in Hreads as (c & Hc & Ht & Hcl & Ha & Hk).
  destruct (Hm c kids) as (texts & Hkids & Hf). rewrite Ht, Hcl, Ha in Hf.
  unfold Dom.update. rewrite Hc. cbn [mbind option_bind]. eexists.
  split; [done|].
  assert (Hchild : ∀ r', ElementChild r' ∈ cellChildren (g c) →
                         ElementChild r' ∈ cellChildren c).
  { intros r'. rewrite Hkids, elem_of_app. intros [?|Hin]; [done|].
    apply list_elem_of_fmap in Hin as (d & [=] & _). }
  split; [|split; [split|]]; cbn [nextRef cells].
  - intros r1 c1 Hc1. cbn [nextRef cells] in *.
    destruct (decide (r1 = r)) as [->|Hne].
    + rewrite lookup_insert_eq in Hc1. injection Hc1 as <-.
      destruct (Hwf r c Hc) as [Hlt Hkk]. split; [done|]. auto.
    + rewrite lookup_insert_ne in Hc1 by done. by apply Hwf.
  - done.
  - intros r1 Hr1. rewrite lookup_insert_ne by lia. by apply Hold.
  - intros r1 e1 He1. destruct (decide (r1 = r)) as [->|Hne].
    + rewrite lookup_insert_eq in He1. injection He1 as <-.
      split; [done|]. split.
      * rewrite Hf. apply reads_unfold. exists (g c).
        rewrite lookup_insert_eq. split; [done|]. split; [done|].
        split; [done|]. split; [done|]. rewrite Hkids.
        apply Forall2_app.
        -- apply readsChildren_insert; [done|by eapply Hun|done].
        -- clear. induction texts; constructor; done.
      * intros r' c' Hc'. cbn [nextRef cells] in *.
        destruct (decide (r' = r)) as [->|Hne'].
        -- rewrite lookup_insert_eq in Hc'. injection Hc' as <-.
           intros Hin%Hchild. by eapply Hun.
        -- rewrite lookup_insert_ne in Hc' by done. by eapply Hun.
    + rewrite lookup_insert_ne in He1 by done.
      destruct (HF r1 e1 He1) as (Hr1 & Hreads1 & Hun1).
      split; [done|]. split; [by apply reads_insert|].
      intros r' c' Hc'. cbn [nextRef cells] in *.
      destruct (decide (r' = r)) as [->|Hne'].
      * rewrite lookup_insert_eq in Hc'. injection Hc' as <-.
        intros Hin%Hchild. by eapply Hun1.
      * rewrite lookup_insert_ne in Hc' by done. by eapply Hun1.
Qed.

(** [e.append(c)] for two elements that are no children: [c] becomes the
    last child of [e]. *)
Lemma forest_appendChild doc0 doc F r e rc ec :
  forest doc0 doc F → F !! r = Some e → F !! rc = Some ec → r ≠ rc →
  ∃ doc', Dom.update r (appendChild (ElementChild rc)) doc = Some doc'
          ∧ forest doc0 doc'
              (<[r := append (ElementNode ec) e]> (base.delete rc F)).
Proof.
  intros (Hwf & [Hn0 Hold] & HF) He Hec Hne.
  destruct (HF r e He) as (Hr & Hreads & Hun).
  destruct (HF rc ec Hec) as (Hrc & Hreadsc & Hunc).
  destruct e as [t cl a kids].
  apply reads_unfold in Hreads as (c & Hc & Ht & Hcl & Ha & Hk).
  unfold Dom.update. rewrite Hc. cbn [mbind option_bind]. eexists.
  split; [done|].
  split; [|split; [split|]]; cbn [nextRef cells].
  - intros r1 c1 Hc1. cbn [nextRef cells] in *.
    destruct (decide (r1 = r)) as [->|Hne1].
    + rewrite lookup_insert_eq in Hc1. injection Hc1 as <-.
      destruct (Hwf r c Hc) as [Hlt Hkk]. split; [done|].
      intros r'. cbn [appendChild cellChildren]. rewrite elem_of_app.
      intros [Hin|Hin]; [auto|].
      apply list_elem_of_singleton in Hin. injection Hin as ->.
      destruct (reads_in_document _ _ _ Hreadsc) as [cc Hcc].
      by destruct (Hwf rc cc Hcc).
    + rewrite lookup_insert_ne in Hc1 by done. by apply Hwf.
  - done.
  - intros r1 Hr1. rewrite lookup_insert_ne by lia. by apply Hold.
  - intros r1 e1 He1. destruct (decide (r1 = r)) as [->|Hne1].
    + rewrite lookup_insert_eq in He1. injection He1 as <-.
      split; [done|]. split.
      * apply reads_unfold. eexists. rewrite lookup_insert_eq.
        split; [done|]. cbn [appendChild cellTag cellClasses cellAttributes
          cellChildren append tagName classList attributes childNodes].
        split; [done|]. split; [done|]. split; [done|].
        apply Forall2_app.
        -- apply readsChildren_insert; [done|by eapply Hun|done].
        -- constructor; [|constructor]. simpl.
           apply reads_insert; [done|done|done].
      * intros r' c' Hc'. cbn [nextRef cells] in *.
        destruct (decide (r' = r)) as [->|Hne'].
        -- rewrite lookup_insert_eq in Hc'. injection Hc' as <-.
           cbn [appendChild cellChildren]. rewrite elem_of_app.
           intros [Hin|Hin]; [by eapply Hun|].
           apply list_elem_of_singleton in Hin. by injection Hin.
        -- rewrite lookup_insert_ne in Hc' by done. by eapply Hun.
    + rewrite lookup_insert_ne in He1 by done.
      apply lookup_delete_Some in He1 as [Hne2 He1].
      destruct (HF r1 e1 He1) as (Hr1 & Hreads1 & Hun1).
      split; [done|]. split; [by apply reads_insert|].
      intros r' c' Hc'. cbn [nextRef cells] in *.
      destruct (decide (r' = r)) as [->|Hne'].
      * rewrite lookup_insert_eq in Hc'. injection Hc' as <-.
        cbn [appendChild cellChildren]. rewrite elem_of_app.
        intros [Hin|Hin]; [by eapply Hun1|].
        apply list_elem_of_singleton in Hin. by injection Hin.
      * rewrite lookup_insert_ne in Hc' by done. by eapply Hun1.
Qed.

(** ** The state on the document and the state of the walk *)

Lemma total_agree (F F' : gmap Ref Element) r :
  F' !! r = F !! r → F' !!! r = F !!! r.
Proof. intros H. by rewrite !lookup_total_alt, H. Qed.

Lemma absStack_agree F F' (s : list Dom.Frame) :
  (∀ fr, fr ∈ s → F' !! Dom.ref fr = F !! Dom.ref fr) →
  absFrame F' <$> s = absFrame F <$> s.
Proof.
  intros H. apply list_eq. intros j. rewrite !list_lookup_fmap.
  destruct (s !! j) as [fr|] eqn:Hj; [|done]. simpl. f_equal.
  unfold absFrame. f_equal. apply total_agree, H.
  by eapply list_elem_of_lookup_2.
Qed.

Lemma absStack_rebind F F' (s : list Dom.Frame) i fr r' v :
  NoDup (Dom.ref <$> s) → s !! i = Some fr → F' !! r' = Some v →
  (∀ r1, r1 ∈ Dom.ref <$> s → r1 ≠ Dom.ref fr → F' !! r1 = F !! r1) →
  absFrame F' <$> alter (withRef r') i s
  = alter (withEl v) i (absFrame F <$> s).
Proof.
  intros Hnd Hfr Hv Hag. apply list_eq. intros j.
  rewrite list_lookup_fmap. destruct (decide (i = j)) as [->|Hne].
  - rewrite !list_lookup_alter_eq, list_lookup_fmap, Hfr. simpl.
    unfold absFrame, withEl, withRef. simpl.
    by rewrite (lookup_total_correct _ _ _ Hv).
  - rewrite !list_lookup_alter_ne, list_lookup_fmap by done.
    destruct (s !! j) as [fr1|] eqn:Hj; [|done]. simpl. f_equal.
    unfold absFrame. f_equal. apply total_agree, Hag.
    + apply list_elem_of_fmap. exists fr1. split; [done|].
      by eapply list_elem_of_lookup_2.
    + intros Heq. apply Hne.
      apply (NoDup_lookup (Dom.ref <$> s) i j (Dom.ref fr)); [done|..].
      * by rewrite list_lookup_fmap, Hfr.
      * rewrite list_lookup_fmap, Hj. simpl. by rewrite Heq.
Qed.

Lemma NoDup_insert_other {A} (l : list A) i r r' :
  NoDup l → l !! i = Some r → (r' = r ∨ r' ∉ l) →
  NoDup (<[i := r']> l)
  ∧ ∀ x, x ∈ <[i := r']> l → x = r' ∨ (x ∈ l ∧ x ≠ r).
Proof.
  intros Hnd Hi Hr'. pose proof (lookup_lt_Some _ _ _ Hi) as Hlen.
  rewrite insert_take_drop by done.
  pose proof (take_drop_middle l i r Hi) as Hl. rewrite <- Hl in Hnd.
  apply NoDup_app in Hnd as (H1 & H2 & H3).
  apply NoDup_cons in H3 as [H3 H4].
  assert (Hsub : ∀ x, x ∈ take i l ++ drop (S i) l → x ∈ l ∧ x ≠ r).
  { intros x Hx. split.
    - rewrite <- Hl. rewrite elem_of_app in Hx. rewrite elem_of_app, elem_of_cons.
      tauto.
    - intros ->. apply elem_of_app in Hx as [Hx|Hx]; [|done].
      apply (H2 r Hx). by left. }
  split.
  - apply NoDup_app. split; [done|]. split.
    + intros x Hx [->|Hin]%elem_of_cons.
      * destruct Hr' as [->|Hnot].
        -- apply (H2 r Hx). by left.
        -- apply Hnot. rewrite <- Hl. apply elem_of_app. by left.
      * apply (H2 x Hx). by right.
    + apply NoDup_cons. split; [|done]. intros Hin.
      destruct Hr' as [->|Hnot]; [done|]. apply Hnot. rewrite <- Hl.
      apply elem_of_app. right. by right.
  - intros x [Hx|[->|Hx]%elem_of_cons]%elem_of_app; [|by left|];
      right; apply Hsub; apply elem_of_app; auto.
Qed.

Lemma ref_alter_withRef (s : list Dom.Frame) i r' :
  Dom.ref <$> alter (withRef r') i s = <[i := r']> (Dom.ref <$> s).
Proof.
  rewrite list_insert_alter. apply list_fmap_alter.
  apply Forall_forall. by intros.
Qed.

(** The element at a place becomes [v]: the place holds the same
    reference, or another one that is new to the state. *)
Lemma owned_assign hs F F' s r r' v :
  NoDup (roots hs) → (∀ r1, r1 ∈ roots hs → is_Some (F !! r1)) →
  refAt hs s = Some r →
  (r' = r ∨ r' ∉ roots hs) →
  F' !! r' = Some v →
  (∀ r1, r1 ∈ roots hs → r1 ≠ r → F' !! r1 = F !! r1) →
  NoDup (roots (rebind s r' hs))
  ∧ (∀ r1, r1 ∈ roots (rebind s r' hs) → is_Some (F' !! r1))
  ∧ absState (rebind s r' hs) F' = assign s v (absState hs F).
Proof.
  intros Hnd Hin Hs Hr' Hv Hag.
  assert (Hidx : ∃ i, roots hs !! i = Some r
                      ∧ roots (rebind s r' hs) = <[i := r']> (roots hs)).
  { destruct s as [| |i]; cbn [refAt] in Hs.
    - injection Hs as <-. by exists O.
    - injection Hs as <-. by exists 1%nat.
    - exists (S (S i)). split.
      + change (roots hs !! S (S i))
          with ((Dom.ref <$> Dom.stack hs) !! i).
        by rewrite list_lookup_fmap.
      + unfold roots.
        cbn [rebind Dom.setStack Dom.el Dom.block Dom.stack].
        by rewrite ref_alter_withRef. }
  destruct Hidx as (i & Hi & Hroots).
  destruct (NoDup_insert_other _ _ _ _ Hnd Hi Hr') as [Hnd' Hel'].
  split; [|split].
  - by rewrite Hroots.
  - intros r1. rewrite Hroots. intros [->|[Hr1 Hne]]%Hel'; [eauto|].
    rewrite (Hag r1 Hr1 Hne). auto.
  - assert (Hsame : ∀ r1, r1 ∈ roots hs → r1 ≠ r → F' !!! r1 = F !!! r1).
    { intros r1 H1 H2. by apply total_agree, Hag. }
    assert (Hv' : F' !!! r' = v) by by apply lookup_total_correct.
    unfold roots in *. apply NoDup_cons in Hnd as [Hel Hnd].
    apply NoDup_cons in Hnd as [Hbl Hnd].
    destruct s as [| |j]; cbn [refAt] in Hs.
    + injection Hs as <-. unfold absState. cbn. rewrite Hv'.
      unfold setEl. cbn. f_equal.
      * apply absStack_agree. intros fr Hfr. apply Hag.
        -- right. right. apply list_elem_of_fmap. eauto.
        -- intros Heq. apply Hel. right. rewrite <- Heq.
           apply list_elem_of_fmap. eauto.
      * apply Hsame; [right; by left|]. intros Heq. apply Hel.
        rewrite Heq. by left.
    + injection Hs as <-. unfold absState. cbn. rewrite Hv'.
      unfold setBlock. cbn. f_equal.
      * apply absStack_agree. intros fr Hfr. apply Hag.
        -- right. right. apply list_elem_of_fmap. eauto.
        -- intros Heq. apply Hbl. rewrite <- Heq.
           apply list_elem_of_fmap. eauto.
      * apply Hsame; [by left|]. intros Heq. apply Hel.
        rewrite Heq. by left.
    + destruct (Dom.stack hs !! j) as [fr|] eqn:Hfr; [|done].
      injection Hs as <-. unfold absState. cbn.
      unfold setStack. cbn. f_equal.
      * apply (absStack_rebind F F' _ j fr); [done|done|done|].
        intros r1 Hr1 Hne. apply Hag; [right; by right|done].
      * apply Hsame; [right; by left|]. intros Heq. apply Hbl.
        rewrite Heq. apply list_elem_of_fmap. exists fr. split; [done|].
        by eapply list_elem_of_lookup_2.
      * apply Hsame; [by left|]. intros Heq. apply Hel. right.
        rewrite Heq. apply list_elem_of_fmap. exists fr. split; [done|].
        by eapply list_elem_of_lookup_2.
Qed.

Lemma rebind_same hs s r : refAt hs s = Some r → rebind s r hs = hs.
Proof.
  destruct hs as [off stk blk root log doc]. destruct s as [| |i]; cbn.
  - by intros [= ->].
  - by intros [= ->].
  - intros Hs. unfold Dom.setStack. cbn. f_equal.
    apply list_eq. intros j. destruct (decide (i = j)) as [->|Hne].
    + rewrite list_lookup_alter_eq. destruct (stk !! j) as [[n r0 f]|]; [|done].
      cbn in *. by injection Hs as ->.
    + by rewrite list_lookup_alter_ne.
Qed.

Lemma rebind_setDocument s r d hs :
  rebind s r (Dom.setDocument d hs) = Dom.setDocument d (rebind s r hs).
Proof. by destruct s. Qed.

Lemma absState_setDocument d hs F :
  absState (Dom.setDocument d hs) F = absState hs F.
Proof. done. Qed.

Lemma roots_setDocument d hs : roots (Dom.setDocument d hs) = roots hs.
Proof. done. Qed.

(** The reference at a place and the element that it stands for. *)
Lemma good_slot doc0 hs F s r :
  good doc0 hs F → refAt hs s = Some r →
  r ∈ roots hs
  ∧ ∃ e, F !! r = Some e ∧ elementAt (absState hs F) s = Some e.
Proof.
  intros (HF & Hnd & Hin) Hs.
  assert (Hr : r ∈ roots hs).
  { destruct s as [| |i]; cbn in Hs.
    - injection Hs as <-. by left.
    - injection Hs as <-. right. by left.
    - destruct (Dom.stack hs !! i) as [fr|] eqn:Hfr; [|done].
      injection Hs as <-. right. right. apply list_elem_of_fmap.
      exists fr. split; [done|]. by eapply list_elem_of_lookup_2. }
  split; [done|]. destruct (Hin r Hr) as [e He]. exists e. split; [done|].
  pose proof (lookup_total_correct _ _ _ He) as Ht.
  destruct s as [| |i]; cbn in Hs |- *.
  - injection Hs as <-. by rewrite Ht.
  - injection Hs as <-. by rewrite Ht.
  - rewrite list_lookup_fmap. destruct (Dom.stack hs !! i) as [fr|]; [|done].
    injection Hs as <-. cbn. by rewrite Ht.
Qed.

Lemma forest_below doc0 doc F r e :
  forest doc0 doc F → F !! r = Some e → (r < nextRef doc)%nat.
Proof.
  intros (Hwf & _ & HF) He.
  destruct (HF r e He) as (_ & [c Hc]%reads_in_document & _).
  by destruct (Hwf r c Hc).
Qed.

Lemma update_nextRef r g doc doc' :
  Dom.update r g doc = Some doc' → nextRef doc' = nextRef doc.
Proof.
  unfold Dom.update. destruct (cells doc !! r); [|done]. by intros [= <-].
Qed.

Lemma filter_all {A} (P : A → Prop) `{∀ x, Decision (P x)} (l : list A) :
  Forall P l → filter P l = l.
Proof.
  induction 1 as [|x l Hx _ IH]; [done|].
  rewrite filter_cons_True by done. by rewrite IH.
Qed.

(** An element without a parent has none to leave. *)
Lemma detach_unreferenced doc r : unreferenced doc r → detach r doc = doc.
Proof.
  intros Hun. destruct doc as [n m]. unfold detach. cbn [nextRef cells].
  f_equal. apply map_eq. intros r1. rewrite lookup_fmap.
  destruct (m !! r1) as [cell|] eqn:Hcell; [|done]. cbn. f_equal.
  pose proof (Hun r1 cell Hcell) as Hnot. destruct cell as [t cl a cs].
  unfold withoutChild. cbn [cellTag cellClasses cellAttributes cellChildren]
    in *. f_equal. apply filter_all. apply Forall_forall.
  intros k Hk ->. by apply Hnot.
Qed.

(** An element without a parent is below no other element. *)
Lemma contains_apart fuel m target :
  (∀ r cell, m !! r = Some cell → ElementChild target ∉ cellChildren cell) →
  ∀ r, r ≠ target → contains fuel m r target = false.
Proof.
  intros Hun. induction fuel as [|fuel IH]; intros r Hne; cbn [contains];
    rewrite bool_decide_eq_false_2 by done; [done|].
  cbn [orb]. destruct (m !! r) as [cell|] eqn:Hcell; [|done].
  apply not_true_is_false. intros (k & Hk & Hc)%existsb_exists.
  apply list_elem_of_In in Hk. destruct k as [|r']; [done|].
  rewrite IH in Hc; [done|]. intros ->. by apply (Hun r cell).
Qed.

Lemma appendElement_root doc parent child :
  unreferenced doc parent → unreferenced doc child → parent ≠ child →
  Dom.appendElement parent child doc
  = Dom.update parent (appendChild (ElementChild child)) doc.
Proof.
  intros Hp Hc Hne. unfold Dom.appendElement.
  rewrite (contains_apart _ _ _ Hp) by done.
  by rewrite detach_unreferenced.
Qed.

Lemma forest_appendElement doc0 doc F r e rc ec :
  forest doc0 doc F → F !! r = Some e → F !! rc = Some ec → r ≠ rc →
  ∃ doc', Dom.appendElement r rc doc = Some doc'
          ∧ nextRef doc' = nextRef doc
          ∧ forest doc0 doc'
              (<[r := append (ElementNode ec) e]> (base.delete rc F)).
Proof.
  intros HF He Hec Hne.
  destruct (forest_appendChild _ _ _ _ _ _ _ HF He Hec Hne)
    as (doc' & Hd & HF').
  exists doc'. split; [|split; [by eapply update_nextRef|done]].
  destruct HF as (_ & _ & HF).
  rewrite appendElement_root; [done| | |done].
  - by destruct (HF r e He) as (_ & _ & ?).
  - by destruct (HF rc ec Hec) as (_ & _ & ?).
Qed.

(** A method on the element at a place. *)
Lemma stands_update doc0 hs st s r g f e :
  stands doc0 hs st → refAt hs s = Some r → mirrors g f →
  elementAt st s = Some e →
  ∃ d', Dom.update r g (Dom.document hs) = Some d'
        ∧ stands doc0 (Dom.setDocument d' hs) (assign s (f e) st).
Proof.
  intros (F & Hgood & <-) Hs Hm He.
  destruct (good_slot _ _ _ _ _ Hgood Hs) as (Hr & e' & HFr & He').
  rewrite He' in He. injection He as ->.
  destruct Hgood as (HF & Hnd & Hin).
  destruct (forest_update _ _ _ _ _ _ _ HF HFr Hm) as (d' & -> & HF').
  exists d'. split; [done|]. exists (<[r := f e]> F).
  destruct (owned_assign hs F (<[r := f e]> F) s r r (f e) Hnd Hin Hs)
    as (Hnd' & Hin' & Habs); [by left|by rewrite lookup_insert_eq| |].
  { intros r1 _ Hne. by rewrite lookup_insert_ne. }
  rewrite (rebind_same _ _ _ Hs) in Hnd', Hin', Habs.
  split; [|done]. split; [done|]. split; done.
Qed.

(** The element at [s] is appended to the element at [t], and [s] holds
    a new element. *)
Lemma stands_transfer doc0 hs st s t rs rt es et tag :
  stands doc0 hs st → s ≠ t →
  refAt hs s = Some rs → refAt hs t = Some rt →
  elementAt st s = Some es → elementAt st t = Some et →
  ∃ d1, Dom.appendElement rt rs (Dom.document hs) = Some d1
        ∧ stands doc0
            (rebind s (Dom.createElement tag d1).1
                    (Dom.setDocument (Dom.createElement tag d1).2 hs))
            (assign s (createElement tag)
                    (assign t (append (ElementNode es) et) st)).
Proof.
  intros (F & Hgood & <-) Hst Hs Ht Hes Het.
  destruct (good_slot _ _ _ _ _ Hgood Hs) as (Hrs & es' & HFs & Hes').
  destruct (good_slot _ _ _ _ _ Hgood Ht) as (Hrt & et' & HFt & Het').
  rewrite Hes' in Hes. injection Hes as ->.
  rewrite Het' in Het. injection Het as ->.
  destruct Hgood as (HF & Hnd & Hin).
  assert (Hne : rt ≠ rs).
  { intros ->. apply Hst. clear -Hnd Hs Ht. unfold roots in Hnd.
    apply NoDup_cons in Hnd as [Hel Hnd]. apply NoDup_cons in Hnd as [Hbl Hnd].
    destruct s as [| |i], t as [| |j]; cbn in Hs, Ht; try done.
    - injection Hs as <-. injection Ht as Heq. exfalso. apply Hel.
      rewrite <- Heq. by left.
    - injection Hs as <-. destruct (Dom.stack hs !! j) as [fr|] eqn:Hfr; [|done].
      injection Ht as Heq. exfalso. apply Hel. right. rewrite <- Heq.
      apply list_elem_of_fmap. exists fr. split; [done|].
      by eapply list_elem_of_lookup_2.
    - injection Hs as <-. injection Ht as Heq. exfalso. apply Hel.
      rewrite Heq. by left.
    - injection Hs as <-. destruct (Dom.stack hs !! j) as [fr|] eqn:Hfr; [|done].
      injection Ht as Heq. exfalso. apply Hbl. rewrite <- Heq.
      apply list_elem_of_fmap. exists fr. split; [done|].
      by eapply list_elem_of_lookup_2.
    - injection Ht as <-. destruct (Dom.stack hs !! i) as [fr|] eqn:Hfr; [|done].
      injection Hs as Heq. exfalso. apply Hel. right. rewrite <- Heq.
      apply list_elem_of_fmap. exists fr. split; [done|].
      by eapply list_elem_of_lookup_2.
    - injection Ht as <-. destruct (Dom.stack hs !! i) as [fr|] eqn:Hfr; [|done].
      injection Hs as Heq. exfalso. apply Hbl. rewrite <- Heq.
      apply list_elem_of_fmap. exists fr. split; [done|].
      by eapply list_elem_of_lookup_2.
    - f_equal. apply (NoDup_lookup (Dom.ref <$> Dom.stack hs) i j rs);
        [done|by rewrite list_lookup_fmap..]. }
  destruct (forest_appendElement _ _ _ _ _ _ _ HF HFt HFs Hne)
    as (d1 & Hd1 & Hnext & HF1).
  exists d1. split; [done|].
  destruct (forest_createElement _ _ _ tag HF1) as [Hnone HF2].
  cbn [Dom.createElement fst snd] in *.
  set (F1 := <[rt := append (ElementNode es) et]> (base.delete rs F)) in *.
  set (r' := nextRef d1) in *.
  assert (Hfresh : ∀ r1, r1 ∈ roots hs → r1 ≠ r').
  { intros r1 [e1 He1]%Hin. pose proof (forest_below _ _ _ _ _ HF He1).
    subst r'. rewrite Hnext. lia. }
  destruct (owned_assign hs F (<[rt := append (ElementNode es) et]> F)
              t rt rt (append (ElementNode es) et) Hnd Hin Ht)
    as (Hnd1 & Hin1 & Habs1); [by left|by rewrite lookup_insert_eq| |].
  { intros r1 _ Hne1. by rewrite lookup_insert_ne. }
  rewrite (rebind_same _ _ _ Ht) in Hnd1, Hin1, Habs1.
  destruct (owned_assign hs (<[rt := append (ElementNode es) et]> F)
              (<[r' := createElement tag]> F1)
              s rs r' (createElement tag) Hnd1 Hin1 Hs)
    as (Hnd2 & Hin2 & Habs2).
  { right. intros Hr'. by apply (Hfresh r'). }
  { by rewrite lookup_insert_eq. }
  { intros r1 Hr1 Hne1. rewrite lookup_insert_ne by (symmetry; auto).
    subst F1. destruct (decide (r1 = rt)) as [->|Hne2].
    - by rewrite !lookup_insert_eq.
    - rewrite !lookup_insert_ne by done. by rewrite lookup_delete_ne. }
  exists (<[r' := createElement tag]> F1).
  rewrite rebind_setDocument. rewrite absState_setDocument.
  split; [|by rewrite Habs2, Habs1]. split; [|split].
  - assert (Hdoc : ∀ h d, Dom.document (rebind s r' (Dom.setDocument d h))
                          = d) by (intros; by destruct s).
    rewrite <- rebind_setDocument, Hdoc. exact HF2.
  - done.
  - done.
Qed.

(** [createDelimiter] and [createLine]: a new element that no place of the
    state holds. *)
Lemma forest_createDelimiter doc0 doc F line :
  forest doc0 doc F →
  ∃ d, Dom.createDelimiter line doc = Some (nextRef doc, d)
       ∧ F !! nextRef doc = None
       ∧ forest doc0 d (<[nextRef doc := createDelimiter line]> F).
Proof.
  intros HF. destruct (forest_createElement _ _ _ "span" HF) as [Hnone HF0].
  unfold Dom.createDelimiter.
  cbn [Dom.createElement snd] in *.
  destruct (forest_update _ _ _ (nextRef doc) _ _ _ HF0
              (lookup_insert_eq _ _ _) (mirrors_appendText line))
    as (d1 & -> & HF1).
  cbn [mbind option_bind].
  destruct (forest_update _ _ _ (nextRef doc) _ _ _ HF1
              (lookup_insert_eq _ _ _)
              (mirrors_classList_add (classNamePrefix +:+ "delimiter")))
    as (d2 & -> & HF2).
  cbn [mbind option_bind]. exists d2. split; [done|]. split; [done|].
  by rewrite !insert_insert_eq in HF2.
Qed.

Lemma forest_createLine doc0 doc F line :
  forest doc0 doc F →
  ∃ d, Dom.createLine line doc = Some (nextRef doc, d)
       ∧ F !! nextRef doc = None
       ∧ forest doc0 d (<[nextRef doc := createLine line]> F).
Proof.
  intros HF. destruct (forest_createElement _ _ _ "div" HF) as [Hnone HF0].
  unfold Dom.createLine.
  cbn [Dom.createElement snd] in *.
  destruct (forest_update _ _ _ (nextRef doc) _ _ _ HF0
              (lookup_insert_eq _ _ _) (mirrors_appendText (line ++ [ZWSP])))
    as (d1 & -> & HF1).
  cbn [mbind option_bind]. exists d1. split; [done|]. split; [done|].
  by rewrite !insert_insert_eq in HF1.
Qed.

(** A new element is appended to the element at a place. *)
Lemma stands_appendTemp doc0 hs F temp d v t rt et :
  good doc0 hs F → F !! temp = None → forest doc0 d (<[temp := v]> F) →
  refAt hs t = Some rt → elementAt (absState hs F) t = Some et →
  ∃ d', Dom.appendElement rt temp d = Some d'
        ∧ stands doc0 (Dom.setDocument d' hs)
            (assign t (append (ElementNode v) et) (absState hs F)).
Proof.
  intros Hgood Hnone HF1 Ht Het.
  destruct (good_slot _ _ _ _ _ Hgood Ht) as (Hrt & et' & HFt & Het').
  rewrite Het' in Het. injection Het as ->.
  destruct Hgood as (HF & Hnd & Hin).
  assert (Hne : rt ≠ temp) by (intros ->; congruence).
  destruct (forest_appendElement _ _ _ rt et temp v HF1)
    as (d' & Hd' & _ & HF');
    [by rewrite lookup_insert_ne|by rewrite lookup_insert_eq|done|].
  exists d'. split; [done|].
  rewrite delete_insert_id in HF' by done.
  exists (<[rt := append (ElementNode v) et]> F).
  destruct (owned_assign hs F (<[rt := append (ElementNode v) et]> F)
              t rt rt (append (ElementNode v) et) Hnd Hin Ht)
    as (Hnd1 & Hin1 & Habs1); [by left|by rewrite lookup_insert_eq| |].
  { intros r1 _ Hne1. by rewrite lookup_insert_ne. }
  rewrite (rebind_same _ _ _ Ht) in Hnd1, Hin1, Habs1.
  split; [|done]. split; [done|]. split; done.
Qed.

Lemma stands_appendDelimiter doc0 hs st line t rt et :
  stands doc0 hs st → refAt hs t = Some rt → elementAt st t = Some et →
  ∃ temp d d',
    Dom.createDelimiter line (Dom.document hs) = Some (temp, d)
    ∧ Dom.appendElement rt temp d = Some d'
    ∧ stands doc0 (Dom.setDocument d' hs)
        (assign t (append (ElementNode (createDelimiter line)) et) st).
Proof.
  intros (F & Hgood & <-) Ht Het.
  destruct (forest_createDelimiter doc0 _ F line (proj1 Hgood))
    as (d & E & Hnone & HF1).
  destruct (stands_appendTemp _ _ _ _ _ _ _ _ _ Hgood Hnone HF1 Ht Het)
    as (d' & E' & Hst).
  eauto 6.
Qed.

Lemma stands_appendNewLine doc0 hs st line t rt et :
  stands doc0 hs st → refAt hs t = Some rt → elementAt st t = Some et →
  ∃ temp d d',
    Dom.createLine line (Dom.document hs) = Some (temp, d)
    ∧ Dom.appendElement rt temp d = Some d'
    ∧ stands doc0 (Dom.setDocument d' hs)
        (assign t (append (ElementNode (createLine line)) et) st).
Proof.
  intros (F & Hgood & <-) Ht Het.
  destruct (forest_createLine doc0 _ F line (proj1 Hgood))
    as (d & E & Hnone & HF1).
  destruct (stands_appendTemp _ _ _ _ _ _ _ _ _ Hgood Hnone HF1 Ht Het)
    as (d' & E' & Hst).
  eauto 6.
Qed.

(** The parts of the state that hold no element. *)
Lemma stands_setScanOffset doc0 hs st v :
  stands doc0 hs st →
  stands doc0 (Dom.setScanOffset v hs) (setScanOffset v st).
Proof. intros (F & Hgood & <-). by exists F. Qed.

Lemma stands_scanOffset doc0 hs st :
  stands doc0 hs st → Dom.scanOffset hs = scanOffset st.
Proof. by intros (F & _ & <-). Qed.

Lemma stands_stack doc0 hs st i :
  stands doc0 hs st →
  stack st !! i
  = (λ fr, {| node := Dom.node fr;
              frame_el := default inhabitant (elementAt st (SFrame i));
              first := Dom.first fr |}) <$> Dom.stack hs !! i.
Proof.
  intros (F & _ & <-). cbn. rewrite list_lookup_fmap.
  by destruct (Dom.stack hs !! i).
Qed.

Lemma stands_length doc0 hs st :
  stands doc0 hs st → length (Dom.stack hs) = length (stack st).
Proof. intros (F & _ & <-). cbn. by rewrite length_fmap. Qed.

Lemma stands_removelast doc0 hs st :
  stands doc0 hs st →
  stands doc0 (Dom.setStack (removelast (Dom.stack hs)) hs)
         (setStack (removelast (stack st)) st).
Proof.
  intros (F & (HF & Hnd & Hin) & <-). exists F.
  assert (Hsub : ∀ r, r ∈ roots (Dom.setStack (removelast (Dom.stack hs)) hs)
                      → r ∈ roots hs).
  { intros r. unfold roots. cbn. rewrite !elem_of_cons.
    intros [?|[?|Hr]]; [auto..|]. right. right.
    destruct (Dom.stack hs) as [|w s] using rev_ind; [done|].
    rewrite removelast_last in Hr. rewrite fmap_app. apply elem_of_app.
    by left. }
  split; [split; [done|split]|].
  - unfold roots in *. cbn.
    apply NoDup_cons in Hnd as [Hel Hnd]. apply NoDup_cons in Hnd as [Hbl Hnd].
    assert (Hs : ∀ r, r ∈ Dom.ref <$> removelast (Dom.stack hs)
                      → r ∈ Dom.ref <$> Dom.stack hs).
    { intros r Hr. destruct (Dom.stack hs) as [|w s] using rev_ind; [done|].
      rewrite removelast_last in Hr. rewrite fmap_app. apply elem_of_app.
      by left. }
    apply NoDup_cons. split.
    { intros Hr. apply Hel. apply elem_of_cons in Hr as [Heq|Hr];
        [rewrite Heq; by left|right; auto]. }
    apply NoDup_cons. split; [intros Hr; apply Hbl; auto|].
    destruct (Dom.stack hs) as [|w s] using rev_ind; [done|].
    rewrite removelast_last. rewrite fmap_app in Hnd.
    by apply NoDup_app in Hnd as [? _].
  - auto.
  - unfold absState, setStack. cbn. f_equal.
    destruct (Dom.stack hs) as [|w s] using rev_ind; [done|].
    rewrite fmap_app. change (absFrame F <$> [w]) with [absFrame F w].
    by rewrite !removelast_last.
Qed.

(** [stack[i].first = false] *)
Lemma stands_setFirst doc0 hs st i :
  stands doc0 hs st →
  stands doc0
    (Dom.setStack
       (alter (λ fr, {| Dom.node := Dom.node fr; Dom.ref := Dom.ref fr;
                        Dom.first := false |}) i (Dom.stack hs)) hs)
    (setStack
       (alter (λ fr, {| node := node fr; frame_el := frame_el fr;
                        first := false |}) i (stack st)) st).
Proof.
  intros (F & (HF & Hnd & Hin) & <-). exists F.
  assert (Hrefs : Dom.ref <$> alter (λ fr, {| Dom.node := Dom.node fr;
                                              Dom.ref := Dom.ref fr;
                                              Dom.first := false |}) i
                                    (Dom.stack hs)
                  = Dom.ref <$> Dom.stack hs).
  { rewrite (list_fmap_alter Dom.ref _ id); [by rewrite list_alter_id|].
    apply Forall_forall. by intros. }
  split; [split; [done|split]|].
  - unfold roots. cbn. by rewrite Hrefs.
  - unfold roots. cbn. by rewrite Hrefs.
  - unfold absState, setStack. cbn. f_equal. apply list_fmap_alter.
    apply Forall_forall. by intros.
Qed.

(** [stack.push] with a new element. *)
Lemma stands_openNode doc0 hs st n :
  stands doc0 hs st → stands doc0 (Dom.openNode n hs) (openNode n st).
Proof.
  intros (F & (HF & Hnd & Hin) & <-).
  set (tag := match Dom.stack hs with [] => "div" | _ => "span" end).
  destruct (forest_createElement _ _ _ tag HF) as [Hnone HF1].
  exists (<[nextRef (Dom.document hs) := createElement tag]> F).
  unfold Dom.openNode. fold tag. cbn [Dom.createElement snd] in *.
  assert (Hfresh : ∀ r1, r1 ∈ roots hs → r1 ≠ nextRef (Dom.document hs)).
  { intros r1 [e1 He1]%Hin ->. congruence. }
  split; [split; [done|split]|].
  - unfold roots in *. cbn. rewrite fmap_app. cbn.
    change (Dom.el hs :: Dom.block hs
            :: (Dom.ref <$> Dom.stack hs) ++ [nextRef (Dom.document hs)])
      with ((Dom.el hs :: Dom.block hs :: (Dom.ref <$> Dom.stack hs))
            ++ [nextRef (Dom.document hs)]).
    apply NoDup_app. split; [done|]. split; [|apply NoDup_singleton].
    intros r Hr ->%list_elem_of_singleton. by apply (Hfresh _ Hr).
  - intros r. unfold roots. cbn. rewrite fmap_app. cbn.
    change (Dom.el hs :: Dom.block hs
            :: (Dom.ref <$> Dom.stack hs) ++ [nextRef (Dom.document hs)])
      with ((Dom.el hs :: Dom.block hs :: (Dom.ref <$> Dom.stack hs))
            ++ [nextRef (Dom.document hs)]).
    intros [Hr|Hr]%elem_of_app; [|apply list_elem_of_singleton in Hr as ->].
    + rewrite lookup_insert_ne by (symmetry; by apply Hfresh). by apply Hin.
    + rewrite lookup_insert_eq. eauto.
  - unfold absState, openNode, setStack. cbn. f_equal.
    + rewrite fmap_app. cbn. f_equal.
      * apply absStack_agree. intros fr Hfr. apply lookup_insert_ne.
        symmetry. apply Hfresh. right. right. apply list_elem_of_fmap. eauto.
      * unfold absFrame. cbn. rewrite lookup_total_insert_eq.
        subst tag. by destruct (Dom.stack hs).
    + apply total_agree, lookup_insert_ne. symmetry. apply Hfresh.
      right. by left.
    + apply total_agree, lookup_insert_ne. symmetry. apply Hfresh. by left.
Qed.

(** *** The operations of the walk on the document *)

Lemma stands_frame doc0 hs st i fr :
  stands doc0 hs st → stack st !! i = Some fr →
  ∃ hfr, Dom.stack hs !! i = Some hfr
         ∧ Dom.node hfr = node fr ∧ Dom.first hfr = first fr
         ∧ refAt hs (SFrame i) = Some (Dom.ref hfr)
         ∧ elementAt st (SFrame i) = Some (frame_el fr).
Proof.
  intros (F & _ & <-) Hfr. unfold absState in *. cbn in *.
  rewrite list_lookup_fmap in *.
  destruct (Dom.stack hs !! i) as [hfr|] eqn:E; [|done].
  injection Hfr as <-. by exists hfr.
Qed.

Lemma alter_withEl (l : list Frame) i fr f :
  l !! i = Some fr →
  alter (withEl (f (frame_el fr))) i l = alter (mapEl f) i l.
Proof.
  intros H. apply list_alter_ext; [|done]. intros x Hx.
  rewrite H in Hx. by injection Hx as <-.
Qed.

Lemma sim_updateEl doc0 i g f hs st st' :
  mirrors g f → stands doc0 hs st → updateEl i f st = Some st' →
  ∃ hs', Dom.updateEl i g hs = Some hs' ∧ stands doc0 hs' st'.
Proof.
  intros Hm Hst H. unfold updateEl, updateFrame in H.
  destruct (stack st !! i) as [fr|] eqn:Hfr; [|done]. injection H as <-.
  destruct (stands_frame _ _ _ _ _ Hst Hfr) as (hfr & Hh & _ & _ & Hr & He).
  destruct (stands_update _ _ _ _ _ g f _ Hst Hr Hm He) as (d' & Hd & Hst').
  exists (Dom.setDocument d' hs). split.
  - unfold Dom.updateEl. rewrite Hh. cbn. by rewrite Hd.
  - cbn [assign] in Hst'. by rewrite (alter_withEl _ _ _ f Hfr) in Hst'.
Qed.

Lemma sim_updateBlock doc0 g f hs st :
  mirrors g f → stands doc0 hs st →
  ∃ hs', Dom.updateBlock g hs = Some hs'
         ∧ stands doc0 hs' (setBlock (f (block st)) st).
Proof.
  intros Hm Hst.
  destruct (stands_update _ _ _ SBlock _ g f (block st) Hst eq_refl Hm eq_refl)
    as (d' & Hd & Hst').
  exists (Dom.setDocument d' hs). split; [|done].
  unfold Dom.updateBlock. by rewrite Hd.
Qed.

Lemma sim_styleIndex doc0 index hs st si :
  stands doc0 hs st → styleIndex index st = Some si →
  Dom.styleIndex index hs = Some si.
Proof.
  intros Hst H. destruct index as [|p]; [done|]. cbn in *.
  apply bind_Some in H as (pf & Hpf & H).
  destruct (stands_frame _ _ _ _ _ Hst Hpf) as (hpf & Hh & Hn & _).
  rewrite Hh. cbn. by rewrite Hn.
Qed.

Lemma stands_renew doc0 hs st index r tag :
  stands doc0 (rebind (SFrame index) r hs)
         (assign (SFrame index) (createElement tag) st) →
  stands doc0
    (Dom.setStack
       (alter (λ fr, {| Dom.node := Dom.node fr; Dom.ref := r;
                        Dom.first := false |}) index (Dom.stack hs)) hs)
    (setStack
       (alter (λ fr, {| node := node fr; frame_el := createElement tag;
                        first := false |}) index (stack st)) st).
Proof.
  intros H. apply (stands_setFirst _ _ _ index) in H. cbn in H.
  rewrite !list_alter_alter_eq in H. exact H.
Qed.

Lemma sim_pushElement doc0 index last hs st st' :
  stands doc0 hs st → pushElement index last st = Some st' →
  ∃ hs', Dom.pushElement index last hs = Some hs' ∧ stands doc0 hs' st'.
Proof.
  intros Hst H. unfold pushElement in H.
  apply bind_Some in H as (fr & Hfr & H).
  apply bind_Some in H as (si & Hsi & H).
  apply bind_Some in H as (st1 & H1 & H).
  apply bind_Some in H as (cur & Hcur & H).
  apply bind_Some in H as (st2 & H2 & H).
  destruct (stands_frame _ _ _ _ _ Hst Hfr) as (hfr & Hh & Hn & Hf & _ & _).
  pose proof (sim_styleIndex _ _ _ _ _ Hst Hsi) as Hsi'.
  destruct (sim_updateEl _ _ _ _ _ _ _
              (mirrors_addStyle (node fr) (first fr) last) Hst H1)
    as (hs1 & Hd1 & Hst1).
  destruct (stands_frame _ _ _ _ _ Hst1 Hcur)
    as (hcur & Hhc & _ & _ & Hrc & Hec).
  apply updateFrame_inv in H as [_ ->].
  unfold Dom.pushElement. rewrite Hh. cbn. rewrite Hsi'. cbn.
  rewrite Hn, Hf, Hd1. cbn [mbind option_bind].
  destruct index as [|p].
  - injection H2 as <-.
    destruct (stands_transfer _ _ _ (SFrame 0) SBlock _ _ _ _ "div" Hst1
                ltac:(done) Hrc eq_refl Hec eq_refl) as (d1 & Hd & Hst2).
    cbn [mbind option_bind]. rewrite Hhc. cbn [mbind option_bind].
    rewrite Hd. cbn.
    eexists. split; [reflexivity|].
    apply stands_renew in Hst2. exact Hst2.
  - unfold updateEl, updateFrame in H2.
    destruct (stack st1 !! p) as [pf|] eqn:Hpf; [|done]. injection H2 as <-.
    destruct (stands_frame _ _ _ _ _ Hst1 Hpf)
      as (hpf & Hhp & _ & _ & Hrp & Hep).
    destruct (stands_transfer _ _ _ (SFrame (S p)) (SFrame p) _ _ _ _ "span"
                Hst1 ltac:(intros [= ?]; lia) Hrc Hrp Hec Hep)
      as (d1 & Hd & Hst2).
    rewrite Hhp. cbn [fmap option_fmap option_map mbind option_bind].
    rewrite Hhc. cbn [mbind option_bind]. rewrite Hd. cbn.
    eexists. split; [reflexivity|].
    apply stands_renew in Hst2. cbn [assign] in Hst2.
    rewrite (alter_withEl _ _ _ (append (ElementNode (frame_el cur))) Hpf)
      in Hst2.
    exact Hst2.
Qed.

Lemma sim_pushBlock doc0 hs st :
  stands doc0 hs st →
  ∃ hs', Dom.pushBlock hs = Some hs' ∧ stands doc0 hs' (pushBlock st).
Proof.
  intros Hst.
  destruct (sim_updateBlock _ _ _ _ _
              (mirrors_classList_add (classNamePrefix +:+ "block")) Hst)
    as (hs1 & Hd1 & Hst1).
  destruct (stands_transfer _ _ _ SBlock SEl _ _ _ _ "div" Hst1
              ltac:(done) eq_refl eq_refl eq_refl eq_refl)
    as (d1 & Hd & Hst2).
  unfold Dom.pushBlock. rewrite Hd1. cbn [mbind option_bind].
  rewrite Hd. cbn. eexists. split; [reflexivity|]. exact Hst2.
Qed.

Lemma sim_appendLine doc0 line delimiter hs st st' :
  stands doc0 hs st → appendLine line delimiter st = Some st' →
  ∃ hs', Dom.appendLine line delimiter hs = Some hs' ∧ stands doc0 hs' st'.
Proof.
  intros Hst H. unfold appendLine, Dom.appendLine in *.
  destruct line as [|c line]; [injection H as <-; eauto|].
  rewrite (stands_length _ _ _ Hst).
  destruct delimiter.
  - unfold updateEl, updateFrame in H.
    destruct (stack st !! _) as [fr|] eqn:Hfr; [|done]. injection H as <-.
    destruct (stands_frame _ _ _ _ _ Hst Hfr) as (hfr & Hh & _ & _ & Hr & He).
    destruct (stands_appendDelimiter _ _ _ (c :: line) _ _ _ Hst Hr He)
      as (temp & d & d' & Hc & Hd & Hst').
    rewrite Hh. cbn [mbind option_bind]. rewrite Hc. rewrite Hd.
    cbn [mbind option_bind].
    eexists. split; [reflexivity|]. cbn [assign] in Hst'.
    by rewrite (alter_withEl _ _ _
                  (append (ElementNode (createDelimiter (c :: line)))) Hfr)
      in Hst'.
  - exact (sim_updateEl _ _ _ _ _ _ _ (mirrors_appendText (c :: line)) Hst H).
Qed.

Lemma sim_pushElements doc0 j hs st st' :
  stands doc0 hs st → pushElements j st = Some st' →
  ∃ hs', Dom.pushElements j hs = Some hs' ∧ stands doc0 hs' st'.
Proof.
  revert hs st. induction j as [|j IH]; intros hs st Hst H; cbn in *.
  - injection H as <-. eauto.
  - apply bind_Some in H as (st1 & H1 & H).
    destruct (sim_pushElement _ _ _ _ _ _ Hst H1) as (hs1 & -> & Hst1).
    cbn. eauto.
Qed.

Lemma sim_breakLine doc0 line delimiter hs st st' :
  stands doc0 hs st → breakLine line delimiter st = Some st' →
  ∃ hs', Dom.breakLine line delimiter hs = Some hs' ∧ stands doc0 hs' st'.
Proof.
  intros Hst H. unfold breakLine, Dom.breakLine in *.
  rewrite (stands_length _ _ _ Hst).
  apply bind_Some in H as (st1 & H1 & H).
  apply bind_Some in H as (st2 & H2 & H).
  apply bind_Some in H as (st3 & H3 & H).
  destruct (sim_pushElements _ _ _ _ _ Hst H1) as (hs1 & -> & Hst1). cbn.
  destruct (sim_updateEl _ _ _ _ _ _ _ (mirrors_appendText [ZWSP]) Hst1 H2)
    as (hs2 & -> & Hst2). cbn.
  destruct (sim_pushElement _ _ _ _ _ _ Hst2 H3) as (hs3 & -> & Hst3). cbn.
  exact (sim_appendLine _ _ _ _ _ _ Hst3 H).
Qed.

Lemma sim_breakLines doc0 lines delimiter hs st st' :
  stands doc0 hs st → breakLines lines delimiter st = Some st' →
  ∃ hs', Dom.breakLines lines delimiter hs = Some hs' ∧ stands doc0 hs' st'.
Proof.
  revert hs st. induction lines as [|line rest IH]; intros hs st Hst H;
    cbn in *.
  - injection H as <-. eauto.
  - apply bind_Some in H as (st1 & H1 & H).
    destruct (sim_breakLine _ _ _ _ _ _ Hst H1) as (hs1 & -> & Hst1).
    cbn. eauto.
Qed.

Lemma sim_lineBlock doc0 line hs st :
  stands doc0 hs st →
  ∃ hs', Dom.lineBlock line hs = Some hs'
         ∧ stands doc0 hs'
             (pushBlock (setBlock (append (ElementNode (createLine line))
                                          (block st)) st)).
Proof.
  intros Hst.
  destruct (stands_appendNewLine _ _ _ line SBlock _ _ Hst eq_refl eq_refl)
    as (temp & d & d' & Hc & Hd & Hst1).
  unfold Dom.lineBlock. rewrite Hc. rewrite Hd. cbn [mbind option_bind].
  exact (sim_pushBlock _ _ _ Hst1).
Qed.

Lemma sim_blockLines doc0 lines hs st :
  stands doc0 hs st →
  ∃ hs', Dom.blockLines lines hs = Some hs'
         ∧ stands doc0 hs' (blockLines lines st).
Proof.
  revert hs st. induction lines as [|line rest IH]; intros hs st Hst;
    [cbn; eauto|].
  destruct rest as [|line' rest]; [cbn; eauto|].
  destruct (sim_lineBlock _ line _ _ Hst) as (hs1 & H1 & Hst1).
  change (Dom.blockLines (line :: line' :: rest) hs)
    with (Dom.lineBlock line hs ≫= λ st0,
            Dom.blockLines (line' :: rest)
              (Dom.setScanOffset
                 (Dom.scanOffset st0 + (jslength line + 1)) st0)).
  rewrite H1. cbn [mbind option_bind].
  change (blockLines (line :: line' :: rest) st)
    with (blockLines (line' :: rest)
            (setScanOffset
               (scanOffset
                  (pushBlock
                     (setBlock (append (ElementNode (createLine line))
                                       (block st)) st))
                + (jslength line + 1))
               (pushBlock
                  (setBlock (append (ElementNode (createLine line))
                                    (block st)) st)))).
  apply IH. rewrite (stands_scanOffset _ _ _ Hst1).
  by apply stands_setScanOffset.
Qed.

Lemma stands_nil doc0 hs st :
  stands doc0 hs st → stack st = [] ↔ Dom.stack hs = [].
Proof.
  intros Hst. pose proof (stands_length _ _ _ Hst) as Hl.
  split; intros E; rewrite E in Hl; cbn in Hl.
  - by apply nil_length_inv.
  - symmetry in Hl. by apply nil_length_inv.
Qed.

Lemma sim_addText doc0 t delimiter hs st st' :
  stands doc0 hs st → addText t delimiter st = Some st' →
  ∃ hs', Dom.addText t delimiter hs = Some hs' ∧ stands doc0 hs' st'.
Proof.
  intros Hst H. unfold addText, Dom.addText in *.
  pose proof (stands_nil _ _ _ Hst) as Hnil.
  destruct (stack st) as [|fr rest] eqn:Hs.
  - rewrite (proj1 Hnil eq_refl). injection H as <-.
    by apply sim_blockLines.
  - destruct (Dom.stack hs) as [|hfr hrest] eqn:Hhs;
      [by pose proof (proj2 Hnil eq_refl)|].
    apply bind_Some in H as (st1 & H1 & H).
    apply bind_Some in H as (st2 & H2 & [= <-]).
    assert (∃ hs1,
              match split LF t with
              | line :: _ => Dom.appendLine line delimiter hs
              | [] => Some hs
              end = Some hs1 ∧ stands doc0 hs1 st1) as (hs1 & -> & Hst1).
    { destruct (split LF t) as [|line ?].
      - injection H1 as <-. eauto.
      - exact (sim_appendLine _ _ _ _ _ _ Hst H1). }
    cbn.
    destruct (sim_breakLines _ _ _ _ _ _ Hst1 H2) as (hs2 & -> & Hst2).
    cbn. eexists. split; [reflexivity|].
    rewrite (stands_scanOffset _ _ _ Hst2). by apply stands_setScanOffset.
Qed.

Lemma sim_closeNode doc0 i hs st st' :
  stands doc0 hs st → closeNode i st = Some st' →
  ∃ hs', Dom.closeNode i hs = Some hs' ∧ stands doc0 hs' st'.
Proof.
  intros Hst H. unfold closeNode, Dom.closeNode in *.
  rewrite (stands_length _ _ _ Hst).
  apply bind_Some in H as (st1 & H1 & [= <-]).
  assert (∃ hs1,
            (if decide (1 < length (stack st))%nat then
               Dom.pushElement (length (stack st) - 1)%nat true hs
             else
               Dom.updateEl 0 (appendChild (TextChild [ZWSP])) hs ≫= λ st0,
               Dom.pushElement 0 true st0 ≫= λ st0,
               Dom.updateBlock
                 (onShell (setAttribute "index" (numberToString i))) st0
               ≫= λ st0,
               Dom.pushBlock st0 ≫= λ st0,
               Some (Dom.setScanOffset (Dom.scanOffset st0 + 1) st0))
            = Some hs1 ∧ stands doc0 hs1 st1) as (hs1 & -> & Hst1).
  { destruct (decide (1 < length (stack st))%nat).
    - exact (sim_pushElement _ _ _ _ _ _ Hst H1).
    - apply bind_Some in H1 as (st2 & H2 & H1).
      apply bind_Some in H1 as (st3 & H3 & [= <-]).
      destruct (sim_updateEl _ _ _ _ _ _ _ (mirrors_appendText [ZWSP]) Hst H2)
        as (hs2 & -> & Hst2). cbn.
      destruct (sim_pushElement _ _ _ _ _ _ Hst2 H3) as (hs3 & -> & Hst3).
      cbn.
      destruct (sim_updateBlock _ _ _ _ _
                  (mirrors_setAttribute "index" (numberToString i)) Hst3)
        as (hs4 & -> & Hst4). cbn.
      destruct (sim_pushBlock _ _ _ Hst4) as (hs5 & -> & Hst5). cbn.
      eexists. split; [reflexivity|].
      rewrite (stands_scanOffset _ _ _ Hst5). by apply stands_setScanOffset. }
  cbn. eexists. split; [reflexivity|]. by apply stands_removelast.
Qed.

Lemma sim_forNodes doc0 (dbody : MdastNode → nat → Dom.State → option Dom.State)
      (body : MdastNode → nat → State → option State) nodes :
  Forall (λ n, ∀ i hs st st',
             stands doc0 hs st → body n i st = Some st' →
             ∃ hs', dbody n i hs = Some hs' ∧ stands doc0 hs' st') nodes →
  ∀ i hs st st',
    stands doc0 hs st → forNodes body nodes i st = Some st' →
    ∃ hs', Dom.forNodes dbody nodes i hs = Some hs' ∧ stands doc0 hs' st'.
Proof.
  induction 1 as [|n nodes Hn _ IH]; intros i hs st st' Hst H; cbn in *.
  - injection H as <-. eauto.
  - apply bind_Some in H as (st1 & H1 & H).
    destruct (Hn _ _ _ _ Hst H1) as (hs1 & -> & Hst1). cbn. eauto.
Qed.

Lemma sim_visit doc0 sourceCode n :
  ∀ i hs st st',
    stands doc0 hs st → visit sourceCode n i st = Some st' →
    ∃ hs', Dom.visit sourceCode n i hs = Some hs' ∧ stands doc0 hs' st'.
Proof.
  induction n as [t d pos|t d pos nodes IH] using MdastNode_nested_ind;
    intros i hs st st' Hst H; cbn [visit Dom.visit] in *;
    rewrite (stands_scanOffset _ _ _ Hst);
    (destruct (startOffsetOf _) as [s|]; [|injection H as <-; eauto]);
    (destruct (endOffsetOf _) as [e|]; [|injection H as <-; eauto]);
    (destruct (_ >=? e); [injection H as <-; eauto|]);
    apply bind_Some in H as (st1 & H1 & H);
    apply bind_Some in H as (st2 & H2 & H);
    destruct (sim_addText _ _ _ _ _ _ Hst H1) as (hs1 & -> & Hst1);
    cbn [mbind option_bind].
  - pose proof (stands_openNode _ _ _ (MkNode t d pos None) Hst1) as Hst1'.
    rewrite <- (stands_scanOffset _ _ _ Hst1') in H2.
    destruct (sim_addText _ _ _ _ _ _ Hst1' H2) as (hs2 & E2 & Hst2).
    cbn in E2 |- *. rewrite E2. cbn.
    exact (sim_closeNode _ _ _ _ _ Hst2 H).
  - pose proof (stands_openNode _ _ _ (MkNode t d pos (Some nodes)) Hst1)
      as Hst1'.
    apply bind_Some in H2 as (st3 & H3 & H2).
    destruct (sim_forNodes _ _ _ _ IH _ _ _ _ Hst1' H3) as (hs3 & E3 & Hst3).
    rewrite E3. cbn [mbind option_bind].
    rewrite <- (stands_scanOffset _ _ _ Hst3) in H2.
    destruct (sim_addText _ _ _ _ _ _ Hst3 H2) as (hs2 & -> & Hst2).
    cbn [mbind option_bind].
    exact (sim_closeNode _ _ _ _ _ Hst2 H).
Qed.

Lemma sim_getChildren doc0 sourceCode nodes to hs st st' :
  stands doc0 hs st → getChildren sourceCode nodes to st = Some st' →
  ∃ hs', Dom.getChildren sourceCode nodes to hs = Some hs'
         ∧ stands doc0 hs' st'.
Proof.
  intros Hst H. unfold getChildren, Dom.getChildren in *.
  apply bind_Some in H as (st1 & H1 & H).
  destruct (sim_forNodes doc0 (Dom.visit sourceCode) (visit sourceCode) nodes)
    with (i := O) (hs := hs) (st := st) (st' := st1)
    as (hs1 & -> & Hst1); [|done|done|].
  { apply Forall_forall. intros n _. apply sim_visit. }
  cbn. rewrite (stands_scanOffset _ _ _ Hst1).
  exact (sim_addText _ _ _ _ _ _ Hst1 H).
Qed.

(** *** One call on a document *)

Lemma forest_start doc0 : wellFormed doc0 → forest doc0 doc0 ∅.
Proof.
  intros H. split; [done|]. split; [by split|].
  intros r e Hr. by rewrite lookup_empty in Hr.
Qed.

Lemma stands_initialState doc0 :
  wellFormed doc0 → stands doc0 (Dom.initialState doc0) initialState.
Proof.
  intros Hwf. pose proof (forest_start _ Hwf) as HF.
  destruct (forest_createElement _ _ _ "div" HF) as [_ HF1].
  destruct (forest_createElement _ _ _ "div" HF1) as [_ HF2].
  cbn in HF2. eexists. split; [split; [exact HF2|split]|].
  - unfold roots. cbn. apply NoDup_cons. split.
    + intros Hr. apply list_elem_of_singleton in Hr. lia.
    + apply NoDup_singleton.
  - intros r. unfold roots. cbn. intros [->|Hr]%elem_of_cons.
    + rewrite lookup_insert_eq. eauto.
    + apply list_elem_of_singleton in Hr as ->.
      rewrite lookup_insert_ne by lia. rewrite lookup_insert_eq. eauto.
  - unfold absState, initialState. cbn. f_equal.
    + rewrite lookup_total_insert_ne by lia.
      by rewrite lookup_total_insert_eq.
    + by rewrite lookup_total_insert_eq.
Qed.

Lemma sim_editorRenderState doc0 sourceCode nodes st :
  wellFormed doc0 → editorRenderState sourceCode nodes = Some st →
  ∃ hs, Dom.editorRenderState sourceCode nodes doc0 = Some hs
        ∧ stands doc0 hs st.
Proof.
  intros Hwf H. unfold editorRenderState, Dom.editorRenderState in *.
  apply bind_Some in H as (st1 & H1 & [= <-]).
  destruct (sim_getChildren _ _ _ _ _ _ _ (stands_initialState _ Hwf) H1)
    as (hs1 & -> & Hst1).
  cbn. rewrite (stands_scanOffset _ _ _ Hst1).
  destruct (scanOffset st1 <=? jslength sourceCode); [|eauto].
  by apply sim_lineBlock.
Qed.

(** The elements of a document stay below their references when the
    document keeps them. *)
Lemma reads_keeps doc doc' e :
  wellFormed doc → keeps doc doc' →
  ∀ r, reads (cells doc) r e → reads (cells doc') r e.
Proof.
  intros Hwf [_ Hk]. induction e as [t cl a kids IH] using Element_nested_ind.
  intros r. rewrite !reads_unfold. intros (c & Hc & Ht & Hcl & Ha & Hkids).
  destruct (Hwf _ _ Hc) as [Hr Hch].
  exists c. split; [rewrite <- Hc; by apply Hk|]. do 3 (split; [done|]).
  clear Hc. revert Hch Hkids. generalize (cellChildren c). intros cs Hch Hkids.
  induction Hkids as [|ch k cs ks Hck _ IHk]; [constructor|].
  apply Forall_cons in IH as [IHhd IHtl]. constructor.
  - destruct ch, k; try done. cbn in *. by apply IHhd.
  - apply IHk; [done|]. intros r' Hr'. apply Hch. by right.
Qed.

(** A call returns, in every document: the element that it returns is a
    new one, the tree below it is the tree of the walk, and the elements
    that the document had are as they were. *)
Lemma editorRender_on_document sourceCode nodes doc root :
  wellFormed doc → editorRender sourceCode nodes = Some root →
  ∃ r d, Dom.editorRender sourceCode nodes doc = Some (r, d)
         ∧ reads (cells d) r root
         ∧ wellFormed d ∧ keeps doc d
         ∧ (nextRef doc ≤ r < nextRef d)%nat.
Proof.
  intros Hwf H. unfold editorRender, Dom.editorRender in *.
  apply bind_Some in H as (st & H & [= <-]).
  destruct (sim_editorRenderState _ _ _ _ Hwf H)
    as (hs & -> & F & ((Hw & Hk & HF) & _ & Hin) & <-).
  destruct (Hin (Dom.el hs)) as [e He]; [by left|].
  destruct (HF _ _ He) as (Hnew & Hreads & _).
  exists (Dom.el hs), (Dom.document hs). cbn.
  rewrite (lookup_total_correct _ _ _ He).
  do 5 (split; [done|]).
  destruct (reads_in_document _ _ _ Hreads) as [cell Hcell].
  by destruct (Hw _ _ Hcell).
Qed.

(** *** The call stack *)

Lemma forNodes_sound (body1 body2 : MdastNode → nat → Dom.State
                                    → option Dom.State) nodes :
  Forall (λ n, ∀ i hs hs', body1 n i hs = Some hs' → body2 n i hs = Some hs')
         nodes →
  ∀ i hs hs', Dom.forNodes body1 nodes i hs = Some hs' →
              Dom.forNodes body2 nodes i hs = Some hs'.
Proof.
  induction 1 as [|n rest Hn _ IH]; intros i hs hs' H; cbn in *; [done|].
  apply bind_Some in H as (hs1 & H1 & H).
  rewrite (Hn _ _ _ H1). cbn. by apply IH.
Qed.

Lemma forNodes_same (body1 body2 : MdastNode → nat → Dom.State
                                   → option Dom.State) nodes :
  Forall (λ n, ∀ i hs, body1 n i hs = body2 n i hs) nodes →
  ∀ i hs, Dom.forNodes body1 nodes i hs = Dom.forNodes body2 nodes i hs.
Proof.
  induction 1 as [|n rest Hn _ IH]; intros i hs; cbn; [done|].
  rewrite Hn. destruct (body2 n i hs) as [hs1|]; cbn; [apply IH|done].
Qed.

(** A call that returns on a bounded stack returns the same on every
    stack that holds the calls. *)
Lemma visitWithin_sound sourceCode n :
  ∀ fuel i hs hs',
    Dom.visitWithin sourceCode fuel n i hs = Some hs' →
    Dom.visit sourceCode n i hs = Some hs'.
Proof.
  induction n as [t d pos|t d pos nodes IH] using MdastNode_nested_ind;
    intros fuel i hs hs' H; [by destruct fuel|].
  cbn [Dom.visit Dom.visitWithin] in *.
  destruct (startOffsetOf _); [|done]. destruct (endOffsetOf _); [|done].
  cbv zeta in *. destruct (_ >=? _); [done|].
  apply bind_Some in H as (hs1 & -> & H). cbn [mbind option_bind].
  apply bind_Some in H as (hs2 & H2 & H).
  destruct fuel as [|fuel]; [done|].
  apply bind_Some in H2 as (hs3 & H3 & H2).
  rewrite (forNodes_sound (Dom.visitWithin sourceCode fuel)
             (Dom.visit sourceCode) nodes) with (hs' := hs3); [|  |done].
  - cbn [mbind option_bind]. rewrite H2. cbn [mbind option_bind]. exact H.
  - apply Forall_forall. rewrite Forall_forall in IH.
    intros m Hm j s s'. by apply IH.
Qed.

Lemma visitWithin_fits sourceCode n :
  ∀ fuel, fits fuel n = true →
  ∀ i hs, Dom.visitWithin sourceCode fuel n i hs
          = Dom.visit sourceCode n i hs.
Proof.
  induction n as [t d pos|t d pos nodes IH] using MdastNode_nested_ind;
    intros fuel Hfit i hs; [by destruct fuel|].
  destruct fuel as [|fuel]; [done|].
  cbn [Dom.visit Dom.visitWithin].
  assert (E : ∀ j s, Dom.forNodes (Dom.visitWithin sourceCode fuel) nodes j s
                     = Dom.forNodes (Dom.visit sourceCode) nodes j s).
  { apply forNodes_same. rewrite Forall_forall in IH.
    apply Forall_forall. intros m Hm. apply IH; [done|].
    cbn [fits] in Hfit. rewrite forallb_forall in Hfit. apply Hfit.
    by apply list_elem_of_In. }
  destruct (startOffsetOf _); [|done]. destruct (endOffsetOf _); [|done].
  cbv zeta. destruct (_ >=? _); [done|].
  destruct (Dom.addText _ true hs) as [hs1|]; [|done].
  cbn [mbind option_bind]. by rewrite E.
Qed.

Lemma editorRenderWithin_sound sourceCode limit nodes doc x :
  Dom.editorRenderWithin sourceCode limit nodes doc = Some x →
  Dom.editorRender sourceCode nodes doc = Some x.
Proof.
  unfold Dom.editorRenderWithin, Dom.editorRenderStateWithin,
    Dom.editorRender, Dom.editorRenderState, Dom.getChildrenWithin,
    Dom.getChildren.
  destruct limit as [|fuel]; [done|]. intros H.
  apply bind_Some in H as (hs & H & Hx).
  apply bind_Some in H as (hs1 & H1 & H).
  apply bind_Some in H1 as (hs2 & H2 & H1).
  rewrite (forNodes_sound (Dom.visitWithin sourceCode fuel)
             (Dom.visit sourceCode) nodes) with (hs' := hs2); [| |done].
  - cbn [mbind option_bind]. rewrite H1. cbn [mbind option_bind].
    rewrite H. exact Hx.
  - apply Forall_forall. intros m _ j s s'. apply visitWithin_sound.
Qed.

Lemma editorRenderWithin_fits sourceCode limit nodes doc :
  fitsAll limit nodes = true →
  Dom.editorRenderWithin sourceCode limit nodes doc
  = Dom.editorRender sourceCode nodes doc.
Proof.
  destruct limit as [|fuel]; [done|]. intros Hfit.
  unfold Dom.editorRenderWithin, Dom.editorRenderStateWithin,
    Dom.editorRender, Dom.editorRenderState, Dom.getChildrenWithin,
    Dom.getChildren.
  rewrite (forNodes_same (Dom.visitWithin sourceCode fuel)
             (Dom.visit sourceCode) nodes); [done|].
  apply Forall_forall. intros m Hm i s. apply visitWithin_fits.
  cbn [fitsAll] in Hfit. rewrite forallb_forall in Hfit. apply Hfit.
  by apply list_elem_of_In.
Qed.

Lemma wellFormed_new : wellFormed newDocument.
Proof. intros r cell Hr. cbn in Hr. by rewrite lookup_empty in Hr. Qed.

Lemma wellFormed_createElement tag doc :
  wellFormed doc → wellFormed (Dom.createElement tag doc).2.
Proof.
  intros Hwf.
  destruct (forest_createElement doc doc ∅ tag (forest_start _ Hwf))
    as [_ [H _]].
  exact H.
Qed.

Lemma keeps_refl doc : keeps doc doc.
Proof. by split. Qed.

(** C9. Two calls of [editorRender] with the same source text, and hence
    with the same tree [nodes] from the parser, return structurally
    identical trees, whatever the document holds that creates their
    elements and whatever room the call stack has.  In any two documents
    [doc1] and [doc2], each call returns when its stack holds the depth of
    the tree.  When both calls return, the trees below the two elements
    that they return are one and the same tree [root], the tree of the
    walk: the same shape, tags, classes, attributes and text children.
    Each call leaves the elements that its document had as they were, and
    returns an element that the call created.  When the second call is
    made in a document that keeps the elements of the first call, such as
    the document that the first call left, it returns another element, and
    the tree below the element of the first call is still [root]. *)
Theorem editorRender_deterministic :
  ∀ (sourceCode : jsstr) (nodes : list MdastNode) (doc1 doc2 : Document)
    (limit1 limit2 : nat),
    wellFormed doc1 → wellFormed doc2 →
    (fitsAll limit1 nodes = true →
     is_Some (Dom.editorRenderWithin sourceCode limit1 nodes doc1))
    ∧ (fitsAll limit2 nodes = true →
       is_Some (Dom.editorRenderWithin sourceCode limit2 nodes doc2))
    ∧ ∀ r1 d1 r2 d2,
        Dom.editorRenderWithin sourceCode limit1 nodes doc1 = Some (r1, d1) →
        Dom.editorRenderWithin sourceCode limit2 nodes doc2 = Some (r2, d2) →
        ∃ root,
          editorRender sourceCode nodes = Some root
          ∧ reads (cells d1) r1 root ∧ reads (cells d2) r2 root
          ∧ (∀ a b, reads (cells d1) r1 a → reads (cells d2) r2 b →
                    a = b ∧ sameStructure a b = true)
          ∧ wellFormed d1 ∧ wellFormed d2
          ∧ keeps doc1 d1 ∧ keeps doc2 d2
          ∧ (nextRef doc1 ≤ r1)%nat ∧ (nextRef doc2 ≤ r2)%nat
          ∧ (keeps d1 doc2 → r2 ≠ r1 ∧ reads (cells d2) r1 root).
Proof.
  intros sourceCode nodes doc1 doc2 limit1 limit2 Hwf1 Hwf2.
  destruct (editorRender_blocks sourceCode nodes) as (root & E & _).
  destruct (editorRender_on_document _ _ _ _ Hwf1 E)
    as (r1' & d1' & E1 & Hr1 & Hw1 & Hk1 & Hn1 & Hb1).
  destruct (editorRender_on_document _ _ _ _ Hwf2 E)
    as (r2' & d2' & E2 & Hr2 & Hw2 & Hk2 & Hn2 & Hb2).
  split; [|split].
  - intros Hfit. rewrite (editorRenderWithin_fits _ _ _ _ Hfit), E1. eauto.
  - intros Hfit. rewrite (editorRenderWithin_fits _ _ _ _ Hfit), E2. eauto.
  - intros r1 d1 r2 d2 C1 C2.
    apply editorRenderWithin_sound in C1, C2.
    rewrite E1 in C1. injection C1 as <- <-.
    rewrite E2 in C2. injection C2 as <- <-.
    exists root. do 3 (split; [done|]). split.
    { intros a b Ha Hb.
      rewrite (reads_inj _ _ _ _ Hr1 Ha), (reads_inj _ _ _ _ Hr2 Hb).
      split; [done|apply sameStructure_refl]. }
    do 6 (split; [done|]).
    intros Hk. split; [destruct Hk as [Hle _]; lia|].
    apply (reads_keeps doc2 d2' root Hwf2 Hk2).
    by apply (reads_keeps d1' doc2 root Hw1 Hk).
Qed.

Lemma editorRender_deterministic_witness :
  ∃ r1 d1 r2 d2,
    Dom.editorRenderWithin sourceD 4 (treeD blockquote) documentBody
    = Some (r1, d1)
    ∧ Dom.editorRenderWithin sourceD 7 (treeD blockquote) d1 = Some (r2, d2)
    ∧ r2 ≠ r1
    ∧ reads (cells d2) r1 (outputD blockquote)
    ∧ reads (cells d2) r2 (outputD blockquote)
    ∧ cells d2 !! 0%nat = cells documentBody !! 0%nat.
Proof.
  pose proof (wellFormed_createElement "body" _ wellFormed_new) as Hwf.
  destruct (editorRender_deterministic sourceD (treeD blockquote)
              documentBody documentBody 4 4 Hwf Hwf) as (Hret & _ & Hsame).
  destruct (Hret eq_refl) as [[r1 d1] E1].
  destruct (Hsame r1 d1 r1 d1 E1 E1) as (_ & _ & _ & _ & _ & Hw1 & _).
  destruct (editorRender_deterministic sourceD (treeD blockquote)
              documentBody d1 4 7 Hwf Hw1) as (_ & Hret2 & Hsame2).
  destruct (Hret2 eq_refl) as [[r2 d2] E2].
  destruct (Hsame2 r1 d1 r2 d2 E1 E2)
    as (root & E & _ & Hr2 & _ & _ & _ & [Hle Hk1] & [_ Hk2] & _ & _ & Hseq).
  destruct (Hseq (keeps_refl d1)) as [Hne Hr1].
  assert (editorRender sourceD (treeD blockquote)
          = Some (outputD blockquote)) as E' by (by vm_compute).
  rewrite E' in E. injection E as <-.
  exists r1, d1, r2, d2. do 5 (split; [done|]).
  cbn in Hle. rewrite Hk2 by lia. apply Hk1. cbn. lia.
Defined.
